(** * Damonenheil: the ray caster, the depth buffer and the billboard sprites

    A shallow embedding of [js/level.js], [js/ray.js], [js/Sprite.js],
    [js/utils.js] and [js/config.js], and the properties of the rendering
    core proved over it; then of [js/player.js], [js/enemyProjectile.js],
    [js/risingSpriteEffect.js], the movement and the sight of the enemy of
    [js/enemyAI.js] and the choice of the places to start from of
    [js/main.js], with the properties of the game state proved over them.

    - JavaScript numbers are exact rationals extended with [+Infinity],
      [-Infinity] and [NaN].  Every finite double is a rational, so the
      carrier is faithful; the sign of zero is not modelled (a zero divisor
      is taken as [+0]), and the arithmetic is exact but for the one sum of
      [normalizeAngle], which is rounded to the nearest double as the code
      rounds it: there the rounding decides whether the result stays below
      the full turn.
    - The functions of [Math] whose values are not rational are an
      interface, [MathLib]; a theorem names the laws it needs of them.
    - A method is a function from the state it reads to an [outcome] with
      the state it leaves: the object itself, the depth buffer, the calls
      made on the canvas.  Loops take the number of turns they may run.
    - The depth buffer, an array written by index, is a finite map from
      integers to numbers, and so is the array of the rays of the player.
    - [Date.now()] and [Math.random()] are inputs of the functions that
      call them.  A projectile, an effect and an enemy hold their sprite;
      that the same sprite is also listed in the array [sprites] is not
      modelled, and no property here speaks of that array and of such a
      sprite together. *)

From stdpp Require Import gmap strings.
From Stdlib Require Import Zdivisibility QArith Qcanon Qround Qabs Qpower Lqa.

Local Open Scope Z_scope.

(** ** Outcomes of running JavaScript code *)

(** A call returns, throws (the only exception the modelled code can raise
    is a [TypeError] on reading a property of [undefined]), or has not
    finished after the number of loop iterations it was allowed. *)
Inductive outcome (A : Type) : Type :=
  | Ret (a : A)
  | Throw
  | OutOfFuel.
Arguments Ret {A} a.
Arguments Throw {A}.
Arguments OutOfFuel {A}.

Definition obind {A B : Type} (m : outcome A) (k : A -> outcome B) : outcome B :=
  match m with
  | Ret a => k a
  | Throw => Throw
  | OutOfFuel => OutOfFuel
  end.

Notation "'let*' x ':=' m 'in' k" := (obind m (fun x => k))
  (at level 10, x pattern, m at level 100, k at level 200).

(** [while fuel body s] runs a loop whose body either continues with a new
    state ([inl]) or leaves the loop with a result ([inr]); [fuel] bounds the
    number of times the body is run. *)
Fixpoint while {S R : Type} (fuel : nat) (body : S -> outcome (S + R)) (s : S)
  : outcome R :=
  match fuel with
  | O => OutOfFuel
  | Datatypes.S fuel' =>
      let* r := body s in
      match r with
      | inl s' => while fuel' body s'
      | inr res => Ret res
      end
  end.

(** ** Numbers *)

Module Num.

Inductive num : Type :=
  | Finite (q : Q)
  | PosInf
  | NegInf
  | NaN.

(** Finite results are kept in lowest terms, so that equal numbers are equal
    terms. *)
Definition fin (q : Q) : num := Finite (Qred q).
Definition ofZ (z : Z) : num := Finite (inject_Z z).

Definition zero : num := ofZ 0.
Definition one : num := ofZ 1.

(** [Number.MAX_SAFE_INTEGER] is [2^53 - 1]. *)
Definition MAX_SAFE_INTEGER : num := ofZ 9007199254740991.

Definition is_finite (x : num) : bool :=
  match x with Finite _ => true | _ => false end.

Definition neg (x : num) : num :=
  match x with
  | Finite a => fin (- a)
  | PosInf => NegInf
  | NegInf => PosInf
  | NaN => NaN
  end.

Definition add (x y : num) : num :=
  match x, y with
  | NaN, _ | _, NaN => NaN
  | Finite a, Finite b => fin (a + b)
  | PosInf, NegInf | NegInf, PosInf => NaN
  | PosInf, _ | _, PosInf => PosInf
  | NegInf, _ | _, NegInf => NegInf
  end.

Definition sub (x y : num) : num := add x (neg y).

(** An infinity scaled by a finite factor: the sign follows the factor, and
    a zero factor gives [NaN]. *)
Definition scale_inf (pos : bool) (b : Q) : num :=
  match (b ?= 0)%Q with
  | Gt => if pos then PosInf else NegInf
  | Lt => if pos then NegInf else PosInf
  | Eq => NaN
  end.

Definition mul (x y : num) : num :=
  match x, y with
  | NaN, _ | _, NaN => NaN
  | Finite a, Finite b => fin (a * b)
  | PosInf, Finite b | Finite b, PosInf => scale_inf true b
  | NegInf, Finite b | Finite b, NegInf => scale_inf false b
  | PosInf, PosInf | NegInf, NegInf => PosInf
  | PosInf, NegInf | NegInf, PosInf => NegInf
  end.

Definition div (x y : num) : num :=
  match x, y with
  | NaN, _ | _, NaN => NaN
  | Finite a, Finite b =>
      match (b ?= 0)%Q with
      | Eq => match (a ?= 0)%Q with
              | Gt => PosInf
              | Lt => NegInf
              | Eq => NaN
              end
      | _ => fin (a / b)
      end
  | Finite _, _ => zero
  | PosInf, Finite b => if Qle_bool 0 b then PosInf else NegInf
  | NegInf, Finite b => if Qle_bool 0 b then NegInf else PosInf
  | _, _ => NaN
  end.

(** The comparisons [<], [<=], [>], [>=], [===] and [!==]; every ordered
    comparison with [NaN] is false. *)
Definition lt (x y : num) : bool :=
  match x, y with
  | NaN, _ | _, NaN => false
  | Finite a, Finite b => negb (Qle_bool b a)
  | NegInf, NegInf => false
  | NegInf, _ => true
  | _, PosInf => match x with PosInf => false | _ => true end
  | _, _ => false
  end.

Definition le (x y : num) : bool :=
  match x, y with
  | NaN, _ | _, NaN => false
  | Finite a, Finite b => Qle_bool a b
  | NegInf, _ => true
  | _, PosInf => true
  | _, _ => false
  end.

Definition gt (x y : num) : bool := lt y x.
Definition ge (x y : num) : bool := le y x.

Definition eqb (x y : num) : bool :=
  match x, y with
  | Finite a, Finite b => Qeq_bool a b
  | PosInf, PosInf | NegInf, NegInf => true
  | _, _ => false
  end.

Definition neqb (x y : num) : bool := negb (eqb x y).

(** [Math.floor], [Math.abs], [Math.max] and [Math.min] are exact. *)
Definition floor (x : num) : num :=
  match x with
  | Finite a => ofZ (Qfloor a)
  | _ => x
  end.

Definition abs (x : num) : num :=
  match x with
  | Finite a => fin (Qabs a)
  | PosInf | NegInf => PosInf
  | NaN => NaN
  end.

Definition max (x y : num) : num :=
  match x, y with
  | NaN, _ | _, NaN => NaN
  | _, _ => if lt x y then y else x
  end.

Definition min (x y : num) : num :=
  match x, y with
  | NaN, _ | _, NaN => NaN
  | _, _ => if lt y x then y else x
  end.

(** The remainder [x % y] takes the sign of the dividend:
    [x - y * trunc (x / y)]. *)
Definition Qtrunc (a : Q) : Z := Z.quot (Qnum a) (Zpos (Qden a)).

Definition rem (x y : num) : num :=
  match x, y with
  | Finite a, Finite b =>
      match (b ?= 0)%Q with
      | Eq => NaN
      | _ => fin (a - b * inject_Z (Qtrunc (a / b)))
      end
  | Finite a, PosInf | Finite a, NegInf => x
  | _, _ => NaN
  end.

(** The array index a number denotes, if it is a non-negative integer. *)
Definition index_of (x : num) : option nat :=
  match x with
  | Finite a =>
      let r := Qred a in
      if Pos.eqb (Qden r) 1 && (0 <=? Qnum r) then Some (Z.to_nat (Qnum r))
      else None
  | _ => None
  end.

End Num.
Export Num.

Declare Scope num_scope.
Delimit Scope num_scope with num.
Bind Scope num_scope with num.
Infix "+" := Num.add : num_scope.
Infix "-" := Num.sub : num_scope.
Infix "*" := Num.mul : num_scope.
Infix "/" := Num.div : num_scope.
Infix "%%" := Num.rem (at level 40, left associativity) : num_scope.
Infix "<?" := Num.lt : num_scope.
Infix "<=?" := Num.le : num_scope.
Infix ">?" := Num.gt : num_scope.
Infix ">=?" := Num.ge : num_scope.
Infix "===" := Num.eqb (at level 70, no associativity) : num_scope.
Infix "!==" := Num.neqb (at level 70, no associativity) : num_scope.
Notation "- x" := (Num.neg x) : num_scope.

(** A value read from an array or a property: [undefined] or a number. *)
Inductive jsval : Type :=
  | Undefined
  | Num (n : num).

(** [v !== 0] for a value [v]. *)
Definition not_zero (v : jsval) : bool :=
  match v with
  | Undefined => true
  | Num n => (n !== zero)%num
  end.

(** The implicit conversion of a value to a number. *)
Definition to_number (v : jsval) : num :=
  match v with
  | Undefined => NaN
  | Num n => n
  end.

(** [a[i]] on an array [a]: [None] stands for [undefined]. *)
Definition array_get {A : Type} (a : list A) (i : num) : option A :=
  match index_of i with
  | Some n => a !! n
  | None => None
  end.

(** ** Configuration ([js/config.js]) *)

Definition canvasWidth : num := ofZ 500.
Definition canvasHeight : num := ofZ 500.
Definition tileSize : num := ofZ 50.

(** [Math.PI], the double nearest to the real number: [884279719003555 / 2^48]. *)
Definition Math_PI : num := Finite (884279719003555 # 281474976710656).

(** [degreesToRadians] of [js/utils.js]. *)
Definition degreesToRadians (angleInDegrees : num) : num :=
  (angleInDegrees * (Math_PI / ofZ 180))%num.

Definition FOV_DEGREES : num := ofZ 60.
Definition FOV_RADIANS : num := degreesToRadians FOV_DEGREES.
Definition FOV_RADIANS_HALF : num := degreesToRadians (FOV_DEGREES / ofZ 2)%num.

(** The lighting parameters; the renderers fall back to defaults when a
    constant is not defined, which [None] stands for. *)
Record LightConfig : Type := {
  PLAYER_LIGHT_RADIUS : option num;
  AMBIENT_LIGHT_LEVEL : option num;
  LIGHT_FALLOFF_SHARPNESS : option num
}.

Definition configLight : LightConfig := {|
  PLAYER_LIGHT_RADIUS := Some (ofZ 150);
  AMBIENT_LIGHT_LEVEL := Some (Finite (1 # 100));
  LIGHT_FALLOFF_SHARPNESS := Some (Finite (9 # 10))
|}.

(** ** The functions of [Math] that are not rational

    [Math.tan], [Math.cos], [Math.sqrt], [Math.pow] and [Math.atan2] are an
    interface of the model; what a proof needs of them is stated as a law
    where it is used. *)
Class MathLib : Type := {
  Math_tan : num -> num;
  Math_cos : num -> num;
  Math_sqrt : num -> num;
  Math_pow : num -> num -> num;
  Math_atan2 : num -> num -> num
}.

(** Laws of these functions: [Math.tan(0)] is [0], [Math.pow(x, 2)] is
    [x * x], the square root of the square of a non-negative rational is
    that rational, and the square root of a non-negative number is
    finite. *)
Definition tan_zero `{MathLib} : Prop := Math_tan zero = zero.
Definition pow_square `{MathLib} : Prop :=
  forall x : num, Math_pow x (ofZ 2) = (x * x)%num.
Definition sqrt_square `{MathLib} : Prop :=
  forall q r : Q, (0 <= r)%Q -> (r * r == q)%Q -> Math_sqrt (Finite q) = fin r.
Definition sqrt_finite `{MathLib} : Prop :=
  forall q : Q, (0 <= q)%Q -> is_finite (Math_sqrt (Finite q)) = true.

(** ** Rounding to a double

    The double nearest to a positive rational, ties to the even mantissa:
    53 bits of mantissa above the exponent [-1074] of the subnormal
    numbers.  [binade a] is the integer part of the logarithm of [a] in
    base 2. *)
Definition binade (a : Q) : Z :=
  let e := Z.log2 (Qnum a) - Z.log2 (Zpos (Qden a)) in
  if Qle_bool (2 ^ e) a then e else e - 1.

Definition roundHalfEven (q : Q) : Z :=
  let f := Qfloor q in
  match (q - inject_Z f ?= 1 # 2)%Q with
  | Lt => f
  | Gt => f + 1
  | Eq => if Z.even f then f else f + 1
  end.

Definition nearestDouble (a : Q) : Q :=
  let e := Z.max (binade a - 52) (-1074) in
  (inject_Z (roundHalfEven (a / 2 ^ e)) * 2 ^ e)%Q.

(** The result of an operation whose exact value is [q]: the nearest
    double, or an infinity from [2^1024] on. *)
Definition roundDouble (q : Q) : num :=
  match (q ?= 0)%Q with
  | Eq => zero
  | Gt =>
      let r := nearestDouble q in
      if Qle_bool (2 ^ 1024) r then PosInf else fin r
  | Lt =>
      let r := nearestDouble (- q) in
      if Qle_bool (2 ^ 1024) r then NegInf else fin (- r)
  end.

Definition rounded (x : num) : num :=
  match x with
  | Finite q => roundDouble q
  | _ => x
  end.

(** [normalizeAngle] and [distanceBetweenPoints] of [js/utils.js].  The
    remainder of two doubles is a double and [2 * Math.PI] is one, so the
    sum is the one operation of [normalizeAngle] that rounds. *)
Definition normalizeAngle (angle : num) : num :=
  let angle := (angle %% (ofZ 2 * Math_PI))%num in
  if (angle <? zero)%num then rounded (ofZ 2 * Math_PI + angle)%num else angle.

Definition distanceBetweenPoints `{MathLib} (x1 y1 x2 y2 : num) : num :=
  Math_sqrt (Math_pow (x2 - x1) (ofZ 2) + Math_pow (y2 - y1) (ofZ 2))%num.

(** ** The level ([js/level.js]) *)

Record CanvasElement : Type := { height : num; width : num }.

Record Level : Type := {
  mapData : list (list Z);
  mapHeight : Z;
  mapWidth : Z;
  canvasPixelHeight : num;
  canvasPixelWidth : num;
  tileHeight : num;
  tileWidth : num
}.

(** The constructor (the rendering context it stores is left out).
    [mapData[0].length] throws when the layout has no row; no other check
    is made. *)
Definition Level_new (canvasElement : CanvasElement)
    (mapLayoutArray : list (list Z)) : outcome Level :=
  match mapLayoutArray !! 0%nat with
  | None => Throw
  | Some row0 =>
      Ret {| mapData := mapLayoutArray;
             mapHeight := Z.of_nat (length mapLayoutArray);
             mapWidth := Z.of_nat (length row0);
             canvasPixelHeight := height canvasElement;
             canvasPixelWidth := width canvasElement;
             tileHeight := tileSize;
             tileWidth := tileSize |}
  end.

(** [this.mapData[tileY][tileX]]: throws when the row is [undefined], and is
    [undefined] when the row has no such column. *)
Definition mapData_at (lvl : Level) (tileX tileY : num) : outcome jsval :=
  match array_get (mapData lvl) tileY with
  | None => Throw
  | Some row =>
      match array_get row tileX with
      | None => Ret Undefined
      | Some v => Ret (Num (ofZ v))
      end
  end.

Definition in_map (lvl : Level) (tileX tileY : num) : bool :=
  (tileY >=? zero)%num && (tileY <? ofZ (mapHeight lvl))%num &&
  (tileX >=? zero)%num && (tileX <? ofZ (mapWidth lvl))%num.

Definition hasCollision (lvl : Level) (tileX tileY : num) : outcome bool :=
  if in_map lvl tileX tileY then
    let* v := mapData_at lvl tileX tileY in
    Ret (if not_zero v then true else false)
  else Ret true.

Definition getTileValue (lvl : Level) (worldX worldY : num) : outcome jsval :=
  let tileX := floor (worldX / tileWidth lvl) in
  let tileY := floor (worldY / tileHeight lvl) in
  if in_map lvl tileX tileY then mapData_at lvl tileX tileY
  else Ret (Num zero).

(** ** The rendering context

    The canvas is an external collaborator: the model records the calls made
    on it, in order. *)
Record Image : Type := {
  complete : bool;
  naturalWidth : num;
  naturalHeight : num
}.

Inductive imageRef : Type :=
  | wallTexturesImage
  | spriteImage (img : Image).

Inductive canvasOp : Type :=
  | set_imageSmoothingEnabled (b : bool)
  | set_globalAlpha (a : num)
  | set_fillStyle_black (alpha : num)
  | set_strokeStyle_red
  | save
  | restore
  | drawImage (img : imageRef) (sx sy sw sh dx dy dw dh : num)
  | fillRect (x y w h : num)
  | beginPath
  | moveTo (x y : num)
  | lineTo (x y : num)
  | stroke.

(** ** The light model, as the wall renderer computes it ([js/ray.js]) *)

Definition lightRadius (c : LightConfig) : num :=
  match PLAYER_LIGHT_RADIUS c with Some v => v | None => ofZ 200 end.
Definition ambientLight (c : LightConfig) : num :=
  match AMBIENT_LIGHT_LEVEL c with Some v => v | None => Finite (1 # 10) end.
Definition falloffSharpness (c : LightConfig) : num :=
  match LIGHT_FALLOFF_SHARPNESS c with Some v => v | None => Finite (3 # 2) end.

Definition wallBrightness `{MathLib} (c : LightConfig) (directDistance : num) : num :=
  let lightRadius := lightRadius c in
  let ambientLight := ambientLight c in
  let falloffSharpness := falloffSharpness c in
  let brightness := ambientLight in
  let brightness :=
    if (directDistance <=? lightRadius)%num then
      let normalizedDistance := (directDistance / lightRadius)%num in
      (ambientLight + (one - ambientLight) *
         Math_pow (one - normalizedDistance) falloffSharpness)%num
    else brightness in
  Num.max ambientLight (Num.min one brightness).

(** ** The ray ([js/ray.js]) *)

Module Ray.

Record t : Type := {
  gameLevel : Level;
  x : num;
  y : num;
  relativeAngleOffset : num;
  playerAngle : num;
  absoluteAngle : num;
  wallHitX : num;
  wallHitY : num;
  horizontalWallHitX : num;
  horizontalWallHitY : num;
  verticalWallHitX : num;
  verticalWallHitY : num;
  screenColumn : Z;
  correctedDistance : num;
  directDistance : num;
  texturePixelX : num;
  textureId : jsval;
  projectionPlaneDistance : num
}.

Definition new `{MathLib} (gameLevelInstance : Level) (x y playerAngle
    relativeAngleOffset : num) (screenColumn : Z) : t := {|
  gameLevel := gameLevelInstance;
  x := x;
  y := y;
  relativeAngleOffset := relativeAngleOffset;
  playerAngle := playerAngle;
  absoluteAngle := normalizeAngle (playerAngle + relativeAngleOffset)%num;
  wallHitX := zero;
  wallHitY := zero;
  horizontalWallHitX := zero;
  horizontalWallHitY := zero;
  verticalWallHitX := zero;
  verticalWallHitY := zero;
  screenColumn := screenColumn;
  correctedDistance := zero;
  directDistance := zero;
  texturePixelX := zero;
  textureId := Num zero;
  projectionPlaneDistance := ((canvasWidth / ofZ 2) / Math_tan FOV_RADIANS_HALF)%num
|}.

Section Cast.
Context `{MathLib}.
Variable this : t.

Definition isFacingDown : bool :=
  (absoluteAngle this >? zero)%num && (absoluteAngle this <? Math_PI)%num.
Definition isFacingLeft : bool :=
  (absoluteAngle this >? Math_PI / ofZ 2)%num &&
  (absoluteAngle this <? ofZ 3 * Math_PI / ofZ 2)%num.

(** The first horizontal grid line crossed and the step between crossings. *)
Definition hIntersectionY : num :=
  let hIntersectionY := (floor (y this / tileSize) * tileSize)%num in
  if isFacingDown then (hIntersectionY + tileSize)%num else hIntersectionY.
Definition hAdjacentSide : num :=
  ((hIntersectionY - y this) / Math_tan (absoluteAngle this))%num.
Definition hIntersectionX : num := (x this + hAdjacentSide)%num.
Definition hStepY : num :=
  let hStepY := tileSize in
  if negb isFacingDown then (hStepY * ofZ (-1))%num else hStepY.
Definition hStepX : num :=
  let hStepX := (tileSize / Math_tan (absoluteAngle this))%num in
  if (isFacingLeft && (hStepX >? zero)%num) ||
     (negb isFacingLeft && (hStepX <? zero)%num)
  then (hStepX * ofZ (-1))%num else hStepX.

Definition outside (checkCellX checkCellY : num) : bool :=
  (checkCellX <? zero)%num || (checkCellX >=? ofZ (mapWidth (gameLevel this)))%num ||
  (checkCellY <? zero)%num || (checkCellY >=? ofZ (mapHeight (gameLevel this)))%num.

(** One turn of the horizontal march: the state is the next crossing, the
    result the recorded hit. *)
Definition horizontalBody (s : num * num) : outcome (num * num + num * num) :=
  let '(nextHorizontalX, nextHorizontalY) := s in
  let checkCellX := floor (nextHorizontalX / tileSize) in
  let checkCellY :=
    if isFacingDown then floor (nextHorizontalY / tileSize)
    else (floor (nextHorizontalY / tileSize) - one)%num in
  if outside checkCellX checkCellY then Ret (inr (PosInf, PosInf))
  else
    let* collides := hasCollision (gameLevel this) checkCellX checkCellY in
    if collides : bool then Ret (inr (nextHorizontalX, nextHorizontalY))
    else Ret (inl ((nextHorizontalX + hStepX)%num, (nextHorizontalY + hStepY)%num)).

Definition horizontalMarch (fuel : nat) : outcome (num * num) :=
  while fuel horizontalBody (hIntersectionX, hIntersectionY).

(** The first vertical grid line crossed and the step between crossings. *)
Definition vIntersectionX : num :=
  let vIntersectionX := (floor (x this / tileSize) * tileSize)%num in
  if negb isFacingLeft then (vIntersectionX + tileSize)%num else vIntersectionX.
Definition vOppositeSide : num :=
  ((vIntersectionX - x this) * Math_tan (absoluteAngle this))%num.
Definition vIntersectionY : num := (y this + vOppositeSide)%num.
Definition vStepX : num :=
  let vStepX := tileSize in
  if isFacingLeft then (vStepX * ofZ (-1))%num else vStepX.
Definition vStepY : num :=
  let vStepY := (tileSize * Math_tan (absoluteAngle this))%num in
  if (negb isFacingDown && (vStepY >? zero)%num) ||
     (isFacingDown && (vStepY <? zero)%num)
  then (vStepY * ofZ (-1))%num else vStepY.

Definition verticalBody (s : num * num) : outcome (num * num + num * num) :=
  let '(nextVerticalX, nextVerticalY) := s in
  let checkCellX :=
    if isFacingLeft then (floor (nextVerticalX / tileSize) - one)%num
    else floor (nextVerticalX / tileSize) in
  let checkCellY := floor (nextVerticalY / tileSize) in
  if outside checkCellX checkCellY then Ret (inr (PosInf, PosInf))
  else
    let* collides := hasCollision (gameLevel this) checkCellX checkCellY in
    if collides : bool then Ret (inr (nextVerticalX, nextVerticalY))
    else Ret (inl ((nextVerticalX + vStepX)%num, (nextVerticalY + vStepY)%num)).

Definition verticalMarch (fuel : nat) : outcome (num * num) :=
  while fuel verticalBody (vIntersectionX, vIntersectionY).

(** The choice between the two candidates and the results recorded on the
    ray, before the depth buffer is written. *)
Definition choose (h v : num * num) : outcome t :=
  let '(horizontalWallHitX, horizontalWallHitY) := h in
  let '(verticalWallHitX, verticalWallHitY) := v in
  let horizontalHitDistance :=
    if (horizontalWallHitX !== PosInf)%num
    then distanceBetweenPoints (x this) (y this) horizontalWallHitX horizontalWallHitY
    else PosInf in
  let verticalHitDistance :=
    if (verticalWallHitX !== PosInf)%num
    then distanceBetweenPoints (x this) (y this) verticalWallHitX verticalWallHitY
    else PosInf in
  let* (wallHitX, wallHitY, directDistance, texturePixelX, textureId) :=
    if (horizontalHitDistance <? verticalHitDistance)%num then
      let wallHitX := horizontalWallHitX in
      let wallHitY := horizontalWallHitY in
      let wallTileY :=
        if isFacingDown then floor (wallHitY / tileSize)
        else (floor (wallHitY / tileSize) - one)%num in
      let* textureId :=
        getTileValue (gameLevel this) (floor (wallHitX / tileSize)) wallTileY in
      Ret (wallHitX, wallHitY, horizontalHitDistance, (wallHitX %% tileSize)%num,
           textureId)
    else
      let wallHitX := verticalWallHitX in
      let wallHitY := verticalWallHitY in
      let wallTileX :=
        if isFacingLeft then (floor (wallHitX / tileSize) - one)%num
        else floor (wallHitX / tileSize) in
      let* textureId :=
        getTileValue (gameLevel this) wallTileX (floor (wallHitY / tileSize)) in
      Ret (wallHitX, wallHitY, verticalHitDistance, (wallHitY %% tileSize)%num,
           textureId) in
  let noHit := (directDistance === PosInf)%num in
  Ret {| gameLevel := gameLevel this;
         x := x this;
         y := y this;
         relativeAngleOffset := relativeAngleOffset this;
         playerAngle := playerAngle this;
         absoluteAngle := absoluteAngle this;
         wallHitX := wallHitX;
         wallHitY := wallHitY;
         horizontalWallHitX := horizontalWallHitX;
         horizontalWallHitY := horizontalWallHitY;
         verticalWallHitX := verticalWallHitX;
         verticalWallHitY := verticalWallHitY;
         screenColumn := screenColumn this;
         correctedDistance :=
           if noHit then MAX_SAFE_INTEGER
           else (directDistance * Math_cos (relativeAngleOffset this))%num;
         directDistance := if noHit then MAX_SAFE_INTEGER else directDistance;
         texturePixelX := texturePixelX;
         textureId := textureId;
         projectionPlaneDistance := projectionPlaneDistance this |}.

(** [cast]: both marches, the choice, and the write of the direct distance
    into the depth buffer at the ray's column. *)
Definition cast (fuel : nat) (zBuffer : gmap Z num) : outcome (t * gmap Z num) :=
  let* h := horizontalMarch fuel in
  let* v := verticalMarch fuel in
  let* this' := choose h v in
  Ret (this', <[screenColumn this := directDistance this']> zBuffer).

End Cast.

(** [this.textureId === 0]. *)
Definition is_zero (v : jsval) : bool := negb (not_zero v).

(** [renderWallStrip]: the calls made on the rendering context. *)
Definition renderWallStrip `{MathLib} (cfg : LightConfig) (this : t) : list canvasOp :=
  if (directDistance this >=? MAX_SAFE_INTEGER)%num || is_zero (textureId this) then []
  else
    let projectedWallHeight :=
      ((tileSize / correctedDistance this) * projectionPlaneDistance this)%num in
    let screenY0 := (canvasHeight / ofZ 2 - projectedWallHeight / ofZ 2)%num in
    let screenX := ofZ (screenColumn this) in
    let originalTextureHeight := ofZ 64 in
    let originalTextureWidth := ofZ 64 in
    let textureSourceX := floor (texturePixelX this) in
    let textureSourceX :=
      Num.max zero (Num.min textureSourceX (originalTextureWidth - one)%num) in
    let textureAtlasOffsetY :=
      ((to_number (textureId this) - one) * originalTextureHeight)%num in
    let textureAtlasOffsetY :=
      if (textureAtlasOffsetY <? zero)%num then zero else textureAtlasOffsetY in
    let brightness := wallBrightness cfg (directDistance this) in
    [set_imageSmoothingEnabled false;
     drawImage wallTexturesImage textureSourceX textureAtlasOffsetY one
       originalTextureHeight screenX screenY0 one projectedWallHeight]
    ++ (if (brightness <? Finite (999 # 1000))%num
        then [set_fillStyle_black (one - brightness)%num;
              fillRect screenX screenY0 one projectedWallHeight]
        else []).

(** [draw]: the cast, then the wall strip in the 3D view or the ray as a
    line in the 2D view. *)
Definition draw `{MathLib} (fuel : nat) (renderMode : num) (cfg : LightConfig)
    (this : t) (zBuffer : gmap Z num) : outcome (t * gmap Z num * list canvasOp) :=
  let* (this', zBuffer') := cast this fuel zBuffer in
  if (renderMode === zero)%num then
    Ret (this', zBuffer',
         if not_zero (textureId this') then renderWallStrip cfg this' else [])
  else
    let targetX := wallHitX this' in
    let targetY := wallHitY this' in
    if (targetX === PosInf)%num || (targetY === PosInf)%num
    then Ret (this', zBuffer', [])
    else Ret (this', zBuffer',
              [beginPath; moveTo (x this') (y this'); lineTo targetX targetY;
               set_strokeStyle_red; stroke]).

End Ray.

(** ** The player, as the sprites read it ([js/player.js]) *)

Module Player.
Record t : Type := {
  x : num;
  y : num;
  rotationAngle : num
}.
End Player.

(** [zBuffer[i]] for a number [i]: the entry at an integer index, and
    [undefined] at any other key. *)
Definition key_of (i : num) : option Z :=
  match i with
  | Finite a =>
      let r := Qred a in
      if Pos.eqb (Qden r) 1 then Some (Qnum r) else None
  | _ => None
  end.

Definition zBuffer_get (zBuffer : gmap Z num) (i : num) : jsval :=
  match key_of i with
  | Some z => match zBuffer !! z with Some v => Num v | None => Undefined end
  | None => Undefined
  end.

(** ** The sprite ([js/Sprite.js]) *)

Module Sprite.

Record t : Type := {
  x : num;
  y : num;
  image : option Image;
  renderingContext : bool;
  distanceToPlayer : num;
  angleRelativeToPlayerView : num;
  visible : bool;
  flipped : bool;
  worldHeight : option num;
  type : option String.string
}.

Definition new (x y : num) (image : option Image) (renderingContext : bool) : t := {|
  x := x;
  y := y;
  image := image;
  renderingContext := renderingContext;
  distanceToPlayer := zero;
  angleRelativeToPlayerView := zero;
  visible := true;
  flipped := false;
  worldHeight := None;
  type := None
|}.

Definition set_render_data (this : t) (distance angle : num) : t := {|
  x := x this;
  y := y this;
  image := image this;
  renderingContext := renderingContext this;
  distanceToPlayer := distance;
  angleRelativeToPlayerView := angle;
  visible := visible this;
  flipped := flipped this;
  worldHeight := worldHeight this;
  type := type this
|}.

Definition calculateRenderData `{MathLib} (player : option Player.t) (this : t)
  : t * bool :=
  match player with
  | None => (set_render_data this PosInf (angleRelativeToPlayerView this), false)
  | Some player =>
      let distanceToPlayer :=
        distanceBetweenPoints (Player.x player) (Player.y player) (x this) (y this) in
      let vectorX := (x this - Player.x player)%num in
      let vectorY := (y this - Player.y player)%num in
      let anglePlayerToSprite := Math_atan2 vectorY vectorX in
      let angleDifference := (Player.rotationAngle player - anglePlayerToSprite)%num in
      let angleDifference :=
        if (angleDifference <? - Math_PI)%num
        then (angleDifference + ofZ 2 * Math_PI)%num else angleDifference in
      let angleDifference :=
        if (angleDifference >? Math_PI)%num
        then (angleDifference - ofZ 2 * Math_PI)%num else angleDifference in
      (set_render_data this distanceToPlayer angleDifference,
       (Num.abs angleDifference <? FOV_RADIANS_HALF)%num)
  end.

(** The light model, as the sprite renderer computes it. *)
Definition brightness `{MathLib} (c : LightConfig) (distanceToPlayer : num) : num :=
  let brightness := one in
  let lightRadius := lightRadius c in
  let ambientLight := ambientLight c in
  let falloffSharpness := falloffSharpness c in
  let brightness :=
    if (distanceToPlayer >? lightRadius)%num then ambientLight
    else if (distanceToPlayer >? zero)%num then
      let normalizedDistance := (distanceToPlayer / lightRadius)%num in
      (ambientLight + (one - ambientLight) *
         Math_pow (one - normalizedDistance) falloffSharpness)%num
    else brightness in
  Num.max ambientLight (Num.min one brightness).

(** The columns of a sprite on screen: what the loop over the columns is
    given. *)
Record Projection : Type := {
  img : Image;
  isFlipped : bool;
  correctedDistanceForProjection : num;
  spriteScreenHeight : num;
  spriteScreenWidth : num;
  screenY0 : num;
  spriteLeftScreenX : num;
  endScreenPixelX : num
}.

Section Columns.
Variable zBuffer : gmap Z num.
Variable p : Projection.

Definition sourceTextureColumn (screenPixelX : num) : num :=
  let originalTextureWidth := naturalWidth (img p) in
  let textureXProportion :=
    ((screenPixelX - spriteLeftScreenX p) / spriteScreenWidth p)%num in
  let sourceTextureColumn := floor (textureXProportion * originalTextureWidth)%num in
  let sourceTextureColumn :=
    if isFlipped p then ((originalTextureWidth - one) - sourceTextureColumn)%num
    else sourceTextureColumn in
  Num.max zero (Num.min (originalTextureWidth - one)%num sourceTextureColumn).

Definition strip (screenPixelX : num) : canvasOp :=
  drawImage (spriteImage (img p)) (sourceTextureColumn screenPixelX) zero one
    (naturalHeight (img p)) screenPixelX (screenY0 p) one (spriteScreenHeight p).

(** One turn of the loop over the columns: the test of the loop, the clip
    to the screen, the depth test and the strip. *)
Definition columnBody (s : num * list canvasOp)
  : outcome (num * list canvasOp + list canvasOp) :=
  let '(screenPixelX, ops) := s in
  if negb (screenPixelX <? endScreenPixelX p)%num then Ret (inr ops)
  else if (screenPixelX <? zero)%num || (screenPixelX >=? canvasWidth)%num
  then Ret (inl ((screenPixelX + one)%num, ops))
  else if (to_number (zBuffer_get zBuffer screenPixelX)
           >? correctedDistanceForProjection p)%num
  then Ret (inl ((screenPixelX + one)%num, ops ++ [strip screenPixelX]))
  else Ret (inl ((screenPixelX + one)%num, ops)).

Definition drawColumns (fuel : nat) (startScreenPixelX : num) : outcome (list canvasOp) :=
  while fuel columnBody (startScreenPixelX, []).

End Columns.

(** [draw]: the sprite with its render data, the depth buffer, and the
    calls made on the rendering context. *)
Definition draw `{MathLib} (fuel : nat) (player : option Player.t) (renderMode : num)
    (cfg : LightConfig) (this : t) (zBuffer : gmap Z num)
  : outcome (t * gmap Z num * list canvasOp) :=
  if negb (visible this) then Ret (this, zBuffer, [])
  else
    let '(this, isInFOV) := calculateRenderData player this in
    if negb isInFOV then Ret (this, zBuffer, [])
    else
      match image this with
      | Some image =>
          if (renderMode === zero)%num && renderingContext this && complete image
             && (naturalHeight image !== zero)%num
          then
            let projectionPlaneDistance :=
              ((canvasWidth / ofZ 2) / Math_tan FOV_RADIANS_HALF)%num in
            let spriteActualWorldHeight :=
              match worldHeight this with Some h => h | None => tileSize end in
            let correctedDistanceForProjection :=
              (distanceToPlayer this * Math_cos (angleRelativeToPlayerView this))%num in
            if (correctedDistanceForProjection <=? Finite (1 # 10))%num
            then Ret (this, zBuffer, [])
            else
              let spriteScreenHeight :=
                ((spriteActualWorldHeight / correctedDistanceForProjection)
                 * projectionPlaneDistance)%num in
              let screenY0 := (canvasHeight / ofZ 2 - spriteScreenHeight / ofZ 2)%num in
              let originalTextureHeight := naturalHeight image in
              let originalTextureWidth := naturalWidth image in
              let spriteScreenWidth :=
                (spriteScreenHeight * (originalTextureWidth / originalTextureHeight))%num in
              let xOffsetFromCenterScreen :=
                (Math_tan (- angleRelativeToPlayerView this) * projectionPlaneDistance)%num in
              let spriteCenterScreenX :=
                (canvasWidth / ofZ 2 + xOffsetFromCenterScreen)%num in
              let spriteLeftScreenX :=
                (spriteCenterScreenX - spriteScreenWidth / ofZ 2)%num in
              let brightness := brightness cfg (distanceToPlayer this) in
              let startScreenPixelX := floor spriteLeftScreenX in
              let endScreenPixelX := floor (spriteLeftScreenX + spriteScreenWidth)%num in
              let* strips :=
                drawColumns zBuffer
                  {| img := image;
                     isFlipped := flipped this;
                     correctedDistanceForProjection := correctedDistanceForProjection;
                     spriteScreenHeight := spriteScreenHeight;
                     spriteScreenWidth := spriteScreenWidth;
                     screenY0 := screenY0;
                     spriteLeftScreenX := spriteLeftScreenX;
                     endScreenPixelX := endScreenPixelX |}
                  fuel startScreenPixelX in
              Ret (this, zBuffer,
                   [set_imageSmoothingEnabled false; save; set_globalAlpha brightness]
                   ++ strips ++ [restore])
          else Ret (this, zBuffer, [])
      | None => Ret (this, zBuffer, [])
      end.

End Sprite.

(** ** A rational [Math]

    An instance of the interface, to run the model: it knows [tan 0],
    [cos 0], [atan2 0 x] for a positive [x] and the integer powers, which
    are rational, and takes square roots rounded down to a multiple of
    [2^-52] over the denominator, which is exact on squares.  Where it
    knows no value it answers [NaN]. *)
Module RationalMath.

Definition tan (x : num) : num :=
  match x with
  | Finite a => if Qeq_bool a 0 then zero else NaN
  | _ => NaN
  end.

Definition cos (x : num) : num :=
  match x with
  | Finite a => if Qeq_bool a 0 then one else NaN
  | _ => NaN
  end.

Definition sqrt (x : num) : num :=
  match x with
  | Finite a =>
      let r := Qred a in
      if 0 <=? Qnum r
      then fin (Z.sqrt (Qnum r * Zpos (Qden r) * 2 ^ 104) # (Qden r * 2 ^ 52))
      else NaN
  | PosInf => PosInf
  | _ => NaN
  end.

Fixpoint pow_nat (x : num) (n : nat) : num :=
  match n with
  | O => one
  | S n' => (x * pow_nat x n')%num
  end.

Definition pow (x k : num) : num :=
  match k with
  | Finite e =>
      let r := Qred e in
      if Qeq_bool r 0 then one
      else if Pos.eqb (Qden r) 1 then
        if 0 <? Qnum r then pow_nat x (Z.to_nat (Qnum r))
        else (one / pow_nat x (Z.to_nat (- Qnum r)))%num
      else NaN
  | _ => NaN
  end.

Definition atan2 (y x : num) : num :=
  match y, x with
  | Finite b, Finite a => if Qeq_bool b 0 && negb (Qle_bool a 0) then zero else NaN
  | _, _ => NaN
  end.

Definition lib : MathLib := {|
  Math_tan := tan;
  Math_cos := cos;
  Math_sqrt := sqrt;
  Math_pow := pow;
  Math_atan2 := atan2
|}.

End RationalMath.

(** ** Layouts

    The value stored at column [x] of row [y] of a layout, and the layouts
    the specification calls well formed: at least one row, at least one
    column, every row as long as the first. *)
Definition grid_at (layout : list (list Z)) (x y : Z) : option Z :=
  match layout !! Z.to_nat y with
  | Some row => row !! Z.to_nat x
  | None => None
  end.

Definition rectangular (layout : list (list Z)) : Prop :=
  forall row0 row, layout !! 0%nat = Some row0 -> row ∈ layout ->
  length row = length row0.

Definition zero_dimension (layout : list (list Z)) : Prop :=
  layout = [] \/ layout !! 0%nat = Some [].

Definition malformed (layout : list (list Z)) : Prop :=
  zero_dimension layout \/ ~ rectangular layout.

(** A room of [w] by [h] tiles: a ring of walls with texture [1] around an
    empty floor. *)
Definition room (w h : nat) : list (list Z) :=
  (fun j =>
     (fun i =>
        if (i =? 0)%nat || (i =? w - 1)%nat || (j =? 0)%nat || (j =? h - 1)%nat
        then 1 else 0) <$> seq 0 w) <$> seq 0 h.

Definition canvas : CanvasElement := {| height := canvasHeight; width := canvasWidth |}.

(** ** What the marches walk along

    The cell a march checks along its own axis, and its measure: the number
    of cells left to check before the march leaves the map, zero when the
    cell is already outside or is not a number. *)
Definition axisCell (forward : bool) (next : num) : num :=
  if forward then floor (next / tileSize) else (floor (next / tileSize) - one)%num.

Definition axisStep (forward : bool) : num :=
  if forward then tileSize else (tileSize * ofZ (-1))%num.

Definition cellsLeft (forward : bool) (size : Z) (cell : num) : nat :=
  match cell with
  | Finite q =>
      let c := Qfloor q in
      if (0 <=? c) && (c <? size) then
        if forward then Z.to_nat (size - c) else Z.to_nat (c + 1)
      else O
  | _ => O
  end.

(** A number that [Math.floor] can return: an integer, or not finite. *)
Definition integral (n : num) : Prop :=
  match n with
  | Finite q => q = inject_Z (Qfloor q)
  | _ => True
  end.

(** The level keeps the number of rows of its layout as its height, which
    the constructor establishes. *)
Definition level_ok (lvl : Level) : Prop :=
  mapHeight lvl = Z.of_nat (length (mapData lvl)).

(** The bound on the turns of either march. *)
Definition marchBound (lvl : Level) : nat :=
  S (Z.to_nat (Z.max (mapWidth lvl) (mapHeight lvl))).

(** How a march stops: it has left the map, or the cell checked at the
    recorded crossing is a wall. *)
Definition horizontalStop `{MathLib} (this : Ray.t) (hit : num * num) : Prop :=
  hit = (PosInf, PosInf) \/
  hasCollision (Ray.gameLevel this) (floor (hit.1 / tileSize))
    (axisCell (Ray.isFacingDown this) hit.2) = Ret true.

Definition verticalStop `{MathLib} (this : Ray.t) (hit : num * num) : Prop :=
  hit = (PosInf, PosInf) \/
  hasCollision (Ray.gameLevel this) (axisCell (negb (Ray.isFacingLeft this)) hit.1)
    (floor (hit.2 / tileSize)) = Ret true.

(** The distance [cast] computes for a candidate hit: [Infinity] for a
    march that left the map. *)
Definition hitDistance `{MathLib} (this : Ray.t) (hit : num * num) : num :=
  if (hit.1 !== PosInf)%num
  then distanceBetweenPoints (Ray.x this) (Ray.y this) hit.1 hit.2
  else PosInf.

(** [Math.sqrt(NaN)] is [NaN]. *)
Definition sqrt_nan `{MathLib} : Prop := Math_sqrt NaN = NaN.

(** A pair of finite coordinates. *)
Definition finite_point (p : num * num) : Prop :=
  is_finite p.1 = true /\ is_finite p.2 = true.

(** ** The laws of [Math.pow] the light model rests on

    At a sharpness [k]: on bases between 0 and 1 the power is finite and
    does not decrease when the base grows, and the power of 1 is 1. *)
Definition pow_monotone `{MathLib} (k : num) : Prop :=
  forall b1 b2 : Q, (0 <= b1)%Q -> (b1 <= b2)%Q -> (b2 <= 1)%Q ->
  exists p1 p2 : Q,
    Math_pow (Finite b1) k = Finite p1 /\ Math_pow (Finite b2) k = Finite p2 /\
    (p1 <= p2)%Q.

Definition pow_of_one `{MathLib} (k : num) : Prop := Math_pow one k = one.

(** ** The strips of a sprite, column by column

    What one screen column contributes to the calls of the loop over the
    columns, the calls of a run of columns, and the strips among some calls
    that are drawn at a given column. *)
Definition columnOps (zBuffer : gmap Z num) (p : Sprite.Projection) (column : Z)
  : list canvasOp :=
  if (0 <=? column) && (column <? 500) &&
     (to_number (zBuffer_get zBuffer (ofZ column))
      >? Sprite.correctedDistanceForProjection p)%num
  then [Sprite.strip p (ofZ column)] else [].

Fixpoint columnsFrom (zBuffer : gmap Z num) (p : Sprite.Projection) (n : nat)
    (column : Z) : list canvasOp :=
  match n with
  | O => []
  | S n' => columnOps zBuffer p column ++ columnsFrom zBuffer p n' (column + 1)
  end.

Definition drawn_at (column : Z) (op : canvasOp) : bool :=
  match op with
  | drawImage _ _ _ _ _ dx _ _ _ => (dx === ofZ column)%num
  | _ => false
  end.

Definition stripsAt (column : Z) (ops : list canvasOp) : list canvasOp :=
  List.filter (drawn_at column) ops.

(** The column of the texture before it is clamped. *)
Definition rawTextureColumn (p : Sprite.Projection) (screenPixelX : num) : num :=
  let originalTextureWidth := naturalWidth (Sprite.img p) in
  let textureXProportion :=
    ((screenPixelX - Sprite.spriteLeftScreenX p) / Sprite.spriteScreenWidth p)%num in
  let sourceTextureColumn := floor (textureXProportion * originalTextureWidth)%num in
  if Sprite.isFlipped p then ((originalTextureWidth - one) - sourceTextureColumn)%num
  else sourceTextureColumn.

(** ** Levels, rays and sprites to run the model on *)

Definition openLevel : Level := {|
  mapData := [[0]];
  mapHeight := 1;
  mapWidth := 1;
  canvasPixelHeight := canvasHeight;
  canvasPixelWidth := canvasWidth;
  tileHeight := tileSize;
  tileWidth := tileSize
|}.

Definition roomLevel : Level := {|
  mapData := room 15 10;
  mapHeight := 10;
  mapWidth := 15;
  canvasPixelHeight := canvasHeight;
  canvasPixelWidth := canvasWidth;
  tileHeight := tileSize;
  tileWidth := tileSize
|}.

(** The light configuration of the game, with the sharpness set to one. *)
Definition linearLight : LightConfig := {|
  PLAYER_LIGHT_RADIUS := Some (ofZ 150);
  AMBIENT_LIGHT_LEVEL := Some (Finite (1 # 100));
  LIGHT_FALLOFF_SHARPNESS := Some one
|}.

(** A sprite of a 4 by 4 texture that covers the screen columns 10 to 13. *)
Definition smallImage : Image := {|
  complete := true;
  naturalWidth := ofZ 4;
  naturalHeight := ofZ 4
|}.

Definition smallProjection : Sprite.Projection := {|
  Sprite.img := smallImage;
  Sprite.isFlipped := true;
  Sprite.correctedDistanceForProjection := ofZ 100;
  Sprite.spriteScreenHeight := ofZ 4;
  Sprite.spriteScreenWidth := ofZ 4;
  Sprite.screenY0 := ofZ 248;
  Sprite.spriteLeftScreenX := ofZ 10;
  Sprite.endScreenPixelX := ofZ 14
|}.

(** A ray in the room of 15 by 10 tiles, at [(75, 75)], and a ray in the
    level of one open tile, at [(25, 25)]; both at angle zero, for screen
    column 3. *)
Definition roomRay : Ray.t :=
  @Ray.new RationalMath.lib roomLevel (ofZ 75) (ofZ 75) zero zero 3.

Definition openRay : Ray.t :=
  @Ray.new RationalMath.lib openLevel (ofZ 25) (ofZ 25) zero zero 3.

(** The base of the power in the light model at distance [q] under radius
    [r], as the renderers compute it: [1 - q / r]. *)
Definition lightBase (q r : Q) : Q := Qred (inject_Z 1 - Qred (q / r)).

(** ** The full turn

    [2 * Math.PI], as [normalizeAngle] computes it. *)
Definition TWO_PI : Q := Qred (inject_Z 2 * (884279719003555 # 281474976710656)).


(** ** Where a march stops inside the map

    A march that records a crossing has checked a cell that is not outside
    the map and holds a wall. *)
Definition horizontalHit `{MathLib} (this : Ray.t) (hit : num * num) : Prop :=
  hit = (PosInf, PosInf) \/
  (Ray.outside this (floor (hit.1 / tileSize))
     (axisCell (Ray.isFacingDown this) hit.2) = false /\
   hasCollision (Ray.gameLevel this) (floor (hit.1 / tileSize))
     (axisCell (Ray.isFacingDown this) hit.2) = Ret true).

Definition verticalHit `{MathLib} (this : Ray.t) (hit : num * num) : Prop :=
  hit = (PosInf, PosInf) \/
  (Ray.outside this (axisCell (negb (Ray.isFacingLeft this)) hit.1)
     (floor (hit.2 / tileSize)) = false /\
   hasCollision (Ray.gameLevel this) (axisCell (negb (Ray.isFacingLeft this)) hit.1)
     (floor (hit.2 / tileSize)) = Ret true).


(** ** The range of [Math.atan2]

    [Math.PI] as a rational, and the law of [Math.atan2] the angle of a
    sprite rests on: a finite result lies between [-Math.PI] and
    [Math.PI]. *)
Definition PI : Q := 884279719003555 # 281474976710656.

Definition atan2_range `{MathLib} : Prop :=
  forall (y x : num) (a : Q), Math_atan2 y x = Finite a -> (- PI <= a)%Q /\ (a <= PI)%Q.


(** ** Counted loops

    [for (let i = start; i < bound; i++) body]: the state is what the body
    changes, [fuel] bounds the number of turns. *)
Definition forBody {S : Type} (bound : num) (body : Z -> S -> outcome S)
    (st : Z * S) : outcome (Z * S + S) :=
  let '(i, s) := st in
  if (ofZ i <? bound)%num then
    let* s' := body i s in
    Ret (inl (i + 1, s'))
  else Ret (inr s).

Definition for_loop {S : Type} (fuel : nat) (start : Z) (bound : num)
    (body : Z -> S -> outcome S) (s : S) : outcome S :=
  while fuel (forBody bound body) (start, s).

(** ** The minimap ([js/level.js])

    The calls on the rendering context that set a colour given as a string
    stand beside the calls of [canvasOp]. *)
Inductive paintOp : Type :=
  | op (call : canvasOp)
  | set_fillStyle (colour : String.string)
  | set_strokeStyle (colour : String.string).

Definition wallColour : String.string := "#000000".
Definition floorColour : String.string := "#666666".

(** [drawMinimap]: a rectangle for every tile, row by row; a row that is
    [undefined] makes the read of the tile throw. *)
Definition drawMinimap (fuel : nat) (this : Level) : outcome (list paintOp) :=
  for_loop fuel 0 (ofZ (mapHeight this))
    (fun y ops =>
       for_loop fuel 0 (ofZ (mapWidth this))
         (fun x ops =>
            let* v := mapData_at this (ofZ x) (ofZ y) in
            let tileFillColor := if not_zero v then wallColour else floorColour in
            Ret (ops ++ [set_fillStyle tileFillColor;
                         op (fillRect (ofZ x * tileWidth this)%num
                               (ofZ y * tileHeight this)%num
                               (tileWidth this) (tileHeight this))]))
         ops)
    [].

(** The two calls made for the tile in column [x] of row [y], as they
    stand among the calls of the minimap. *)
Definition painted (this : Level) (ops : list paintOp) (x y : Z) : Prop :=
  exists collides : bool,
    hasCollision this (ofZ x) (ofZ y) = Ret collides /\
    ops !! Z.to_nat (2 * (y * mapWidth this + x)) =
      Some (set_fillStyle (if collides then wallColour else floorColour)) /\
    ops !! Z.to_nat (2 * (y * mapWidth this + x) + 1) =
      Some (op (fillRect (ofZ x * tileWidth this)%num (ofZ y * tileHeight this)%num
                  (tileWidth this) (tileHeight this))).

(** The calls of the tiles before the tile in column [x] of row [y]. *)
Definition minimap_upto (this : Level) (x y : Z) (ops : list paintOp) : Prop :=
  length ops = Z.to_nat (2 * (y * mapWidth this + x)) /\
  forall x' y', 0 <= x' < mapWidth this -> 0 <= y' ->
    y' < y \/ (y' = y /\ x' < x) -> painted this ops x' y'.


(** ** The player ([js/player.js])

    [Math.sin] joins the interface of [Math]. *)
Class MathSin : Type := { Math_sin : num -> num }.

(** [Ray.setAngle], and the writes of [x] and [y] that [Player.update]
    makes on a ray before it. *)
Definition Ray_setAngle (this : Ray.t) (newPlayerAngle : num) : Ray.t := {|
  Ray.gameLevel := Ray.gameLevel this;
  Ray.x := Ray.x this;
  Ray.y := Ray.y this;
  Ray.relativeAngleOffset := Ray.relativeAngleOffset this;
  Ray.playerAngle := newPlayerAngle;
  Ray.absoluteAngle := normalizeAngle (newPlayerAngle + Ray.relativeAngleOffset this)%num;
  Ray.wallHitX := Ray.wallHitX this;
  Ray.wallHitY := Ray.wallHitY this;
  Ray.horizontalWallHitX := Ray.horizontalWallHitX this;
  Ray.horizontalWallHitY := Ray.horizontalWallHitY this;
  Ray.verticalWallHitX := Ray.verticalWallHitX this;
  Ray.verticalWallHitY := Ray.verticalWallHitY this;
  Ray.screenColumn := Ray.screenColumn this;
  Ray.correctedDistance := Ray.correctedDistance this;
  Ray.directDistance := Ray.directDistance this;
  Ray.texturePixelX := Ray.texturePixelX this;
  Ray.textureId := Ray.textureId this;
  Ray.projectionPlaneDistance := Ray.projectionPlaneDistance this
|}.

Definition Ray_set_origin (this : Ray.t) (x y : num) : Ray.t := {|
  Ray.gameLevel := Ray.gameLevel this;
  Ray.x := x;
  Ray.y := y;
  Ray.relativeAngleOffset := Ray.relativeAngleOffset this;
  Ray.playerAngle := Ray.playerAngle this;
  Ray.absoluteAngle := Ray.absoluteAngle this;
  Ray.wallHitX := Ray.wallHitX this;
  Ray.wallHitY := Ray.wallHitY this;
  Ray.horizontalWallHitX := Ray.horizontalWallHitX this;
  Ray.horizontalWallHitY := Ray.horizontalWallHitY this;
  Ray.verticalWallHitX := Ray.verticalWallHitX this;
  Ray.verticalWallHitY := Ray.verticalWallHitY this;
  Ray.screenColumn := Ray.screenColumn this;
  Ray.correctedDistance := Ray.correctedDistance this;
  Ray.directDistance := Ray.directDistance this;
  Ray.texturePixelX := Ray.texturePixelX this;
  Ray.textureId := Ray.textureId this;
  Ray.projectionPlaneDistance := Ray.projectionPlaneDistance this
|}.

(** The writes of [visible], of [x] and [y], and of [worldHeight] on a
    sprite. *)
Definition Sprite_set_visible (this : Sprite.t) (visible : bool) : Sprite.t := {|
  Sprite.x := Sprite.x this;
  Sprite.y := Sprite.y this;
  Sprite.image := Sprite.image this;
  Sprite.renderingContext := Sprite.renderingContext this;
  Sprite.distanceToPlayer := Sprite.distanceToPlayer this;
  Sprite.angleRelativeToPlayerView := Sprite.angleRelativeToPlayerView this;
  Sprite.visible := visible;
  Sprite.flipped := Sprite.flipped this;
  Sprite.worldHeight := Sprite.worldHeight this;
  Sprite.type := Sprite.type this
|}.

Definition Sprite_set_position (this : Sprite.t) (x y : num) : Sprite.t := {|
  Sprite.x := x;
  Sprite.y := y;
  Sprite.image := Sprite.image this;
  Sprite.renderingContext := Sprite.renderingContext this;
  Sprite.distanceToPlayer := Sprite.distanceToPlayer this;
  Sprite.angleRelativeToPlayerView := Sprite.angleRelativeToPlayerView this;
  Sprite.visible := Sprite.visible this;
  Sprite.flipped := Sprite.flipped this;
  Sprite.worldHeight := Sprite.worldHeight this;
  Sprite.type := Sprite.type this
|}.

Definition Sprite_set_worldHeight (this : Sprite.t) (worldHeight : num) : Sprite.t := {|
  Sprite.x := Sprite.x this;
  Sprite.y := Sprite.y this;
  Sprite.image := Sprite.image this;
  Sprite.renderingContext := Sprite.renderingContext this;
  Sprite.distanceToPlayer := Sprite.distanceToPlayer this;
  Sprite.angleRelativeToPlayerView := Sprite.angleRelativeToPlayerView this;
  Sprite.visible := Sprite.visible this;
  Sprite.flipped := Sprite.flipped this;
  Sprite.worldHeight := Some worldHeight;
  Sprite.type := Sprite.type this
|}.

(** [sprite.type] as a condition, and [sprite.type === name]. *)
Definition type_truthy (this : Sprite.t) : bool :=
  match Sprite.type this with
  | Some s => negb (String.eqb s "")
  | None => false
  end.

Definition type_is (this : Sprite.t) (name : String.string) : bool :=
  match Sprite.type this with
  | Some s => String.eqb s name
  | None => false
  end.

(** The whole object of [class Player]; [Player.t] above is the part of it
    that the sprites read.  The array of rays is a finite map from the
    index to the ray. *)
Module PlayerClass.

Record t : Type := {
  gameLevel : Level;
  x : num;
  y : num;
  movementInput : num;
  rotationInput : num;
  rotationAngle : num;
  rotationSpeed : num;
  movementSpeed : num;
  numberOfRays : num;
  rays : gmap Z Ray.t;
  health : num;
  ammo : num;
  score : num;
  playerActionState : num
}.

Definition view (this : t) : Player.t := {|
  Player.x := x this;
  Player.y := y this;
  Player.rotationAngle := rotationAngle this
|}.

Definition set_position (this : t) (newX newY : num) : t := {|
  gameLevel := gameLevel this; x := newX; y := newY;
  movementInput := movementInput this; rotationInput := rotationInput this;
  rotationAngle := rotationAngle this; rotationSpeed := rotationSpeed this;
  movementSpeed := movementSpeed this; numberOfRays := numberOfRays this;
  rays := rays this; health := health this; ammo := ammo this;
  score := score this; playerActionState := playerActionState this
|}.

Definition set_rotationAngle (this : t) (angle : num) : t := {|
  gameLevel := gameLevel this; x := x this; y := y this;
  movementInput := movementInput this; rotationInput := rotationInput this;
  rotationAngle := angle; rotationSpeed := rotationSpeed this;
  movementSpeed := movementSpeed this; numberOfRays := numberOfRays this;
  rays := rays this; health := health this; ammo := ammo this;
  score := score this; playerActionState := playerActionState this
|}.

Definition set_rays (this : t) (rays : gmap Z Ray.t) : t := {|
  gameLevel := gameLevel this; x := x this; y := y this;
  movementInput := movementInput this; rotationInput := rotationInput this;
  rotationAngle := rotationAngle this; rotationSpeed := rotationSpeed this;
  movementSpeed := movementSpeed this; numberOfRays := numberOfRays this;
  rays := rays; health := health this; ammo := ammo this;
  score := score this; playerActionState := playerActionState this
|}.

Definition set_health (this : t) (health : num) : t := {|
  gameLevel := gameLevel this; x := x this; y := y this;
  movementInput := movementInput this; rotationInput := rotationInput this;
  rotationAngle := rotationAngle this; rotationSpeed := rotationSpeed this;
  movementSpeed := movementSpeed this; numberOfRays := numberOfRays this;
  rays := rays this; health := health; ammo := ammo this;
  score := score this; playerActionState := playerActionState this
|}.

Definition set_ammo (this : t) (ammo : num) : t := {|
  gameLevel := gameLevel this; x := x this; y := y this;
  movementInput := movementInput this; rotationInput := rotationInput this;
  rotationAngle := rotationAngle this; rotationSpeed := rotationSpeed this;
  movementSpeed := movementSpeed this; numberOfRays := numberOfRays this;
  rays := rays this; health := health this; ammo := ammo;
  score := score this; playerActionState := playerActionState this
|}.

Definition set_score (this : t) (score : num) : t := {|
  gameLevel := gameLevel this; x := x this; y := y this;
  movementInput := movementInput this; rotationInput := rotationInput this;
  rotationAngle := rotationAngle this; rotationSpeed := rotationSpeed this;
  movementSpeed := movementSpeed this; numberOfRays := numberOfRays this;
  rays := rays this; health := health this; ammo := ammo this;
  score := score; playerActionState := playerActionState this
|}.

(** The constructor: the fan of rays, one for every column of the screen,
    from minus half the field of view on, one increment apart. *)
Definition new `{MathLib} (fuel : nat) (gameLevelInstance : Level) (x y : num)
  : outcome t :=
  let rotationAngle := zero in
  let numberOfRays := canvasWidth in
  let angleIncrement := (FOV_RADIANS / numberOfRays)%num in
  let* (rays, _) :=
    for_loop fuel 0 numberOfRays
      (fun i (st : gmap Z Ray.t * num) =>
         let '(rays, currentRayAngleOffset) := st in
         Ret (<[i := Ray.new gameLevelInstance x y rotationAngle
                       currentRayAngleOffset i]> rays,
              (currentRayAngleOffset + angleIncrement)%num))
      (∅, (- FOV_RADIANS_HALF)%num) in
  Ret {| gameLevel := gameLevelInstance; x := x; y := y;
         movementInput := zero; rotationInput := zero;
         rotationAngle := rotationAngle;
         rotationSpeed := degreesToRadians (ofZ 2);
         movementSpeed := ofZ 2; numberOfRays := numberOfRays;
         rays := rays; health := ofZ 100; ammo := ofZ 10;
         score := zero; playerActionState := zero |}.

Definition checkCollision (this : t) (worldX worldY : num) : outcome bool :=
  let tileX := floor (worldX / tileWidth (gameLevel this)) in
  let tileY := floor (worldY / tileHeight (gameLevel this)) in
  if (tileX <? zero)%num || (tileX >=? ofZ (mapWidth (gameLevel this)))%num ||
     (tileY <? zero)%num || (tileY >=? ofZ (mapHeight (gameLevel this)))%num
  then Ret true
  else
    let* collides := hasCollision (gameLevel this) tileX tileY in
    Ret (if collides : bool then true else false).

(** [takeDamage], on the health of the player; the sound it plays and the
    flash it starts on the window are left out. *)
Definition takeDamage (this : t) (amount : num) : t :=
  if (health this <=? zero)%num then this
  else
    let this := set_health this (health this - amount)%num in
    if (health this <=? zero)%num then set_health this zero else this.

(** One turn of the loop over the sprites in [update]: a pack within the
    pickup radius is taken. *)
Definition pickUp `{MathLib} (sprite : Sprite.t) (st : t * list Sprite.t)
  : t * list Sprite.t :=
  let '(this, later) := st in
  let playerPickupRadius := (tileSize / ofZ 2)%num in
  if Sprite.visible sprite && type_truthy sprite then
    let distance :=
      distanceBetweenPoints (x this) (y this) (Sprite.x sprite) (Sprite.y sprite) in
    if (distance <? playerPickupRadius)%num then
      if type_is sprite "ammo" then
        (set_ammo this (ammo this + ofZ 10)%num, Sprite_set_visible sprite false :: later)
      else if type_is sprite "health" then
        let healthToGain := ofZ 25 in
        if (health this <? ofZ 100)%num then
          (set_health this (Num.min (ofZ 100) (health this + healthToGain)%num),
           Sprite_set_visible sprite false :: later)
        else (this, sprite :: later)
      else (this, sprite :: later)
    else (this, sprite :: later)
  else (this, sprite :: later).

(** [update]: the move, guarded by [checkCollision]; the rotation; the
    sprites, from the last to the first; the rays, set to the new position
    and angle.  A ray that is [undefined] makes the write throw. *)
Definition update `{MathLib} `{MathSin} (fuel : nat) (sprites : list Sprite.t)
    (this : t) : outcome (t * list Sprite.t) :=
  let newX :=
    (x this + movementInput this * Math_cos (rotationAngle this) * movementSpeed this)%num in
  let newY :=
    (y this + movementInput this * Math_sin (rotationAngle this) * movementSpeed this)%num in
  let* collides := checkCollision this newX newY in
  let this := if negb collides then set_position this newX newY else this in
  let this :=
    set_rotationAngle this (rotationAngle this + rotationInput this * rotationSpeed this)%num in
  let this := set_rotationAngle this (normalizeAngle (rotationAngle this)) in
  let '(this, sprites) := foldr pickUp (this, []) sprites in
  let* rays :=
    for_loop fuel 0 (numberOfRays this)
      (fun i rays =>
         match rays !! i with
         | None => Throw
         | Some ray =>
             Ret (<[i := Ray_setAngle (Ray_set_origin ray (x this) (y this))
                           (rotationAngle this)]> rays)
         end)
      (rays this) in
  Ret (set_rays this rays, sprites).

(** [draw]: every ray is drawn, which casts it and writes the depth
    buffer; in the 2D view the player is drawn as a square with a line
    along the view. *)
Definition draw `{MathLib} `{MathSin} (fuel : nat) (renderMode : num)
    (cfg : LightConfig) (this : t) (zBuffer : gmap Z num)
  : outcome (t * gmap Z num * list paintOp) :=
  let* (rays, zBuffer, ops) :=
    for_loop fuel 0 (numberOfRays this)
      (fun i (st : gmap Z Ray.t * gmap Z num * list paintOp) =>
         let '(rays, zBuffer, ops) := st in
         match rays !! i with
         | None => Throw
         | Some ray =>
             let* (ray, zBuffer, calls) := Ray.draw fuel renderMode cfg ray zBuffer in
             Ret (<[i := ray]> rays, zBuffer, ops ++ (op <$> calls))
         end)
      (rays this, zBuffer, []) in
  let this := set_rays this rays in
  if (renderMode === one)%num then
    let targetX := (x this + Math_cos (rotationAngle this) * ofZ 20)%num in
    let targetY := (y this + Math_sin (rotationAngle this) * ofZ 20)%num in
    Ret (this, zBuffer,
         ops ++ [set_fillStyle "#FFFFFF";
                 op (fillRect (x this - ofZ 3)%num (y this - ofZ 3)%num (ofZ 6) (ofZ 6));
                 op beginPath;
                 op (moveTo (x this) (y this));
                 op (lineTo targetX targetY);
                 set_strokeStyle "#FFFFFF";
                 op stroke])
  else Ret (this, zBuffer, ops).

End PlayerClass.

(** ** What the player keeps

    The fan: a ray for every column of the screen, at its own column and
    on the level of the player.  A free place: a point in a tile of the
    map that holds [0]. *)
Definition fan_ok (p : PlayerClass.t) : Prop :=
  PlayerClass.numberOfRays p = canvasWidth /\
  forall i, 0 <= i < 500 ->
    exists ray, PlayerClass.rays p !! i = Some ray /\
      Ray.screenColumn ray = i /\ Ray.gameLevel ray = PlayerClass.gameLevel p.

Definition free_place (lvl : Level) (x y : num) : Prop :=
  exists (qx qy : Q),
    x = Finite qx /\ y = Finite qy /\
    0 <= Qfloor (qx / 50) < mapWidth lvl /\ 0 <= Qfloor (qy / 50) < mapHeight lvl /\
    grid_at (mapData lvl) (Qfloor (qx / 50)) (Qfloor (qy / 50)) = Some 0.


(** What taking packs leaves of the player: everything but the health and
    the ammunition. *)
Definition same_but_stock (p q : PlayerClass.t) : Prop :=
  PlayerClass.gameLevel q = PlayerClass.gameLevel p /\
  PlayerClass.x q = PlayerClass.x p /\ PlayerClass.y q = PlayerClass.y p /\
  PlayerClass.movementInput q = PlayerClass.movementInput p /\
  PlayerClass.rotationInput q = PlayerClass.rotationInput p /\
  PlayerClass.rotationAngle q = PlayerClass.rotationAngle p /\
  PlayerClass.rotationSpeed q = PlayerClass.rotationSpeed p /\
  PlayerClass.movementSpeed q = PlayerClass.movementSpeed p /\
  PlayerClass.numberOfRays q = PlayerClass.numberOfRays p /\
  PlayerClass.rays q = PlayerClass.rays p /\
  PlayerClass.score q = PlayerClass.score p /\
  PlayerClass.playerActionState q = PlayerClass.playerActionState p.

(** A sprite before and after [update]: left as it was, or a visible pack
    of ammunition or of health within the pickup radius of the player at
    [(x, y)], hidden. *)
Definition kept_or_taken `{MathLib} (x y : num) (before after : Sprite.t) : Prop :=
  after = before \/
  (after = Sprite_set_visible before false /\ Sprite.visible before = true /\
   (type_is before "ammo" = true \/ type_is before "health" = true) /\
   (distanceBetweenPoints x y (Sprite.x before) (Sprite.y before)
    <? tileSize / ofZ 2)%num = true).

(** The packs of ammunition that were taken. *)
Definition ammo_taken (before after : list Sprite.t) : nat :=
  length (List.filter
            (fun pair : Sprite.t * Sprite.t =>
               type_is pair.1 "ammo" && Sprite.visible pair.1
               && negb (Sprite.visible pair.2))
            (zip before after)).


(** A player to run the model on: the one the constructor builds in the
    room, at [(75, 75)]. *)
Definition roomPlayer : PlayerClass.t :=
  match @PlayerClass.new RationalMath.lib 501 roomLevel (ofZ 75) (ofZ 75) with
  | Ret p => p
  | _ =>
      {| PlayerClass.gameLevel := roomLevel;
         PlayerClass.x := ofZ 75; PlayerClass.y := ofZ 75;
         PlayerClass.movementInput := zero; PlayerClass.rotationInput := zero;
         PlayerClass.rotationAngle := zero;
         PlayerClass.rotationSpeed := zero; PlayerClass.movementSpeed := zero;
         PlayerClass.numberOfRays := zero; PlayerClass.rays := ∅;
         PlayerClass.health := zero; PlayerClass.ammo := zero;
         PlayerClass.score := zero; PlayerClass.playerActionState := zero |}
  end.

(** A rational sine: it knows [sin 0]. *)
Definition rationalSin : MathSin := {|
  Math_sin := fun x =>
    match x with
    | Finite a => if Qeq_bool a 0 then zero else NaN
    | _ => NaN
    end
|}.

(** A pack of ammunition and a pack of health beside the player of the
    room, and a pack of ammunition far from it. *)
Definition pack (kind : String.string) (x y : Z) : Sprite.t := {|
  Sprite.x := ofZ x;
  Sprite.y := ofZ y;
  Sprite.image := Some smallImage;
  Sprite.renderingContext := true;
  Sprite.distanceToPlayer := zero;
  Sprite.angleRelativeToPlayerView := zero;
  Sprite.visible := true;
  Sprite.flipped := false;
  Sprite.worldHeight := None;
  Sprite.type := Some kind
|}.

Definition roomPacks : list Sprite.t :=
  [pack "ammo" 78 79; pack "health" 75 75; pack "ammo" 275 75].


(** ** The projectile of an enemy ([js/enemyProjectile.js])

    [!v] for a number [v]: zero and [NaN] are falsy. *)
Definition falsy (v : num) : bool :=
  match v with
  | Finite q => Qeq_bool q 0
  | NaN => true
  | _ => false
  end.

Module EnemyProjectile.

Record t : Type := {
  x : num;
  y : num;
  angle : num;
  speed : num;
  image : option Image;
  renderingContext : bool;
  radius : num;
  isActive : bool;
  sprite : option Sprite.t
}.

Definition new (startX startY angle speed : num) (image : option Image)
    (renderingContext : bool) : t := {|
  x := startX;
  y := startY;
  angle := angle;
  speed := speed;
  image := image;
  renderingContext := renderingContext;
  radius := (tileSize / ofZ 9)%num;
  isActive := true;
  sprite :=
    Some (Sprite_set_visible
            (Sprite_set_worldHeight (Sprite.new startX startY image renderingContext)
               (tileSize / Finite (7 # 2))%num)
            true)
|}.

(** The step of [update]: the projectile and its sprite move together. *)
Definition move (this : t) (deltaX deltaY : num) : t := {|
  x := (x this + deltaX)%num;
  y := (y this + deltaY)%num;
  angle := angle this;
  speed := speed this;
  image := image this;
  renderingContext := renderingContext this;
  radius := radius this;
  isActive := isActive this;
  sprite :=
    match sprite this with
    | Some s => Some (Sprite_set_position s (x this + deltaX)%num (y this + deltaY)%num)
    | None => None
    end
|}.

Definition deactivate (this : t) : t := {|
  x := x this;
  y := y this;
  angle := angle this;
  speed := speed this;
  image := image this;
  renderingContext := renderingContext this;
  radius := radius this;
  isActive := false;
  sprite :=
    match sprite this with
    | Some s => Some (Sprite_set_visible s false)
    | None => None
    end
|}.

Definition checkWallCollision (gameLevel : option Level) (this : t) : outcome t :=
  if negb (isActive this) then Ret this
  else
    match gameLevel with
    | None => Ret this
    | Some gameLevel =>
        let tileX := floor (x this / tileSize) in
        let tileY := floor (y this / tileSize) in
        let* hit :=
          if (tileX <? zero)%num || (tileX >=? ofZ (mapWidth gameLevel))%num ||
             (tileY <? zero)%num || (tileY >=? ofZ (mapHeight gameLevel))%num
          then Ret true
          else hasCollision gameLevel tileX tileY in
        Ret (if hit : bool then deactivate this else this)
    end.

Definition checkPlayerCollision `{MathLib} (player : option PlayerClass.t) (this : t)
  : t * option PlayerClass.t :=
  if negb (isActive this) then (this, player)
  else
    match player with
    | None => (this, player)
    | Some p =>
        if falsy (PlayerClass.health p) then (this, player)
        else
          let distance :=
            distanceBetweenPoints (x this) (y this) (PlayerClass.x p) (PlayerClass.y p) in
          let playerCollisionRadius := (tileSize / ofZ 3)%num in
          if (distance <? radius this + playerCollisionRadius)%num
          then (deactivate this, Some (PlayerClass.takeDamage p (ofZ 2)))
          else (this, player)
    end.

Definition checkOutOfBounds (gameLevel : option Level) (this : t) : t :=
  if negb (isActive this) then this
  else
    match gameLevel with
    | None => this
    | Some gameLevel =>
        if (x this <? - tileSize)%num ||
           (x this >? ofZ (mapWidth gameLevel) * tileSize + tileSize)%num ||
           (y this <? - tileSize)%num ||
           (y this >? ofZ (mapHeight gameLevel) * tileSize + tileSize)%num
        then deactivate this
        else this
    end.

Definition update `{MathLib} `{MathSin} (gameLevel : option Level)
    (player : option PlayerClass.t) (this : t) : outcome (t * option PlayerClass.t) :=
  if negb (isActive this) then Ret (this, player)
  else
    let deltaX := (Math_cos (angle this) * speed this)%num in
    let deltaY := (Math_sin (angle this) * speed this)%num in
    let this := move this deltaX deltaY in
    let* this := checkWallCollision gameLevel this in
    let '(this, player) := checkPlayerCollision player this in
    Ret (checkOutOfBounds gameLevel this, player).

End EnemyProjectile.

(** A projectile of an enemy at the player of the room, flying along the
    first row of the floor. *)
Definition roomShot : EnemyProjectile.t :=
  EnemyProjectile.new (ofZ 80) (ofZ 75) zero (Finite (9 # 2)) (Some smallImage) true.


(** ** The rising effect ([js/risingSpriteEffect.js])

    [Date.now()] is an input of the constructor and of [update]. *)
Module RisingSpriteEffect.

Record t : Type := {
  x : num;
  y : num;
  image : option Image;
  renderingContext : bool;
  riseSpeed : num;
  isActive : bool;
  startTime : num;
  duration : num;
  sprite : option Sprite.t
}.

(** The speed and the duration default to [0.5] and [3000]. *)
Definition new (now : num) (startX startY : num) (image : option Image)
    (renderingContext : bool) (riseSpeed duration : option num) : t := {|
  x := startX;
  y := startY;
  image := image;
  renderingContext := renderingContext;
  riseSpeed := match riseSpeed with Some v => v | None => Finite (1 # 2) end;
  isActive := true;
  startTime := now;
  duration := match duration with Some v => v | None => ofZ 3000 end;
  sprite :=
    Some (Sprite_set_visible
            (Sprite_set_worldHeight (Sprite.new startX startY image renderingContext)
               (tileSize * Finite (3 # 4))%num)
            true)
|}.

Definition rise (this : t) : t := {|
  x := x this;
  y := (y this - riseSpeed this)%num;
  image := image this;
  renderingContext := renderingContext this;
  riseSpeed := riseSpeed this;
  isActive := isActive this;
  startTime := startTime this;
  duration := duration this;
  sprite :=
    match sprite this with
    | Some s => Some (Sprite_set_position s (x this) (y this - riseSpeed this)%num)
    | None => None
    end
|}.

Definition deactivate (this : t) : t := {|
  x := x this;
  y := y this;
  image := image this;
  renderingContext := renderingContext this;
  riseSpeed := riseSpeed this;
  isActive := false;
  startTime := startTime this;
  duration := duration this;
  sprite :=
    match sprite this with
    | Some s => Some (Sprite_set_visible s false)
    | None => None
    end
|}.

Definition update (now : num) (this : t) : t :=
  if negb (isActive this) then this
  else
    let this := rise this in
    if (now - startTime this >? duration this)%num then deactivate this else this.

End RisingSpriteEffect.

(** The updates of an effect at the times of a list, in order. *)
Definition updates (times : list num) (effect : RisingSpriteEffect.t)
  : RisingSpriteEffect.t :=
  foldl (fun effect now => RisingSpriteEffect.update now effect) effect times.

(** The time is within the duration of the effect. *)
Definition in_time (effect : RisingSpriteEffect.t) (now : num) : Prop :=
  (now - RisingSpriteEffect.startTime effect >? RisingSpriteEffect.duration effect)%num
  = false.


(** ** The enemy ([js/enemyAI.js])

    The part of [class Enemy] that its movement and its sight read and
    write: the place, the sprite, the life, the view distance and the walk
    cycle.  The level and the player are the globals [gameLevel] and
    [player], [None] when they are not set. *)
Definition Sprite_set_flipped (this : Sprite.t) (flipped : bool) : Sprite.t := {|
  Sprite.x := Sprite.x this;
  Sprite.y := Sprite.y this;
  Sprite.image := Sprite.image this;
  Sprite.renderingContext := Sprite.renderingContext this;
  Sprite.distanceToPlayer := Sprite.distanceToPlayer this;
  Sprite.angleRelativeToPlayerView := Sprite.angleRelativeToPlayerView this;
  Sprite.visible := Sprite.visible this;
  Sprite.flipped := flipped;
  Sprite.worldHeight := Sprite.worldHeight this;
  Sprite.type := Sprite.type this
|}.

Module Enemy.

Record t : Type := {
  x : num;
  y : num;
  sprite : option Sprite.t;
  viewDistance : num;
  isAlive : bool;
  walkCycleDistance : num;
  distanceMovedSinceLastFlip : num;
  isSpriteFlipped : bool
}.

(** The points [canMoveTo] checks: the target and the four points a
    quarter of a tile from it. *)
Definition pointsToCheck (targetX targetY : num) : list (num * num) :=
  let checkRadius := (tileSize / ofZ 4)%num in
  [(targetX, targetY); ((targetX + checkRadius)%num, targetY);
   ((targetX - checkRadius)%num, targetY); (targetX, (targetY + checkRadius)%num);
   (targetX, (targetY - checkRadius)%num)].

(** The loop over the points, which returns false at the first point that
    is off the map or on a wall. *)
Fixpoint allClear (gameLevel : Level) (points : list (num * num)) : outcome bool :=
  match points with
  | [] => Ret true
  | point :: points =>
      let tileX := floor (point.1 / tileSize) in
      let tileY := floor (point.2 / tileSize) in
      let* blocked :=
        if (tileX <? zero)%num || (tileX >=? ofZ (mapWidth gameLevel))%num ||
           (tileY <? zero)%num || (tileY >=? ofZ (mapHeight gameLevel))%num
        then Ret true
        else hasCollision gameLevel tileX tileY in
      if blocked : bool then Ret false else allClear gameLevel points
  end.

Definition canMoveTo (gameLevel : option Level) (targetX targetY : num) : outcome bool :=
  match gameLevel with
  | None => Ret false
  | Some gameLevel => allClear gameLevel (pointsToCheck targetX targetY)
  end.

Definition move `{MathLib} (gameLevel : option Level) (this : t) (dx dy : num)
  : outcome (t * bool) :=
  if negb (isAlive this) then Ret (this, false)
  else
    let* clear := canMoveTo gameLevel (x this + dx)%num (y this + dy)%num in
    if clear : bool then
      let distanceMoved :=
        (distanceMovedSinceLastFlip this + Math_sqrt (dx * dx + dy * dy))%num in
      if (distanceMoved >=? walkCycleDistance this)%num then
        Ret ({| x := (x this + dx)%num;
                y := (y this + dy)%num;
                sprite :=
                  match sprite this with
                  | Some s => Some (Sprite_set_flipped s (negb (isSpriteFlipped this)))
                  | None => None
                  end;
                viewDistance := viewDistance this;
                isAlive := isAlive this;
                walkCycleDistance := walkCycleDistance this;
                distanceMovedSinceLastFlip := zero;
                isSpriteFlipped := negb (isSpriteFlipped this) |}, true)
      else
        Ret ({| x := (x this + dx)%num;
                y := (y this + dy)%num;
                sprite := sprite this;
                viewDistance := viewDistance this;
                isAlive := isAlive this;
                walkCycleDistance := walkCycleDistance this;
                distanceMovedSinceLastFlip := distanceMoved;
                isSpriteFlipped := isSpriteFlipped this |}, true)
    else Ret (this, false).

(** One turn of the loop of [canSeePlayer] over the points of the line of
    sight. *)
Definition sightBody (gameLevel : Level) (this : t)
    (deltaXStep deltaYStep lineOfSightSteps : num) (i : Z) : outcome (Z + bool) :=
  if (ofZ i <? lineOfSightSteps)%num then
    let checkX := (x this + deltaXStep * ofZ i)%num in
    let checkY := (y this + deltaYStep * ofZ i)%num in
    let* blocked :=
      hasCollision gameLevel (floor (checkX / tileSize)) (floor (checkY / tileSize)) in
    if blocked : bool then Ret (inr false) else Ret (inl (i + 1))
  else Ret (inr true).

Definition canSeePlayer `{MathLib} (fuel : nat) (player : option PlayerClass.t)
    (gameLevel : option Level) (this : t) : outcome bool :=
  match player, gameLevel with
  | Some player, Some gameLevel =>
      let distanceToPlayer :=
        distanceBetweenPoints (x this) (y this) (PlayerClass.x player)
          (PlayerClass.y player) in
      if (distanceToPlayer >? viewDistance this)%num then Ret false
      else
        let lineOfSightSteps :=
          Num.max one (floor (distanceToPlayer / (tileSize / ofZ 4)))%num in
        let deltaXStep := ((PlayerClass.x player - x this) / lineOfSightSteps)%num in
        let deltaYStep := ((PlayerClass.y player - y this) / lineOfSightSteps)%num in
        while fuel (sightBody gameLevel this deltaXStep deltaYStep lineOfSightSteps) 1
  | _, _ => Ret false
  end.

End Enemy.

(** An enemy in the room, four tiles to the right of the player. *)
Definition roomEnemy : Enemy.t := {|
  Enemy.x := ofZ 275;
  Enemy.y := ofZ 75;
  Enemy.sprite := Some (Sprite.new (ofZ 275) (ofZ 75) (Some smallImage) true);
  Enemy.viewDistance := ofZ 100;
  Enemy.isAlive := true;
  Enemy.walkCycleDistance := ofZ 20;
  Enemy.distanceMovedSinceLastFlip := zero;
  Enemy.isSpriteFlipped := false
|}.


(** ** Grid lines

    A coordinate on a line of the grid: a multiple of the tile size; the
    crossing recorded by a march that left the map is [Infinity]. *)
Definition on_grid_line (n : num) : Prop :=
  n = PosInf \/ exists k : Z, n = ofZ (50 * k).


(** A call that draws one column of the image of a sprite, one column
    wide, from the top of the texture. *)
Definition is_strip (call : canvasOp) : Prop :=
  exists (img : Image) (sx sh dx dy dh : num),
    call = drawImage (spriteImage img) sx zero one sh dx dy one dh.


(** ** Places to start from ([js/main.js])

    [a.splice(start, 1)]: the array without the element at [start] and the
    element removed, [None] when there is none.  A negative [start] counts
    from the end, and [NaN] is [0]. *)
Definition splice_start (start : num) (len : nat) : nat :=
  match start with
  | Finite q =>
      let z := Qtrunc q in
      if z <? 0 then Z.to_nat (Z.max (Z.of_nat len + z) 0)
      else Nat.min (Z.to_nat z) len
  | PosInf => len
  | NegInf | NaN => O
  end.

Definition splice1 {A : Type} (a : list A) (start : num) : list A * option A :=
  let k := splice_start start (length a) in
  (take k a ++ drop (S k) a, a !! k).

(** [occupiedCoords.some(spot => spot.r === r && spot.c === c)]. *)
Definition isOccupied (occupiedCoords : list (num * num)) (r c : Z) : bool :=
  existsb (fun spot : num * num => (spot.1 === ofZ r)%num && (spot.2 === ofZ c)%num)
    occupiedCoords.

(** One turn of the loop that draws the places: [Math.random()] is the
    sequence [random], one number for each turn. *)
Definition selectBody (random : nat -> num) (quantity : num)
    (st : Z * list (Z * Z) * list (option (Z * Z)))
  : outcome (Z * list (Z * Z) * list (option (Z * Z)) + list (option (Z * Z))) :=
  let '(i, availableEmptySpots, selectedSpots) := st in
  if (ofZ i <? quantity)%num && (0 <? length availableEmptySpots)%nat then
    let randomIndex :=
      floor (random (Z.to_nat i) * ofZ (Z.of_nat (length availableEmptySpots)))%num in
    let '(rest, removed) := splice1 availableEmptySpots randomIndex in
    Ret (inl (i + 1, rest, selectedSpots ++ [removed]))
  else Ret (inr selectedSpots).

(** [findRandomEmptySpotCoordinates], for a layout that is given: the
    places are pairs of a row and a column, [None] for [undefined]. *)
Definition findRandomEmptySpotCoordinates (fuel : nat) (random : nat -> num)
    (levelLayout : list (list Z)) (quantity : num) (occupiedCoords : list (num * num))
  : outcome (list (option (Z * Z))) :=
  match levelLayout with
  | [] => Ret []
  | row0 :: _ =>
      if (length row0 =? 0)%nat then Ret []
      else
        let* availableEmptySpots :=
          for_loop fuel 1 (ofZ (Z.of_nat (length levelLayout) - 1))
            (fun r available =>
               for_loop fuel 1 (ofZ (Z.of_nat (length row0) - 1))
                 (fun c available =>
                    match levelLayout !! Z.to_nat r with
                    | None => Throw
                    | Some row =>
                        match row !! Z.to_nat c with
                        | Some v =>
                            if (v =? 0) && negb (isOccupied occupiedCoords r c)
                            then Ret (available ++ [(r, c)])
                            else Ret available
                        | None => Ret available
                        end
                    end)
                 available)
            [] in
        while fuel (selectBody random quantity) (0, availableEmptySpots, [])
  end.

(** A place to start from: a tile that is not on the border of the layout,
    holds [0] and is not occupied. *)
Definition empty_spot (levelLayout : list (list Z)) (occupiedCoords : list (num * num))
    (spot : Z * Z) : Prop :=
  1 <= spot.1 < Z.of_nat (length levelLayout) - 1 /\
  1 <= spot.2 < match levelLayout !! 0%nat with
                | Some row0 => Z.of_nat (length row0) - 1
                | None => 0
                end /\
  grid_at levelLayout spot.2 spot.1 = Some 0 /\
  isOccupied occupiedCoords spot.1 spot.2 = false.

(** The place [a] comes before the place [b] in the order of the loops. *)
Definition spot_before (a b : Z * Z) : Prop :=
  a.1 < b.1 \/ (a.1 = b.1 /\ a.2 < b.2).

(** The numbers of [Math.random()]: from [0] up to, and not including, [1]. *)
Definition random_ok (random : nat -> num) : Prop :=
  forall k, exists q : Q, random k = Finite q /\ (0 <= q)%Q /\ (q < 1)%Q.


(** The places collected before the loops reach the place [next]: the
    empty spots before it, each once. *)
Definition spots_upto (levelLayout : list (list Z)) (occupiedCoords : list (num * num))
    (next : Z * Z) (available : list (Z * Z)) : Prop :=
  NoDup available /\
  (forall s, s ∈ available ->
     empty_spot levelLayout occupiedCoords s /\ spot_before s next) /\
  (forall s, empty_spot levelLayout occupiedCoords s -> spot_before s next ->
     s ∈ available).

(** A random sequence to run the model on: a half, every time. *)
Definition halves : nat -> num := fun _ => Finite (1 # 2).


(** ** The inputs of the player ([js/player.js]) *)

Definition set_movementInput (this : PlayerClass.t) (input : num) : PlayerClass.t := {|
  PlayerClass.gameLevel := PlayerClass.gameLevel this;
  PlayerClass.x := PlayerClass.x this; PlayerClass.y := PlayerClass.y this;
  PlayerClass.movementInput := input;
  PlayerClass.rotationInput := PlayerClass.rotationInput this;
  PlayerClass.rotationAngle := PlayerClass.rotationAngle this;
  PlayerClass.rotationSpeed := PlayerClass.rotationSpeed this;
  PlayerClass.movementSpeed := PlayerClass.movementSpeed this;
  PlayerClass.numberOfRays := PlayerClass.numberOfRays this;
  PlayerClass.rays := PlayerClass.rays this;
  PlayerClass.health := PlayerClass.health this;
  PlayerClass.ammo := PlayerClass.ammo this;
  PlayerClass.score := PlayerClass.score this;
  PlayerClass.playerActionState := PlayerClass.playerActionState this
|}.

Definition set_rotationInput (this : PlayerClass.t) (input : num) : PlayerClass.t := {|
  PlayerClass.gameLevel := PlayerClass.gameLevel this;
  PlayerClass.x := PlayerClass.x this; PlayerClass.y := PlayerClass.y this;
  PlayerClass.movementInput := PlayerClass.movementInput this;
  PlayerClass.rotationInput := input;
  PlayerClass.rotationAngle := PlayerClass.rotationAngle this;
  PlayerClass.rotationSpeed := PlayerClass.rotationSpeed this;
  PlayerClass.movementSpeed := PlayerClass.movementSpeed this;
  PlayerClass.numberOfRays := PlayerClass.numberOfRays this;
  PlayerClass.rays := PlayerClass.rays this;
  PlayerClass.health := PlayerClass.health this;
  PlayerClass.ammo := PlayerClass.ammo this;
  PlayerClass.score := PlayerClass.score this;
  PlayerClass.playerActionState := PlayerClass.playerActionState this
|}.

Definition startMovingForward (this : PlayerClass.t) : PlayerClass.t :=
  set_movementInput this one.
Definition startMovingBackward (this : PlayerClass.t) : PlayerClass.t :=
  set_movementInput this (ofZ (-1)).
Definition startTurningRight (this : PlayerClass.t) : PlayerClass.t :=
  set_rotationInput this one.
Definition startTurningLeft (this : PlayerClass.t) : PlayerClass.t :=
  set_rotationInput this (ofZ (-1)).
Definition stopAxialMovement (this : PlayerClass.t) : PlayerClass.t :=
  set_movementInput this zero.
Definition stopRotationalMovement (this : PlayerClass.t) : PlayerClass.t :=
  set_rotationInput this zero.

(** A call of a method of the player, with what it reads beside the
    player and the turns its loops may take, above the 500 rays and the
    bound of the marches. *)
Inductive playerCall `{MathLib} `{MathSin} : PlayerClass.t -> PlayerClass.t -> Prop :=
  | call_startMovingForward p : playerCall p (startMovingForward p)
  | call_startMovingBackward p : playerCall p (startMovingBackward p)
  | call_startTurningRight p : playerCall p (startTurningRight p)
  | call_startTurningLeft p : playerCall p (startTurningLeft p)
  | call_stopAxialMovement p : playerCall p (stopAxialMovement p)
  | call_stopRotationalMovement p : playerCall p (stopRotationalMovement p)
  | call_takeDamage p amount : playerCall p (PlayerClass.takeDamage p amount)
  | call_update p fuel sprites p' sprites' :
      (500 < fuel)%nat ->
      PlayerClass.update fuel sprites p = Ret (p', sprites') -> playerCall p p'
  | call_draw p fuel renderMode cfg zBuffer p' zBuffer' ops :
      (500 < fuel)%nat -> (marchBound (PlayerClass.gameLevel p) <= fuel)%nat ->
      PlayerClass.draw fuel renderMode cfg p zBuffer = Ret (p', zBuffer', ops) ->
      playerCall p p'.

(** What the player keeps through its methods: its level, a free place,
    an angle from zero to the full turn, the speed of its rotation, a
    rotation input of [-1], [0] or [1], and the fan of its rays. *)
Definition player_ok (lvl : Level) (p : PlayerClass.t) : Prop :=
  PlayerClass.gameLevel p = lvl /\
  free_place lvl (PlayerClass.x p) (PlayerClass.y p) /\
  (exists r : Q, PlayerClass.rotationAngle p = Finite r /\ (0 <= r)%Q /\ (r <= TWO_PI)%Q) /\
  PlayerClass.rotationSpeed p = degreesToRadians (ofZ 2) /\
  (exists k : Z, PlayerClass.rotationInput p = ofZ k /\ -1 <= k <= 1) /\
  fan_ok p.

(** ** The crossings of a march

    The crossing a march looks at in its turn [k], counted from zero: the
    first intersection with the step added [k] times, as the loop adds it;
    and the cell the march checks at a crossing.  A turn goes one of three
    ways.  The cell is a tile of the map that holds no wall, and the march
    goes on: [freeCell].  Or the march ends, [marchEnd]: the cell is off
    the map and the march records [Infinity], or the cell is not off the
    map, [hasCollision] answers [true], and the march records the
    crossing. *)
Definition hCrossing `{MathLib} (this : Ray.t) (k : nat) : num * num :=
  Nat.iter k
    (fun s : num * num => ((s.1 + Ray.hStepX this)%num, (s.2 + Ray.hStepY this)%num))
    (Ray.hIntersectionX this, Ray.hIntersectionY this).

Definition vCrossing `{MathLib} (this : Ray.t) (k : nat) : num * num :=
  Nat.iter k
    (fun s : num * num => ((s.1 + Ray.vStepX this)%num, (s.2 + Ray.vStepY this)%num))
    (Ray.vIntersectionX this, Ray.vIntersectionY this).

Definition hCell `{MathLib} (this : Ray.t) (s : num * num) : num * num :=
  (floor (s.1 / tileSize),
   if Ray.isFacingDown this then floor (s.2 / tileSize)
   else (floor (s.2 / tileSize) - one)%num).

Definition vCell `{MathLib} (this : Ray.t) (s : num * num) : num * num :=
  (if Ray.isFacingLeft this then (floor (s.1 / tileSize) - one)%num
   else floor (s.1 / tileSize),
   floor (s.2 / tileSize)).

Definition freeCell (this : Ray.t) (cell : num * num) : Prop :=
  Ray.outside this cell.1 cell.2 = false /\
  hasCollision (Ray.gameLevel this) cell.1 cell.2 = Ret false.

Definition marchEnd (this : Ray.t) (cell crossing hit : num * num) : Prop :=
  (Ray.outside this cell.1 cell.2 = true /\ hit = (PosInf, PosInf)) \/
  (Ray.outside this cell.1 cell.2 = false /\
   hasCollision (Ray.gameLevel this) cell.1 cell.2 = Ret true /\ hit = crossing).

(** ** A [Math] of doubles

    A second instance of the interface, to run the model on angles other
    than zero: the sine and the cosine by their series, in fixed point
    with 128 binary places after a reduction of the angle by quarter
    turns, the tangent as their quotient, the square root from the integer
    square root; every result is rounded to the nearest double.  The
    integer powers are those of the rational instance, and [atan2] is
    known on the axes. *)
Module DoubleMath.

(** An integer [z] stands for [z / 2^128]. *)
Definition toFix (q : Q) : Z := Qfloor (q * inject_Z (2 ^ 128)).
Definition ofFix (z : Z) : Q := z # 340282366920938463463374607431768211456.
Definition mulFix (a b : Z) : Z := Z.shiftr (a * b) 128.

(** A quarter turn in fixed point, from fifty digits of the real number. *)
Definition HALF_PI : Z := 534514292032483373929840186580935391650.

(** The terms of the series of the sine and of the cosine from the term of
    degree [k] on: each is the one before times [- y^2 / ((k+1) (k+2))]. *)
Fixpoint series (n : nat) (k : Z) (term y2 : Z) : Z :=
  match n with
  | O => 0
  | S n' => term + series n' (k + 2) (- mulFix term y2 / ((k + 1) * (k + 2))) y2
  end.

Definition sinFix (y : Z) : Z := series 20 1 y (mulFix y y).
Definition cosFix (y : Z) : Z := series 20 0 (2 ^ 128) (mulFix y y).

(** The quarter turns nearest to an angle, and what is left of it. *)
Definition quarters (x : Z) : Z := (2 * x + HALF_PI) / (2 * HALF_PI).
Definition reduced (x : Z) : Z := x - quarters x * HALF_PI.

Definition sinOf (q : Q) : Z :=
  let x := toFix q in
  let y := reduced x in
  match quarters x mod 4 with
  | 0 => sinFix y
  | 1 => cosFix y
  | 2 => - sinFix y
  | _ => - cosFix y
  end.

Definition cosOf (q : Q) : Z :=
  let x := toFix q in
  let y := reduced x in
  match quarters x mod 4 with
  | 0 => cosFix y
  | 1 => - sinFix y
  | 2 => - cosFix y
  | _ => sinFix y
  end.

(** A sine or a cosine as a double: a number between [-1] and [1]. *)
Definition unit (z : Z) : num :=
  roundDouble (ofFix (Z.max (- 2 ^ 128) (Z.min (2 ^ 128) z))).

Definition sin (x : num) : num :=
  match x with
  | Finite q => unit (sinOf q)
  | _ => NaN
  end.

Definition cos (x : num) : num :=
  match x with
  | Finite q => unit (cosOf q)
  | _ => NaN
  end.

Definition tan (x : num) : num :=
  match x with
  | Finite q =>
      let c := cosOf q in
      if c =? 0 then NaN else roundDouble (inject_Z (sinOf q) / inject_Z c)
  | _ => NaN
  end.

(** [Number.MAX_VALUE]; the root of a double is far below it, and it
    stands in where the root of a rational would lie beyond the doubles. *)
Definition MAX_VALUE : num := Finite (inject_Z ((2 ^ 53 - 1) * 2 ^ 971)).

Definition sqrt (x : num) : num :=
  match x with
  | Finite q =>
      if Qle_bool 0 q then
        match roundDouble (ofFix (Z.sqrt (Qfloor (q * inject_Z (2 ^ 256))))) with
        | Finite r => Finite r
        | _ => MAX_VALUE
        end
      else NaN
  | PosInf => PosInf
  | _ => NaN
  end.

Definition atan2 (y x : num) : num :=
  match y, x with
  | Finite b, Finite a =>
      match (b ?= 0)%Q, (a ?= 0)%Q with
      | Eq, Gt => zero
      | Gt, Eq => (Math_PI / ofZ 2)%num
      | Eq, Lt => Math_PI
      | Lt, Eq => (- (Math_PI / ofZ 2))%num
      | _, _ => NaN
      end
  | _, _ => NaN
  end.

Definition lib : MathLib := {|
  Math_tan := tan;
  Math_cos := cos;
  Math_sqrt := sqrt;
  Math_pow := RationalMath.pow;
  Math_atan2 := atan2
|}.

End DoubleMath.

(** [Math.sin] of doubles. *)
Definition doubleSin : MathSin := {| Math_sin := DoubleMath.sin |}.

(** [Math.cos] of a number is a number. *)
Definition cos_finite `{MathLib} : Prop :=
  forall q : Q, is_finite (Math_cos (Finite q)) = true.

(** ** The columns of a sprite in view

    What [Sprite.draw] computes of a sprite with its render data before
    the loop over the columns: the corrected distance, the height and the
    width on screen, the top, the left edge and the column the loop stops
    before. *)
Definition spriteProjection `{MathLib} (this : Sprite.t) (image : Image)
  : Sprite.Projection :=
  let projectionPlaneDistance :=
    ((canvasWidth / ofZ 2) / Math_tan FOV_RADIANS_HALF)%num in
  let spriteActualWorldHeight :=
    match Sprite.worldHeight this with Some h => h | None => tileSize end in
  let correctedDistanceForProjection :=
    (Sprite.distanceToPlayer this
     * Math_cos (Sprite.angleRelativeToPlayerView this))%num in
  let spriteScreenHeight :=
    ((spriteActualWorldHeight / correctedDistanceForProjection)
     * projectionPlaneDistance)%num in
  let screenY0 := (canvasHeight / ofZ 2 - spriteScreenHeight / ofZ 2)%num in
  let originalTextureHeight := naturalHeight image in
  let originalTextureWidth := naturalWidth image in
  let spriteScreenWidth :=
    (spriteScreenHeight * (originalTextureWidth / originalTextureHeight))%num in
  let xOffsetFromCenterScreen :=
    (Math_tan (- Sprite.angleRelativeToPlayerView this) * projectionPlaneDistance)%num in
  let spriteCenterScreenX := (canvasWidth / ofZ 2 + xOffsetFromCenterScreen)%num in
  let spriteLeftScreenX := (spriteCenterScreenX - spriteScreenWidth / ofZ 2)%num in
  {| Sprite.img := image;
     Sprite.isFlipped := Sprite.flipped this;
     Sprite.correctedDistanceForProjection := correctedDistanceForProjection;
     Sprite.spriteScreenHeight := spriteScreenHeight;
     Sprite.spriteScreenWidth := spriteScreenWidth;
     Sprite.screenY0 := screenY0;
     Sprite.spriteLeftScreenX := spriteLeftScreenX;
     Sprite.endScreenPixelX := floor (spriteLeftScreenX + spriteScreenWidth)%num |}.

(** A flipped sprite one unit high, 100 units straight ahead of a player at
    [(75, 75)] who looks along the row: it covers the screen columns 247 to
    251. *)
Definition viewPlayer : Player.t := {|
  Player.x := ofZ 75;
  Player.y := ofZ 75;
  Player.rotationAngle := zero
|}.

Definition thinSprite : Sprite.t := {|
  Sprite.x := ofZ 175;
  Sprite.y := ofZ 75;
  Sprite.image := Some smallImage;
  Sprite.renderingContext := true;
  Sprite.distanceToPlayer := zero;
  Sprite.angleRelativeToPlayerView := zero;
  Sprite.visible := true;
  Sprite.flipped := true;
  Sprite.worldHeight := Some one;
  Sprite.type := None
|}.

(** ** Rays along an axis

    A ray runs along the row of its origin up to the [n]-th vertical grid
    line it crosses when those crossings lie in that row and the ray
    crosses no horizontal grid line on the map: the cell that the
    horizontal march checks first is off the map, or its first crossing is
    not a number.  Likewise along the column of its origin, where the cell
    that the vertical march checks first is off the map. *)
Definition alongRow `{MathLib} (this : Ray.t) (n : nat) : Prop :=
  (forall k, (k <= n)%nat ->
     floor ((vCrossing this k).2 / tileSize) = floor (Ray.y this / tileSize)) /\
  (Ray.outside this (hCell this (hCrossing this 0)).1 (hCell this (hCrossing this 0)).2
   = true \/
   (hCrossing this 0).1 = NaN).

Definition alongColumn `{MathLib} (this : Ray.t) (n : nat) : Prop :=
  (forall k, (k <= n)%nat ->
     floor ((hCrossing this k).1 / tileSize) = floor (Ray.x this / tileSize)) /\
  Ray.outside this (vCell this (vCrossing this 0)).1 (vCell this (vCrossing this 0)).2
  = true.

(** The rays of the examples: from [(75, 75)] in the room of 15 by 10
    tiles, along the four directions of the axes, with the tangents of the
    doubles nearest to the quarter turns. *)
Definition axisRay (angle : num) : Ray.t :=
  @Ray.new DoubleMath.lib roomLevel (ofZ 75) (ofZ 75) angle zero 3.

(** A player in the room just under the wall of its first row, at
    [(75, 50.01)], who looks along the row, and a sprite one world unit
    high straight ahead at distance 100. *)
Definition edgePlayer : PlayerClass.t :=
  match @PlayerClass.new DoubleMath.lib 501 roomLevel (ofZ 75) (Finite (5001 # 100)) with
  | Ret p => p
  | _ => roomPlayer
  end.

Definition edgeSprite : Sprite.t := {|
  Sprite.x := ofZ 175;
  Sprite.y := Finite (5001 # 100);
  Sprite.image := Some smallImage;
  Sprite.renderingContext := true;
  Sprite.distanceToPlayer := zero;
  Sprite.angleRelativeToPlayerView := zero;
  Sprite.visible := true;
  Sprite.flipped := true;
  Sprite.worldHeight := Some one;
  Sprite.type := None
|}.

(** That player at the angle [0.03490658503988652], a little under the two
    degrees of a turn, with the key of the left turn down. *)
Definition turnedPlayer : PlayerClass.t :=
  startTurningLeft
    (PlayerClass.set_rotationAngle edgePlayer
       (Finite (5030569068109103 # 144115188075855872))).

(** * Facts about numbers *)

(** Case analysis on the integer comparisons of the goal. *)
Ltac split_leb :=
  match goal with |- context [(?x <=? ?y)%Z] => destruct (Z.leb_spec x y) end.
Ltac split_ltb :=
  match goal with |- context [(?x <? ?y)%Z] => destruct (Z.ltb_spec x y) end.
Ltac split_eqb :=
  match goal with |- context [(?x =? ?y)%Z] => destruct (Z.eqb_spec x y) end.
Ltac split_nat_eqb :=
  match goal with |- context [(?x =? ?y)%nat] => destruct (Nat.eqb_spec x y) end.
Ltac zcases := repeat first [split_leb | split_ltb | split_eqb].

Section NumFacts.

Lemma Qle_bool_inject_Z (a b : Z) : Qle_bool (inject_Z a) (inject_Z b) = (a <=? b).
Proof.
  unfold Qle_bool; simpl. rewrite !Z.mul_1_r. reflexivity.
Qed.

Lemma Qeq_bool_inject_Z (a b : Z) : Qeq_bool (inject_Z a) (inject_Z b) = (a =? b).
Proof.
  unfold Qeq_bool; simpl. rewrite !Z.mul_1_r. reflexivity.
Qed.

Lemma le_ofZ (a b : Z) : (ofZ a <=? ofZ b)%num = (a <=? b).
Proof. apply Qle_bool_inject_Z. Qed.

Lemma lt_ofZ (a b : Z) : (ofZ a <? ofZ b)%num = (a <? b).
Proof.
  unfold Num.lt, ofZ. rewrite Qle_bool_inject_Z.
  destruct (Z.leb_spec b a), (Z.ltb_spec a b); simpl; try reflexivity; lia.
Qed.

Lemma ge_ofZ (a b : Z) : (ofZ a >=? ofZ b)%num = (b <=? a).
Proof. apply le_ofZ. Qed.

Lemma neqb_ofZ_zero (v : Z) : (ofZ v !== zero)%num = negb (v =? 0).
Proof. unfold Num.neqb, Num.eqb, zero, ofZ. now rewrite Qeq_bool_inject_Z. Qed.

Lemma Qred_inject_Z (z : Z) : Qred (inject_Z z) = inject_Z z.
Proof.
  apply Qred_identity. simpl. apply Z.gcd_1_r.
Qed.

Lemma index_of_ofZ (z : Z) : 0 <= z -> index_of (ofZ z) = Some (Z.to_nat z).
Proof.
  intros Hz. unfold index_of, ofZ. rewrite Qred_inject_Z. simpl.
  destruct (Z.leb_spec 0 z); [reflexivity | lia].
Qed.

Lemma index_of_lookup {A : Type} (a : list A) (z : Z) :
  0 <= z -> array_get a (ofZ z) = a !! Z.to_nat z.
Proof. intros Hz. unfold array_get. now rewrite index_of_ofZ. Qed.

Lemma in_map_ofZ (lvl : Level) (x y : Z) :
  in_map lvl (ofZ x) (ofZ y) =
  (0 <=? y) && (y <? mapHeight lvl) && (0 <=? x) && (x <? mapWidth lvl).
Proof.
  unfold in_map, zero. now rewrite !ge_ofZ, !lt_ofZ.
Qed.

Lemma div_fin (a b : Q) : ~ (b == 0)%Q -> (Finite a / Finite b)%num = fin (a / b).
Proof.
  intros Hb. unfold Num.div.
  destruct (b ?= 0)%Q eqn:E; try reflexivity.
  apply Qeq_alt in E. contradiction.
Qed.

Lemma floor_fin (q : Q) : floor (fin q) = ofZ (Qfloor q).
Proof.
  unfold fin, floor. f_equal. apply Qfloor_comp, Qred_correct.
Qed.

Lemma floor_div_tile (q : Q) :
  floor (Finite q / tileSize) = ofZ (Qfloor (q / 50)).
Proof.
  unfold tileSize, ofZ. rewrite div_fin by discriminate. apply floor_fin.
Qed.

End NumFacts.

(** * The nearest double *)

Section RoundingFacts.

Lemma two_pow_pos (e : Z) : (0 < 2 ^ e)%Q.
Proof. apply Qpower_0_lt. reflexivity. Qed.

Lemma two_pow_Z (n : Z) : 0 <= n -> (2 ^ n == inject_Z (2 ^ n))%Q.
Proof. intros Hn. now rewrite Zpower_Qpower. Qed.

Lemma binade_le (q : Q) : (0 < q)%Q -> (2 ^ binade q <= q)%Q.
Proof.
  intros Hq. unfold binade.
  set (e := Z.log2 (Qnum q) - Z.log2 (Zpos (Qden q))).
  destruct (Qle_bool (2 ^ e) q) eqn:E; [now apply Qle_bool_iff|].
  destruct q as [n d]. cbn [Qnum Qden] in *.
  assert (Hn : 0 < n) by (unfold Qlt in Hq; simpl in Hq; lia).
  pose proof (Z.log2_spec n Hn) as [Ha _].
  pose proof (Z.log2_spec (Zpos d) ltac:(lia)) as [_ Hb].
  pose proof (Z.log2_nonneg n) as Ha0. pose proof (Z.log2_nonneg (Zpos d)) as Hb0.
  set (a := Z.log2 n) in *. set (b := Z.log2 (Zpos d)) in *.
  replace (e - 1) with (a - Z.succ b) by (unfold e; lia).
  rewrite Qpower_minus by discriminate.
  rewrite !two_pow_Z by lia.
  assert (Hp : 0 < 2 ^ Z.succ b) by (apply Z.pow_pos_nonneg; lia).
  apply Qle_shift_div_r.
  - change 0%Q with (inject_Z 0). now rewrite <- Zlt_Qlt.
  - unfold Qle, Qmult, inject_Z. cbn [Qnum Qden].
    rewrite !Z.mul_1_r. nia.
Qed.

Lemma binade_lt (q : Q) : (0 < q)%Q -> (q < 2 ^ (binade q + 1))%Q.
Proof.
  intros Hq. unfold binade.
  set (e := Z.log2 (Qnum q) - Z.log2 (Zpos (Qden q))).
  destruct (Qle_bool (2 ^ e) q) eqn:E;
    [|replace (e - 1 + 1) with e by lia; now apply Qnot_le_lt; intros Hle;
      apply Qle_bool_iff in Hle; congruence].
  destruct q as [n d]. cbn [Qnum Qden] in *.
  assert (Hn : 0 < n) by (unfold Qlt in Hq; simpl in Hq; lia).
  pose proof (Z.log2_spec n Hn) as [_ Ha].
  pose proof (Z.log2_spec (Zpos d) ltac:(lia)) as [Hb _].
  pose proof (Z.log2_nonneg n) as Ha0. pose proof (Z.log2_nonneg (Zpos d)) as Hb0.
  set (a := Z.log2 n) in *. set (b := Z.log2 (Zpos d)) in *.
  replace (e + 1) with (Z.succ a - b) by (unfold e; lia).
  rewrite Qpower_minus by discriminate.
  rewrite !two_pow_Z by lia.
  assert (Hp : 0 < 2 ^ b) by (apply Z.pow_pos_nonneg; lia).
  apply Qlt_shift_div_l.
  - change 0%Q with (inject_Z 0). now rewrite <- Zlt_Qlt.
  - unfold Qlt, Qmult, inject_Z. cbn [Qnum Qden].
    rewrite !Z.mul_1_r. nia.
Qed.

Lemma roundHalfEven_near (q : Q) :
  (q - (1 # 2) <= inject_Z (roundHalfEven q))%Q /\
  (inject_Z (roundHalfEven q) <= q + (1 # 2))%Q.
Proof.
  unfold roundHalfEven.
  pose proof (Qfloor_le q) as Hlo. pose proof (Qlt_floor q) as Hhi.
  rewrite inject_Z_plus in Hhi. change (inject_Z 1) with 1%Q in Hhi.
  destruct (q - inject_Z (Qfloor q) ?= 1 # 2)%Q eqn:E.
  - apply Qeq_alt in E. destruct (Z.even (Qfloor q));
      rewrite ?inject_Z_plus; change (inject_Z 1) with 1%Q; split; lra.
  - apply Qlt_alt in E. split; lra.
  - apply Qgt_alt in E. rewrite inject_Z_plus. change (inject_Z 1) with 1%Q.
    split; lra.
Qed.

Lemma roundHalfEven_le (q : Q) (n : Z) :
  (q <= inject_Z n)%Q -> roundHalfEven q <= n.
Proof.
  intros Hq. destruct (roundHalfEven_near q) as [_ Hr].
  assert (H : (inject_Z (roundHalfEven q) < inject_Z (n + 1))%Q)
    by (rewrite inject_Z_plus; change (inject_Z 1) with 1%Q; lra).
  rewrite <- Zlt_Qlt in H. lia.
Qed.

Lemma roundHalfEven_ge (q : Q) (n : Z) :
  (inject_Z n <= q)%Q -> n <= roundHalfEven q.
Proof.
  intros Hq. destruct (roundHalfEven_near q) as [Hr _].
  assert (H : (inject_Z (n - 1) < inject_Z (roundHalfEven q))%Q).
  { unfold Z.sub. rewrite inject_Z_plus, inject_Z_opp.
    change (inject_Z 1) with 1%Q. lra. }
  rewrite <- Zlt_Qlt in H. lia.
Qed.

Lemma binade_unique (q : Q) (b : Z) :
  (2 ^ b <= q)%Q -> (q < 2 ^ (b + 1))%Q -> binade q = b.
Proof.
  intros Hlo Hhi.
  assert (Hq : (0 < q)%Q) by (pose proof (two_pow_pos b); lra).
  pose proof (binade_le q Hq) as Hlo'. pose proof (binade_lt q Hq) as Hhi'.
  assert (H1 : binade q < b + 1).
  { apply (Qpower_lt_compat_l_inv 2); [lra | reflexivity]. }
  assert (H2 : b < binade q + 1).
  { apply (Qpower_lt_compat_l_inv 2); [lra | reflexivity]. }
  lia.
Qed.

Lemma binade_comp (p q : Q) : (0 < p)%Q -> (p == q)%Q -> binade p = binade q.
Proof.
  intros Hp E. symmetry. apply binade_unique; rewrite <- E.
  - now apply binade_le.
  - now apply binade_lt.
Qed.

Lemma roundHalfEven_comp (p q : Q) : (p == q)%Q -> roundHalfEven p = roundHalfEven q.
Proof.
  intros E. unfold roundHalfEven. rewrite (Qfloor_comp p q E).
  assert (Ec : (p - inject_Z (Qfloor q) ?= 1 # 2)%Q = (q - inject_Z (Qfloor q) ?= 1 # 2)%Q)
    by (apply Qcompare_comp; [now rewrite E | reflexivity]).
  now rewrite Ec.
Qed.

Lemma nearestDouble_comp (p q : Q) :
  (0 < p)%Q -> (p == q)%Q -> (nearestDouble p == nearestDouble q)%Q.
Proof.
  intros Hp E. unfold nearestDouble.
  rewrite (binade_comp p q Hp E).
  set (e := Z.max (binade q - 52) (-1074)).
  rewrite (roundHalfEven_comp (p / 2 ^ e) (q / 2 ^ e)); [reflexivity|].
  now rewrite E.
Qed.

(** Rounding does not cross a number that the grid of the roundee holds. *)
Lemma nearestDouble_le (a : Q) (n k : Z) :
  (a <= inject_Z n * 2 ^ k)%Q -> Z.max (binade a - 52) (-1074) <= k ->
  (nearestDouble a <= inject_Z n * 2 ^ k)%Q.
Proof.
  intros Ha Hk. unfold nearestDouble.
  set (e := Z.max (binade a - 52) (-1074)) in *.
  pose proof (two_pow_pos e) as He.
  assert (Ek : (2 ^ k == inject_Z (2 ^ (k - e)) * 2 ^ e)%Q).
  { rewrite <- two_pow_Z by lia. rewrite <- Qpower_plus by discriminate.
    now replace (k - e + e) with k by lia. }
  assert (Hm : roundHalfEven (a / 2 ^ e) <= n * 2 ^ (k - e)).
  { apply roundHalfEven_le. apply Qle_shift_div_r; [assumption|].
    rewrite inject_Z_mult, <- Qmult_assoc, <- Ek. exact Ha. }
  rewrite Ek, Qmult_assoc, <- inject_Z_mult.
  apply Qmult_le_compat_r; [|lra].
  now rewrite <- Zle_Qle.
Qed.

Lemma nearestDouble_nonneg (a : Q) : (0 <= a)%Q -> (0 <= nearestDouble a)%Q.
Proof.
  intros Ha. unfold nearestDouble.
  set (e := Z.max (binade a - 52) (-1074)).
  pose proof (two_pow_pos e) as He.
  apply Qmult_le_0_compat; [|lra].
  change 0%Q with (inject_Z 0). rewrite <- Zle_Qle.
  apply roundHalfEven_ge. change (inject_Z 0) with 0%Q.
  apply Qle_shift_div_l; [assumption | lra].
Qed.

Lemma nearestDouble_near (a : Q) :
  let e := Z.max (binade a - 52) (-1074) in
  (a - 2 ^ e / 2 <= nearestDouble a)%Q /\ (nearestDouble a <= a + 2 ^ e / 2)%Q.
Proof.
  intros e. unfold nearestDouble. fold e.
  pose proof (two_pow_pos e) as He.
  destruct (roundHalfEven_near (a / 2 ^ e)) as [Hlo Hhi].
  assert (Ea : (a == a / 2 ^ e * 2 ^ e)%Q) by (field; lra).
  set (m := inject_Z (roundHalfEven (a / 2 ^ e))) in *.
  set (x := (a / 2 ^ e)%Q) in *.
  set (t := (2 ^ e)%Q) in *.
  assert (H1 : ((x - (1 # 2)) * t <= m * t)%Q)
    by (apply Qmult_le_compat_r; lra).
  assert (H2 : (m * t <= (x + (1 # 2)) * t)%Q)
    by (apply Qmult_le_compat_r; lra).
  assert (E1 : ((x - (1 # 2)) * t == x * t - t / 2)%Q) by field.
  assert (E2 : ((x + (1 # 2)) * t == x * t + t / 2)%Q) by field.
  split; lra.
Qed.

(** A number between [-1] and [1] is rounded to a finite number. *)
Lemma roundDouble_unit (q : Q) :
  (- (1) <= q)%Q -> (q <= 1)%Q -> is_finite (roundDouble q) = true.
Proof.
  assert (Hpos : forall p : Q, (0 < p)%Q -> (p <= 1)%Q ->
            Qle_bool (2 ^ 1024) (nearestDouble p) = false).
  { intros p Hp Hle. destruct (Qle_bool _ _) eqn:E; [|reflexivity].
    apply Qle_bool_iff in E. exfalso.
    assert (Hb : binade p < 1).
    { apply (Qpower_lt_compat_l_inv 2); [|reflexivity].
      pose proof (binade_le p Hp). change (2 ^ 1)%Q with 2%Q. lra. }
    assert (Hr : (nearestDouble p <= inject_Z 1 * 2 ^ 0)%Q)
      by (apply nearestDouble_le; [change (inject_Z 1 * 2 ^ 0)%Q with 1%Q; lra | lia]).
    change (inject_Z 1 * 2 ^ 0)%Q with 1%Q in Hr.
    assert (1 < 2 ^ 1024)%Q by (apply Qpower_1_lt; [reflexivity | lia]).
    lra. }
  intros Hlo Hhi. unfold roundDouble.
  destruct (q ?= 0)%Q eqn:E; [reflexivity | |].
  - apply Qlt_alt in E. rewrite Hpos by lra. reflexivity.
  - apply Qgt_alt in E. now rewrite Hpos.
Qed.

End RoundingFacts.

(** * The level *)

Lemma Level_new_fields (cv : CanvasElement) (layout : list (list Z)) (lvl : Level) :
  Level_new cv layout = Ret lvl ->
  mapData lvl = layout /\ mapHeight lvl = Z.of_nat (length layout) /\
  tileWidth lvl = tileSize /\ tileHeight lvl = tileSize /\
  exists row0, layout !! 0%nat = Some row0 /\ mapWidth lvl = Z.of_nat (length row0).
Proof.
  unfold Level_new. destruct (layout !! 0%nat) as [row0|] eqn:E; [|discriminate].
  intros [= <-]. simpl. repeat split; eauto.
Qed.

(** A level made by the constructor keeps the number of its rows. *)
Lemma Level_new_ok (cv : CanvasElement) (layout : list (list Z)) (lvl : Level) :
  Level_new cv layout = Ret lvl -> level_ok lvl.
Proof.
  intros Hnew. destruct (Level_new_fields _ _ _ Hnew) as (Hdata & HH & _).
  unfold level_ok. now rewrite Hdata.
Qed.

Lemma hasCollision_outside (lvl : Level) (x y : Z) :
  ~ (0 <= x < mapWidth lvl /\ 0 <= y < mapHeight lvl) ->
  hasCollision lvl (ofZ x) (ofZ y) = Ret true.
Proof.
  intros Hout. unfold hasCollision. rewrite in_map_ofZ.
  destruct (Z.leb_spec 0 y), (Z.ltb_spec y (mapHeight lvl)),
    (Z.leb_spec 0 x), (Z.ltb_spec x (mapWidth lvl)); simpl; try reflexivity.
  exfalso. apply Hout. lia.
Qed.

Lemma mapData_at_stored (lvl : Level) (x y v : Z) :
  0 <= x -> 0 <= y -> grid_at (mapData lvl) x y = Some v ->
  mapData_at lvl (ofZ x) (ofZ y) = Ret (Num (ofZ v)).
Proof.
  intros Hx Hy. unfold grid_at, mapData_at. rewrite index_of_lookup by assumption.
  destruct (mapData lvl !! Z.to_nat y) as [row|]; [|discriminate].
  rewrite index_of_lookup by assumption. now intros ->.
Qed.

Lemma hasCollision_stored (lvl : Level) (x y v : Z) :
  0 <= x < mapWidth lvl -> 0 <= y < mapHeight lvl ->
  grid_at (mapData lvl) x y = Some v ->
  hasCollision lvl (ofZ x) (ofZ y) = Ret (negb (v =? 0)).
Proof.
  intros Hx Hy Hv. unfold hasCollision. rewrite in_map_ofZ.
  destruct (Z.leb_spec 0 y), (Z.ltb_spec y (mapHeight lvl)),
    (Z.leb_spec 0 x), (Z.ltb_spec x (mapWidth lvl)); try lia. simpl.
  rewrite (mapData_at_stored lvl x y v) by first [lia | assumption].
  simpl. rewrite neqb_ofZ_zero. now destruct (v =? 0).
Qed.

(** In a rectangular layout every in-bounds cell holds a value. *)
Lemma rectangular_stored (cv : CanvasElement) (layout : list (list Z)) (lvl : Level)
    (x y : Z) :
  Level_new cv layout = Ret lvl -> rectangular layout ->
  0 <= x < mapWidth lvl -> 0 <= y < mapHeight lvl ->
  exists v, grid_at (mapData lvl) x y = Some v.
Proof.
  intros Hnew Hrect Hx Hy.
  destruct (Level_new_fields _ _ _ Hnew) as (-> & HH & _ & _ & row0 & H0 & HW).
  unfold grid_at.
  destruct (lookup_lt_is_Some_2 layout (Z.to_nat y)) as [row Hrow]; [lia|].
  rewrite Hrow.
  apply lookup_lt_is_Some_2.
  rewrite (Hrect row0 row H0) by (eapply list_elem_of_lookup_2; eassumption).
  lia.
Qed.

(** C5. For an in-bounds tile [hasCollision] answers whether the stored
    value is non-zero; for an out-of-bounds tile it answers [true], while
    [getTileValue] at any world position in that tile answers [0]. *)
Theorem hasCollision_getTileValue_spec (cv : CanvasElement)
    (layout : list (list Z)) (lvl : Level) :
  Level_new cv layout = Ret lvl ->
  (forall x y v : Z, 0 <= x < mapWidth lvl -> 0 <= y < mapHeight lvl ->
     grid_at layout x y = Some v ->
     hasCollision lvl (ofZ x) (ofZ y) = Ret (negb (v =? 0))) /\
  (forall x y : Z, ~ (0 <= x < mapWidth lvl /\ 0 <= y < mapHeight lvl) ->
     hasCollision lvl (ofZ x) (ofZ y) = Ret true /\
     forall worldX worldY : Q,
       Qfloor (worldX / 50) = x -> Qfloor (worldY / 50) = y ->
       getTileValue lvl (Finite worldX) (Finite worldY) = Ret (Num zero)).
Proof.
  intros Hnew.
  destruct (Level_new_fields _ _ _ Hnew) as (Hdata & HH & HtW & HtH & row0 & H0 & HW).
  split.
  - intros x y v Hx Hy Hv. apply hasCollision_stored; try assumption.
    now rewrite Hdata.
  - intros x y Hout. split; [now apply hasCollision_outside|].
    intros worldX worldY Hwx Hwy. unfold getTileValue.
    rewrite HtW, HtH, !floor_div_tile, Hwx, Hwy, in_map_ofZ.
    destruct (Z.leb_spec 0 y), (Z.ltb_spec y (mapHeight lvl)),
      (Z.leb_spec 0 x), (Z.ltb_spec x (mapWidth lvl)); simpl; try reflexivity.
    exfalso. apply Hout. lia.
Qed.

(** In the room of 3 by 3 tiles: the floor tile, a wall tile, and a tile
    outside the map. *)
Lemma hasCollision_getTileValue_spec_witness :
  exists lvl, Level_new canvas (room 3 3) = Ret lvl /\
  hasCollision lvl (ofZ 1) (ofZ 1) = Ret false /\
  hasCollision lvl (ofZ 2) (ofZ 1) = Ret true /\
  hasCollision lvl (ofZ 3) (ofZ 1) = Ret true /\
  getTileValue lvl (Finite 160) (Finite (151 # 2)) = Ret (Num zero).
Proof.
  eexists. split; [reflexivity|].
  pose proof (hasCollision_getTileValue_spec canvas (room 3 3) _ eq_refl) as [Hin Hout].
  split; [|split; [|split]].
  - apply (Hin 1 1 0); [simpl; lia | simpl; lia | reflexivity].
  - apply (Hin 2 1 1); [simpl; lia | simpl; lia | reflexivity].
  - apply (Hout 3 1). simpl. lia.
  - apply (Hout 3 1); [simpl; lia | reflexivity | reflexivity].
Defined.

(** C10 does not hold as stated.  A layout with a short row is accepted,
    and so is one with no column: the constructor checks nothing, so being
    malformed does not make it fail. *)
Lemma Level_new_malformed_accepted :
  malformed [[1; 1]; [1]] /\ malformed [[]] /\
  (exists lvl, Level_new canvas [[1; 1]; [1]] = Ret lvl /\
     mapWidth lvl = 2 /\ mapHeight lvl = 2) /\
  (exists lvl, Level_new canvas [[]] = Ret lvl /\
     mapWidth lvl = 0 /\ mapHeight lvl = 1) /\
  ~ (forall layout, malformed layout -> Level_new canvas layout = Throw).
Proof.
  assert (Hjag : malformed [[1; 1]; [1]]).
  { right. intros Hrect.
    specialize (Hrect [1; 1] [1] eq_refl).
    discriminate Hrect. right. left. }
  assert (Hemp : malformed [[]]) by (left; right; reflexivity).
  split; [exact Hjag | split; [exact Hemp|]].
  split; [eexists; split; [reflexivity | split; reflexivity]|].
  split; [eexists; split; [reflexivity | split; reflexivity]|].
  intros Hclaim. specialize (Hclaim _ Hjag). discriminate Hclaim.
Qed.

(** C10, as the code has it.  The constructor fails exactly on a layout
    with no row (reading the length of the missing first row throws);
    every other layout, rectangular or not, with or without columns, gives
    a level that keeps the layout as it is, takes the number of rows as its
    height and the length of the first row as its width. *)
Theorem Level_new_unchecked (cv : CanvasElement) (layout : list (list Z)) :
  (Level_new cv layout = Throw <-> layout = []) /\
  (forall row0 rest, layout = row0 :: rest ->
     exists lvl, Level_new cv layout = Ret lvl /\
       mapData lvl = layout /\
       mapHeight lvl = Z.of_nat (length layout) /\
       mapWidth lvl = Z.of_nat (length row0)).
Proof.
  split.
  - destruct layout as [|row0 rest]; cbn; split; intros E; congruence.
  - intros row0 rest ->. eexists. split; [reflexivity|]. cbn. auto.
Qed.

(** The layout with no row, and a layout with a short row. *)
Lemma Level_new_unchecked_witness :
  Level_new canvas [] = Throw /\
  exists lvl, Level_new canvas [[1; 1]; [1]] = Ret lvl /\
    mapData lvl = [[1; 1]; [1]] /\ mapHeight lvl = 2 /\ mapWidth lvl = 2.
Proof.
  destruct (Level_new_unchecked canvas []) as [Hthrow _].
  destruct (Level_new_unchecked canvas [[1; 1]; [1]]) as [_ Hret].
  split; [now apply Hthrow|].
  exact (Hret [1; 1] [[1]] eq_refl).
Defined.

(** * Loops *)

Section WhileFacts.
Context {S R : Type}.
Variable body : S -> outcome (S + R).

(** A loop whose body returns, and lowers a measure whenever it continues,
    finishes within that measure plus one turns. *)
Lemma while_measure (mu : S -> nat) :
  (forall s, (exists res, body s = Ret (inr res)) \/
             (exists s', body s = Ret (inl s') /\ (mu s' < mu s)%nat)) ->
  forall fuel s, (mu s < fuel)%nat -> exists res, while fuel body s = Ret res.
Proof.
  intros Hbody fuel. induction fuel as [|fuel IH]; intros s Hmu; [lia|].
  simpl. destruct (Hbody s) as [[res ->] | (s' & -> & Hlt)]; simpl.
  - eauto.
  - apply IH. lia.
Qed.

Lemma while_S (fuel : nat) (s : S) :
  while (Datatypes.S fuel) body s =
  obind (body s) (fun r => match r with
                           | inl s' => while fuel body s'
                           | inr res => Ret res
                           end).
Proof. reflexivity. Qed.

(** More fuel does not change the result of a loop that has finished. *)
Lemma while_more_fuel (fuel fuel' : nat) (s : S) (res : R) :
  while fuel body s = Ret res -> (fuel <= fuel')%nat ->
  while fuel' body s = Ret res.
Proof.
  revert fuel' s. induction fuel as [|fuel IH]; intros fuel' s; [discriminate|].
  intros Hrun Hle. destruct fuel' as [|fuel']; [lia|].
  simpl in *. destruct (body s) as [[s'|r]| |]; simpl in *; try discriminate.
  - apply IH; [assumption | lia].
  - assumption.
Qed.

(** The result of a loop is the result its body left with, at a state
    reached from the first one. *)
Lemma while_exit (P : S -> Prop) (fuel : nat) (s : S) (res : R) :
  (forall s s', P s -> body s = Ret (inl s') -> P s') ->
  P s -> while fuel body s = Ret res ->
  exists s_last, P s_last /\ body s_last = Ret (inr res).
Proof.
  intros Hinv. revert s. induction fuel as [|fuel IH]; intros s Hs; [discriminate|].
  simpl. destruct (body s) as [[s'|r]| |] eqn:E; simpl; try discriminate.
  - apply IH. eauto.
  - intros [= ->]. eauto.
Qed.

End WhileFacts.

(** * Cells and steps along an axis *)

Section AxisFacts.

Lemma Qfloor_unique (q : Q) (z : Z) :
  (inject_Z z <= q)%Q -> (q < inject_Z (z + 1))%Q -> Qfloor q = z.
Proof.
  intros Hle Hlt.
  pose proof (Qfloor_le q) as H1. pose proof (Qlt_floor q) as H2.
  assert (z < Qfloor q + 1) by (rewrite Zlt_Qlt; eapply Qle_lt_trans; eassumption).
  assert (Qfloor q < z + 1) by (rewrite Zlt_Qlt; eapply Qle_lt_trans; eassumption).
  lia.
Qed.

Lemma Qfloor_shift (q : Q) (k : Z) :
  Qfloor ((q + inject_Z (50 * k)) / 50) = Qfloor (q / 50) + k.
Proof.
  assert (E : ((q + inject_Z (50 * k)) / 50 == q / 50 + inject_Z k)%Q)
    by (rewrite inject_Z_mult; field).
  pose proof (Qfloor_le (q / 50)) as H1. pose proof (Qlt_floor (q / 50)) as H2.
  rewrite inject_Z_plus in H2. change (inject_Z 1) with 1%Q in H2.
  apply Qfloor_unique; rewrite E, !inject_Z_plus; change (inject_Z 1) with 1%Q; lra.
Qed.

Lemma integral_ofZ (z : Z) : integral (ofZ z).
Proof. unfold integral, ofZ. now rewrite Qfloor_Z. Qed.

Lemma integral_cases (n : num) :
  integral n -> is_finite n = false \/ exists z, n = ofZ z.
Proof.
  destruct n as [q| | |]; simpl; auto.
  intros ->. right. eauto.
Qed.

Lemma integral_floor (n : num) : integral (floor n).
Proof. destruct n; try exact I. apply integral_ofZ. Qed.

Lemma add_ofZ (a b : Z) : (ofZ a + ofZ b)%num = ofZ (a + b).
Proof.
  unfold Num.add, ofZ, fin. rewrite <- inject_Z_plus. now rewrite Qred_inject_Z.
Qed.

Lemma neg_ofZ (a : Z) : (- ofZ a)%num = ofZ (- a).
Proof.
  unfold Num.neg, ofZ, fin. rewrite <- inject_Z_opp. now rewrite Qred_inject_Z.
Qed.

Lemma sub_ofZ (a b : Z) : (ofZ a - ofZ b)%num = ofZ (a - b).
Proof. unfold Num.sub. now rewrite neg_ofZ, add_ofZ. Qed.

Lemma integral_sub_one (n : num) : integral n -> integral (n - one)%num.
Proof.
  intros Hn. destruct (integral_cases n Hn) as [Hinf | [z ->]].
  - destruct n; try discriminate; exact I.
  - unfold one. rewrite sub_ofZ. apply integral_ofZ.
Qed.

Lemma integral_axisCell (forward : bool) (n : num) : integral (axisCell forward n).
Proof.
  unfold axisCell. destruct forward;
    [apply integral_floor | apply integral_sub_one, integral_floor].
Qed.

Lemma axisStep_value (forward : bool) :
  axisStep forward = ofZ (if forward then 50 else -50).
Proof. now destruct forward. Qed.

Lemma axisCell_finite (forward : bool) (q : Q) :
  axisCell forward (Finite q) =
  ofZ (if forward then Qfloor (q / 50) else Qfloor (q / 50) - 1).
Proof.
  unfold axisCell. rewrite floor_div_tile. destruct forward; [reflexivity|].
  unfold one. apply sub_ofZ.
Qed.

Lemma axisCell_not_finite (forward : bool) (n : num) :
  is_finite n = false -> axisCell forward n = n.
Proof. destruct n, forward; try discriminate; reflexivity. Qed.

(** One step along the axis moves to the next cell. *)
Lemma axisCell_step (forward : bool) (q : Q) :
  axisCell forward (Finite q + axisStep forward)%num =
  (axisCell forward (Finite q) + ofZ (if forward then 1 else -1))%num.
Proof.
  rewrite axisStep_value. unfold ofZ at 1. unfold Num.add at 1. unfold fin.
  rewrite !axisCell_finite, add_ofZ. f_equal.
  assert (E : forall k s, s = 50 * k ->
             Qfloor (Qred (q + inject_Z s) / 50) = Qfloor (q / 50) + k).
  { intros k s ->. rewrite <- Qfloor_shift. apply Qfloor_comp.
    now rewrite Qred_correct. }
  destruct forward.
  - apply (E 1). reflexivity.
  - rewrite (E (-1)) by reflexivity. lia.
Qed.

Lemma cellsLeft_ofZ (forward : bool) (size c : Z) :
  cellsLeft forward size (ofZ c) =
  if (0 <=? c) && (c <? size) then
    if forward then Z.to_nat (size - c) else Z.to_nat (c + 1)
  else O.
Proof. unfold cellsLeft, ofZ. now rewrite Qfloor_Z. Qed.

End AxisFacts.

(** * Termination of the marches *)

Section LevelFacts.
Variable lvl : Level.
Hypothesis Hok : level_ok lvl.

Lemma in_map_integral (cx cy : num) :
  integral cx -> integral cy -> in_map lvl cx cy = true ->
  exists a c, cx = ofZ a /\ cy = ofZ c /\
    0 <= a < mapWidth lvl /\ 0 <= c < mapHeight lvl.
Proof.
  intros Hx Hy Hin.
  destruct (integral_cases cx Hx) as [Ex | [a ->]];
    [destruct cx; try discriminate; unfold in_map in Hin; simpl in Hin;
     rewrite ?andb_false_r in Hin; discriminate|].
  destruct (integral_cases cy Hy) as [Ey | [c ->]];
    [destruct cy; try discriminate; unfold in_map in Hin; simpl in Hin;
     rewrite ?andb_false_r in Hin; discriminate|].
  exists a, c. rewrite in_map_ofZ in Hin.
  destruct (Z.leb_spec 0 c), (Z.ltb_spec c (mapHeight lvl)),
    (Z.leb_spec 0 a), (Z.ltb_spec a (mapWidth lvl)); try discriminate.
  repeat split; lia.
Qed.

Lemma mapData_at_returns (a c : Z) :
  0 <= a -> 0 <= c < mapHeight lvl ->
  exists v, mapData_at lvl (ofZ a) (ofZ c) = Ret v.
Proof.
  intros Ha Hc. unfold mapData_at. rewrite index_of_lookup by lia.
  destruct (lookup_lt_is_Some_2 (mapData lvl) (Z.to_nat c)) as [row Hrow];
    [unfold level_ok in Hok; lia|].
  rewrite Hrow. destruct (array_get row (ofZ a)) as [v|]; eauto.
Qed.

(** On cells as the marches compute them, [hasCollision] returns; when it
    answers [false] the cell is a tile of the map. *)
Lemma hasCollision_integral (cx cy : num) :
  integral cx -> integral cy ->
  exists b, hasCollision lvl cx cy = Ret b /\
    (b = false -> exists a c, cx = ofZ a /\ cy = ofZ c /\
       0 <= a < mapWidth lvl /\ 0 <= c < mapHeight lvl).
Proof.
  intros Hx Hy. unfold hasCollision.
  destruct (in_map lvl cx cy) eqn:Hin; [|exists true; split; [reflexivity | discriminate]].
  destruct (in_map_integral cx cy Hx Hy Hin) as (a & c & -> & -> & Ha & Hc).
  destruct (mapData_at_returns a c) as [v ->]; [lia | lia |].
  simpl. eauto 10.
Qed.

(** [getTileValue] returns, whatever the position. *)
Lemma getTileValue_returns (worldX worldY : num) :
  exists v, getTileValue lvl worldX worldY = Ret v.
Proof.
  unfold getTileValue.
  destruct (in_map lvl _ _) eqn:Hin; [|eauto].
  destruct (in_map_integral _ _ (integral_floor _) (integral_floor _) Hin)
    as (a & c & -> & -> & Ha & Hc).
  apply mapData_at_returns; lia.
Qed.

End LevelFacts.

Section MarchFacts.
Context `{MathLib}.
Variable this : Ray.t.
Hypothesis Hok : level_ok (Ray.gameLevel this).

Lemma axisCell_ofZ_finite (forward : bool) (n : num) (c : Z) :
  axisCell forward n = ofZ c -> exists q, n = Finite q.
Proof.
  destruct n as [q| | |]; eauto; intros E;
    rewrite axisCell_not_finite in E by reflexivity; discriminate.
Qed.

(** Stepping from a tile of the map leaves fewer cells to check. *)
Lemma cellsLeft_step (forward : bool) (size : Z) (n : num) (c : Z) :
  axisCell forward n = ofZ c -> 0 <= c < size ->
  (cellsLeft forward size (axisCell forward (n + axisStep forward)%num)
   < cellsLeft forward size (axisCell forward n))%nat.
Proof.
  intros E Hc. destruct (axisCell_ofZ_finite _ _ _ E) as [q ->].
  rewrite axisCell_step, E, add_ofZ, !cellsLeft_ofZ.
  destruct forward;
    zcases; simpl; lia.
Qed.

Lemma cellsLeft_bound (forward : bool) (size : Z) (cell : num) :
  (cellsLeft forward size cell <= Z.to_nat size)%nat.
Proof.
  destruct cell as [q| | |]; simpl; try lia.
  destruct (Z.leb_spec 0 (Qfloor q)), (Z.ltb_spec (Qfloor q) size), forward;
    simpl; lia.
Qed.

Lemma hStepY_axisStep : Ray.hStepY this = axisStep (Ray.isFacingDown this).
Proof. unfold Ray.hStepY, axisStep. now destruct (Ray.isFacingDown this). Qed.

Lemma vStepX_axisStep : Ray.vStepX this = axisStep (negb (Ray.isFacingLeft this)).
Proof. unfold Ray.vStepX, axisStep. now destruct (Ray.isFacingLeft this). Qed.

(** A turn of the horizontal march stops as [horizontalStop] says, or goes
    on with fewer rows left. *)
Lemma horizontalBody_turn (s : num * num) :
  (exists hit, Ray.horizontalBody this s = Ret (inr hit) /\ horizontalStop this hit) \/
  (exists s', Ray.horizontalBody this s = Ret (inl s') /\
     (cellsLeft (Ray.isFacingDown this) (mapHeight (Ray.gameLevel this))
        (axisCell (Ray.isFacingDown this) s'.2)
      < cellsLeft (Ray.isFacingDown this) (mapHeight (Ray.gameLevel this))
          (axisCell (Ray.isFacingDown this) s.2))%nat).
Proof.
  destruct s as [nextX nextY]. unfold Ray.horizontalBody.
  fold (axisCell (Ray.isFacingDown this) nextY).
  destruct (Ray.outside this _ _); [left; eexists; split; [reflexivity | now left]|].
  destruct (hasCollision_integral (Ray.gameLevel this) Hok (floor (nextX / tileSize))
              (axisCell (Ray.isFacingDown this) nextY))
    as (b & Hb & Hcell); [apply integral_floor | apply integral_axisCell |].
  rewrite Hb. simpl. destruct b.
  - left. eexists. split; [reflexivity|]. right. exact Hb.
  - right. eexists. split; [reflexivity|]. simpl.
    destruct (Hcell eq_refl) as (a & c & _ & Ec & _ & Hc).
    rewrite hStepY_axisStep. now apply cellsLeft_step with (c := c).
Qed.

Lemma verticalBody_turn (s : num * num) :
  (exists hit, Ray.verticalBody this s = Ret (inr hit) /\ verticalStop this hit) \/
  (exists s', Ray.verticalBody this s = Ret (inl s') /\
     (cellsLeft (negb (Ray.isFacingLeft this)) (mapWidth (Ray.gameLevel this))
        (axisCell (negb (Ray.isFacingLeft this)) s'.1)
      < cellsLeft (negb (Ray.isFacingLeft this)) (mapWidth (Ray.gameLevel this))
          (axisCell (negb (Ray.isFacingLeft this)) s.1))%nat).
Proof.
  destruct s as [nextX nextY]. unfold Ray.verticalBody.
  replace (if Ray.isFacingLeft this then (floor (nextX / tileSize) - one)%num
           else floor (nextX / tileSize))
    with (axisCell (negb (Ray.isFacingLeft this)) nextX)
    by (unfold axisCell; now destruct (Ray.isFacingLeft this)).
  destruct (Ray.outside this _ _); [left; eexists; split; [reflexivity | now left]|].
  destruct (hasCollision_integral (Ray.gameLevel this) Hok (axisCell (negb (Ray.isFacingLeft this)) nextX)
              (floor (nextY / tileSize)))
    as (b & Hb & Hcell); [apply integral_axisCell | apply integral_floor |].
  rewrite Hb. simpl. destruct b.
  - left. eexists. split; [reflexivity|]. right. exact Hb.
  - right. eexists. split; [reflexivity|]. simpl.
    destruct (Hcell eq_refl) as (a & c & Ea & _ & Ha & _).
    rewrite vStepX_axisStep. now apply cellsLeft_step with (c := a).
Qed.

Lemma body_turn_returns {S R : Type} (body : S -> outcome (S + R))
    (P : R -> Prop) (mu : S -> nat) :
  (forall s, (exists res, body s = Ret (inr res) /\ P res) \/
             (exists s', body s = Ret (inl s') /\ (mu s' < mu s)%nat)) ->
  forall fuel s, (mu s < fuel)%nat ->
  exists res, while fuel body s = Ret res /\ P res.
Proof.
  intros Hturn fuel s Hmu.
  destruct (while_measure body mu) with (fuel := fuel) (s := s) as [res Hres];
    [|assumption|].
  - intros s0. destruct (Hturn s0) as [(res & E & _) | Hcont]; eauto.
  - exists res. split; [assumption|].
    destruct (while_exit body (fun _ => True) fuel s res) as (sl & _ & El); auto.
    destruct (Hturn sl) as [(res' & E & HP) | (s' & E & _)]; congruence.
Qed.

Lemma horizontalMarch_returns :
  exists hit, Ray.horizontalMarch this (S (Z.to_nat (mapHeight (Ray.gameLevel this)))) = Ret hit /\
    horizontalStop this hit.
Proof.
  apply (body_turn_returns (Ray.horizontalBody this) (horizontalStop this)
           (fun s => cellsLeft (Ray.isFacingDown this) (mapHeight (Ray.gameLevel this))
                       (axisCell (Ray.isFacingDown this) s.2))).
  - apply horizontalBody_turn.
  - pose proof (cellsLeft_bound (Ray.isFacingDown this) (mapHeight (Ray.gameLevel this))
                  (axisCell (Ray.isFacingDown this) (Ray.hIntersectionY this))).
    simpl. lia.
Qed.

Lemma verticalMarch_returns :
  exists hit, Ray.verticalMarch this (S (Z.to_nat (mapWidth (Ray.gameLevel this)))) = Ret hit /\
    verticalStop this hit.
Proof.
  apply (body_turn_returns (Ray.verticalBody this) (verticalStop this)
           (fun s => cellsLeft (negb (Ray.isFacingLeft this)) (mapWidth (Ray.gameLevel this))
                       (axisCell (negb (Ray.isFacingLeft this)) s.1))).
  - apply verticalBody_turn.
  - pose proof (cellsLeft_bound (negb (Ray.isFacingLeft this)) (mapWidth (Ray.gameLevel this))
                  (axisCell (negb (Ray.isFacingLeft this)) (Ray.vIntersectionX this))).
    simpl. lia.
Qed.

(** Both marches return within [marchBound] turns, and with any more. *)
Lemma marches_return :
  exists h v, horizontalStop this h /\ verticalStop this v /\
    forall fuel, (marchBound (Ray.gameLevel this) <= fuel)%nat ->
      Ray.horizontalMarch this fuel = Ret h /\ Ray.verticalMarch this fuel = Ret v.
Proof.
  destruct horizontalMarch_returns as (h & Hh & Hsh).
  destruct verticalMarch_returns as (v & Hv & Hsv).
  exists h, v. split; [assumption|]. split; [assumption|].
  intros fuel Hfuel. unfold marchBound in Hfuel.
  split; [eapply while_more_fuel; [exact Hh|] | eapply while_more_fuel; [exact Hv|]]; lia.
Qed.

End MarchFacts.

(** The turns of a loop whose body goes from a state to the next one: when
    the body goes on for [n] turns and leaves in the next one, the loop has
    not finished after [n] turns and has finished, with that result, after
    any more. *)
Lemma while_turns {St Res : Type} (body : St -> outcome (St + Res)) (next : St -> St)
    (n : nat) (s : St) (res : Res) :
  (forall k, (k < n)%nat ->
     body (Nat.iter k next s) = Ret (inl (Nat.iter (S k) next s))) ->
  body (Nat.iter n next s) = Ret (inr res) ->
  while n body s = OutOfFuel /\
  forall fuel, (n < fuel)%nat -> while fuel body s = Ret res.
Proof.
  revert s. induction n as [|n IH]; intros s Hgo Hstop.
  - split; [reflexivity|]. intros [|fuel] Hfuel; [lia|].
    simpl in Hstop. now rewrite while_S, Hstop.
  - pose proof (Hgo 0%nat ltac:(lia)) as H0. simpl in H0.
    destruct (IH (next s)) as [Hout Hret].
    + intros k Hk. rewrite <- !Nat.iter_succ_r. apply Hgo. lia.
    + now rewrite <- Nat.iter_succ_r.
    + split.
      * now rewrite while_S, H0.
      * intros [|fuel] Hfuel; [lia|]. rewrite while_S, H0. apply Hret. lia.
Qed.

(** A loop whose every turn either ends it or moves to the next state
    under a lower measure ends in a turn that the measure bounds. *)
Lemma march_turns {St Res : Type} (body : St -> outcome (St + Res)) (next : St -> St)
    (mu : St -> nat) (free : St -> Prop) (stop : St -> Res -> Prop) :
  (forall s, (exists res, body s = Ret (inr res) /\ stop s res) \/
             (body s = Ret (inl (next s)) /\ (mu (next s) < mu s)%nat /\ free s)) ->
  forall s, exists (n : nat) (res : Res),
    (n <= mu s)%nat /\
    (forall k, (k < n)%nat -> free (Nat.iter k next s)) /\
    stop (Nat.iter n next s) res /\
    while n body s = OutOfFuel /\
    forall fuel, (n < fuel)%nat -> while fuel body s = Ret res.
Proof.
  intros Hturn.
  assert (Hsteps : forall b s, (mu s <= b)%nat ->
            exists (n : nat) (res : Res),
              (n <= mu s)%nat /\
              (forall k, (k < n)%nat ->
                 body (Nat.iter k next s) = Ret (inl (Nat.iter (S k) next s)) /\
                 free (Nat.iter k next s)) /\
              body (Nat.iter n next s) = Ret (inr res) /\
              stop (Nat.iter n next s) res).
  { induction b as [|b IH]; intros s Hb.
    - destruct (Hturn s) as [(res & E & Hs) | (_ & Hlt & _)]; [|lia].
      exists 0%nat, res. split; [lia|]. split; [intros k Hk; lia|]. now split.
    - destruct (Hturn s) as [(res & E & Hs) | (E & Hlt & Hfree)].
      + exists 0%nat, res. split; [lia|]. split; [intros k Hk; lia|]. now split.
      + destruct (IH (next s)) as (n & res & Hn & Hgo & Hend & Hs); [lia|].
        exists (S n), res. split; [lia|].
        split; [|rewrite (Nat.iter_succ_r n); now split].
        intros [|k] Hk; [now split|].
        rewrite (Nat.iter_succ_r (S k)), (Nat.iter_succ_r k). apply Hgo. lia. }
  intros s. destruct (Hsteps (mu s) s (le_n _)) as (n & res & Hn & Hgo & Hend & Hs).
  destruct (while_turns body next n s res) as [Hout Hret];
    [intros k Hk; now apply Hgo | exact Hend |].
  exists n, res. split; [exact Hn|]. split; [intros k Hk; now apply Hgo|]. auto.
Qed.

Section TurnFacts.
Context `{MathLib}.
Variable this : Ray.t.
Hypothesis Hok : level_ok (Ray.gameLevel this).

(** A turn of the horizontal march, and of the vertical one. *)
Lemma horizontalBody_step (s : num * num) :
  (exists hit, Ray.horizontalBody this s = Ret (inr hit) /\
     marchEnd this (hCell this s) s hit) \/
  (Ray.horizontalBody this s =
     Ret (inl ((s.1 + Ray.hStepX this)%num, (s.2 + Ray.hStepY this)%num)) /\
   (cellsLeft (Ray.isFacingDown this) (mapHeight (Ray.gameLevel this))
      (axisCell (Ray.isFacingDown this) (s.2 + Ray.hStepY this)%num)
    < cellsLeft (Ray.isFacingDown this) (mapHeight (Ray.gameLevel this))
        (axisCell (Ray.isFacingDown this) s.2))%nat /\
   freeCell this (hCell this s)).
Proof.
  destruct s as [nextX nextY]. unfold Ray.horizontalBody, marchEnd, freeCell, hCell.
  cbn [fst snd]. fold (axisCell (Ray.isFacingDown this) nextY).
  destruct (Ray.outside this _ _) eqn:Eout;
    [left; eexists; split; [reflexivity | left; now split]|].
  destruct (hasCollision_integral (Ray.gameLevel this) Hok (floor (nextX / tileSize))
              (axisCell (Ray.isFacingDown this) nextY))
    as (b & Hb & Hcell); [apply integral_floor | apply integral_axisCell |].
  rewrite Hb. simpl. destruct b.
  - left. eexists. split; [reflexivity|]. right. auto.
  - right. split; [reflexivity|]. split; [|now split].
    destruct (Hcell eq_refl) as (a & c & _ & Ec & _ & Hc).
    rewrite hStepY_axisStep. now apply cellsLeft_step with (c := c).
Qed.

Lemma verticalBody_step (s : num * num) :
  (exists hit, Ray.verticalBody this s = Ret (inr hit) /\
     marchEnd this (vCell this s) s hit) \/
  (Ray.verticalBody this s =
     Ret (inl ((s.1 + Ray.vStepX this)%num, (s.2 + Ray.vStepY this)%num)) /\
   (cellsLeft (negb (Ray.isFacingLeft this)) (mapWidth (Ray.gameLevel this))
      (axisCell (negb (Ray.isFacingLeft this)) (s.1 + Ray.vStepX this)%num)
    < cellsLeft (negb (Ray.isFacingLeft this)) (mapWidth (Ray.gameLevel this))
        (axisCell (negb (Ray.isFacingLeft this)) s.1))%nat /\
   freeCell this (vCell this s)).
Proof.
  destruct s as [nextX nextY]. unfold Ray.verticalBody, marchEnd, freeCell, vCell.
  cbn [fst snd].
  assert (Ecell : (if Ray.isFacingLeft this then (floor (nextX / tileSize) - one)%num
                   else floor (nextX / tileSize))
                  = axisCell (negb (Ray.isFacingLeft this)) nextX)
    by (unfold axisCell; now destruct (Ray.isFacingLeft this)).
  rewrite Ecell.
  destruct (Ray.outside this _ _) eqn:Eout;
    [left; eexists; split; [reflexivity | left; now split]|].
  destruct (hasCollision_integral (Ray.gameLevel this) Hok
              (axisCell (negb (Ray.isFacingLeft this)) nextX) (floor (nextY / tileSize)))
    as (b & Hb & Hcell); [apply integral_axisCell | apply integral_floor |].
  rewrite Hb. simpl. destruct b.
  - left. eexists. split; [reflexivity|]. right. auto.
  - right. split; [reflexivity|]. split; [|now split].
    destruct (Hcell eq_refl) as (a & c & Ea & _ & Ha & _).
    rewrite vStepX_axisStep. now apply cellsLeft_step with (c := a).
Qed.

(** The turns of the two marches. *)
Lemma horizontalMarch_turns :
  exists (n : nat) (h : num * num),
    (n <= Z.to_nat (mapHeight (Ray.gameLevel this)))%nat /\
    (forall k, (k < n)%nat -> freeCell this (hCell this (hCrossing this k))) /\
    marchEnd this (hCell this (hCrossing this n)) (hCrossing this n) h /\
    Ray.horizontalMarch this n = OutOfFuel /\
    forall fuel, (n < fuel)%nat -> Ray.horizontalMarch this fuel = Ret h.
Proof.
  destruct (march_turns (Ray.horizontalBody this)
              (fun s : num * num =>
                 ((s.1 + Ray.hStepX this)%num, (s.2 + Ray.hStepY this)%num))
              (fun s => cellsLeft (Ray.isFacingDown this) (mapHeight (Ray.gameLevel this))
                          (axisCell (Ray.isFacingDown this) s.2))
              (fun s => freeCell this (hCell this s))
              (fun s hit => marchEnd this (hCell this s) s hit)
              horizontalBody_step
              (Ray.hIntersectionX this, Ray.hIntersectionY this))
    as (n & h & Hn & Hfree & Hend & Hout & Hret).
  exists n, h. split; [|auto].
  pose proof (cellsLeft_bound (Ray.isFacingDown this) (mapHeight (Ray.gameLevel this))
                (axisCell (Ray.isFacingDown this) (Ray.hIntersectionY this))).
  simpl in Hn. lia.
Qed.

Lemma verticalMarch_turns :
  exists (m : nat) (v : num * num),
    (m <= Z.to_nat (mapWidth (Ray.gameLevel this)))%nat /\
    (forall k, (k < m)%nat -> freeCell this (vCell this (vCrossing this k))) /\
    marchEnd this (vCell this (vCrossing this m)) (vCrossing this m) v /\
    Ray.verticalMarch this m = OutOfFuel /\
    forall fuel, (m < fuel)%nat -> Ray.verticalMarch this fuel = Ret v.
Proof.
  destruct (march_turns (Ray.verticalBody this)
              (fun s : num * num =>
                 ((s.1 + Ray.vStepX this)%num, (s.2 + Ray.vStepY this)%num))
              (fun s => cellsLeft (negb (Ray.isFacingLeft this))
                          (mapWidth (Ray.gameLevel this))
                          (axisCell (negb (Ray.isFacingLeft this)) s.1))
              (fun s => freeCell this (vCell this s))
              (fun s hit => marchEnd this (vCell this s) s hit)
              verticalBody_step
              (Ray.vIntersectionX this, Ray.vIntersectionY this))
    as (m & v & Hm & Hfree & Hend & Hout & Hret).
  exists m, v. split; [|auto].
  pose proof (cellsLeft_bound (negb (Ray.isFacingLeft this))
                (mapWidth (Ray.gameLevel this))
                (axisCell (negb (Ray.isFacingLeft this)) (Ray.vIntersectionX this))).
  simpl in Hm. lia.
Qed.

End TurnFacts.

(** C3. For every origin and every angle of a ray over a level, numbers
    that are not finite included, both marches of [cast] terminate, and
    each ends by leaving the map or by finding a wall.  The horizontal
    march checks a cell at every crossing: for [n] turns the cell is a tile
    of the map that holds no wall and the march steps on; in the next turn
    the cell is off the map, and the march records [Infinity], or
    [hasCollision] answers [true] for it, and the march records that
    crossing.  It takes exactly [n + 1] turns, with [n] at most the height
    of the map; likewise the vertical march, with [m] at most the width.
    So neither takes more than [max(mapWidth, mapHeight) + 1] turns. *)
Theorem marches_terminate `{MathLib} (this : Ray.t) :
  level_ok (Ray.gameLevel this) ->
  exists (n m : nat) (h v : num * num),
    (n <= Z.to_nat (mapHeight (Ray.gameLevel this)))%nat /\
    (m <= Z.to_nat (mapWidth (Ray.gameLevel this)))%nat /\
    (S n <= marchBound (Ray.gameLevel this))%nat /\
    (S m <= marchBound (Ray.gameLevel this))%nat /\
    (forall k, (k < n)%nat -> freeCell this (hCell this (hCrossing this k))) /\
    marchEnd this (hCell this (hCrossing this n)) (hCrossing this n) h /\
    (forall k, (k < m)%nat -> freeCell this (vCell this (vCrossing this k))) /\
    marchEnd this (vCell this (vCrossing this m)) (vCrossing this m) v /\
    Ray.horizontalMarch this n = OutOfFuel /\
    Ray.verticalMarch this m = OutOfFuel /\
    (forall fuel, (n < fuel)%nat -> Ray.horizontalMarch this fuel = Ret h) /\
    (forall fuel, (m < fuel)%nat -> Ray.verticalMarch this fuel = Ret v).
Proof.
  intros Hok.
  destruct (horizontalMarch_turns this Hok) as (n & h & Hn & Hfh & Hh & Hoh & Hrh).
  destruct (verticalMarch_turns this Hok) as (m & v & Hm & Hfv & Hv & Hov & Hrv).
  exists n, m, h, v. unfold marchBound.
  repeat (split; [first [assumption | lia]|]). assumption.
Qed.

(** * The cast *)

Section CastFacts.
Context `{MathLib}.
Variable this : Ray.t.
Hypothesis Hok : level_ok (Ray.gameLevel this).

(** What [choose] records on the ray, whichever candidate it takes. *)
Lemma choose_spec (h v : num * num) :
  let horizontal := (hitDistance this h <? hitDistance this v)%num in
  let d := if horizontal then hitDistance this h else hitDistance this v in
  let hit := if horizontal then h else v in
  exists this',
    Ray.choose this h v = Ret this' /\
    Ray.gameLevel this' = Ray.gameLevel this /\
    Ray.screenColumn this' = Ray.screenColumn this /\
    Ray.wallHitX this' = hit.1 /\ Ray.wallHitY this' = hit.2 /\
    Ray.directDistance this' =
      (if (d === PosInf)%num then MAX_SAFE_INTEGER else d) /\
    Ray.correctedDistance this' =
      (if (d === PosInf)%num then MAX_SAFE_INTEGER
       else (d * Math_cos (Ray.relativeAngleOffset this))%num) /\
    Ray.texturePixelX this' =
      (if horizontal then hit.1 %% tileSize else hit.2 %% tileSize)%num /\
    getTileValue (Ray.gameLevel this)
      (if horizontal then floor (hit.1 / tileSize)
       else axisCell (negb (Ray.isFacingLeft this)) hit.1)
      (if horizontal then axisCell (Ray.isFacingDown this) hit.2
       else floor (hit.2 / tileSize)) = Ret (Ray.textureId this').
Proof.
  destruct h as [hx hy], v as [vx vy]. unfold Ray.choose, hitDistance. simpl.
  set (hd := if (hx !== PosInf)%num then _ else _).
  set (vd := if (vx !== PosInf)%num then _ else _).
  destruct (hd <? vd)%num.
  - destruct (getTileValue_returns (Ray.gameLevel this) Hok (floor (hx / tileSize))
                (axisCell (Ray.isFacingDown this) hy)) as [tex Htex].
    unfold axisCell in Htex |- *. rewrite Htex. simpl.
    eexists. split; [reflexivity|]. simpl. auto 10.
  - destruct (getTileValue_returns (Ray.gameLevel this) Hok
                (axisCell (negb (Ray.isFacingLeft this)) vx)
                (floor (vy / tileSize))) as [tex Htex].
    assert (E : axisCell (negb (Ray.isFacingLeft this)) vx =
                if Ray.isFacingLeft this then (floor (vx / tileSize) - one)%num
                else floor (vx / tileSize))
      by (unfold axisCell; now destruct (Ray.isFacingLeft this)).
    pose proof Htex as Htex'. rewrite E in Htex'. rewrite Htex'. simpl.
    eexists. split; [reflexivity|]. simpl. auto 10.
Qed.

(** [cast] returns: with the results of the two marches it records the
    choice and writes the direct distance at the ray's column. *)
Lemma cast_spec (fuel : nat) (zBuffer : gmap Z num) :
  (marchBound (Ray.gameLevel this) <= fuel)%nat ->
  exists h v this',
    Ray.horizontalMarch this fuel = Ret h /\ horizontalStop this h /\
    Ray.verticalMarch this fuel = Ret v /\ verticalStop this v /\
    Ray.choose this h v = Ret this' /\
    Ray.cast this fuel zBuffer =
      Ret (this', <[Ray.screenColumn this := Ray.directDistance this']> zBuffer).
Proof.
  intros Hfuel.
  destruct (marches_return this Hok) as (h & v & Hh & Hv & Hrun).
  destruct (Hrun fuel Hfuel) as [Eh Ev].
  destruct (choose_spec h v) as (this' & Hch & _).
  exists h, v, this'. unfold Ray.cast. rewrite Eh, Ev. simpl. rewrite Hch. simpl.
  auto 10.
Qed.

(** A value read at an infinite position is [0]. *)
Lemma getTileValue_PosInf (worldY : num) :
  getTileValue (Ray.gameLevel this) PosInf worldY = Ret (Num zero).
Proof.
  unfold getTileValue.
  assert (E : in_map (Ray.gameLevel this)
                (floor (PosInf / tileWidth (Ray.gameLevel this)))
                (floor (worldY / tileHeight (Ray.gameLevel this))) = false).
  { unfold in_map. destruct (tileWidth (Ray.gameLevel this)) as [b| | |]; simpl;
      try destruct (Qle_bool 0 b); simpl; rewrite ?andb_false_r; reflexivity. }
  now rewrite E.
Qed.

(** When both marches leave the map. *)
Lemma choose_no_hit :
  exists this',
    Ray.choose this (PosInf, PosInf) (PosInf, PosInf) = Ret this' /\
    Ray.directDistance this' = MAX_SAFE_INTEGER /\
    Ray.correctedDistance this' = MAX_SAFE_INTEGER /\
    Ray.textureId this' = Num zero /\
    Ray.wallHitX this' = PosInf /\ Ray.wallHitY this' = PosInf /\
    Ray.texturePixelX this' = NaN.
Proof.
  destruct (choose_spec (PosInf, PosInf) (PosInf, PosInf))
    as (this' & Hch & _ & _ & Hx & Hy & Hd & Hc & Hp & Htex).
  exists this'. simpl in *.
  assert (Ecell : axisCell (negb (Ray.isFacingLeft this)) PosInf = PosInf)
    by (now apply axisCell_not_finite).
  rewrite Ecell, getTileValue_PosInf in Htex.
  repeat split; try assumption. congruence.
Qed.

End CastFacts.

(** C4. When neither march finds a wall inside the map, [cast] records the
    finite sentinel [Number.MAX_SAFE_INTEGER] as direct and as corrected
    distance and leaves [textureId] at [0], so that [draw] makes no call on
    the rendering context, in the 3D view as in the 2D view; and on every
    cast, hit or not, the depth buffer holds the recorded direct distance
    at the ray's column afterwards. *)
Theorem cast_no_hit_sentinel `{MathLib} (this : Ray.t) (fuel : nat)
    (zBuffer : gmap Z num) (cfg : LightConfig) :
  level_ok (Ray.gameLevel this) ->
  (marchBound (Ray.gameLevel this) <= fuel)%nat ->
  (exists this' zBuffer',
     Ray.cast this fuel zBuffer = Ret (this', zBuffer') /\
     zBuffer' !! Ray.screenColumn this = Some (Ray.directDistance this')) /\
  (Ray.horizontalMarch this fuel = Ret (PosInf, PosInf) ->
   Ray.verticalMarch this fuel = Ret (PosInf, PosInf) ->
   exists this' zBuffer',
     Ray.cast this fuel zBuffer = Ret (this', zBuffer') /\
     Ray.directDistance this' = MAX_SAFE_INTEGER /\
     Ray.correctedDistance this' = MAX_SAFE_INTEGER /\
     is_finite MAX_SAFE_INTEGER = true /\
     Ray.textureId this' = Num zero /\
     zBuffer' !! Ray.screenColumn this = Some MAX_SAFE_INTEGER /\
     forall renderMode : num,
       Ray.draw fuel renderMode cfg this zBuffer = Ret (this', zBuffer', [])).
Proof.
  intros Hok Hfuel.
  destruct (cast_spec this Hok fuel zBuffer Hfuel)
    as (h & v & this' & Eh & _ & Ev & _ & Hch & Hcast).
  split.
  - exists this', (<[Ray.screenColumn this := Ray.directDistance this']> zBuffer).
    split; [assumption | apply lookup_insert_eq].
  - intros Eh' Ev'.
    assert (h = (PosInf, PosInf)) as -> by congruence.
    assert (v = (PosInf, PosInf)) as -> by congruence.
    destruct (choose_no_hit this Hok) as (this'' & Hch' & Hd & Hc & Htex & Hwx & _).
    assert (this'' = this') as -> by congruence.
    exists this', (<[Ray.screenColumn this := Ray.directDistance this']> zBuffer).
    split; [assumption|]. rewrite lookup_insert_eq, Hd.
    repeat split; try assumption.
    intros renderMode. unfold Ray.draw. rewrite Hcast. simpl.
    rewrite Htex, Hwx, Hd. now destruct (renderMode === zero)%num.
Qed.

(** C9. A cast changes the depth buffer at the ray's own column only and
    keeps the level the ray refers to; drawing a sprite leaves the whole
    depth buffer as it was. *)
Theorem depth_buffer_frame `{MathLib} (this : Ray.t) (fuel : nat)
    (zBuffer : gmap Z num) :
  level_ok (Ray.gameLevel this) ->
  (marchBound (Ray.gameLevel this) <= fuel)%nat ->
  (exists this' zBuffer',
     Ray.cast this fuel zBuffer = Ret (this', zBuffer') /\
     zBuffer' !! Ray.screenColumn this = Some (Ray.directDistance this') /\
     (forall column : Z, column <> Ray.screenColumn this ->
        zBuffer' !! column = zBuffer !! column) /\
     Ray.gameLevel this' = Ray.gameLevel this) /\
  (forall fuel' player renderMode cfg sprite sprite' zBuffer' ops,
     Sprite.draw fuel' player renderMode cfg sprite zBuffer
       = Ret (sprite', zBuffer', ops) ->
     zBuffer' = zBuffer).
Proof.
  intros Hok Hfuel. split.
  - destruct (cast_spec this Hok fuel zBuffer Hfuel)
      as (h & v & this' & _ & _ & _ & _ & Hch & Hcast).
    destruct (choose_spec this Hok h v) as (this'' & Hch' & Hlvl & _).
    assert (this'' = this') as -> by congruence.
    exists this', (<[Ray.screenColumn this := Ray.directDistance this']> zBuffer).
    split; [assumption|]. split; [apply lookup_insert_eq|]. split; [|assumption].
    intros column Hne. now apply lookup_insert_ne.
  - intros fuel' player renderMode cfg sprite sprite' zBuffer' ops.
    unfold Sprite.draw.
    destruct (negb (Sprite.visible sprite)); [congruence|].
    destruct (Sprite.calculateRenderData player sprite) as [sprite1 isInFOV].
    destruct (negb isInFOV); [congruence|].
    destruct (Sprite.image sprite1) as [image|]; [|congruence].
    destruct (_ && _); [|congruence].
    destruct (_ <=? _)%num; [congruence|].
    destruct (Sprite.drawColumns _ _ _ _); simpl; congruence.
Qed.

(** * A ray at angle zero *)

Section MoreNumFacts.

Lemma mul_ofZ (a b : Z) : (ofZ a * ofZ b)%num = ofZ (a * b).
Proof.
  unfold Num.mul, ofZ, fin. rewrite <- inject_Z_mult. now rewrite Qred_inject_Z.
Qed.

Lemma fin_eq (p q : Q) : (p == q)%Q -> fin p = fin q.
Proof. intros E. unfold fin. f_equal. now apply Qred_complete. Qed.

Lemma fin_zero (q : Q) : (q == 0)%Q -> fin q = zero.
Proof. intros E. now rewrite (fin_eq q 0 E). Qed.

Lemma mul_zero_r (a : Q) : (Finite a * zero)%num = zero.
Proof. unfold Num.mul, zero, ofZ. apply fin_zero. simpl. ring. Qed.

Lemma add_zero_r (a : Q) : (Finite a + zero)%num = fin a.
Proof. unfold Num.add, zero, ofZ. apply fin_eq. simpl. ring. Qed.

Lemma fin_add_zero (a : Q) : (fin a + zero)%num = fin a.
Proof.
  unfold fin at 1. rewrite add_zero_r. apply fin_eq, Qred_correct.
Qed.

Lemma sub_finite (a b : Q) : (Finite a - Finite b)%num = fin (a - b).
Proof.
  unfold Num.sub, Num.neg, Num.add. apply fin_eq. unfold fin.
  now rewrite Qred_correct.
Qed.

Lemma mul_finite (a b : Q) : (Finite a * Finite b)%num = fin (a * b).
Proof. reflexivity. Qed.

Lemma add_finite (a b : Q) : (Finite a + Finite b)%num = fin (a + b).
Proof. reflexivity. Qed.

Lemma sub_fin_l (a b : Q) : (fin a - Finite b)%num = fin (a - b).
Proof.
  unfold fin at 1. rewrite sub_finite. apply fin_eq. now rewrite Qred_correct.
Qed.

Lemma mul_fin (a b : Q) : (fin a * fin b)%num = fin (a * b).
Proof.
  unfold fin at 1 2. rewrite mul_finite. apply fin_eq. now rewrite !Qred_correct.
Qed.

Lemma add_fin (a b : Q) : (fin a + fin b)%num = fin (a + b).
Proof.
  unfold fin at 1 2. rewrite add_finite. apply fin_eq. now rewrite !Qred_correct.
Qed.

Lemma lt_PosInf_l (y : num) : (PosInf <? y)%num = false.
Proof. now destruct y. Qed.

Lemma lt_NaN_l (y : num) : (NaN <? y)%num = false.
Proof. reflexivity. Qed.

(** A non-positive number divided by zero is [-Infinity] or [NaN]. *)
Lemma div_zero_nonpos (a : Q) :
  (a <= 0)%Q -> (Finite a / zero)%num = NegInf \/ (Finite a / zero)%num = NaN.
Proof.
  intros Ha. unfold Num.div, zero, ofZ. simpl (inject_Z 0 ?= 0)%Q.
  destruct (a ?= 0)%Q eqn:E; auto.
  apply Qgt_alt in E. lra.
Qed.

Lemma floor_tile_ofZ (c : Z) : floor (ofZ (c * 50) / tileSize) = ofZ c.
Proof.
  unfold ofZ at 1. rewrite floor_div_tile. f_equal.
  apply Qfloor_unique; rewrite ?inject_Z_plus, inject_Z_mult;
    change (inject_Z 50) with 50%Q; change (inject_Z 1) with 1%Q;
    setoid_replace (inject_Z c * 50 / 50)%Q with (inject_Z c) using relation Qeq
      by field; lra.
Qed.

Lemma floor_tile_fin (q : Q) : floor (fin q / tileSize) = ofZ (Qfloor (q / 50)).
Proof.
  unfold fin. rewrite floor_div_tile. f_equal. apply Qfloor_comp.
  now rewrite Qred_correct.
Qed.

Lemma Qfloor_tile_le (q : Q) : (inject_Z (Qfloor (q / 50) * 50) <= q)%Q.
Proof.
  pose proof (Qfloor_le (q / 50)) as Hf. rewrite inject_Z_mult.
  change (inject_Z 50) with 50%Q.
  assert (E : (q == q / 50 * 50)%Q) by field. lra.
Qed.

Lemma Qfloor_tile_lt (q : Q) : (q < inject_Z ((Qfloor (q / 50) + 1) * 50))%Q.
Proof.
  pose proof (Qlt_floor (q / 50)) as Hf. rewrite inject_Z_mult.
  change (inject_Z 50) with 50%Q.
  assert (E : (q == q / 50 * 50)%Q) by field. lra.
Qed.

End MoreNumFacts.

Section AngleZero.
Context `{MathLib}.
Hypothesis Htan : tan_zero.
Variable this : Ray.t.
Variables qx qy : Q.
Hypothesis Hangle : Ray.absoluteAngle this = zero.
Hypothesis Hx : Ray.x this = Finite qx.
Hypothesis Hy : Ray.y this = Finite qy.

Lemma zero_not_facing_down : Ray.isFacingDown this = false.
Proof. unfold Ray.isFacingDown. now rewrite Hangle. Qed.

Lemma zero_not_facing_left : Ray.isFacingLeft this = false.
Proof. unfold Ray.isFacingLeft. now rewrite Hangle. Qed.

(** Nothing guards the division by the tangent: the horizontal step of a
    ray at angle zero is [+Infinity]. *)
Lemma zero_hStepX : Ray.hStepX this = PosInf.
Proof.
  unfold Ray.hStepX. rewrite zero_not_facing_left, Hangle, Htan. reflexivity.
Qed.

Lemma zero_hIntersectionY :
  Ray.hIntersectionY this = ofZ (Qfloor (qy / 50) * 50).
Proof.
  unfold Ray.hIntersectionY.
  rewrite zero_not_facing_down, Hy, floor_div_tile. apply mul_ofZ.
Qed.

Lemma zero_hIntersectionX :
  Ray.hIntersectionX this = NegInf \/ Ray.hIntersectionX this = NaN.
Proof.
  unfold Ray.hIntersectionX, Ray.hAdjacentSide.
  rewrite zero_hIntersectionY, Hangle, Htan, Hx, Hy.
  unfold ofZ. rewrite sub_finite. unfold fin.
  destruct (div_zero_nonpos (Qred (inject_Z (Qfloor (qy / 50) * 50) - qy)))
    as [-> | ->]; auto.
  rewrite Qred_correct. pose proof (Qfloor_tile_le qy). lra.
Qed.

(** The horizontal march of a ray at angle zero stops in its first turn: it
    has left the map, or it records a crossing that is not a number. *)
Lemma zero_horizontalMarch (fuel : nat) :
  exists h, Ray.horizontalMarch this (S fuel) = Ret h /\
    (h = (PosInf, PosInf) \/ h.1 = NaN).
Proof.
  unfold Ray.horizontalMarch. simpl. unfold Ray.horizontalBody.
  destruct zero_hIntersectionX as [-> | ->].
  - exists (PosInf, PosInf). split; [|now left]. reflexivity.
  - change (floor (NaN / tileSize)) with NaN.
    destruct (Ray.outside this NaN _) eqn:Eout.
    + exists (PosInf, PosInf). split; [reflexivity | now left].
    + assert (Ecol : forall cy, hasCollision (Ray.gameLevel this) NaN cy = Ret true).
      { intros cy. unfold hasCollision, in_map.
        change (NaN >=? zero)%num with false. now rewrite andb_false_r. }
      rewrite Ecol. simpl. eexists. split; [reflexivity | now right].
Qed.

Hypothesis Hpow : pow_square.
Hypothesis Hsqrt : sqrt_nan.

(** Such a candidate is never nearer than the vertical one. *)
Lemma zero_horizontal_not_chosen (h v : num * num) :
  h = (PosInf, PosInf) \/ h.1 = NaN ->
  (hitDistance this h <? hitDistance this v)%num = false.
Proof.
  intros [-> | Eh].
  - apply lt_PosInf_l.
  - destruct h as [hx hy]. simpl in Eh. subst hx.
    unfold hitDistance, distanceBetweenPoints. simpl.
    assert (E : forall y : num, (NaN * NaN + y)%num = NaN) by reflexivity.
    now rewrite (Hpow NaN), E, Hsqrt.
Qed.

(** The vertical march starts on the next grid line at the height of the
    origin and walks along the row. *)
Lemma zero_vIntersectionX :
  Ray.vIntersectionX this = ofZ ((Qfloor (qx / 50) + 1) * 50).
Proof.
  unfold Ray.vIntersectionX.
  rewrite zero_not_facing_left, Hx, floor_div_tile. simpl negb. cbv iota.
  unfold tileSize. rewrite mul_ofZ, add_ofZ. f_equal. lia.
Qed.

Lemma zero_vIntersectionY : Ray.vIntersectionY this = fin qy.
Proof.
  unfold Ray.vIntersectionY, Ray.vOppositeSide.
  rewrite zero_vIntersectionX, Hangle, Htan, Hx, Hy.
  unfold ofZ at 1. rewrite sub_finite. unfold fin at 1.
  rewrite mul_zero_r. apply add_zero_r.
Qed.

Lemma zero_vStepX : Ray.vStepX this = tileSize.
Proof. unfold Ray.vStepX. now rewrite zero_not_facing_left. Qed.

Lemma zero_vStepY : Ray.vStepY this = zero.
Proof.
  unfold Ray.vStepY. rewrite zero_not_facing_down, Hangle, Htan. reflexivity.
Qed.

(** A turn of the vertical march at a grid line [c] of the row. *)
Lemma zero_verticalBody (c : Z) :
  Ray.verticalBody this (ofZ (c * 50), fin qy) =
  if Ray.outside this (ofZ c) (ofZ (Qfloor (qy / 50))) then Ret (inr (PosInf, PosInf))
  else
    let* collides :=
      hasCollision (Ray.gameLevel this) (ofZ c) (ofZ (Qfloor (qy / 50))) in
    if collides : bool then Ret (inr (ofZ (c * 50), fin qy))
    else Ret (inl (ofZ ((c + 1) * 50), fin qy)).
Proof.
  unfold Ray.verticalBody.
  rewrite zero_not_facing_left, floor_tile_ofZ, floor_tile_fin, zero_vStepX, zero_vStepY.
  unfold tileSize. rewrite add_ofZ, fin_add_zero.
  replace (c * 50 + 50) with ((c + 1) * 50) by lia. reflexivity.
Qed.

(** The crossings of the vertical march stay finite. *)
Lemma zero_verticalMarch_finite (fuel : nat) (v : num * num) :
  Ray.verticalMarch this fuel = Ret v -> v = (PosInf, PosInf) \/ finite_point v.
Proof.
  unfold Ray.verticalMarch. intros Hrun.
  destruct (while_exit (Ray.verticalBody this) finite_point fuel
              (Ray.vIntersectionX this, Ray.vIntersectionY this) v)
    as (s & Hs & Hbody); [| |exact Hrun|].
  - intros [nx ny] s' [Hnx Hny]. simpl in Hnx, Hny. unfold Ray.verticalBody.
    destruct (Ray.outside this _ _); [discriminate|].
    destruct (hasCollision _ _ _) as [[|]| |]; simpl; try discriminate.
    intros [= <-]. rewrite zero_vStepX, zero_vStepY.
    destruct nx, ny; try discriminate. split; reflexivity.
  - rewrite zero_vIntersectionX, zero_vIntersectionY. split; reflexivity.
  - destruct s as [nx ny]. unfold Ray.verticalBody in Hbody.
    destruct (Ray.outside this _ _); [left; congruence|].
    destruct (hasCollision _ _ _) as [[|]| |]; simpl in Hbody; try discriminate.
    right. congruence.
Qed.

End AngleZero.

(** * Cells off the map *)

Lemma outside_ofZ `{MathLib} (this : Ray.t) (a b : Z) :
  Ray.outside this (ofZ a) (ofZ b) =
  (a <? 0) || (mapWidth (Ray.gameLevel this) <=? a) ||
  (b <? 0) || (mapHeight (Ray.gameLevel this) <=? b).
Proof. unfold Ray.outside, zero. now rewrite !lt_ofZ, !ge_ofZ. Qed.

(** * Rooms *)

Section RoomFacts.
Variables w h : nat.

Lemma room_grid_at (c r : Z) :
  0 <= c < Z.of_nat w -> 0 <= r < Z.of_nat h ->
  grid_at (room w h) c r =
  Some (if (c =? 0) || (c =? Z.of_nat w - 1) || (r =? 0) || (r =? Z.of_nat h - 1)
        then 1 else 0).
Proof.
  intros Hc Hr. unfold grid_at, room.
  rewrite list_lookup_fmap, lookup_seq_lt by lia. simpl.
  rewrite list_lookup_fmap, lookup_seq_lt by lia. simpl. f_equal.
  repeat first [split_nat_eqb | split_eqb]; simpl; try reflexivity; lia.
Qed.

Lemma room_level (cv : CanvasElement) (lvl : Level) :
  Level_new cv (room w h) = Ret lvl ->
  mapData lvl = room w h /\ mapHeight lvl = Z.of_nat h /\ mapWidth lvl = Z.of_nat w /\
  level_ok lvl.
Proof.
  intros Hnew.
  destruct (Level_new_fields _ _ _ Hnew) as (Hdata & HH & _ & _ & row0 & H0 & HW).
  assert (Hlen : length (room w h) = h) by (unfold room; now rewrite length_fmap, length_seq).
  unfold level_ok. rewrite Hdata, HH, HW, Hlen. repeat split.
  unfold room in H0. rewrite list_lookup_fmap in H0.
  destruct (seq 0 h !! 0%nat); simpl in H0; [|discriminate].
  injection H0 as <-. now rewrite length_fmap, length_seq.
Qed.

(** In a room the walls are the tiles of the ring. *)
Lemma room_collision (cv : CanvasElement) (lvl : Level) (c r : Z) :
  Level_new cv (room w h) = Ret lvl ->
  0 <= c < Z.of_nat w -> 0 <= r < Z.of_nat h ->
  hasCollision lvl (ofZ c) (ofZ r) =
  Ret ((c =? 0) || (c =? Z.of_nat w - 1) || (r =? 0) || (r =? Z.of_nat h - 1)).
Proof.
  intros Hnew Hc Hr. destruct (room_level _ _ Hnew) as (Hdata & HH & HW & _).
  rewrite (hasCollision_stored lvl c r
             (if (c =? 0) || (c =? Z.of_nat w - 1) || (r =? 0) || (r =? Z.of_nat h - 1)
              then 1 else 0));
    [now destruct (_ || _) | rewrite HW; lia | rewrite HH; lia
    | rewrite Hdata; now apply room_grid_at].
Qed.

End RoomFacts.

(** * The rational [Math] satisfies the laws *)

Section RationalMathFacts.

Lemma rational_tan_zero : @tan_zero RationalMath.lib.
Proof. reflexivity. Qed.

Lemma rational_sqrt_nan : @sqrt_nan RationalMath.lib.
Proof. reflexivity. Qed.

Lemma rational_pow_square : @pow_square RationalMath.lib.
Proof.
  intros [a| | |]; try reflexivity.
  change (fin (a * Qred (a * 1)) = fin (a * a)).
  apply fin_eq. rewrite Qred_correct. ring.
Qed.

Lemma Qred_nonneg (q : Q) : (0 <= q)%Q -> 0 <= Qnum (Qred q).
Proof.
  intros Hq. rewrite <- (Qred_correct q) in Hq.
  unfold Qle in Hq. simpl in Hq. lia.
Qed.

Lemma rational_sqrt_finite : @sqrt_finite RationalMath.lib.
Proof.
  intros q Hq. simpl. unfold RationalMath.sqrt.
  destruct (Z.leb_spec 0 (Qnum (Qred q))); [reflexivity|].
  pose proof (Qred_nonneg q Hq). lia.
Qed.

(** The square of a rational in lowest terms is in lowest terms. *)
Lemma Qred_square (r : Q) :
  Qred (r * r) = (Qnum (Qred r) * Qnum (Qred r) # Qden (Qred r) * Qden (Qred r)).
Proof.
  rewrite (Qred_complete (r * r) (Qred r * Qred r)) by now rewrite Qred_correct.
  apply Qred_identity.
  pose proof (Qred_involutive r) as Hinv. apply Qred_iff in Hinv.
  change (Z.gcd (Qnum (Qred r) * Qnum (Qred r))
            (Zpos (Qden (Qred r) * Qden (Qred r))) = 1).
  rewrite Pos2Z.inj_mul.
  apply Z.coprime_mul_l; apply Z.coprime_mul_r; exact Hinv.
Qed.

Lemma rational_sqrt_square : @sqrt_square RationalMath.lib.
Proof.
  intros q r Hr Hrr. simpl. unfold RationalMath.sqrt.
  rewrite (Qred_complete q (r * r)) by now symmetry.
  rewrite Qred_square.
  pose proof (Qred_nonneg r Hr) as Hn.
  pose proof (Qred_correct r) as Er.
  destruct (Qred r) as [a b]. cbn [Qnum Qden] in *.
  destruct (Z.leb_spec 0 (a * a)); [|nia].
  replace (a * a * Zpos (b * b) * 2 ^ 104)
    with ((a * Zpos b * 2 ^ 52) * (a * Zpos b * 2 ^ 52))
    by (rewrite Pos2Z.inj_mul; change (2 ^ 104) with (2 ^ 52 * 2 ^ 52); ring).
  rewrite Z.sqrt_square by (apply Z.mul_nonneg_nonneg; [nia | lia]).
  apply fin_eq. rewrite <- Er.
  unfold Qeq. cbn [Qnum Qden]. rewrite !Pos2Z.inj_mul, Pos2Z.inj_pow. ring.
Qed.

Lemma rational_pow_monotone_one : @pow_monotone RationalMath.lib one.
Proof.
  intros b1 b2 H0 H12 H1.
  exists (Qred (b1 * 1)), (Qred (b2 * 1)).
  split; [reflexivity|]. split; [reflexivity|].
  rewrite !Qred_correct. lra.
Qed.

Lemma rational_pow_of_one_one : @pow_of_one RationalMath.lib one.
Proof. reflexivity. Qed.

End RationalMathFacts.

(** * The theorems at concrete inputs *)

#[local] Existing Instance RationalMath.lib.

Lemma roomLevel_new : Level_new canvas (room 15 10) = Ret roomLevel.
Proof. reflexivity. Qed.

Lemma openLevel_new : Level_new canvas [[0]] = Ret openLevel.
Proof. reflexivity. Qed.

(** The marches of the ray of the room: the horizontal march leaves the
    map at once, the vertical march steps over twelve free tiles and finds
    the wall at [x = 700]. *)
Lemma marches_terminate_witness :
  exists (n m : nat),
    (n <= 10)%nat /\ (m <= 15)%nat /\
    (forall k, (k < m)%nat -> freeCell roomRay (vCell roomRay (vCrossing roomRay k))) /\
    marchEnd roomRay (hCell roomRay (hCrossing roomRay n)) (hCrossing roomRay n)
      (PosInf, PosInf) /\
    marchEnd roomRay (vCell roomRay (vCrossing roomRay m)) (vCrossing roomRay m)
      (ofZ 700, ofZ 75) /\
    @Ray.horizontalMarch RationalMath.lib roomRay n = OutOfFuel /\
    @Ray.verticalMarch RationalMath.lib roomRay m = OutOfFuel /\
    @Ray.horizontalMarch RationalMath.lib roomRay 16 = Ret (PosInf, PosInf) /\
    @Ray.verticalMarch RationalMath.lib roomRay 16 = Ret (ofZ 700, ofZ 75).
Proof.
  destruct (@marches_terminate RationalMath.lib roomRay eq_refl)
    as (n & m & h & v & Hn & Hm & _ & _ & _ & Hh & Hfv & Hv & Hoh & Hov & Hrh & Hrv).
  change (Z.to_nat (mapHeight (Ray.gameLevel roomRay))) with 10%nat in Hn.
  change (Z.to_nat (mapWidth (Ray.gameLevel roomRay))) with 15%nat in Hm.
  assert (Eh : h = (PosInf, PosInf)).
  { pose proof (Hrh 16%nat ltac:(lia)) as E. vm_compute in E. now injection E. }
  assert (Ev : v = (ofZ 700, ofZ 75)).
  { pose proof (Hrv 16%nat ltac:(lia)) as E. vm_compute in E. now injection E. }
  subst h v. exists n, m.
  split; [exact Hn|]. split; [exact Hm|]. split; [exact Hfv|].
  split; [exact Hh|]. split; [exact Hv|]. split; [exact Hoh|]. split; [exact Hov|].
  split; [apply Hrh | apply Hrv]; lia.
Defined.

(** The ray of the level of one open tile finds no wall. *)
Lemma cast_no_hit_sentinel_witness :
  exists this' zBuffer',
    @Ray.cast RationalMath.lib openRay 2 ∅ = Ret (this', zBuffer') /\
    Ray.directDistance this' = MAX_SAFE_INTEGER /\
    Ray.textureId this' = Num zero /\
    zBuffer' !! 3 = Some MAX_SAFE_INTEGER /\
    @Ray.draw RationalMath.lib 2 zero configLight openRay ∅ = Ret (this', zBuffer', []) /\
    @Ray.draw RationalMath.lib 2 one configLight openRay ∅ = Ret (this', zBuffer', []).
Proof.
  destruct (@cast_no_hit_sentinel RationalMath.lib openRay 2 ∅ configLight eq_refl (le_n 2))
    as [_ Hno].
  destruct (Hno eq_refl eq_refl) as (this' & zb' & Hc & Hd & _ & _ & Ht & Hz & Hdraw).
  exists this', zb'. auto 10.
Defined.

(** The ray of the room, cast over a depth buffer that holds an entry at
    another column. *)
Lemma depth_buffer_frame_witness :
  exists this' zBuffer',
    @Ray.cast RationalMath.lib roomRay (marchBound roomLevel) {[7 := ofZ 40]}
      = Ret (this', zBuffer') /\
    zBuffer' !! 3 = Some (Ray.directDistance this') /\
    zBuffer' !! 7 = Some (ofZ 40) /\
    Ray.gameLevel this' = roomLevel.
Proof.
  destruct (@depth_buffer_frame RationalMath.lib roomRay (marchBound roomLevel)
              {[7 := ofZ 40]} eq_refl (le_n _))
    as [(this' & zb' & Hc & Hw & Hframe & Hlvl) _].
  exists this', zb'. split; [exact Hc|]. split; [exact Hw|]. split; [|exact Hlvl].
  rewrite (Hframe 7) by discriminate. reflexivity.
Defined.

(** * Degenerate angles *)

Lemma Qsquare_nonneg (q : Q) : (0 <= q * q)%Q.
Proof.
  destruct (Qlt_le_dec q 0) as [Hneg | Hpos].
  - assert (E : (q * q == (- q) * (- q))%Q) by ring. rewrite E.
    apply Qmult_le_0_compat; lra.
  - now apply Qmult_le_0_compat.
Qed.

Lemma hitDistance_finite `{MathLib} (this : Ray.t) (qx qy a b : Q) :
  pow_square -> sqrt_finite ->
  Ray.x this = Finite qx -> Ray.y this = Finite qy ->
  is_finite (hitDistance this (Finite a, Finite b)) = true.
Proof.
  intros Hpow Hsqrt Hx Hy. unfold hitDistance, distanceBetweenPoints.
  simpl fst. simpl snd. change (Finite a !== PosInf)%num with true. cbv iota.
  rewrite !Hpow, Hx, Hy, !sub_finite, !mul_fin, add_fin. unfold fin.
  apply Hsqrt. rewrite Qred_correct.
  pose proof (Qsquare_nonneg (a - qx)). pose proof (Qsquare_nonneg (b - qy)). lra.
Qed.

Lemma rem_tile_finite (b : Q) : is_finite (Finite b %% tileSize)%num = true.
Proof. reflexivity. Qed.

(** C6 does not hold as stated.  Nothing clamps the tangent: at angle zero
    the horizontal step of a ray is [+Infinity]; and where the row of the
    ray has no wall, as in a level of one open tile, the hit point that
    [cast] records is at infinity and the texture column is not a number. *)
Lemma cast_angle_zero_not_finite :
  Ray.absoluteAngle openRay = zero /\
  Ray.hStepX openRay = PosInf /\
  Ray.hStepX roomRay = PosInf /\
  exists this' zBuffer',
    Ray.cast openRay 2 ∅ = Ret (this', zBuffer') /\
    Ray.wallHitX this' = PosInf /\ Ray.wallHitY this' = PosInf /\
    Ray.texturePixelX this' = NaN.
Proof.
  split; [reflexivity|]. split; [reflexivity|]. split; [reflexivity|].
  eexists _, _. split; [reflexivity|]. repeat split; reflexivity.
Qed.

(** C6, as the code has it.  A ray at angle zero from a finite origin is
    cast with nothing clamped: its horizontal step is [+Infinity], and its
    horizontal march stops at once with a crossing at infinity or one that
    is not a number.  That candidate is never chosen: the hit recorded is
    the one of the vertical march.  When the vertical march finds a wall,
    the hit point, the direct distance and the texture column are finite,
    and so is the corrected distance when the cosine of the offset is;
    when it leaves the map, the hit point is at infinity, the texture
    column is not a number, and both distances are the sentinel. *)
Theorem cast_angle_zero `{MathLib} (this : Ray.t) (qx qy : Q) (fuel : nat)
    (zBuffer : gmap Z num) :
  tan_zero -> pow_square -> sqrt_nan -> sqrt_finite ->
  level_ok (Ray.gameLevel this) ->
  Ray.absoluteAngle this = zero ->
  Ray.x this = Finite qx -> Ray.y this = Finite qy ->
  (marchBound (Ray.gameLevel this) <= fuel)%nat ->
  Ray.hStepX this = PosInf /\
  exists h v this' zBuffer',
    Ray.horizontalMarch this fuel = Ret h /\ (h = (PosInf, PosInf) \/ h.1 = NaN) /\
    Ray.verticalMarch this fuel = Ret v /\
    Ray.cast this fuel zBuffer = Ret (this', zBuffer') /\
    Ray.wallHitX this' = v.1 /\ Ray.wallHitY this' = v.2 /\
    (v <> (PosInf, PosInf) ->
       is_finite (Ray.wallHitX this') = true /\
       is_finite (Ray.wallHitY this') = true /\
       is_finite (Ray.directDistance this') = true /\
       is_finite (Ray.texturePixelX this') = true /\
       (is_finite (Math_cos (Ray.relativeAngleOffset this)) = true ->
        is_finite (Ray.correctedDistance this') = true)) /\
    (v = (PosInf, PosInf) ->
       Ray.texturePixelX this' = NaN /\
       Ray.directDistance this' = MAX_SAFE_INTEGER /\
       Ray.correctedDistance this' = MAX_SAFE_INTEGER).
Proof.
  intros Htan Hpow Hsqrtn Hsqrtf Hok Hangle Hx Hy Hfuel.
  split; [now apply zero_hStepX|].
  destruct (cast_spec this Hok fuel zBuffer Hfuel)
    as (h & v & this' & Eh & _ & Ev & _ & Hch & Hcast).
  assert (Hh : h = (PosInf, PosInf) \/ h.1 = NaN).
  { destruct fuel as [|fuel]; [unfold marchBound in Hfuel; lia|].
    destruct (zero_horizontalMarch Htan this qx qy Hangle Hx Hy fuel) as (h' & Eh' & Hh).
    congruence. }
  pose proof (zero_horizontal_not_chosen this Hpow Hsqrtn h v Hh) as Enear.
  destruct (choose_spec this Hok h v)
    as (this'' & Hch' & _ & _ & Hwx & Hwy & Hd & Hc & Hp & _).
  assert (this'' = this') as -> by congruence.
  simpl in Hwx, Hwy, Hd, Hc, Hp. rewrite Enear in Hwx, Hwy, Hd, Hc, Hp.
  exists h, v, this', (<[Ray.screenColumn this := Ray.directDistance this']> zBuffer).
  repeat (split; [assumption|]). split.
  - intros Hv.
    destruct (zero_verticalMarch_finite Htan this qx qy Hangle Hx Hy fuel v Ev)
      as [Einf | [Hf1 Hf2]]; [contradiction|].
    destruct v as [[a| | |] [b| | |]]; try discriminate. simpl in Hwx, Hwy, Hp.
    pose proof (hitDistance_finite this qx qy a b Hpow Hsqrtf Hx Hy) as Hfin.
    destruct (hitDistance this (Finite a, Finite b)) as [d| | |]; try discriminate.
    simpl in Hd, Hc. rewrite Hwx, Hwy, Hd, Hc, Hp.
    repeat split.
    destruct (Math_cos _); try discriminate. reflexivity.
  - intros ->. simpl in Hp. unfold hitDistance in Hd, Hc. simpl in Hd, Hc. auto.
Qed.

(** The ray of the room, which is at angle zero. *)
Lemma cast_angle_zero_witness :
  Ray.hStepX roomRay = PosInf /\
  exists this' zBuffer',
    Ray.cast roomRay (marchBound roomLevel) ∅ = Ret (this', zBuffer') /\
    Ray.wallHitX this' = ofZ 700 /\ Ray.wallHitY this' = ofZ 75 /\
    is_finite (Ray.directDistance this') = true /\
    is_finite (Ray.texturePixelX this') = true /\
    is_finite (Ray.correctedDistance this') = true.
Proof.
  destruct (@cast_angle_zero RationalMath.lib roomRay 75 75 (marchBound roomLevel) ∅
              rational_tan_zero rational_pow_square rational_sqrt_nan
              rational_sqrt_finite eq_refl eq_refl eq_refl eq_refl (le_n _))
    as (Hstep & h & v & this' & zb' & Eh & Hh & Ev & Hcast & Hwx & Hwy & Hfin & _).
  split; [exact Hstep|]. exists this', zb'. split; [exact Hcast|].
  assert (Ev' : v = (ofZ 700, ofZ 75))
    by (apply (f_equal (fun o => match o with Ret p => p | _ => v end)) in Ev;
        symmetry; exact Ev).
  subst v.
  destruct Hfin as (_ & _ & Hd & Hp & Hc); [discriminate|].
  split; [exact Hwx|]. split; [exact Hwy|]. split; [exact Hd|]. split; [exact Hp|].
  apply Hc. reflexivity.
Defined.

(** * The columns of a sprite *)

Section ColumnFacts.
Variable zBuffer : gmap Z num.
Variable p : Sprite.Projection.
Variable e : Z.
Hypothesis Hend : Sprite.endScreenPixelX p = ofZ e.

Lemma key_of_ofZ (z : Z) : key_of (ofZ z) = Some z.
Proof. unfold key_of, ofZ. now rewrite Qred_inject_Z. Qed.

Lemma zBuffer_get_ofZ (z : Z) :
  zBuffer_get zBuffer (ofZ z) =
  match zBuffer !! z with Some v => Num v | None => Undefined end.
Proof. unfold zBuffer_get. now rewrite key_of_ofZ. Qed.

Lemma columnBody_inside (column : Z) (ops : list canvasOp) :
  column < e ->
  Sprite.columnBody zBuffer p (ofZ column, ops) =
  Ret (inl (ofZ (column + 1), ops ++ columnOps zBuffer p column)).
Proof.
  intros Hlt. unfold Sprite.columnBody, columnOps, canvasWidth, zero, one.
  rewrite Hend, !lt_ofZ, ge_ofZ, add_ofZ.
  destruct (Z.ltb_spec column e); [|lia]. simpl.
  destruct (Z.ltb_spec column 0), (Z.leb_spec 500 column), (Z.leb_spec 0 column),
    (Z.ltb_spec column 500); try lia; simpl; rewrite ?app_nil_r; try reflexivity.
  destruct (_ >? _)%num; now rewrite ?app_nil_r.
Qed.

Lemma columnBody_done (column : Z) (ops : list canvasOp) :
  e <= column -> Sprite.columnBody zBuffer p (ofZ column, ops) = Ret (inr ops).
Proof.
  intros Hge. unfold Sprite.columnBody. rewrite Hend, lt_ofZ.
  destruct (Z.ltb_spec column e); [lia | reflexivity].
Qed.

(** The loop over the columns makes the calls of its columns, in order. *)
Lemma columns_run (n : nat) (column : Z) (ops : list canvasOp) :
  n = Z.to_nat (e - column) ->
  while (S n) (Sprite.columnBody zBuffer p) (ofZ column, ops) =
  Ret (ops ++ columnsFrom zBuffer p n column).
Proof.
  revert column ops. induction n as [|n IH]; intros column ops Hn.
  - rewrite while_S, columnBody_done by lia. simpl. now rewrite app_nil_r.
  - rewrite while_S, columnBody_inside by lia. unfold obind at 1. cbv beta iota.
    rewrite IH by lia. cbn [columnsFrom]. now rewrite app_assoc.
Qed.

Lemma drawn_at_strip (column column' : Z) :
  drawn_at column (Sprite.strip p (ofZ column')) = (column' =? column).
Proof. unfold drawn_at, Sprite.strip, Num.eqb, ofZ. apply Qeq_bool_inject_Z. Qed.

Lemma stripsAt_columnOps (column column' : Z) :
  stripsAt column (columnOps zBuffer p column') =
  if column' =? column then columnOps zBuffer p column else [].
Proof.
  unfold stripsAt, columnOps.
  destruct (Z.eqb_spec column' column) as [-> | Hne].
  - destruct (_ && _); [|reflexivity]. cbn [List.filter].
    now rewrite drawn_at_strip, Z.eqb_refl.
  - destruct (_ && _); [|reflexivity]. cbn [List.filter].
    rewrite drawn_at_strip. now destruct (Z.eqb_spec column' column).
Qed.

Lemma stripsAt_columnsFrom (n : nat) (first column : Z) :
  stripsAt column (columnsFrom zBuffer p n first) =
  if (first <=? column) && (column <? first + Z.of_nat n)
  then columnOps zBuffer p column else [].
Proof.
  revert first. induction n as [|n IH]; intros first.
  - cbn [columnsFrom]. zcases; simpl; try reflexivity; lia.
  - cbn [columnsFrom]. unfold stripsAt in *. rewrite List.filter_app.
    fold (stripsAt column (columnOps zBuffer p first)).
    rewrite stripsAt_columnOps, IH.
    destruct (Z.eqb_spec first column) as [-> | Hne];
      zcases; simpl; rewrite ?app_nil_r; try reflexivity; lia.
Qed.

End ColumnFacts.

Lemma le_not_gt (v d : num) : (v <=? d)%num = true -> (v >? d)%num = false.
Proof.
  unfold Num.gt. destruct v as [a| | |], d as [b| | |]; simpl; try discriminate;
    try reflexivity.
  intros Hle. now rewrite Hle.
Qed.

Lemma Qle_bool_false (a b : Q) : Qle_bool a b = false -> (b < a)%Q.
Proof.
  intros E. destruct (Qlt_le_dec b a) as [Hlt | Hle]; [assumption|].
  apply Qle_bool_iff in Hle. congruence.
Qed.

(** Case analysis on the rational comparisons of the goal. *)
Ltac qcases :=
  repeat (match goal with
          | |- context [Qle_bool ?a ?b] =>
              let E := fresh "E" in
              destruct (Qle_bool a b) eqn:E;
              [apply Qle_bool_iff in E | apply Qle_bool_false in E]
          end; simpl).

(** Linear arithmetic once the injected integers are rationals. *)
Ltac qlra := unfold inject_Z in *; lra.

(** A clamped number lies between the bounds it is clamped to. *)
Lemma clamp_bounds (lo hi : Q) (x : num) :
  (lo <= hi)%Q -> x <> NaN ->
  (Finite lo <=? Num.max (Finite lo) (Num.min (Finite hi) x))%num = true /\
  (Num.max (Finite lo) (Num.min (Finite hi) x) <=? Finite hi)%num = true.
Proof.
  intros Hle Hx.
  destruct x as [q| | |]; [| | |contradiction];
    unfold Num.max, Num.min, Num.lt, Num.le; simpl; qcases;
    split; try reflexivity; exfalso; lra.
Qed.

(** ** A sprite in view *)

Section InViewFacts.
Context `{MathLib}.

Lemma calculateRenderData_image (player : option Player.t) (this : Sprite.t) :
  Sprite.image (Sprite.calculateRenderData player this).1 = Sprite.image this /\
  Sprite.renderingContext (Sprite.calculateRenderData player this).1
    = Sprite.renderingContext this /\
  Sprite.flipped (Sprite.calculateRenderData player this).1 = Sprite.flipped this /\
  Sprite.worldHeight (Sprite.calculateRenderData player this).1
    = Sprite.worldHeight this.
Proof. unfold Sprite.calculateRenderData. now destruct player. Qed.

(** [draw] on a visible sprite in the field of view, in the 3D view, with
    an image that is loaded, beyond the least corrected distance: the loop
    over the columns of its projection, between the calls that set the
    context up and the call that restores it. *)
Lemma draw_in_view (fuel : nat) (player : Player.t) (cfg : LightConfig)
    (this : Sprite.t) (image : Image) (zBuffer : gmap Z num) :
  Sprite.visible this = true ->
  (Sprite.calculateRenderData (Some player) this).2 = true ->
  Sprite.image this = Some image -> Sprite.renderingContext this = true ->
  complete image = true -> (naturalHeight image !== zero)%num = true ->
  (Sprite.correctedDistanceForProjection
     (spriteProjection (Sprite.calculateRenderData (Some player) this).1 image)
   <=? Finite (1 # 10))%num = false ->
  Sprite.draw fuel (Some player) zero cfg this zBuffer =
  let seen := (Sprite.calculateRenderData (Some player) this).1 in
  let p := spriteProjection seen image in
  let* strips :=
    Sprite.drawColumns zBuffer p fuel (floor (Sprite.spriteLeftScreenX p)) in
  Ret (seen, zBuffer,
       [set_imageSmoothingEnabled false; save;
        set_globalAlpha (Sprite.brightness cfg (Sprite.distanceToPlayer seen))]
       ++ strips ++ [restore]).
Proof.
  intros Hvis Hfov Himg Hctx Hcomplete Hheight Hfar.
  destruct (calculateRenderData_image (Some player) this) as (Ei & Ec & _ & _).
  unfold Sprite.draw. rewrite Hvis. cbn [negb].
  destruct (Sprite.calculateRenderData (Some player) this) as [seen isInFOV] eqn:Edata.
  cbn [fst snd] in *. subst isInFOV. cbn [negb].
  rewrite Ei, Himg, Ec, Hctx, Hcomplete, Hheight.
  change ((zero === zero)%num && true && true && true) with true. cbv iota.
  unfold spriteProjection in Hfar. cbn [Sprite.correctedDistanceForProjection] in Hfar.
  rewrite Hfar. reflexivity.
Qed.

(** The strips among the calls of [draw] are those of its loop. *)
Lemma stripsAt_draw (column : Z) (alpha : num) (strips : list canvasOp) :
  stripsAt column
    ([set_imageSmoothingEnabled false; save; set_globalAlpha alpha]
     ++ strips ++ [restore])
  = stripsAt column strips.
Proof.
  unfold stripsAt. cbn [app List.filter drawn_at].
  rewrite List.filter_app. cbn [List.filter drawn_at]. apply app_nil_r.
Qed.

(** The calls of [draw] on a sprite in view whose columns run from [first]
    up to [e]. *)
Lemma draw_columns (fuel : nat) (player : Player.t) (cfg : LightConfig)
    (this : Sprite.t) (image : Image) (zBuffer : gmap Z num) (first e : Z) :
  let seen := (Sprite.calculateRenderData (Some player) this).1 in
  let p := spriteProjection seen image in
  Sprite.visible this = true ->
  (Sprite.calculateRenderData (Some player) this).2 = true ->
  Sprite.image this = Some image -> Sprite.renderingContext this = true ->
  complete image = true -> (naturalHeight image !== zero)%num = true ->
  (Sprite.correctedDistanceForProjection p <=? Finite (1 # 10))%num = false ->
  floor (Sprite.spriteLeftScreenX p) = ofZ first ->
  Sprite.endScreenPixelX p = ofZ e ->
  (Z.to_nat (e - first) < fuel)%nat ->
  Sprite.draw fuel (Some player) zero cfg this zBuffer =
  Ret (seen, zBuffer,
       [set_imageSmoothingEnabled false; save;
        set_globalAlpha (Sprite.brightness cfg (Sprite.distanceToPlayer seen))]
       ++ columnsFrom zBuffer p (Z.to_nat (e - first)) first ++ [restore]).
Proof.
  intros seen p Hvis Hfov Himg Hctx Hcomplete Hheight Hfar Hfirst Hend Hfuel.
  rewrite (draw_in_view fuel player cfg this image zBuffer) by assumption.
  cbv zeta. fold seen. fold p. rewrite Hfirst. unfold Sprite.drawColumns.
  rewrite (while_more_fuel _ (S (Z.to_nat (e - first))) fuel _
             ([] ++ columnsFrom zBuffer p (Z.to_nat (e - first)) first));
    [reflexivity | now apply (columns_run zBuffer p e Hend) | lia].
Qed.

End InViewFacts.



(** * The light model *)

Section LightFacts.
Context `{MathLib}.
Variable cfg : LightConfig.
Variables r a : Q.
Variable k : num.
Hypothesis HR : lightRadius cfg = Finite r.
Hypothesis HA : ambientLight cfg = Finite a.
Hypothesis HK : falloffSharpness cfg = k.

Lemma lightBase_value (q : Q) : ~ (r == 0)%Q -> (lightBase q r == 1 - q / r)%Q.
Proof. intros Hr. unfold lightBase. now rewrite !Qred_correct. Qed.

Lemma light_base (q : Q) :
  ~ (r == 0)%Q -> (one - Finite q / Finite r)%num = Finite (lightBase q r).
Proof.
  intros Hr. rewrite div_fin by assumption. unfold one, ofZ, fin.
  now rewrite sub_finite.
Qed.

Lemma light_inner (pw : Q) :
  (Finite a + (one - Finite a) * Finite pw)%num = fin (a + (1 - a) * pw).
Proof.
  unfold one, ofZ. rewrite sub_finite. unfold fin. rewrite mul_finite.
  unfold fin. rewrite add_finite. apply fin_eq. rewrite !Qred_correct.
  change (inject_Z 1) with 1%Q. ring.
Qed.

(** The brightness of a wall beyond the radius, and within it. *)
Lemma wallBrightness_far (q : Q) :
  (r < q)%Q ->
  wallBrightness cfg (Finite q) = Num.max (Finite a) (Num.min one (Finite a)).
Proof.
  intros Hq. unfold wallBrightness. rewrite HR, HA.
  assert (E : (Finite q <=? Finite r)%num = false).
  { unfold Num.le. destruct (Qle_bool q r) eqn:E; [|reflexivity].
    apply Qle_bool_iff in E. lra. }
  now rewrite E.
Qed.

Lemma wallBrightness_near (q : Q) :
  (q <= r)%Q -> ~ (r == 0)%Q ->
  wallBrightness cfg (Finite q) =
  Num.max (Finite a)
    (Num.min one (Finite a + (one - Finite a) * Math_pow (Finite (lightBase q r)) k))%num.
Proof.
  intros Hq Hr. unfold wallBrightness. rewrite HR, HA, HK.
  assert (E : (Finite q <=? Finite r)%num = true) by (now apply Qle_bool_iff).
  now rewrite E, light_base.
Qed.

Lemma clamp_ambient :
  (a <= 1)%Q -> Num.max (Finite a) (Num.min one (Finite a)) = Finite a.
Proof.
  intros Ha. unfold Num.max, Num.min, Num.lt, one, ofZ. simpl.
  qcases; try reflexivity; exfalso; qlra.
Qed.

Lemma clamp_mono (x y : Q) :
  (a <= 1)%Q -> (x <= y)%Q ->
  (Num.max (Finite a) (Num.min one (Finite x))
   <=? Num.max (Finite a) (Num.min one (Finite y)))%num = true.
Proof.
  intros Ha Hxy. unfold Num.max, Num.min, Num.lt, Num.le, one, ofZ. simpl.
  qcases; try reflexivity; exfalso; qlra.
Qed.

Lemma clamp_range (x : Q) :
  (a <= 1)%Q ->
  (Finite a <=? Num.max (Finite a) (Num.min one (Finite x)))%num = true /\
  (Num.max (Finite a) (Num.min one (Finite x)) <=? one)%num = true.
Proof.
  intros Ha. apply (clamp_bounds a 1 (Finite x)); [assumption | discriminate].
Qed.

Lemma clamp_one :
  (a <= 1)%Q -> (Num.max (Finite a) (Num.min one one) === one)%num = true.
Proof.
  intros Ha. unfold Num.max, Num.min, Num.lt, Num.eqb, one, ofZ. simpl.
  qcases; try reflexivity; apply Qeq_bool_iff; qlra.
Qed.

(** At distance zero the base is one, and the inner value with it. *)
Lemma light_at_zero (q : Q) :
  (q == 0)%Q -> ~ (r == 0)%Q -> pow_of_one k ->
  (Finite a + (one - Finite a) * Math_pow (Finite (lightBase q r)) k)%num = one.
Proof.
  intros Hq Hr Hone.
  assert (E : Finite (lightBase q r) = one).
  { unfold lightBase. change one with (fin 1). apply fin_eq.
    rewrite Qred_correct, Hq. change (inject_Z 1) with 1%Q. field. assumption. }
  rewrite E, Hone. change one with (Finite 1) at 2. rewrite light_inner.
  change one with (fin 1). apply fin_eq. ring.
Qed.

End LightFacts.

Lemma Qdiv_le_mono (x y r : Q) : (x <= y)%Q -> (0 < r)%Q -> (x / r <= y / r)%Q.
Proof.
  intros Hxy Hr. unfold Qdiv. apply Qmult_le_compat_r; [assumption|].
  apply Qinv_le_0_compat. lra.
Qed.

Lemma lightBase_range (q r : Q) :
  (0 <= q)%Q -> (q <= r)%Q -> (0 < r)%Q ->
  (0 <= lightBase q r)%Q /\ (lightBase q r <= 1)%Q.
Proof.
  intros H0 Hq Hr. rewrite lightBase_value by lra.
  pose proof (Qdiv_le_mono 0 q r H0 Hr) as H1.
  pose proof (Qdiv_le_mono q r r Hq Hr) as H2.
  assert (E0 : (0 / r == 0)%Q) by (field; lra).
  assert (E1 : (r / r == 1)%Q) by (field; lra).
  lra.
Qed.

Lemma lightBase_mono (q1 q2 r : Q) :
  (q1 <= q2)%Q -> (0 < r)%Q -> (lightBase q2 r <= lightBase q1 r)%Q.
Proof.
  intros Hq Hr. rewrite !lightBase_value by lra.
  pose proof (Qdiv_le_mono q1 q2 r Hq Hr). lra.
Qed.

(** C8. With an ambient level between 0 and 1, a positive radius, and a
    sharpness at which [Math.pow] does not decrease on the bases between 0
    and 1 and maps 1 to 1 (as it does for every positive sharpness), the
    brightness of a wall does not increase with the distance, lies between
    the ambient level and 1, and is 1 at distance zero. *)
Theorem wall_brightness_falloff `{MathLib} (cfg : LightConfig) (r a : Q) (k : num) :
  lightRadius cfg = Finite r -> ambientLight cfg = Finite a ->
  falloffSharpness cfg = k ->
  (0 <= a)%Q -> (a <= 1)%Q -> (0 < r)%Q ->
  pow_monotone k -> pow_of_one k ->
  (forall d1 d2 : Q, (0 <= d1)%Q -> (d1 <= d2)%Q ->
     (wallBrightness cfg (Finite d2) <=? wallBrightness cfg (Finite d1))%num = true) /\
  (forall d : Q, (0 <= d)%Q ->
     (Finite a <=? wallBrightness cfg (Finite d))%num = true /\
     (wallBrightness cfg (Finite d) <=? one)%num = true) /\
  (wallBrightness cfg zero === one)%num = true.
Proof.
  intros HR HA HK Ha0 Ha1 Hr Hmono Hone.
  assert (Hnear : forall d, (0 <= d)%Q -> (d <= r)%Q ->
            exists pw, Math_pow (Finite (lightBase d r)) k = Finite pw).
  { intros d Hd0 Hdr. destruct (lightBase_range d r Hd0 Hdr Hr) as [Hb0 Hb1].
    destruct (Hmono _ _ Hb0 (Qle_refl _) Hb1) as (p1 & _ & E & _). eauto. }
  assert (Hrefl : (Finite a <=? Finite a)%num = true) by (apply Qle_bool_iff; lra).
  split; [|split].
  - intros d1 d2 Hd1 Hd12.
    destruct (Qlt_le_dec r d2) as [Hfar2 | Hnear2].
    + rewrite (wallBrightness_far cfg r a HR HA d2 Hfar2), clamp_ambient by assumption.
      destruct (Qlt_le_dec r d1) as [Hfar1 | Hnear1].
      * now rewrite (wallBrightness_far cfg r a HR HA d1 Hfar1), clamp_ambient.
      * rewrite (wallBrightness_near cfg r a k HR HA HK d1 Hnear1) by lra.
        destruct (Hnear d1 Hd1 Hnear1) as [pw ->].
        rewrite light_inner. unfold fin. now apply clamp_range.
    + assert (Hnear1 : (d1 <= r)%Q) by lra.
      rewrite (wallBrightness_near cfg r a k HR HA HK d1 Hnear1),
        (wallBrightness_near cfg r a k HR HA HK d2 Hnear2) by lra.
      destruct (lightBase_range d2 r ltac:(lra) Hnear2 Hr) as [Hb0 _].
      destruct (lightBase_range d1 r Hd1 Hnear1 Hr) as [_ Hb1].
      destruct (Hmono _ _ Hb0 (lightBase_mono d1 d2 r Hd12 Hr) Hb1)
        as (p2 & p1 & -> & -> & Hp).
      rewrite !light_inner. unfold fin. apply clamp_mono; [assumption|].
      rewrite !Qred_correct.
      assert (Hmul : ((1 - a) * p2 <= (1 - a) * p1)%Q).
      { rewrite !(Qmult_comm (1 - a)). apply Qmult_le_compat_r; lra. }
      lra.
  - intros d Hd.
    destruct (Qlt_le_dec r d) as [Hfar | Hnear'].
    + rewrite (wallBrightness_far cfg r a HR HA d Hfar), clamp_ambient by assumption.
      split; [assumption|]. unfold one, ofZ. apply Qle_bool_iff. qlra.
    + rewrite (wallBrightness_near cfg r a k HR HA HK d Hnear') by lra.
      destruct (Hnear d Hd Hnear') as [pw ->].
      rewrite light_inner. unfold fin. now apply clamp_range.
  - unfold zero, ofZ.
    rewrite (wallBrightness_near cfg r a k HR HA HK) by qlra.
    rewrite (light_at_zero r a k) by (assumption || reflexivity || lra).
    now apply clamp_one.
Qed.

(** The light of radius 150 with sharpness one, at the distances 0, 75 and
    150. *)
Lemma wall_brightness_falloff_witness :
  (wallBrightness linearLight (ofZ 150) <=? wallBrightness linearLight (ofZ 75))%num = true /\
  (Finite (1 # 100) <=? wallBrightness linearLight (ofZ 75))%num = true /\
  (wallBrightness linearLight (ofZ 75) <=? one)%num = true /\
  (wallBrightness linearLight zero === one)%num = true.
Proof.
  destruct (@wall_brightness_falloff RationalMath.lib linearLight 150 (1 # 100) one
              eq_refl eq_refl eq_refl)
    as (Hmono & Hrange & Hzero);
    [discriminate | discriminate | reflexivity
    | exact rational_pow_monotone_one | exact rational_pow_of_one_one |].
  split; [apply (Hmono 75%Q 150%Q); discriminate|].
  split; [apply (Hrange 75%Q); discriminate|].
  split; [apply (Hrange 75%Q); discriminate | exact Hzero].
Defined.

(** The two computations at a finite distance that is not negative: they
    agree above zero, and at zero when the radius is not zero and
    [Math.pow] maps 1 to 1 at the sharpness. *)
Lemma brightness_same `{MathLib} (cfg : LightConfig) (r a q : Q) (k : num) :
  lightRadius cfg = Finite r -> ambientLight cfg = Finite a ->
  falloffSharpness cfg = k ->
  (0 <= q)%Q ->
  (0 < q)%Q \/ (~ (r == 0)%Q /\ pow_of_one k) ->
  wallBrightness cfg (Finite q) = Sprite.brightness cfg (Finite q).
Proof.
  intros HR HA HK Hq Hdom.
  unfold Sprite.brightness. rewrite HR, HA, HK.
  unfold Num.gt at 1. unfold Num.lt at 1.
  destruct (Qle_bool q r) eqn:Hqr; simpl negb; cbv iota.
  - apply Qle_bool_iff in Hqr.
    assert (Hr : ~ (r == 0)%Q) by (destruct Hdom as [Hpos | [Hr _]]; [lra | exact Hr]).
    rewrite (wallBrightness_near cfg r a k HR HA HK q Hqr Hr).
    unfold Num.gt, zero, ofZ, Num.lt.
    destruct (Qle_bool q (inject_Z 0)) eqn:Hq0; simpl negb; cbv iota.
    + apply Qle_bool_iff in Hq0.
      destruct Hdom as [Hpos | [_ Hone]]; [qlra|].
      rewrite (light_at_zero r a k q) by (assumption || qlra). reflexivity.
    + now rewrite light_base.
  - apply Qle_bool_false in Hqr.
    now rewrite (wallBrightness_far cfg r a HR HA q Hqr).
Qed.

(** A sprite in the field of view is at a finite angle to the view. *)
Lemma inFOV_finite `{MathLib} (player : option Player.t) (this : Sprite.t) :
  (Sprite.calculateRenderData player this).2 = true ->
  exists b : Q,
    Sprite.angleRelativeToPlayerView (Sprite.calculateRenderData player this).1
      = Finite b.
Proof.
  unfold Sprite.calculateRenderData. destruct player as [player|]; [|discriminate].
  cbn [fst snd Sprite.set_render_data Sprite.angleRelativeToPlayerView].
  match goal with |- (Num.abs ?ang <? _)%num = true -> _ => destruct ang as [b| | |] end;
    try discriminate.
  eauto.
Qed.

(** A sprite at distance zero is not beyond the least corrected distance,
    when its cosine is a number. *)
Lemma zero_not_far (c b : Q) :
  (0 <= b)%Q -> (Finite b * Finite c <=? Finite (1 # 10))%num = false -> (0 < b)%Q.
Proof.
  intros Hb Hfar. destruct (Qlt_le_dec 0 b) as [Hlt | Hle]; [assumption|].
  exfalso. assert (E : (b == 0)%Q) by lra.
  rewrite mul_finite in Hfar. unfold fin, Num.le in Hfar.
  apply Qle_bool_false in Hfar. rewrite Qred_correct, E in Hfar. lra.
Qed.

(** C7. With a finite radius and a finite ambient level, the brightness
    that [Ray.renderWallStrip] computes for a wall and the brightness that
    [Sprite.draw] computes for a sprite are the same function of the
    distance: they are equal at every finite distance above zero and at an
    infinite one, and at distance zero when the radius is not zero (in
    [js/config.js] it is 150) and [Math.pow] maps 1 to 1 at the sharpness,
    as it does for every finite sharpness.  And in [Sprite.draw] itself:
    whenever it draws a sprite whose distance is not negative, the alpha it
    sets is the brightness of a wall at the distance of the sprite, for any
    radius, since [draw] has returned before at a corrected distance of
    [0.1] or less. *)
Theorem brightness_agree `{MathLib} (cfg : LightConfig) (r a : Q) (k : num) :
  lightRadius cfg = Finite r -> ambientLight cfg = Finite a ->
  falloffSharpness cfg = k ->
  (forall q : Q, (0 < q)%Q ->
     wallBrightness cfg (Finite q) = Sprite.brightness cfg (Finite q)) /\
  wallBrightness cfg PosInf = Sprite.brightness cfg PosInf /\
  (~ (r == 0)%Q -> pow_of_one k ->
   wallBrightness cfg zero = Sprite.brightness cfg zero) /\
  (cos_finite ->
   forall (fuel : nat) (player : option Player.t) (renderMode : num)
     (this : Sprite.t) (zBuffer : gmap Z num) (this' : Sprite.t)
     (zBuffer' : gmap Z num) (ops : list canvasOp),
     Sprite.draw fuel player renderMode cfg this zBuffer = Ret (this', zBuffer', ops) ->
     (zero <=? Sprite.distanceToPlayer this')%num = true ->
     ops = [] \/
     exists strips,
       ops = [set_imageSmoothingEnabled false; save;
              set_globalAlpha (wallBrightness cfg (Sprite.distanceToPlayer this'))]
             ++ strips ++ [restore]).
Proof.
  intros HR HA HK. split; [|split; [|split]].
  - intros q Hq. apply (brightness_same cfg r a q k); auto. lra.
  - unfold wallBrightness, Sprite.brightness. rewrite HR, HA. reflexivity.
  - intros Hr Hone. apply (brightness_same cfg r a 0 k); auto. lra.
  - intros Hcos fuel player renderMode this zBuffer this' zBuffer' ops.
    unfold Sprite.draw.
    destruct (negb (Sprite.visible this)); [intros [= _ _ <-]; now left|].
    pose proof (inFOV_finite player this) as Hangle.
    destruct (Sprite.calculateRenderData player this) as [seen isInFOV].
    cbn [fst snd] in Hangle.
    destruct isInFOV; cbn [negb]; [|intros [= _ _ <-]; now left].
    destruct (Hangle eq_refl) as [b Hb].
    destruct (Sprite.image seen) as [image|]; [|intros [= _ _ <-]; now left].
    destruct (_ && _); [|intros [= _ _ <-]; now left].
    destruct (_ <=? _)%num eqn:Hfar; [intros [= _ _ <-]; now left|].
    destruct (Sprite.drawColumns _ _ _ _) as [strips| |]; cbn [obind];
      [|discriminate | discriminate].
    intros [= <- _ <-] Hd. right. exists strips.
    assert (E : wallBrightness cfg (Sprite.distanceToPlayer seen)
                = Sprite.brightness cfg (Sprite.distanceToPlayer seen));
      [|now rewrite E].
    rewrite Hb in Hfar. pose proof (Hcos b) as Hc.
    destruct (Math_cos (Finite b)) as [c| | |]; try discriminate.
    destruct (Sprite.distanceToPlayer seen) as [q| | |]; try discriminate.
    + assert (Hq : (0 <= q)%Q) by (now apply Qle_bool_iff in Hd).
      apply (brightness_same cfg r a q k); auto.
      left. exact (zero_not_far c q Hq Hfar).
    + unfold wallBrightness, Sprite.brightness. rewrite HR, HA. reflexivity.
Qed.

(** * The [Math] of doubles satisfies the laws *)

Section DoubleMathFacts.

Lemma double_cos_finite : @cos_finite DoubleMath.lib.
Proof.
  intros q. cbn [Math_cos DoubleMath.lib DoubleMath.cos]. unfold DoubleMath.unit.
  set (z := DoubleMath.cosOf q).
  assert (Hp : 0 < 2 ^ 128) by reflexivity.
  apply roundDouble_unit; unfold DoubleMath.ofFix, Qle; cbn [Qnum Qden Qopp];
    change (Z.pos 340282366920938463463374607431768211456) with (2 ^ 128);
    revert Hp; generalize (2 ^ 128); intros t Hp; lia.
Qed.

Lemma double_pow_square : @pow_square DoubleMath.lib.
Proof. exact rational_pow_square. Qed.

Lemma double_sqrt_nan : @sqrt_nan DoubleMath.lib.
Proof. reflexivity. Qed.

Lemma double_sqrt_finite : @sqrt_finite DoubleMath.lib.
Proof.
  intros q Hq. cbn [Math_sqrt DoubleMath.lib DoubleMath.sqrt].
  apply Qle_bool_iff in Hq. rewrite Hq.
  now destruct (roundDouble _).
Qed.

End DoubleMathFacts.

(** The light of radius 150 with sharpness one at the distances 75 and 0,
    and the sprite of the example, 100 units from the player: the alpha
    that [draw] sets is the brightness of a wall 100 units away,
    [0.01 + 0.99 / 3]. *)
Lemma brightness_agree_witness :
  wallBrightness linearLight (ofZ 75) = Sprite.brightness linearLight (ofZ 75) /\
  wallBrightness linearLight zero = Sprite.brightness linearLight zero /\
  exists seen strips,
    @Sprite.draw DoubleMath.lib 6 (Some viewPlayer) zero linearLight thinSprite ∅
    = Ret (seen, ∅,
           [set_imageSmoothingEnabled false; save;
            set_globalAlpha (@wallBrightness DoubleMath.lib linearLight (ofZ 100))]
           ++ strips ++ [restore]) /\
    @wallBrightness DoubleMath.lib linearLight (ofZ 100) = Finite (17 # 50).
Proof.
  destruct (@brightness_agree DoubleMath.lib linearLight 150 (1 # 100) one
              eq_refl eq_refl eq_refl) as (Hpos & _ & Hzero & Hdraw).
  split; [apply (Hpos 75%Q); reflexivity|].
  split; [apply Hzero; [discriminate | reflexivity]|].
  destruct (@Sprite.draw DoubleMath.lib 6 (Some viewPlayer) zero linearLight thinSprite ∅)
    as [[[seen zb] ops]| |] eqn:Erun; [|vm_compute in Erun; discriminate Erun
                                       |vm_compute in Erun; discriminate Erun].
  assert (Eseen : seen = (@Sprite.calculateRenderData DoubleMath.lib (Some viewPlayer)
                            thinSprite).1 /\ zb = ∅ /\ ops <> []).
  { vm_compute in Erun. injection Erun as <- <- <-. repeat split. discriminate. }
  destruct Eseen as (-> & -> & Hne).
  destruct (Hdraw double_cos_finite _ _ _ _ _ _ _ _ Erun) as [-> | (strips & ->)];
    [vm_compute; reflexivity | contradiction |].
  eexists _, strips. split; [reflexivity|]. vm_compute. reflexivity.
Defined.

(** * Rays along an axis ([js/ray.js]) *)

Section TraceFacts.
Context `{MathLib}.
Variable this : Ray.t.

(** A turn of a march at a crossing whose cell is free, and at one where
    the march ends. *)
Lemma horizontalBody_free (s : num * num) :
  freeCell this (hCell this s) ->
  Ray.horizontalBody this s =
  Ret (inl ((s.1 + Ray.hStepX this)%num, (s.2 + Ray.hStepY this)%num)).
Proof.
  destruct s as [nx ny]. unfold freeCell, hCell, Ray.horizontalBody. cbn [fst snd].
  cbv zeta. intros [Hout Hfree]. now rewrite Hout, Hfree.
Qed.

Lemma horizontalBody_end (s hit : num * num) :
  marchEnd this (hCell this s) s hit -> Ray.horizontalBody this s = Ret (inr hit).
Proof.
  destruct s as [nx ny]. unfold marchEnd, hCell, Ray.horizontalBody. cbn [fst snd].
  cbv zeta. intros [[Hout ->] | (Hout & Hwall & ->)]; rewrite Hout; [reflexivity|].
  now rewrite Hwall.
Qed.

Lemma verticalBody_free (s : num * num) :
  freeCell this (vCell this s) ->
  Ray.verticalBody this s =
  Ret (inl ((s.1 + Ray.vStepX this)%num, (s.2 + Ray.vStepY this)%num)).
Proof.
  destruct s as [nx ny]. unfold freeCell, vCell, Ray.verticalBody. cbn [fst snd].
  cbv zeta. intros [Hout Hfree]. now rewrite Hout, Hfree.
Qed.

Lemma verticalBody_end (s hit : num * num) :
  marchEnd this (vCell this s) s hit -> Ray.verticalBody this s = Ret (inr hit).
Proof.
  destruct s as [nx ny]. unfold marchEnd, vCell, Ray.verticalBody. cbn [fst snd].
  cbv zeta. intros [[Hout ->] | (Hout & Hwall & ->)]; rewrite Hout; [reflexivity|].
  now rewrite Hwall.
Qed.

(** A march whose crossings are free up to the one where it ends returns
    what it records there. *)
Lemma horizontalMarch_trace (n fuel : nat) (hit : num * num) :
  (forall k, (k < n)%nat -> freeCell this (hCell this (hCrossing this k))) ->
  marchEnd this (hCell this (hCrossing this n)) (hCrossing this n) hit ->
  (n < fuel)%nat -> Ray.horizontalMarch this fuel = Ret hit.
Proof.
  intros Hfree Hend Hfuel.
  destruct (while_turns (Ray.horizontalBody this)
              (fun s : num * num =>
                 ((s.1 + Ray.hStepX this)%num, (s.2 + Ray.hStepY this)%num))
              n (Ray.hIntersectionX this, Ray.hIntersectionY this) hit) as [_ Hret].
  - intros k Hk. exact (horizontalBody_free _ (Hfree k Hk)).
  - exact (horizontalBody_end _ _ Hend).
  - exact (Hret fuel Hfuel).
Qed.

Lemma verticalMarch_trace (n fuel : nat) (hit : num * num) :
  (forall k, (k < n)%nat -> freeCell this (vCell this (vCrossing this k))) ->
  marchEnd this (vCell this (vCrossing this n)) (vCrossing this n) hit ->
  (n < fuel)%nat -> Ray.verticalMarch this fuel = Ret hit.
Proof.
  intros Hfree Hend Hfuel.
  destruct (while_turns (Ray.verticalBody this)
              (fun s : num * num =>
                 ((s.1 + Ray.vStepX this)%num, (s.2 + Ray.vStepY this)%num))
              n (Ray.vIntersectionX this, Ray.vIntersectionY this) hit) as [_ Hret].
  - intros k Hk. exact (verticalBody_free _ (Hfree k Hk)).
  - exact (verticalBody_end _ _ Hend).
  - exact (Hret fuel Hfuel).
Qed.

(** A march whose first cell is off the map, or whose first crossing is
    not a number, gives no candidate that is chosen. *)
Lemma horizontalMarch_away (fuel : nat) :
  Ray.outside this (hCell this (hCrossing this 0)).1 (hCell this (hCrossing this 0)).2
  = true \/ (hCrossing this 0).1 = NaN ->
  exists hit, Ray.horizontalMarch this (S fuel) = Ret hit /\
    (hit = (PosInf, PosInf) \/ hit.1 = NaN).
Proof.
  change (hCrossing this 0) with (Ray.hIntersectionX this, Ray.hIntersectionY this).
  unfold hCell, Ray.horizontalMarch. cbn [fst snd].
  rewrite while_S. unfold Ray.horizontalBody. cbv zeta.
  intros [Hout | Hnan].
  - rewrite Hout. eexists. split; [reflexivity | now left].
  - rewrite Hnan. change (floor (NaN / tileSize)) with NaN.
    destruct (Ray.outside this NaN _);
      [eexists; split; [reflexivity | now left]|].
    assert (Ecol : forall cy, hasCollision (Ray.gameLevel this) NaN cy = Ret true).
    { intros cy. unfold hasCollision, in_map.
      change (NaN >=? zero)%num with false. now rewrite andb_false_r. }
    rewrite Ecol. eexists. split; [reflexivity | now right].
Qed.

Lemma verticalMarch_away (fuel : nat) :
  Ray.outside this (vCell this (vCrossing this 0)).1 (vCell this (vCrossing this 0)).2
  = true ->
  Ray.verticalMarch this (S fuel) = Ret (PosInf, PosInf).
Proof.
  change (vCrossing this 0) with (Ray.vIntersectionX this, Ray.vIntersectionY this).
  unfold vCell, Ray.verticalMarch. cbn [fst snd].
  rewrite while_S. unfold Ray.verticalBody. cbv zeta.
  intros Hout. now rewrite Hout.
Qed.

End TraceFacts.

Section RoomRayFacts.
Context `{MathLib}.
Hypothesis Hpow : pow_square.
Hypothesis Hfin : sqrt_finite.
Hypothesis Hnan : sqrt_nan.
Variables w h : nat.
Variable lvl : Level.
Variable this : Ray.t.
Variables qx qy : Q.
Hypothesis Hnew : Level_new canvas (room w h) = Ret lvl.
Hypothesis Hlvl : Ray.gameLevel this = lvl.
Hypothesis Hx : Ray.x this = Finite qx.
Hypothesis Hy : Ray.y this = Finite qy.
Hypothesis Hcx : 1 <= Qfloor (qx / 50) <= Z.of_nat w - 2.
Hypothesis Hcy : 1 <= Qfloor (qy / 50) <= Z.of_nat h - 2.

(** The tiles of the floor are free, and a march ends at a tile of the
    ring. *)
Lemma room_free (c r : Z) :
  1 <= c <= Z.of_nat w - 2 -> 1 <= r <= Z.of_nat h - 2 ->
  freeCell this (ofZ c, ofZ r).
Proof.
  intros Hc Hr. destruct (room_level _ _ _ _ Hnew) as (_ & HH & HW & _).
  unfold freeCell. cbn [fst snd].
  rewrite outside_ofZ, Hlvl, HH, HW, (room_collision _ _ _ _ _ _ Hnew) by lia.
  split; [|f_equal]; zcases; simpl; try reflexivity; lia.
Qed.

Lemma room_ring (c r : Z) (s : num * num) :
  0 <= c < Z.of_nat w -> 0 <= r < Z.of_nat h ->
  c = 0 \/ c = Z.of_nat w - 1 \/ r = 0 \/ r = Z.of_nat h - 1 ->
  marchEnd this (ofZ c, ofZ r) s s.
Proof.
  intros Hc Hr Hring. destruct (room_level _ _ _ _ Hnew) as (_ & HH & HW & _).
  right. cbn [fst snd].
  rewrite outside_ofZ, Hlvl, HH, HW, (room_collision _ _ _ _ _ _ Hnew) by lia.
  split; [|split; [f_equal|reflexivity]]; zcases; simpl; try reflexivity; lia.
Qed.

Lemma row_of_origin : floor (Ray.y this / tileSize) = ofZ (Qfloor (qy / 50)).
Proof. rewrite Hy. apply floor_div_tile. Qed.

Lemma column_of_origin : floor (Ray.x this / tileSize) = ofZ (Qfloor (qx / 50)).
Proof. rewrite Hx. apply floor_div_tile. Qed.

(** The vertical grid lines that the vertical march crosses, and the
    horizontal ones that the horizontal march crosses. *)
Lemma vCrossing_line (k : nat) :
  (vCrossing this k).1 =
  ofZ ((if Ray.isFacingLeft this then Qfloor (qx / 50) - Z.of_nat k
        else Qfloor (qx / 50) + 1 + Z.of_nat k) * 50).
Proof.
  induction k as [|k IH].
  - change (vCrossing this 0) with (Ray.vIntersectionX this, Ray.vIntersectionY this).
    cbn [fst]. unfold Ray.vIntersectionX. rewrite Hx, floor_div_tile. unfold tileSize.
    destruct (Ray.isFacingLeft this); cbn [negb]; rewrite mul_ofZ, ?add_ofZ;
      f_equal; lia.
  - change (vCrossing this (S k))
      with (((vCrossing this k).1 + Ray.vStepX this)%num,
            ((vCrossing this k).2 + Ray.vStepY this)%num).
    cbn [fst]. rewrite IH. unfold Ray.vStepX, tileSize.
    destruct (Ray.isFacingLeft this); rewrite ?mul_ofZ, add_ofZ; f_equal; lia.
Qed.

Lemma hCrossing_line (k : nat) :
  (hCrossing this k).2 =
  ofZ ((if Ray.isFacingDown this then Qfloor (qy / 50) + 1 + Z.of_nat k
        else Qfloor (qy / 50) - Z.of_nat k) * 50).
Proof.
  induction k as [|k IH].
  - change (hCrossing this 0) with (Ray.hIntersectionX this, Ray.hIntersectionY this).
    cbn [snd]. unfold Ray.hIntersectionY. rewrite Hy, floor_div_tile. unfold tileSize.
    destruct (Ray.isFacingDown this); rewrite mul_ofZ, ?add_ofZ; f_equal; lia.
  - change (hCrossing this (S k))
      with (((hCrossing this k).1 + Ray.hStepX this)%num,
            ((hCrossing this k).2 + Ray.hStepY this)%num).
    cbn [snd]. rewrite IH. unfold Ray.hStepY, tileSize.
    destruct (Ray.isFacingDown this); cbn [negb]; rewrite ?mul_ofZ, add_ofZ;
      f_equal; lia.
Qed.

(** The cells that the marches check along the row and along the column
    of the origin. *)
Lemma vCell_row (k : nat) :
  floor ((vCrossing this k).2 / tileSize) = floor (Ray.y this / tileSize) ->
  vCell this (vCrossing this k) =
  (ofZ (if Ray.isFacingLeft this then Qfloor (qx / 50) - Z.of_nat k - 1
        else Qfloor (qx / 50) + 1 + Z.of_nat k),
   ofZ (Qfloor (qy / 50))).
Proof.
  intros Hrow. unfold vCell. rewrite Hrow, row_of_origin, vCrossing_line, floor_tile_ofZ.
  destruct (Ray.isFacingLeft this); [|reflexivity].
  unfold one. now rewrite sub_ofZ.
Qed.

Lemma hCell_column (k : nat) :
  floor ((hCrossing this k).1 / tileSize) = floor (Ray.x this / tileSize) ->
  hCell this (hCrossing this k) =
  (ofZ (Qfloor (qx / 50)),
   ofZ (if Ray.isFacingDown this then Qfloor (qy / 50) + 1 + Z.of_nat k
        else Qfloor (qy / 50) - Z.of_nat k - 1)).
Proof.
  intros Hcol. unfold hCell.
  rewrite Hcol, column_of_origin, hCrossing_line, floor_tile_ofZ.
  destruct (Ray.isFacingDown this); [reflexivity|].
  unfold one. now rewrite sub_ofZ.
Qed.

(** The march along the row ends at the wall that closes the row on the
    side the ray faces, and the march along the column at the wall that
    closes the column. *)
Lemma row_march (n fuel : nat) :
  n = Z.to_nat (if Ray.isFacingLeft this then Qfloor (qx / 50) - 1
                else Z.of_nat w - 2 - Qfloor (qx / 50)) ->
  (forall k, (k <= n)%nat ->
     floor ((vCrossing this k).2 / tileSize) = floor (Ray.y this / tileSize)) ->
  (n < fuel)%nat ->
  Ray.verticalMarch this fuel = Ret (vCrossing this n).
Proof.
  intros Hn Hrow Hfuel. apply (verticalMarch_trace this n).
  - intros k Hk. rewrite vCell_row by (apply Hrow; lia).
    apply room_free; [|exact Hcy]. destruct (Ray.isFacingLeft this); lia.
  - rewrite vCell_row by (apply Hrow; lia).
    apply room_ring; destruct (Ray.isFacingLeft this); lia.
  - exact Hfuel.
Qed.

Lemma column_march (n fuel : nat) :
  n = Z.to_nat (if Ray.isFacingDown this then Z.of_nat h - 2 - Qfloor (qy / 50)
                else Qfloor (qy / 50) - 1) ->
  (forall k, (k <= n)%nat ->
     floor ((hCrossing this k).1 / tileSize) = floor (Ray.x this / tileSize)) ->
  (n < fuel)%nat ->
  Ray.horizontalMarch this fuel = Ret (hCrossing this n).
Proof.
  intros Hn Hcol Hfuel. apply (horizontalMarch_trace this n).
  - intros k Hk. rewrite hCell_column by (apply Hcol; lia).
    apply room_free; [exact Hcx|]. destruct (Ray.isFacingDown this); lia.
  - rewrite hCell_column by (apply Hcol; lia).
    apply room_ring; destruct (Ray.isFacingDown this); lia.
  - exact Hfuel.
Qed.


(** The distance to a crossing at finite coordinates is finite, and it is
    the distance along the axis when the crossing has not left it. *)
Lemma axis_distance (a b : Q) :
  hitDistance this (Finite a, Finite b)
  = distanceBetweenPoints (Ray.x this) (Ray.y this) (Finite a) (Finite b) /\
  (hitDistance this (Finite a, Finite b) === PosInf)%num = false /\
  (forall v : num, (hitDistance this (Finite a, Finite b) <? PosInf)%num = true) /\
  (sqrt_square -> (b == qy)%Q ->
   hitDistance this (Finite a, Finite b) = fin (Qabs (a - qx))) /\
  (sqrt_square -> (a == qx)%Q ->
   hitDistance this (Finite a, Finite b) = fin (Qabs (b - qy))).
Proof.
  pose proof (hitDistance_finite this qx qy a b Hpow Hfin Hx Hy) as Hd.
  assert (Habs : forall c : Q, (Qabs c * Qabs c == c * c)%Q).
  { intros c. rewrite <- Qabs_Qmult. apply Qabs_pos. apply Qsquare_nonneg. }
  split; [reflexivity|].
  split; [now destruct (hitDistance this (Finite a, Finite b))|].
  split; [intros _; now destruct (hitDistance this (Finite a, Finite b))|].
  split; intros Hsq E; unfold hitDistance, distanceBetweenPoints; cbn [fst snd];
    change (Finite a !== PosInf)%num with true; cbv iota;
    rewrite !Hpow, Hx, Hy, !sub_finite, !mul_fin, add_fin; unfold fin at 1;
    apply Hsq; try apply Qabs_nonneg; rewrite Qred_correct, Habs, E; ring.
Qed.

Lemma floor_tile_finite (n : num) (c : Z) :
  floor (n / tileSize) = ofZ c -> exists b : Q, n = Finite b.
Proof. intros E. now apply (axisCell_ofZ_finite true n c). Qed.

Lemma room_bound : (Z.to_nat (Z.of_nat w) < marchBound lvl)%nat /\
                   (Z.to_nat (Z.of_nat h) < marchBound lvl)%nat /\
                   level_ok (Ray.gameLevel this).
Proof.
  destruct (room_level _ _ _ _ Hnew) as (_ & HH & HW & Hok).
  unfold marchBound. rewrite HH, HW, Hlvl. repeat split; try lia. exact Hok.
Qed.

(** The cast of a ray along the row of its origin. *)
Lemma row_ray_cast (fuel : nat) (zBuffer : gmap Z num) :
  alongRow this
    (Z.to_nat (if Ray.isFacingLeft this then Qfloor (qx / 50) - 1
               else Z.of_nat w - 2 - Qfloor (qx / 50))) ->
  (marchBound lvl <= fuel)%nat ->
  exists this' zBuffer',
    Ray.cast this fuel zBuffer = Ret (this', zBuffer') /\
    Ray.wallHitX this' =
      ofZ (if Ray.isFacingLeft this then 50 else (Z.of_nat w - 1) * 50) /\
    floor (Ray.wallHitY this' / tileSize) = ofZ (Qfloor (qy / 50)) /\
    Ray.directDistance this' =
      distanceBetweenPoints (Ray.x this) (Ray.y this)
        (Ray.wallHitX this') (Ray.wallHitY this') /\
    zBuffer' !! Ray.screenColumn this = Some (Ray.directDistance this') /\
    (sqrt_square -> (Ray.wallHitY this' === Ray.y this)%num = true ->
     Ray.directDistance this' =
       fin (Qabs (inject_Z (if Ray.isFacingLeft this then 50
                            else (Z.of_nat w - 1) * 50) - qx))) /\
    Ray.wallHitY this' =
      (vCrossing this
         (Z.to_nat (if Ray.isFacingLeft this then Qfloor (qx / 50) - 1
                    else Z.of_nat w - 2 - Qfloor (qx / 50)))).2.
Proof.
  set (n := Z.to_nat _). intros [Hrow Haway] Hfuel.
  destruct room_bound as (Hw & _ & Hok).
  destruct (cast_spec this Hok fuel zBuffer) as (hh & v & this' & Eh & _ & Ev & _ & Hch & Hcast);
    [now rewrite Hlvl|].
  assert (Hn : (n < fuel)%nat) by (unfold n; destruct (Ray.isFacingLeft this); lia).
  rewrite (row_march n fuel eq_refl Hrow Hn) in Ev. injection Ev as <-.
  destruct fuel as [|fuel]; [lia|].
  destruct (horizontalMarch_away this fuel Haway) as (hh' & Eh' & Hh).
  assert (hh' = hh) as -> by congruence.
  pose proof (zero_horizontal_not_chosen this Hpow Hnan hh (vCrossing this n) Hh) as Enear.
  destruct (choose_spec this Hok hh (vCrossing this n))
    as (this'' & Hch' & _ & _ & Hwx & Hwy & Hd & _).
  assert (this'' = this') as -> by congruence.
  cbv zeta in Hwx, Hwy, Hd. rewrite Enear in Hwx, Hwy, Hd.
  pose proof (Hrow n (le_n _)) as Hrown. rewrite row_of_origin in Hrown.
  destruct (floor_tile_finite _ _ Hrown) as [b Hb].
  pose proof (vCrossing_line n) as Hline.
  assert (Eline : (vCrossing this n).1 =
                  ofZ (if Ray.isFacingLeft this then 50 else (Z.of_nat w - 1) * 50)).
  { rewrite Hline. f_equal. unfold n. destruct (Ray.isFacingLeft this); lia. }
  assert (Ev : vCrossing this n =
               (Finite (inject_Z (if Ray.isFacingLeft this then 50
                                  else (Z.of_nat w - 1) * 50)), Finite b))
    by (rewrite (surjective_pairing (vCrossing this n)), Eline, Hb; reflexivity).
  rewrite Ev in Hd, Hwx, Hwy. cbn [fst snd] in Hwx, Hwy.
  destruct (axis_distance (inject_Z (if Ray.isFacingLeft this then 50
                                     else (Z.of_nat w - 1) * 50)) b)
    as (Edist & Enot & _ & Hexact & _).
  rewrite Enot in Hd.
  exists this', (<[Ray.screenColumn this := Ray.directDistance this']> zBuffer).
  split; [exact Hcast|]. split; [exact Hwx|].
  split; [rewrite Hwy, <- Hb; exact Hrown|].
  split; [rewrite Hd, Hwx, Hwy; exact Edist|].
  split; [apply lookup_insert_eq|].
  split; [|now rewrite Hwy, Hb].
  intros Hsq Hsame. rewrite Hd. apply Hexact; [exact Hsq|].
  rewrite Hwy, Hy in Hsame. now apply Qeq_bool_iff in Hsame.
Qed.

(** The cast of a ray along the column of its origin. *)
Lemma column_ray_cast (fuel : nat) (zBuffer : gmap Z num) :
  alongColumn this
    (Z.to_nat (if Ray.isFacingDown this then Z.of_nat h - 2 - Qfloor (qy / 50)
               else Qfloor (qy / 50) - 1)) ->
  (marchBound lvl <= fuel)%nat ->
  exists this' zBuffer',
    Ray.cast this fuel zBuffer = Ret (this', zBuffer') /\
    floor (Ray.wallHitX this' / tileSize) = ofZ (Qfloor (qx / 50)) /\
    Ray.wallHitY this' =
      ofZ (if Ray.isFacingDown this then (Z.of_nat h - 1) * 50 else 50) /\
    Ray.directDistance this' =
      distanceBetweenPoints (Ray.x this) (Ray.y this)
        (Ray.wallHitX this') (Ray.wallHitY this') /\
    zBuffer' !! Ray.screenColumn this = Some (Ray.directDistance this') /\
    (sqrt_square -> (Ray.wallHitX this' === Ray.x this)%num = true ->
     Ray.directDistance this' =
       fin (Qabs (inject_Z (if Ray.isFacingDown this then (Z.of_nat h - 1) * 50
                            else 50) - qy))).
Proof.
  set (n := Z.to_nat _). intros [Hcol Haway] Hfuel.
  destruct room_bound as (_ & Hh & Hok).
  destruct (cast_spec this Hok fuel zBuffer) as (hh & v & this' & Eh & _ & Ev & _ & Hch & Hcast);
    [now rewrite Hlvl|].
  assert (Hn : (n < fuel)%nat) by (unfold n; destruct (Ray.isFacingDown this); lia).
  rewrite (column_march n fuel eq_refl Hcol Hn) in Eh. injection Eh as <-.
  destruct fuel as [|fuel]; [lia|].
  rewrite (verticalMarch_away this fuel Haway) in Ev. injection Ev as <-.
  destruct (choose_spec this Hok (hCrossing this n) (PosInf, PosInf))
    as (this'' & Hch' & _ & _ & Hwx & Hwy & Hd & _).
  assert (this'' = this') as -> by congruence.
  cbv zeta in Hwx, Hwy, Hd.
  pose proof (Hcol n (le_n _)) as Hcoln. rewrite column_of_origin in Hcoln.
  destruct (floor_tile_finite _ _ Hcoln) as [a Ha].
  pose proof (hCrossing_line n) as Hline.
  assert (Eline : (hCrossing this n).2 =
                  ofZ (if Ray.isFacingDown this then (Z.of_nat h - 1) * 50 else 50)).
  { rewrite Hline. f_equal. unfold n. destruct (Ray.isFacingDown this); lia. }
  assert (Eh : hCrossing this n =
               (Finite a, Finite (inject_Z (if Ray.isFacingDown this
                                            then (Z.of_nat h - 1) * 50 else 50))))
    by (rewrite (surjective_pairing (hCrossing this n)), Eline, Ha; reflexivity).
  rewrite Eh in Hd, Hwx, Hwy.
  destruct (axis_distance a (inject_Z (if Ray.isFacingDown this
                                       then (Z.of_nat h - 1) * 50 else 50)))
    as (Edist & Enot & Hlt & _ & Hexact).
  change (hitDistance this (PosInf, PosInf)) with PosInf in Hd, Hwx, Hwy.
  rewrite (Hlt PosInf) in Hd, Hwx, Hwy. rewrite Enot in Hd. cbn [fst snd] in Hwx, Hwy.
  exists this', (<[Ray.screenColumn this := Ray.directDistance this']> zBuffer).
  split; [exact Hcast|].
  split; [rewrite Hwx, <- Ha; exact Hcoln|]. split; [exact Hwy|].
  split; [rewrite Hd, Hwx, Hwy; exact Edist|].
  split; [apply lookup_insert_eq|].
  intros Hsq Hsame. rewrite Hd. apply Hexact; [exact Hsq|].
  rewrite Hwx, Hx in Hsame. now apply Qeq_bool_iff in Hsame.
Qed.

End RoomRayFacts.

(** A ray at angle zero runs along the row of its origin, whatever the
    level. *)
Lemma zero_alongRow `{MathLib} (this : Ray.t) (qx qy : Q) (n : nat) :
  tan_zero -> Ray.absoluteAngle this = zero ->
  Ray.x this = Finite qx -> Ray.y this = Finite qy ->
  alongRow this n /\ (vCrossing this n).2 = fin qy.
Proof.
  intros Htan Hangle Hx Hy.
  assert (Hv : forall k, (vCrossing this k).2 = fin qy).
  { induction k as [|k IH].
    - exact (zero_vIntersectionY Htan this qx qy Hangle Hx Hy).
    - change (vCrossing this (S k))
        with (((vCrossing this k).1 + Ray.vStepX this)%num,
              ((vCrossing this k).2 + Ray.vStepY this)%num).
      cbn [snd]. rewrite IH, (zero_vStepY Htan this Hangle). apply fin_add_zero. }
  split; [|apply Hv]. split.
  - intros k _. now rewrite Hv, Hy, floor_tile_fin, floor_div_tile.
  - change (hCrossing this 0) with (Ray.hIntersectionX this, Ray.hIntersectionY this).
    unfold hCell. cbn [fst snd].
    destruct (zero_hIntersectionX Htan this qx qy Hangle Hx Hy) as [-> | ->];
      [left | now right].
    reflexivity.
Qed.


Ltac crossings :=
  let k := fresh "k" in
  let Hk := fresh "Hk" in
  intros k Hk; vm_compute in Hk;
  repeat (destruct k as [|k]; [vm_compute; reflexivity | apply le_S_n in Hk]);
  replace k with 0%nat by lia; vm_compute; reflexivity.


(** * Angles and distances ([js/utils.js]) *)

Section RemainderFacts.

(** The quotient truncated towards zero lies within one of the number, on
    the side of zero. *)
Lemma Qtrunc_nonneg (p : Q) :
  (0 <= p)%Q -> (inject_Z (Qtrunc p) <= p)%Q /\ (p < inject_Z (Qtrunc p) + 1)%Q.
Proof.
  destruct p as [n d]. unfold Qtrunc, Qle, Qlt. simpl. intros Hn.
  rewrite Z.mul_1_r in Hn.
  pose proof (Z.quot_rem' n (Z.pos d)) as Hqr.
  pose proof (Z.rem_bound_pos n (Z.pos d) Hn ltac:(lia)) as Hr.
  split; nia.
Qed.

Lemma Qtrunc_nonpos (p : Q) :
  (p <= 0)%Q -> (inject_Z (Qtrunc p) - 1 < p)%Q /\ (p <= inject_Z (Qtrunc p))%Q.
Proof.
  destruct p as [n d]. unfold Qtrunc, Qle, Qlt. simpl. intros Hn.
  rewrite Z.mul_1_r in Hn.
  pose proof (Z.quot_rem' n (Z.pos d)) as Hqr.
  pose proof (Z.rem_bound_pos_neg n (Z.pos d) ltac:(lia) Hn) as Hr.
  split; nia.
Qed.

(** The remainder by a positive divisor: it has the sign of the dividend,
    stays below the divisor in size, and differs from the dividend by a
    multiple of the divisor. *)
Lemma rem_positive_divisor (a t : Q) :
  (0 < t)%Q ->
  exists (r : Q) (k : Z),
    (Finite a %% Finite t)%num = fin r /\ (r == a - inject_Z k * t)%Q /\
    ((0 <= a)%Q -> (0 <= r)%Q /\ (r < t)%Q) /\
    ((a <= 0)%Q -> (- t < r)%Q /\ (r <= 0)%Q).
Proof.
  intros Ht. exists (a - t * inject_Z (Qtrunc (a / t)))%Q, (Qtrunc (a / t)).
  assert (Ea : (a == t * (a / t))%Q) by (field; lra).
  split; [|split; [ring|split]].
  - unfold Num.rem. destruct (t ?= 0)%Q eqn:E; try reflexivity.
    apply Qeq_alt in E. lra.
  - intros Ha.
    assert (Hp : (0 <= a / t)%Q).
    { unfold Qdiv. apply Qmult_le_0_compat; [assumption|].
      apply Qinv_le_0_compat. lra. }
    destruct (Qtrunc_nonneg _ Hp) as [H1 H2].
    set (k := inject_Z (Qtrunc (a / t))) in *. set (p := (a / t)%Q) in *.
    assert (H3 : (t * k <= t * p)%Q) by (apply Qmult_le_l; assumption).
    assert (H4 : (t * p < t * (k + 1))%Q) by (apply Qmult_lt_l; assumption).
    split; lra.
  - intros Ha.
    assert (Hp : (a / t <= 0)%Q).
    { assert (Hn : (0 <= (- a) / t)%Q).
      { unfold Qdiv. apply Qmult_le_0_compat; [lra|].
        apply Qinv_le_0_compat. lra. }
      assert (E : ((- a) / t == - (a / t))%Q) by (field; lra). lra. }
    destruct (Qtrunc_nonpos _ Hp) as [H1 H2].
    set (k := inject_Z (Qtrunc (a / t))) in *. set (p := (a / t)%Q) in *.
    assert (H3 : (t * (k - 1) < t * p)%Q) by (apply Qmult_lt_l; assumption).
    assert (H4 : (t * p <= t * k)%Q) by (apply Qmult_le_l; assumption).
    split; lra.
Qed.

Lemma two_pi_value : (ofZ 2 * Math_PI)%num = Finite TWO_PI.
Proof. reflexivity. Qed.

Lemma two_pi_positive : (0 < TWO_PI)%Q.
Proof. reflexivity. Qed.

Lemma lt_fin_zero (r : Q) : (fin r <? zero)%num = negb (Qle_bool 0 r).
Proof.
  unfold fin, zero, ofZ, Num.lt. change (inject_Z 0) with 0%Q. f_equal.
  destruct (Qle_bool 0 (Qred r)) eqn:E1, (Qle_bool 0 r) eqn:E2; try reflexivity.
  - apply Qle_bool_iff in E1. rewrite Qred_correct in E1.
    apply Qle_bool_iff in E1. congruence.
  - apply Qle_bool_iff in E2. rewrite <- (Qred_correct r) in E2.
    apply Qle_bool_iff in E2. congruence.
Qed.

(** Up to the full turn the grid of the doubles is [2^-50] or finer, and
    the full turn lies on it. *)
Lemma turn_exponent (a : Q) :
  (0 < a)%Q -> (a <= TWO_PI)%Q -> Z.max (binade a - 52) (-1074) <= -50.
Proof.
  intros Ha Hle. pose proof (binade_le a Ha) as Hb.
  assert (H3 : binade a < 3).
  { apply (Qpower_lt_compat_l_inv 2); [|reflexivity].
    assert (TWO_PI < 2 ^ 3)%Q by reflexivity. lra. }
  lia.
Qed.

Lemma two_pi_grid : (TWO_PI == inject_Z 7074237752028440 * 2 ^ (-50))%Q.
Proof. reflexivity. Qed.

Lemma roundDouble_below_turn (a : Q) :
  (0 < a)%Q -> (a <= TWO_PI)%Q ->
  exists r : Q,
    roundDouble a = fin r /\ (0 <= r)%Q /\ (r <= TWO_PI)%Q /\
    (a - 2 ^ (-51) <= r)%Q /\ (r <= a + 2 ^ (-51))%Q.
Proof.
  intros Ha Hle. pose proof (turn_exponent a Ha Hle) as He.
  assert (Hr : (nearestDouble a <= TWO_PI)%Q).
  { rewrite two_pi_grid. apply nearestDouble_le; [now rewrite <- two_pi_grid | exact He]. }
  exists (nearestDouble a). split; [|split; [|split]].
  - unfold roundDouble.
    assert (Ec : (a ?= 0)%Q = Gt) by (now apply Qgt_alt).
    rewrite Ec.
    destruct (Qle_bool (2 ^ 1024) (nearestDouble a)) eqn:E; [|reflexivity].
    apply Qle_bool_iff in E. exfalso.
    assert (2 ^ 3 <= 2 ^ 1024)%Q by (apply Qpower_le_compat_l; [lia | discriminate]).
    assert (TWO_PI < 2 ^ 3)%Q by reflexivity. lra.
  - apply nearestDouble_nonneg. lra.
  - exact Hr.
  - destruct (nearestDouble_near a) as [Hlo Hhi].
    set (e := Z.max (binade a - 52) (-1074)) in *.
    assert (Hpow : (2 ^ e <= 2 ^ (-50))%Q)
      by (apply Qpower_le_compat_l; [exact He | discriminate]).
    assert (Ehalf : (2 ^ (-50) / 2 == 2 ^ (-51))%Q) by reflexivity.
    assert (Hdiv : (2 ^ e / 2 <= 2 ^ (-50) / 2)%Q)
      by (apply Qdiv_le_mono; [exact Hpow | reflexivity]).
    split; lra.
Qed.

(** What [normalizeAngle] returns on a finite angle, in lowest terms: a
    number from zero to the full turn, within half a step of the grid of
    the doubles of the angle less a whole number of turns; and that number
    itself, below the full turn, when the angle is not negative. *)
Lemma normalizeAngle_finite (a : Q) :
  exists (r : Q) (k : Z),
    normalizeAngle (Finite a) = fin r /\
    (0 <= r)%Q /\ (r <= TWO_PI)%Q /\
    (a - inject_Z k * TWO_PI - 2 ^ (-51) <= r)%Q /\
    (r <= a - inject_Z k * TWO_PI + 2 ^ (-51))%Q /\
    ((0 <= a)%Q -> (r < TWO_PI)%Q /\ (r == a - inject_Z k * TWO_PI)%Q).
Proof.
  pose proof two_pi_positive as Ht.
  assert (Hulp : (0 < 2 ^ (-51))%Q) by reflexivity.
  destruct (rem_positive_divisor a TWO_PI Ht) as (r & k & Hrem & Hr & Hpos & Hneg).
  unfold normalizeAngle. rewrite two_pi_value, Hrem, lt_fin_zero.
  destruct (Qle_bool 0 r) eqn:E; simpl negb; cbv iota.
  - apply Qle_bool_iff in E. exists r, k. split; [reflexivity|].
    destruct (Qlt_le_dec a 0) as [Ha | Ha].
    + destruct (Hneg ltac:(lra)). repeat split; lra.
    + destruct (Hpos Ha). repeat split; lra.
  - apply Qle_bool_false in E.
    destruct (Qlt_le_dec a 0) as [Ha | Ha]; [|destruct (Hpos Ha); lra].
    destruct (Hneg ltac:(lra)) as [Hlo _].
    unfold fin at 1. rewrite add_finite. unfold fin, rounded.
    destruct (roundDouble_below_turn (Qred (TWO_PI + Qred r)))
      as (r' & Er & H0 & Hle & Hnear1 & Hnear2);
      [rewrite !Qred_correct; lra | rewrite !Qred_correct; lra |].
    rewrite !Qred_correct in Hnear1, Hnear2.
    exists r', (k - 1). split; [exact Er|].
    assert (Ek : (inject_Z (k - 1) == inject_Z k - 1)%Q).
    { unfold Z.sub. rewrite inject_Z_plus, inject_Z_opp. reflexivity. }
    rewrite Ek. repeat split; lra.
Qed.

(** An angle already in the range is returned as it is. *)
Lemma normalizeAngle_in_range (r : Q) :
  (0 <= r)%Q -> (r < TWO_PI)%Q -> normalizeAngle (Finite r) = fin r.
Proof.
  intros H0 Ht. pose proof two_pi_positive as Hpos.
  unfold normalizeAngle. rewrite two_pi_value. unfold Num.rem.
  destruct (TWO_PI ?= 0)%Q eqn:E; [apply Qeq_alt in E; lra | |];
    clear E.
  all: assert (Hp : (0 <= r / TWO_PI)%Q)
         by (unfold Qdiv; apply Qmult_le_0_compat; [assumption|];
             apply Qinv_le_0_compat; lra).
  all: destruct (Qtrunc_nonneg _ Hp) as [H1 H2].
  all: assert (Hlt1 : (r / TWO_PI < 1)%Q)
         by (apply Qlt_shift_div_r; [assumption | lra]).
  all: assert (Hk : Qtrunc (r / TWO_PI) = 0)
         by (assert (Qtrunc (r / TWO_PI) < 1)
               by (rewrite Zlt_Qlt; change (inject_Z 1) with 1%Q; lra);
             assert (-1 < Qtrunc (r / TWO_PI))
               by (rewrite Zlt_Qlt; change (inject_Z (-1)) with (-1)%Q; lra);
             lia).
  all: rewrite Hk.
  all: assert (E : fin (r - TWO_PI * inject_Z 0) = fin r)
         by (apply fin_eq; change (inject_Z 0) with 0%Q; ring).
  all: rewrite E, lt_fin_zero.
  all: assert (E0 : Qle_bool 0 r = true) by (now apply Qle_bool_iff).
  all: now rewrite E0.
Qed.

(** The full turn itself is taken to zero. *)
Lemma normalizeAngle_full_turn (r : Q) :
  (r == TWO_PI)%Q -> normalizeAngle (Finite r) = zero.
Proof.
  intros E. unfold normalizeAngle. rewrite two_pi_value.
  pose proof two_pi_positive as Hpos.
  assert (Hp : (r / TWO_PI == 1)%Q) by (rewrite E; field; lra).
  destruct (Qtrunc_nonneg (r / TWO_PI)) as [H1 H2]; [lra|].
  assert (Hk : Qtrunc (r / TWO_PI) = 1).
  { assert (Qtrunc (r / TWO_PI) < 2)
      by (rewrite Zlt_Qlt; change (inject_Z 2) with 2%Q; lra).
    assert (0 < Qtrunc (r / TWO_PI))
      by (rewrite Zlt_Qlt; change (inject_Z 0) with 0%Q; lra).
    lia. }
  assert (Erem : (Finite r %% Finite TWO_PI)%num = zero).
  { unfold Num.rem. destruct (TWO_PI ?= 0)%Q eqn:Ec; [discriminate Ec| |];
      apply fin_zero; rewrite Hk, E; change (inject_Z 1) with 1%Q; ring. }
  now rewrite Erem.
Qed.

End RemainderFacts.

(** X1. [normalizeAngle] maps every finite angle to a number from zero to
    the full turn [2 * Math.PI], both included: the angle less a whole
    number of turns, exactly and below the full turn when the angle is not
    negative, and rounded to the nearest double, within [2^-51], when it is
    negative.  The full turn itself is returned, for [-1e-20], against the
    range that the comment of the function promises; an angle that is not
    finite gives [NaN]. *)
Theorem normalizeAngle_range (a : Q) :
  (exists (r : Q) (k : Z),
     normalizeAngle (Finite a) = Finite r /\
     (0 <= r)%Q /\ (r <= TWO_PI)%Q /\
     (a - inject_Z k * TWO_PI - 2 ^ (-51) <= r)%Q /\
     (r <= a - inject_Z k * TWO_PI + 2 ^ (-51))%Q /\
     ((0 <= a)%Q -> (r < TWO_PI)%Q /\ (r == a - inject_Z k * TWO_PI)%Q)) /\
  normalizeAngle (Finite (-1 # 100000000000000000000)) = Finite TWO_PI /\
  normalizeAngle PosInf = NaN /\ normalizeAngle NegInf = NaN /\
  normalizeAngle NaN = NaN.
Proof.
  split; [|split; [vm_compute; reflexivity | repeat split]].
  destruct (normalizeAngle_finite a) as (r & k & E & H0 & Ht & Hlo & Hhi & Hk).
  exists (Qred r), k. split; [exact E|]. rewrite !Qred_correct. auto 10.
Qed.

(** X2. [normalizeAngle] is idempotent everywhere but at the full turn: an
    angle it returns is returned again as it is, unless it is
    [2 * Math.PI] itself, which is taken to zero.  So normalising twice and
    normalising three times agree, and normalising once and twice do not:
    [-1e-20] goes to the full turn and then to zero. *)
Theorem normalizeAngle_idempotent_periodic (x : num) :
  normalizeAngle (normalizeAngle x) =
    (if (normalizeAngle x === Finite TWO_PI)%num then zero else normalizeAngle x) /\
  normalizeAngle (normalizeAngle (normalizeAngle x)) =
    normalizeAngle (normalizeAngle x) /\
  normalizeAngle (normalizeAngle (Finite (-1 # 100000000000000000000))) = zero.
Proof.
  assert (Hstep : forall y,
            normalizeAngle (normalizeAngle y) =
            (if (normalizeAngle y === Finite TWO_PI)%num then zero
             else normalizeAngle y)).
  { intros [q| | |]; try reflexivity.
    destruct (normalizeAngle_finite q) as (r & k & E & H0 & Ht & _).
    rewrite E. unfold fin, Num.eqb.
    destruct (Qeq_bool (Qred r) TWO_PI) eqn:Eq.
    - apply Qeq_bool_iff in Eq. now apply normalizeAngle_full_turn.
    - assert (Hne : ~ (Qred r == TWO_PI)%Q)
        by (intros Heq; apply Qeq_bool_iff in Heq; congruence).
      rewrite Qred_correct in Hne.
      rewrite normalizeAngle_in_range by (rewrite Qred_correct; lra).
      apply fin_eq, Qred_correct. }
  split; [apply Hstep|]. split; [|vm_compute; reflexivity].
  rewrite (Hstep (normalizeAngle x)), (Hstep x).
  destruct (normalizeAngle x === Finite TWO_PI)%num eqn:E1; [reflexivity|].
  now rewrite E1.
Qed.

Section DistanceFacts.
Context `{MathLib}.

Lemma square_sub_swap (a b : num) :
  ((a - b) * (a - b))%num = ((b - a) * (b - a))%num.
Proof.
  destruct a as [p| | |], b as [q| | |]; try reflexivity.
  rewrite !sub_finite, !mul_fin. apply fin_eq. ring.
Qed.

Lemma square_sub_self (a : Q) : ((Finite a - Finite a) * (Finite a - Finite a))%num = zero.
Proof. rewrite sub_finite, mul_fin. apply fin_zero. ring. Qed.

End DistanceFacts.

(** X3. With [Math.pow(x, 2)] equal to [x * x] and the square root exact on
    squares, [distanceBetweenPoints] gives the same distance in both
    directions, for all numbers, and the distance [0] from a finite point
    to itself. *)
Theorem distanceBetweenPoints_symmetric `{MathLib} (x1 y1 x2 y2 : num) (a b : Q) :
  pow_square -> sqrt_square ->
  distanceBetweenPoints x1 y1 x2 y2 = distanceBetweenPoints x2 y2 x1 y1 /\
  distanceBetweenPoints (Finite a) (Finite b) (Finite a) (Finite b) = zero.
Proof.
  intros Hpow Hsqrt. unfold distanceBetweenPoints. rewrite !Hpow. split.
  - now rewrite (square_sub_swap x2 x1), (square_sub_swap y2 y1).
  - rewrite !square_sub_self. change (zero + zero)%num with (Finite 0).
    rewrite (Hsqrt 0%Q 0%Q); [reflexivity | lra | ring].
Qed.

Lemma distanceBetweenPoints_symmetric_witness :
  @distanceBetweenPoints RationalMath.lib (ofZ 3) (ofZ 4) zero PosInf =
    @distanceBetweenPoints RationalMath.lib zero PosInf (ofZ 3) (ofZ 4) /\
  @distanceBetweenPoints RationalMath.lib (ofZ 3) (ofZ 4) (ofZ 3) (ofZ 4) = zero.
Proof.
  exact (@distanceBetweenPoints_symmetric RationalMath.lib (ofZ 3) (ofZ 4) zero PosInf
           3 4 rational_pow_square rational_sqrt_square).
Defined.

(** * The texture of a wall strip ([js/ray.js]) *)

Section HitFacts.
Context `{MathLib}.
Variable this : Ray.t.

Lemma horizontalMarch_hit (fuel : nat) (h : num * num) :
  Ray.horizontalMarch this fuel = Ret h -> horizontalHit this h.
Proof.
  unfold Ray.horizontalMarch. intros Hrun.
  destruct (while_exit (Ray.horizontalBody this) (fun _ => True) fuel _ h
              (fun _ _ _ _ => I) I Hrun) as ([nextX nextY] & _ & Hlast).
  unfold Ray.horizontalBody in Hlast. fold (axisCell (Ray.isFacingDown this) nextY) in Hlast.
  destruct (Ray.outside this _ _) eqn:Hout; [left; congruence|].
  destruct (hasCollision _ _ _) as [[|]| |] eqn:Hcol; simpl in Hlast; try discriminate.
  injection Hlast as <-. right. simpl. auto.
Qed.

Lemma verticalMarch_hit (fuel : nat) (v : num * num) :
  Ray.verticalMarch this fuel = Ret v -> verticalHit this v.
Proof.
  unfold Ray.verticalMarch. intros Hrun.
  destruct (while_exit (Ray.verticalBody this) (fun _ => True) fuel _ v
              (fun _ _ _ _ => I) I Hrun) as ([nextX nextY] & _ & Hlast).
  unfold Ray.verticalBody in Hlast.
  replace (if Ray.isFacingLeft this then (floor (nextX / tileSize) - one)%num
           else floor (nextX / tileSize))
    with (axisCell (negb (Ray.isFacingLeft this)) nextX) in Hlast
    by (unfold axisCell; now destruct (Ray.isFacingLeft this)).
  destruct (Ray.outside this _ _) eqn:Hout; [left; congruence|].
  destruct (hasCollision _ _ _) as [[|]| |] eqn:Hcol; simpl in Hlast; try discriminate.
  injection Hlast as <-. right. simpl. auto.
Qed.

Lemma inside_ofZ (a c : Z) :
  Ray.outside this (ofZ a) (ofZ c) = false ->
  0 <= a < mapWidth (Ray.gameLevel this) /\ 0 <= c < mapHeight (Ray.gameLevel this).
Proof.
  rewrite outside_ofZ. zcases; simpl; try discriminate. lia.
Qed.

Lemma Qfloor_tile_nonneg (q : Q) : 0 <= Qfloor (q / 50) -> (0 <= q)%Q.
Proof.
  intros Hc. pose proof (Qfloor_tile_le q) as Hle.
  assert (Hz : (inject_Z 0 <= inject_Z (Qfloor (q / 50) * 50))%Q)
    by (rewrite <- Zle_Qle; lia).
  change (inject_Z 0) with 0%Q in Hz. lra.
Qed.

(** The cells of a recorded crossing with finite coordinates are tiles of
    the map, and the coordinate along the wall is not negative. *)
Lemma horizontalHit_finite (qx qy : Q) :
  horizontalHit this (Finite qx, Finite qy) ->
  exists a c : Z,
    floor (Finite qx / tileSize) = ofZ a /\
    axisCell (Ray.isFacingDown this) (Finite qy) = ofZ c /\
    0 <= a < mapWidth (Ray.gameLevel this) /\
    0 <= c < mapHeight (Ray.gameLevel this) /\ (0 <= qx)%Q.
Proof.
  intros [Hinf | [Hout _]]; [discriminate|]. cbn [fst snd] in Hout.
  rewrite floor_div_tile, axisCell_finite in Hout |- *.
  destruct (inside_ofZ _ _ Hout) as [Ha Hc].
  eexists _, _. repeat split; try lia.
  apply Qfloor_tile_nonneg. lia.
Qed.

Lemma verticalHit_finite (qx qy : Q) :
  verticalHit this (Finite qx, Finite qy) ->
  exists a c : Z,
    axisCell (negb (Ray.isFacingLeft this)) (Finite qx) = ofZ a /\
    floor (Finite qy / tileSize) = ofZ c /\
    0 <= a < mapWidth (Ray.gameLevel this) /\
    0 <= c < mapHeight (Ray.gameLevel this) /\ (0 <= qy)%Q.
Proof.
  intros [Hinf | [Hout _]]; [discriminate|]. cbn [fst snd] in Hout.
  rewrite floor_div_tile, axisCell_finite in Hout |- *.
  destruct (inside_ofZ _ _ Hout) as [Ha Hc].
  eexists _, _. repeat split; try lia.
  apply Qfloor_tile_nonneg. lia.
Qed.

Hypothesis Hok : level_ok (Ray.gameLevel this).

(** What a cast with a finite hit point records: the texture is read at
    the indices of a tile of the map, and the texture column is the
    remainder of a coordinate that is not negative. *)
Lemma cast_finite_hit (fuel : nat) (zBuffer : gmap Z num) :
  (marchBound (Ray.gameLevel this) <= fuel)%nat ->
  exists this',
    Ray.cast this fuel zBuffer =
      Ret (this', <[Ray.screenColumn this := Ray.directDistance this']> zBuffer) /\
    Ray.screenColumn this' = Ray.screenColumn this /\
    (finite_point (Ray.wallHitX this', Ray.wallHitY this') ->
     exists (a c : Z) (q : Q),
       0 <= a < mapWidth (Ray.gameLevel this) /\
       0 <= c < mapHeight (Ray.gameLevel this) /\ (0 <= q)%Q /\
       getTileValue (Ray.gameLevel this) (ofZ a) (ofZ c) = Ret (Ray.textureId this') /\
       Ray.texturePixelX this' = (Finite q %% tileSize)%num).
Proof.
  intros Hfuel.
  destruct (cast_spec this Hok fuel zBuffer Hfuel)
    as (h & v & this' & Hh & _ & Hv & _ & Hch & Hcast).
  exists this'. split; [exact Hcast|].
  apply horizontalMarch_hit in Hh. apply verticalMarch_hit in Hv.
  destruct (choose_spec this Hok h v)
    as (this'' & Hch' & _ & Hcol & Hx & Hy & _ & _ & Hpix & Htex).
  assert (this'' = this') as -> by congruence.
  split; [exact Hcol|].
  intros [Hfx Hfy]. simpl in Hfx, Hfy. rewrite Hx in Hfx. rewrite Hy in Hfy.
  destruct (hitDistance this h <? hitDistance this v)%num.
  - destruct h as [[qx| | |] [qy| | |]]; try discriminate.
    destruct (horizontalHit_finite qx qy Hh) as (a & c & Ea & Ec & Ha & Hc & Hq).
    cbn [fst snd] in Htex, Hpix. rewrite Ea, Ec in Htex. eauto 10.
  - destruct v as [[qx| | |] [qy| | |]]; try discriminate.
    destruct (verticalHit_finite qx qy Hv) as (a & c & Ea & Ec & Ha & Hc & Hq).
    cbn [fst snd] in Htex, Hpix. rewrite Ea, Ec in Htex. eauto 10.
Qed.

End HitFacts.

Section TextureFacts.

Lemma rem_tile_range (q : Q) :
  (0 <= q)%Q ->
  exists r : Q, (Finite q %% tileSize)%num = Finite r /\ (0 <= r)%Q /\ (r < 50)%Q.
Proof.
  intros Hq.
  destruct (rem_positive_divisor q 50 ltac:(lra)) as (r & k & Hrem & _ & Hpos & _).
  destruct (Hpos Hq) as [H0 H50].
  exists (Qred r). split; [exact Hrem|]. rewrite !Qred_correct. auto.
Qed.

Lemma Qfloor_range (r : Q) (n : Z) :
  (0 <= r)%Q -> (r < inject_Z n)%Q -> 0 <= Qfloor r < n.
Proof.
  intros H0 Hn. pose proof (Qfloor_le r) as Hle. pose proof (Qlt_floor r) as Hlt.
  split.
  - assert (-1 < Qfloor r); [|lia].
    rewrite Zlt_Qlt. rewrite inject_Z_plus in Hlt.
    change (inject_Z (-1)) with (-1)%Q. change (inject_Z 1) with 1%Q in Hlt. lra.
  - rewrite Zlt_Qlt. lra.
Qed.

Lemma max_min_ofZ (k : Z) :
  0 <= k <= 63 -> Num.max zero (Num.min (ofZ k) (ofZ 64 - one)%num) = ofZ k.
Proof.
  intros Hk. unfold one. rewrite sub_ofZ. change (64 - 1) with 63.
  unfold Num.min, Num.max, zero. cbn [ofZ]. fold (ofZ 63) (ofZ k) (ofZ 0).
  rewrite lt_ofZ. destruct (Z.ltb_spec 63 k); [lia|].
  rewrite lt_ofZ. destruct (Z.ltb_spec 0 k); [reflexivity|].
  f_equal. lia.
Qed.

(** The strip of [renderWallStrip] samples the texture column under the
    recorded texture pixel, at the screen column of the ray. *)
Lemma renderWallStrip_strip `{MathLib} (cfg : LightConfig) (this : Ray.t) (r : Q)
    (img : imageRef) (sx sy sw sh dx dy dw dh : num) :
  Ray.texturePixelX this = Finite r -> 0 <= Qfloor r <= 63 ->
  drawImage img sx sy sw sh dx dy dw dh ∈ Ray.renderWallStrip cfg this ->
  img = wallTexturesImage /\ sx = ofZ (Qfloor r) /\ sw = one /\
  dx = ofZ (Ray.screenColumn this) /\ dw = one.
Proof.
  intros Hpix Hr. unfold Ray.renderWallStrip.
  destruct (_ || _); [intros Hin; now apply elem_of_nil in Hin|].
  rewrite Hpix. cbn [floor]. rewrite max_min_ofZ by assumption.
  intros Hin. apply elem_of_app in Hin as [Hin | Hin].
  - apply elem_of_cons in Hin as [Hin | Hin]; [discriminate|].
    apply elem_of_cons in Hin as [Hin | Hin]; [|now apply elem_of_nil in Hin].
    injection Hin as -> -> _ -> _ -> _ -> _. auto.
  - destruct (_ <? _)%num; [|now apply elem_of_nil in Hin].
    apply elem_of_cons in Hin as [Hin | Hin]; [discriminate|].
    apply elem_of_cons in Hin as [Hin | Hin]; [discriminate|].
    now apply elem_of_nil in Hin.
Qed.

End TextureFacts.

(** X4. In the 3D view [draw] returns, and when the cast recorded a finite
    hit point the texture pixel is a number from [0] up to, and not
    including, the tile size [50]: every strip drawn is one column of the
    wall texture image, at a source column from [0] to [49] of its 64, and
    is put at the screen column of the ray, one column wide. *)
Theorem draw_texture_column `{MathLib} (this : Ray.t) (fuel : nat)
    (zBuffer : gmap Z num) (cfg : LightConfig) :
  level_ok (Ray.gameLevel this) ->
  (marchBound (Ray.gameLevel this) <= fuel)%nat ->
  exists this' zBuffer' ops,
    Ray.draw fuel zero cfg this zBuffer = Ret (this', zBuffer', ops) /\
    (finite_point (Ray.wallHitX this', Ray.wallHitY this') ->
     exists r : Q,
       Ray.texturePixelX this' = Finite r /\ (0 <= r)%Q /\ (r < 50)%Q /\
       forall img sx sy sw sh dx dy dw dh,
         drawImage img sx sy sw sh dx dy dw dh ∈ ops ->
         img = wallTexturesImage /\ sx = ofZ (Qfloor r) /\ 0 <= Qfloor r < 50 /\
         sw = one /\ dx = ofZ (Ray.screenColumn this) /\ dw = one).
Proof.
  intros Hok Hfuel.
  destruct (cast_finite_hit this Hok fuel zBuffer Hfuel)
    as (this' & Hcast & Hcol & Hhit).
  exists this', (<[Ray.screenColumn this := Ray.directDistance this']> zBuffer),
    (if not_zero (Ray.textureId this') then Ray.renderWallStrip cfg this' else []).
  split; [unfold Ray.draw; rewrite Hcast; reflexivity|].
  intros Hfin. destruct (Hhit Hfin) as (a & c & q & _ & _ & Hq & _ & Hpix).
  destruct (rem_tile_range q Hq) as (r & Hr & H0 & H50).
  rewrite Hr in Hpix. exists r. split; [exact Hpix|]. split; [exact H0|].
  split; [exact H50|].
  intros img sx sy sw sh dx dy dw dh Hin.
  pose proof (Qfloor_range r 50 H0 H50) as Hfloor.
  destruct (not_zero (Ray.textureId this')); [|now apply elem_of_nil in Hin].
  destruct (renderWallStrip_strip cfg this' r _ _ _ _ _ _ _ _ _ Hpix
              ltac:(lia) Hin) as (Himg & Hsx & Hsw & Hdx & Hdw).
  rewrite Hcol in Hdx. auto 10.
Qed.

Lemma draw_texture_column_witness :
  exists this' zBuffer' ops,
    @Ray.draw RationalMath.lib (marchBound roomLevel) zero linearLight roomRay ∅ =
      Ret (this', zBuffer', ops) /\
    exists r : Q,
      Ray.texturePixelX this' = Finite r /\ (0 <= r)%Q /\ (r < 50)%Q /\
      forall img sx sy sw sh dx dy dw dh,
        drawImage img sx sy sw sh dx dy dw dh ∈ ops ->
        img = wallTexturesImage /\ sx = ofZ (Qfloor r) /\ 0 <= Qfloor r < 50 /\
        sw = one /\ dx = ofZ (Ray.screenColumn roomRay) /\ dw = one.
Proof.
  destruct (@draw_texture_column RationalMath.lib roomRay (marchBound roomLevel) ∅
              linearLight eq_refl (le_n _))
    as (this' & zb' & ops & Hdraw & Hhit).
  exists this', zb', ops. split; [exact Hdraw|].
  apply Hhit.
  assert (E : @Ray.draw RationalMath.lib (marchBound roomLevel) zero linearLight
                roomRay ∅ = Ret (this', zb', ops)) by exact Hdraw.
  vm_compute in E. injection E as <- _ _. split; reflexivity.
Defined.

(** X5. In a level built by the constructor with at most 50 columns and at
    most 50 rows, [cast] returns, and when it recorded a finite hit point
    the texture id it recorded is the value stored in the first tile of
    the first row of the layout: the tile indices are passed where
    [getTileValue] expects pixels and are divided by the tile size once
    more. *)
Theorem cast_texture_first_tile `{MathLib} (cv : CanvasElement)
    (layout : list (list Z)) (this : Ray.t) (fuel : nat) (zBuffer : gmap Z num) :
  Level_new cv layout = Ret (Ray.gameLevel this) ->
  mapWidth (Ray.gameLevel this) <= 50 -> mapHeight (Ray.gameLevel this) <= 50 ->
  (marchBound (Ray.gameLevel this) <= fuel)%nat ->
  exists this' zBuffer',
    Ray.cast this fuel zBuffer = Ret (this', zBuffer') /\
    (finite_point (Ray.wallHitX this', Ray.wallHitY this') ->
     exists v : Z, grid_at layout 0 0 = Some v /\ Ray.textureId this' = Num (ofZ v)).
Proof.
  intros Hnew HW HH Hfuel.
  pose proof (Level_new_ok _ _ _ Hnew) as Hok.
  destruct (cast_finite_hit this Hok fuel zBuffer Hfuel)
    as (this' & Hcast & _ & Hhit).
  eexists _, _. split; [exact Hcast|].
  intros Hfin. destruct (Hhit Hfin) as (a & c & q & Ha & Hc & _ & Htex & _).
  destruct (Level_new_fields _ _ _ Hnew) as (Hdata & HHt & Htw & Hth & row0 & H0 & HWd).
  assert (Hv : exists v, grid_at layout 0 0 = Some v).
  { unfold grid_at. change (Z.to_nat 0) with 0%nat. rewrite H0.
    apply lookup_lt_is_Some_2. lia. }
  destruct Hv as [v Hv]. exists v. split; [exact Hv|].
  unfold getTileValue in Htex. rewrite Htw, Hth in Htex.
  assert (Efloor : forall z, 0 <= z < 50 -> floor (ofZ z / tileSize) = ofZ 0).
  { intros z Hz. unfold ofZ at 1. rewrite floor_div_tile. f_equal.
    apply Qfloor_unique.
    - change (inject_Z 0) with 0%Q. unfold Qdiv.
      apply Qmult_le_0_compat; [|discriminate].
      change 0%Q with (inject_Z 0). rewrite <- Zle_Qle. lia.
    - change (inject_Z (0 + 1)) with 1%Q. apply Qlt_shift_div_r; [reflexivity|].
      change (1 * 50)%Q with (inject_Z 50). rewrite <- Zlt_Qlt. lia. }
  rewrite !Efloor in Htex by lia. rewrite in_map_ofZ in Htex.
  destruct (Z.ltb_spec 0 (mapHeight (Ray.gameLevel this))); [|lia].
  destruct (Z.ltb_spec 0 (mapWidth (Ray.gameLevel this))); [|lia].
  simpl in Htex.
  rewrite (mapData_at_stored _ 0 0 v) in Htex by (rewrite ?Hdata; first [lia | assumption]).
  congruence.
Qed.

Lemma cast_texture_first_tile_witness :
  exists this' zBuffer',
    @Ray.cast RationalMath.lib roomRay (marchBound roomLevel) ∅ = Ret (this', zBuffer') /\
    (finite_point (Ray.wallHitX this', Ray.wallHitY this') ->
     exists v : Z, grid_at (room 15 10) 0 0 = Some v /\ Ray.textureId this' = Num (ofZ v)).
Proof.
  apply (@cast_texture_first_tile RationalMath.lib canvas (room 15 10) roomRay
           (marchBound roomLevel) ∅ roomLevel_new).
  - vm_compute. discriminate.
  - vm_compute. discriminate.
  - apply le_n.
Defined.

(** * The strips of a sprite, seen from the calls ([js/Sprite.js]) *)

Section StripFacts.
Variable zBuffer : gmap Z num.
Variable p : Sprite.Projection.

Lemma columnOps_strip (column : Z) (op : canvasOp) :
  op ∈ columnOps zBuffer p column ->
  op = Sprite.strip p (ofZ column) /\ 0 <= column < 500 /\
  exists v, zBuffer !! column = Some v /\
    (v >? Sprite.correctedDistanceForProjection p)%num = true.
Proof.
  unfold columnOps. rewrite zBuffer_get_ofZ.
  destruct (Z.leb_spec 0 column), (Z.ltb_spec column 500); simpl;
    try (intros Hin; now apply elem_of_nil in Hin).
  destruct (zBuffer !! column) as [v|]; simpl to_number.
  - destruct (v >? _)%num eqn:Hv; intros Hin; [|now apply elem_of_nil in Hin].
    apply elem_of_cons in Hin as [-> | Hin]; [|now apply elem_of_nil in Hin].
    eauto 10.
  - destruct (_ >? _)%num eqn:Hv; intros Hin; [|now apply elem_of_nil in Hin].
    exfalso. unfold Num.gt in Hv.
    destruct (Sprite.correctedDistanceForProjection p); discriminate.
Qed.

Lemma columnsFrom_strip (n : nat) (first : Z) (op : canvasOp) :
  op ∈ columnsFrom zBuffer p n first ->
  exists column, first <= column < first + Z.of_nat n /\
    op ∈ columnOps zBuffer p column.
Proof.
  revert first. induction n as [|n IH]; intros first; cbn [columnsFrom].
  - intros Hin. now apply elem_of_nil in Hin.
  - intros Hin. apply elem_of_app in Hin as [Hin | Hin].
    + exists first. split; [lia | assumption].
    + destruct (IH _ Hin) as (column & Hc & Hop). exists column. split; [lia | assumption].
Qed.

End StripFacts.

(** X6. The loop over the columns of a sprite makes no call but strips:
    each call it makes is the strip of a column of the sprite's range that
    is on screen, [0] to [499], where the depth buffer holds a value
    greater than the corrected distance of the sprite; at a column with no
    entry in the buffer nothing is drawn. *)
Theorem sprite_columns_only_visible (zBuffer : gmap Z num) (p : Sprite.Projection)
    (first e : Z) :
  Sprite.endScreenPixelX p = ofZ e ->
  exists ops,
    Sprite.drawColumns zBuffer p (S (Z.to_nat (e - first))) (ofZ first) = Ret ops /\
    forall op, op ∈ ops ->
      exists (column : Z) (v : num),
        op = Sprite.strip p (ofZ column) /\
        first <= column < e /\ 0 <= column < 500 /\
        zBuffer !! column = Some v /\
        (v >? Sprite.correctedDistanceForProjection p)%num = true.
Proof.
  intros Hend. unfold Sprite.drawColumns.
  rewrite (columns_run zBuffer p e Hend _ first [] eq_refl). cbn [app].
  eexists. split; [reflexivity|].
  intros op Hin.
  destruct (columnsFrom_strip zBuffer p _ _ _ Hin) as (column & Hc & Hop).
  destruct (columnOps_strip zBuffer p _ _ Hop) as (-> & Hscreen & v & Hv & Hgt).
  exists column, v. repeat split; try assumption; lia.
Qed.

Lemma sprite_columns_only_visible_witness :
  exists ops,
    Sprite.drawColumns (<[11 := ofZ 200]> ∅) smallProjection
      (S (Z.to_nat (14 - 10))) (ofZ 10) = Ret ops /\
    forall op, op ∈ ops ->
      exists (column : Z) (v : num),
        op = Sprite.strip smallProjection (ofZ column) /\
        10 <= column < 14 /\ 0 <= column < 500 /\
        (<[11 := ofZ 200]> ∅ : gmap Z num) !! column = Some v /\
        (v >? Sprite.correctedDistanceForProjection smallProjection)%num = true.
Proof.
  exact (sprite_columns_only_visible (<[11 := ofZ 200]> ∅) smallProjection 10 14 eq_refl).
Defined.

(** * The angle of a sprite in the view ([js/Sprite.js]) *)

Section ViewAngleFacts.

Lemma two_pi_double : (TWO_PI == 2 * PI)%Q.
Proof. unfold TWO_PI. rewrite Qred_correct. reflexivity. Qed.

Lemma pi_positive : (0 < PI)%Q.
Proof. reflexivity. Qed.

Lemma neg_pi_value : (- Math_PI)%num = fin (- PI).
Proof. reflexivity. Qed.

Lemma Qle_bool_Qred_l (a b : Q) : Qle_bool (Qred a) b = Qle_bool a b.
Proof.
  apply eq_true_iff_eq. rewrite !Qle_bool_iff.
  split; intros Hle; [rewrite <- (Qred_correct a) | rewrite (Qred_correct a)];
    exact Hle.
Qed.

Lemma Qle_bool_Qred_r (a b : Q) : Qle_bool a (Qred b) = Qle_bool a b.
Proof.
  apply eq_true_iff_eq. rewrite !Qle_bool_iff.
  split; intros Hle; [rewrite <- (Qred_correct b) | rewrite (Qred_correct b)];
    exact Hle.
Qed.

Lemma lt_fin (a b : Q) : (fin a <? fin b)%num = negb (Qle_bool b a).
Proof. unfold fin, Num.lt. now rewrite Qle_bool_Qred_l, Qle_bool_Qred_r. Qed.

Lemma gt_fin_finite (a b : Q) : (fin a >? Finite b)%num = negb (Qle_bool a b).
Proof. unfold Num.gt, fin, Num.lt. now rewrite Qle_bool_Qred_l. Qed.

End ViewAngleFacts.

(** X7. For a player whose rotation angle is normalised, from zero up to
    the full turn, and a finite angle from the player to the sprite within
    the range of [Math.atan2], [calculateRenderData] records an angle
    between [-Math.PI] and [Math.PI] that differs from the rotation angle
    minus the angle to the sprite by no turn or by one; the first of its
    two corrections never applies.  The flag it returns says whether that
    angle is within half the field of view. *)
Theorem calculateRenderData_angle `{MathLib} (player : Player.t) (this : Sprite.t)
    (rot a : Q) :
  atan2_range ->
  Player.rotationAngle player = Finite rot -> (0 <= rot)%Q -> (rot < TWO_PI)%Q ->
  Math_atan2 (Sprite.y this - Player.y player)%num
    (Sprite.x this - Player.x player)%num = Finite a ->
  exists (d : Q) (k : Z),
    Sprite.angleRelativeToPlayerView
      (Sprite.calculateRenderData (Some player) this).1 = Finite d /\
    (- PI <= d)%Q /\ (d <= PI)%Q /\ 0 <= k <= 1 /\
    (d == rot - a - inject_Z k * TWO_PI)%Q /\
    (Sprite.calculateRenderData (Some player) this).2 =
      (Num.abs (Finite d) <? FOV_RADIANS_HALF)%num.
Proof.
  intros Hrange Hrot H0 Hturn Hatan.
  destruct (Hrange _ _ _ Hatan) as [Hlo Hhi].
  pose proof two_pi_double as Htwo. pose proof pi_positive as Hpi.
  unfold Sprite.calculateRenderData. rewrite Hatan, Hrot, sub_finite.
  rewrite neg_pi_value, lt_fin.
  destruct (Qle_bool (- PI) (rot - a)) eqn:E1;
    [|apply Qle_bool_false in E1; lra].
  cbn [negb]. rewrite two_pi_value. change Math_PI with (Finite PI).
  rewrite gt_fin_finite.
  apply Qle_bool_iff in E1.
  destruct (Qle_bool (rot - a) PI) eqn:E2; cbn [negb fst snd Sprite.set_render_data
    Sprite.angleRelativeToPlayerView].
  - apply Qle_bool_iff in E2. exists (Qred (rot - a)), 0.
    change (inject_Z 0) with 0%Q.
    split; [reflexivity|]. repeat split; rewrite ?Qred_correct; lra || lia.
  - apply Qle_bool_false in E2. rewrite sub_fin_l.
    exists (Qred (rot - a - TWO_PI)), 1.
    change (inject_Z 1) with 1%Q.
    split; [reflexivity|]. repeat split; rewrite ?Qred_correct; lra || lia.
Qed.

Lemma calculateRenderData_angle_witness :
  exists (d : Q) (k : Z),
    Sprite.angleRelativeToPlayerView
      (@Sprite.calculateRenderData RationalMath.lib
         (Some {| Player.x := ofZ 75; Player.y := ofZ 75; Player.rotationAngle := ofZ 4 |})
         (Sprite.new (ofZ 175) (ofZ 75) (Some smallImage) true)).1 = Finite d /\
    (- PI <= d)%Q /\ (d <= PI)%Q /\ 0 <= k <= 1 /\
    (d == 4 - 0 - inject_Z k * TWO_PI)%Q /\
    (@Sprite.calculateRenderData RationalMath.lib
       (Some {| Player.x := ofZ 75; Player.y := ofZ 75; Player.rotationAngle := ofZ 4 |})
       (Sprite.new (ofZ 175) (ofZ 75) (Some smallImage) true)).2 =
      (Num.abs (Finite d) <? FOV_RADIANS_HALF)%num.
Proof.
  apply (@calculateRenderData_angle RationalMath.lib
           {| Player.x := ofZ 75; Player.y := ofZ 75; Player.rotationAngle := ofZ 4 |}
           (Sprite.new (ofZ 175) (ofZ 75) (Some smallImage) true) 4 0).
  - intros y x a. destruct y as [b| | |], x as [c| | |]; try discriminate.
    simpl. destruct (_ && _); [|discriminate].
    intros [= <-]. split; discriminate.
  - reflexivity.
  - discriminate.
  - reflexivity.
  - reflexivity.
Defined.

(** * Counted loops *)

Section ForFacts.
Context {S : Type}.
Variable body : Z -> S -> outcome S.

Lemma forBody_inside (n i : Z) (s : S) :
  i < n -> forBody (ofZ n) body (i, s) = let* s' := body i s in Ret (inl (i + 1, s')).
Proof.
  intros Hi. unfold forBody. rewrite lt_ofZ.
  destruct (Z.ltb_spec i n); [reflexivity | lia].
Qed.

Lemma forBody_done (n i : Z) (s : S) :
  n <= i -> forBody (ofZ n) body (i, s) = Ret (inr s).
Proof.
  intros Hi. unfold forBody. rewrite lt_ofZ.
  destruct (Z.ltb_spec i n); [lia | reflexivity].
Qed.

(** A loop over the integers from [start] to [n - 1] whose body returns and
    keeps an invariant returns, with the invariant at [n]. *)
Lemma for_loop_invariant (P : Z -> S -> Prop) (n : Z) (fuel : nat) (start : Z) (s : S) :
  start <= n -> (Z.to_nat (n - start) < fuel)%nat -> P start s ->
  (forall i s, start <= i < n -> P i s -> exists s', body i s = Ret s' /\ P (i + 1) s') ->
  exists s', for_loop fuel start (ofZ n) body s = Ret s' /\ P n s'.
Proof.
  unfold for_loop. revert start s.
  induction fuel as [|fuel IH]; intros start s Hle Hfuel HP Hbody; [lia|].
  rewrite while_S. destruct (Z.eq_dec start n) as [-> | Hne].
  - rewrite forBody_done by lia. simpl. eauto.
  - rewrite forBody_inside by lia.
    destruct (Hbody start s ltac:(lia) HP) as (s1 & -> & HP1). simpl.
    apply IH; try lia; [assumption|].
    intros i s0 Hi. apply Hbody. lia.
Qed.

(** A loop whose bound is not above its start makes no turn. *)
Lemma for_loop_empty (n : Z) (fuel : nat) (start : Z) (s : S) :
  n <= start -> for_loop (Datatypes.S fuel) start (ofZ n) body s = Ret s.
Proof.
  intros Hle. unfold for_loop. rewrite while_S, forBody_done by lia. reflexivity.
Qed.

End ForFacts.

(** * The minimap ([js/level.js]) *)

Section MinimapFacts.
Variable this : Level.
Hypothesis Hok : level_ok this.
Hypothesis Hwidth : 0 <= mapWidth this.

Lemma painted_app (ops more : list paintOp) (x y : Z) :
  painted this ops x y -> painted this (ops ++ more) x y.
Proof.
  intros (b & Hb & H1 & H2). exists b.
  split; [assumption|]. split; apply lookup_app_l_Some; assumption.
Qed.

Lemma minimap_tile (x y : Z) (ops : list paintOp) :
  0 <= x < mapWidth this -> 0 <= y < mapHeight this ->
  minimap_upto this x y ops ->
  exists ops',
    (let* v := mapData_at this (ofZ x) (ofZ y) in
     let tileFillColor := if not_zero v then wallColour else floorColour in
     Ret (ops ++ [set_fillStyle tileFillColor;
                  op (fillRect (ofZ x * tileWidth this)%num (ofZ y * tileHeight this)%num
                        (tileWidth this) (tileHeight this))])) = Ret ops' /\
    minimap_upto this (x + 1) y ops'.
Proof.
  intros Hx Hy [Hlen Hprev].
  destruct (mapData_at_returns this Hok x y ltac:(lia) Hy) as [v Hv].
  rewrite Hv. simpl. eexists. split; [reflexivity|]. split.
  - rewrite length_app, Hlen. simpl. nia.
  - intros x' y' Hx' Hy' Hbefore.
    destruct (Z.eq_dec y' y) as [-> | Hney];
      [destruct (Z.eq_dec x' x) as [-> | Hnex]|];
      try (apply painted_app, Hprev; lia).
    exists (if not_zero v then true else false).
    split; [|split].
    + unfold hasCollision. rewrite in_map_ofZ.
      destruct (Z.leb_spec 0 y), (Z.ltb_spec y (mapHeight this)),
        (Z.leb_spec 0 x), (Z.ltb_spec x (mapWidth this)); try lia.
      simpl. now rewrite Hv.
    + rewrite lookup_app_r by lia. rewrite Hlen, Nat.sub_diag. simpl.
      now destruct (not_zero v).
    + rewrite lookup_app_r by lia. rewrite Hlen.
      replace (Z.to_nat (2 * (y * mapWidth this + x) + 1)
               - Z.to_nat (2 * (y * mapWidth this + x)))%nat with 1%nat by nia.
      reflexivity.
Qed.

Lemma minimap_row (fuel : nat) (y : Z) (ops : list paintOp) :
  (Z.to_nat (mapWidth this) < fuel)%nat -> 0 <= y < mapHeight this ->
  minimap_upto this 0 y ops ->
  exists ops',
    for_loop fuel 0 (ofZ (mapWidth this))
      (fun x ops =>
         let* v := mapData_at this (ofZ x) (ofZ y) in
         let tileFillColor := if not_zero v then wallColour else floorColour in
         Ret (ops ++ [set_fillStyle tileFillColor;
                      op (fillRect (ofZ x * tileWidth this)%num
                            (ofZ y * tileHeight this)%num
                            (tileWidth this) (tileHeight this))]))
      ops = Ret ops' /\
    minimap_upto this 0 (y + 1) ops'.
Proof.
  intros Hfuel Hy Hstart.
  destruct (for_loop_invariant
              (fun x ops =>
                 let* v := mapData_at this (ofZ x) (ofZ y) in
                 let tileFillColor := if not_zero v then wallColour else floorColour in
                 Ret (ops ++ [set_fillStyle tileFillColor;
                              op (fillRect (ofZ x * tileWidth this)%num
                                    (ofZ y * tileHeight this)%num
                                    (tileWidth this) (tileHeight this))]))
              (fun x ops => minimap_upto this x y ops)
              (mapWidth this) fuel 0 ops Hwidth)
    as (ops' & Hrun & [Hlen Hall]).
  - rewrite Z.sub_0_r. exact Hfuel.
  - exact Hstart.
  - intros x ops0 Hx Hinv. apply minimap_tile; assumption.
  - exists ops'. split; [exact Hrun|]. split.
    + rewrite Hlen. f_equal. lia.
    + intros x' y' Hx' Hy' Hbefore. apply Hall; try assumption. lia.
Qed.

End MinimapFacts.

(** X8. On a level that keeps the number of its rows, [drawMinimap]
    returns: it makes two calls for every tile, row by row, and the tile
    in column [x] of row [y] is filled with the wall colour when
    [hasCollision] answers true for it and with the floor colour when it
    answers false, as a rectangle of one tile at [x] and [y] tiles from the
    corner. *)
Theorem drawMinimap_agrees_with_hasCollision (this : Level) (fuel : nat) :
  level_ok this -> 0 <= mapWidth this ->
  (Z.to_nat (Z.max (mapWidth this) (mapHeight this)) < fuel)%nat ->
  exists ops,
    drawMinimap fuel this = Ret ops /\
    length ops = Z.to_nat (2 * (mapHeight this * mapWidth this)) /\
    forall x y, 0 <= x < mapWidth this -> 0 <= y < mapHeight this ->
      painted this ops x y.
Proof.
  intros Hok Hwidth Hfuel.
  assert (Hheight : 0 <= mapHeight this) by (unfold level_ok in Hok; lia).
  destruct (for_loop_invariant
              (fun y ops =>
                 for_loop fuel 0 (ofZ (mapWidth this))
                   (fun x ops =>
                      let* v := mapData_at this (ofZ x) (ofZ y) in
                      let tileFillColor :=
                        if not_zero v then wallColour else floorColour in
                      Ret (ops ++ [set_fillStyle tileFillColor;
                                   op (fillRect (ofZ x * tileWidth this)%num
                                         (ofZ y * tileHeight this)%num
                                         (tileWidth this) (tileHeight this))]))
                   ops)
              (fun y ops => minimap_upto this 0 y ops)
              (mapHeight this) fuel 0 [] Hheight)
    as (ops & Hrun & [Hlen Hall]).
  - lia.
  - split; [reflexivity|]. intros x' y' Hx' Hy' Hbefore. lia.
  - intros y ops0 Hy Hinv. apply minimap_row; try assumption; lia.
  - exists ops. split; [exact Hrun|]. split.
    + rewrite Hlen. f_equal. lia.
    + intros x y Hx Hy. apply Hall; lia.
Qed.

Lemma drawMinimap_agrees_with_hasCollision_witness :
  exists ops,
    drawMinimap 16 roomLevel = Ret ops /\
    length ops = Z.to_nat (2 * (10 * 15)) /\
    forall x y, 0 <= x < 15 -> 0 <= y < 10 -> painted roomLevel ops x y.
Proof.
  apply (drawMinimap_agrees_with_hasCollision roomLevel 16).
  - reflexivity.
  - discriminate.
  - vm_compute. lia.
Defined.

(** * The player ([js/player.js]) *)

Section RayDrawFacts.
Context `{MathLib}.

(** [Ray.draw] returns: the ray stays at its column, on its level and at
    its origin, and the depth buffer gets its direct distance at that
    column. *)
Lemma Ray_draw_spec (fuel : nat) (renderMode : num) (cfg : LightConfig)
    (this : Ray.t) (zBuffer : gmap Z num) :
  level_ok (Ray.gameLevel this) ->
  (marchBound (Ray.gameLevel this) <= fuel)%nat ->
  exists this' ops,
    Ray.draw fuel renderMode cfg this zBuffer =
      Ret (this', <[Ray.screenColumn this := Ray.directDistance this']> zBuffer, ops) /\
    Ray.screenColumn this' = Ray.screenColumn this /\
    Ray.gameLevel this' = Ray.gameLevel this.
Proof.
  intros Hok Hfuel.
  destruct (cast_spec this Hok fuel zBuffer Hfuel)
    as (h & v & this' & _ & _ & _ & _ & Hch & Hcast).
  destruct (choose_spec this Hok h v) as (this'' & Hch' & Hlvl & Hcol & _).
  assert (this'' = this') as -> by congruence.
  unfold Ray.draw. rewrite Hcast. simpl.
  destruct (renderMode === zero)%num; [eauto 10|].
  destruct (_ || _); eauto 10.
Qed.

End RayDrawFacts.

Section FanFacts.
Context `{MathLib}.

Lemma offset_step (h inc : Q) (i : Z) :
  ((- Finite h + ofZ i * Finite inc) + Finite inc)%num =
  (- Finite h + ofZ (i + 1) * Finite inc)%num.
Proof.
  unfold ofZ. cbn [Num.neg]. rewrite !mul_finite, !add_fin.
  unfold fin at 1. rewrite add_finite. apply fin_eq.
  rewrite Qred_correct, inject_Z_plus. change (inject_Z 1) with 1%Q. ring.
Qed.

Lemma offset_start (h inc : Q) :
  (- Finite h)%num = (- Finite h + ofZ 0 * Finite inc)%num.
Proof.
  unfold ofZ. cbn [Num.neg]. rewrite mul_finite, add_fin. apply fin_eq.
  change (inject_Z 0) with 0%Q. ring.
Qed.

Lemma fov_finite :
  exists h inc : Q,
    FOV_RADIANS_HALF = Finite h /\ (FOV_RADIANS / canvasWidth)%num = Finite inc.
Proof. eexists _, _. split; reflexivity. Qed.

End FanFacts.

(** What the constructor of the player builds. *)
Lemma new_spec `{MathLib} (fuel : nat) (lvl : Level) (x y : num) :
  (500 < fuel)%nat ->
  exists rays : gmap Z Ray.t,
    PlayerClass.new fuel lvl x y =
      Ret {| PlayerClass.gameLevel := lvl; PlayerClass.x := x; PlayerClass.y := y;
             PlayerClass.movementInput := zero; PlayerClass.rotationInput := zero;
             PlayerClass.rotationAngle := zero;
             PlayerClass.rotationSpeed := degreesToRadians (ofZ 2);
             PlayerClass.movementSpeed := ofZ 2;
             PlayerClass.numberOfRays := canvasWidth;
             PlayerClass.rays := rays; PlayerClass.health := ofZ 100;
             PlayerClass.ammo := ofZ 10; PlayerClass.score := zero;
             PlayerClass.playerActionState := zero |} /\
    (forall i, 0 <= i < 500 ->
       rays !! i =
       Some (Ray.new lvl x y zero
               (- FOV_RADIANS_HALF + ofZ i * (FOV_RADIANS / canvasWidth))%num i)) /\
    (forall i, ~ 0 <= i < 500 -> rays !! i = None).
Proof.
  intros Hfuel. unfold PlayerClass.new.
  destruct fov_finite as (h & inc & Hh & Hinc). rewrite Hh, Hinc.
  destruct (for_loop_invariant
              (fun i (st : gmap Z Ray.t * num) =>
                 let '(rays, currentRayAngleOffset) := st in
                 Ret (<[i := Ray.new lvl x y zero currentRayAngleOffset i]> rays,
                      (currentRayAngleOffset + Finite inc)%num))
              (fun i st =>
                 st.2 = (- Finite h + ofZ i * Finite inc)%num /\
                 (forall j, 0 <= j < i ->
                    st.1 !! j =
                    Some (Ray.new lvl x y zero
                            (- Finite h + ofZ j * Finite inc)%num j)) /\
                 (forall j, ~ 0 <= j < i -> st.1 !! j = None))
              500 fuel 0 (∅, (- Finite h)%num))
    as ([rays off] & Hrun & Hoff & Hin & Hout).
  - lia.
  - simpl. lia.
  - split; [apply offset_start|]. split; [intros j Hj; lia|].
    intros j _. apply lookup_empty.
  - intros i [rays off] Hi (Hoff & Hin & Hout). simpl in Hoff. subst off.
    eexists. split; [reflexivity|]. cbn [fst snd]. split; [apply offset_step|].
    split.
    + intros j Hj. destruct (Z.eq_dec j i) as [-> | Hne].
      * now rewrite lookup_insert_eq.
      * rewrite lookup_insert_ne by congruence. apply Hin. lia.
    + intros j Hj. rewrite lookup_insert_ne by lia. apply Hout. lia.
  - unfold canvasWidth at 1. rewrite Hrun. cbn [obind].
    exists rays. split; [reflexivity|]. cbn [fst snd] in Hin, Hout. auto.
Qed.

(** X9. The constructor of the player returns with a fan of 500 rays and
    no other: the ray of column [i] has [i] as its screen column, starts at
    the player on the level of the player, and its angle to the view is
    minus half the field of view plus [i] increments of a 500th of the
    field of view, so the first ray is at minus half the field of view and
    the last one increment short of plus half.  The player starts with
    100 health and 10 ammunition. *)
Theorem Player_new_fan `{MathLib} (fuel : nat) (lvl : Level) (x y : num) :
  (500 < fuel)%nat ->
  exists p,
    PlayerClass.new fuel lvl x y = Ret p /\
    fan_ok p /\
    (forall i, 0 <= i < 500 ->
       PlayerClass.rays p !! i =
       Some (Ray.new lvl x y zero
               (- FOV_RADIANS_HALF + ofZ i * (FOV_RADIANS / canvasWidth))%num i)) /\
    (forall i, ~ 0 <= i < 500 -> PlayerClass.rays p !! i = None) /\
    PlayerClass.gameLevel p = lvl /\ PlayerClass.x p = x /\ PlayerClass.y p = y /\
    PlayerClass.rotationAngle p = zero /\
    PlayerClass.health p = ofZ 100 /\ PlayerClass.ammo p = ofZ 10.
Proof.
  intros Hfuel. destruct (new_spec fuel lvl x y Hfuel) as (rays & Hnew & Hin & Hout).
  eexists. split; [exact Hnew|].
  cbn [PlayerClass.rays PlayerClass.gameLevel PlayerClass.x PlayerClass.y
       PlayerClass.rotationAngle PlayerClass.health PlayerClass.ammo].
  split; [|auto 10].
  split; [reflexivity|]. intros i Hi.
  cbn [PlayerClass.rays PlayerClass.gameLevel].
  eexists. split; [exact (Hin i Hi)|]. split; reflexivity.
Qed.

Lemma Player_new_fan_witness :
  exists p,
    @PlayerClass.new RationalMath.lib 501 roomLevel (ofZ 75) (ofZ 75) = Ret p /\
    fan_ok p /\
    PlayerClass.rays p !! 499 =
      Some (@Ray.new RationalMath.lib roomLevel (ofZ 75) (ofZ 75) zero
              (- FOV_RADIANS_HALF + ofZ 499 * (FOV_RADIANS / canvasWidth))%num 499) /\
    PlayerClass.rays p !! 500 = None.
Proof.
  destruct (@Player_new_fan RationalMath.lib 501 roomLevel (ofZ 75) (ofZ 75)
              ltac:(lia)) as (p & Hnew & Hfan & Hin & Hout & _).
  exists p. split; [exact Hnew|]. split; [exact Hfan|].
  split; [apply Hin; lia | apply Hout; lia].
Defined.

(** * Free places *)

Section FreePlaceFacts.
Variable lvl : Level.
Hypothesis Hok : level_ok lvl.

Lemma mapData_at_grid (x y : Z) :
  0 <= x -> 0 <= y < mapHeight lvl ->
  exists v, mapData_at lvl (ofZ x) (ofZ y) = Ret v /\
    (not_zero v = false <-> grid_at (mapData lvl) x y = Some 0).
Proof.
  intros Hx Hy. unfold mapData_at, grid_at. rewrite index_of_lookup by lia.
  destruct (lookup_lt_is_Some_2 (mapData lvl) (Z.to_nat y)) as [row Hrow];
    [unfold level_ok in Hok; lia|].
  rewrite Hrow, index_of_lookup by lia.
  destruct (row !! Z.to_nat x) as [v|]; eexists; (split; [reflexivity|]).
  - cbn [not_zero]. rewrite neqb_ofZ_zero.
    destruct (Z.eqb_spec v 0) as [-> | Hne]; simpl; split; try discriminate; auto.
    intros [= ->]. contradiction.
  - simpl. split; discriminate.
Qed.

(** The test of a place made by the player, the projectiles and the
    enemies: off the map, or on a tile that [hasCollision] reports.  It
    returns, and it answers false exactly at the free places. *)
Lemma place_test (x y : num) :
  exists b : bool,
    (if (floor (x / tileSize) <? zero)%num
        || (floor (x / tileSize) >=? ofZ (mapWidth lvl))%num
        || (floor (y / tileSize) <? zero)%num
        || (floor (y / tileSize) >=? ofZ (mapHeight lvl))%num
     then Ret true
     else hasCollision lvl (floor (x / tileSize)) (floor (y / tileSize))) = Ret b /\
    (b = false <-> free_place lvl x y).
Proof.
  destruct x as [qx| | |], y as [qy| | |];
    try (exists true; split;
         [first [reflexivity
                | unfold zero; rewrite !floor_div_tile, ?lt_ofZ, ?ge_ofZ;
                  unfold hasCollision, in_map; cbn;
                  rewrite ?andb_false_r, ?orb_true_r;
                  repeat (destruct (_ <? _) || destruct (_ <=? _)); reflexivity]
         | split; [discriminate | intros (? & ? & ? & ? & _); discriminate]]).
  rewrite !floor_div_tile. unfold zero. rewrite !lt_ofZ, !ge_ofZ.
  destruct (Z.ltb_spec (Qfloor (qx / 50)) 0); cbn [orb];
    [exists true; split; [reflexivity|]; split; [discriminate|];
     intros (? & ? & [= <-] & [= <-] & ? & _); lia|].
  destruct (Z.leb_spec (mapWidth lvl) (Qfloor (qx / 50))); cbn [orb];
    [exists true; split; [reflexivity|]; split; [discriminate|];
     intros (? & ? & [= <-] & [= <-] & ? & _); lia|].
  destruct (Z.ltb_spec (Qfloor (qy / 50)) 0); cbn [orb];
    [exists true; split; [reflexivity|]; split; [discriminate|];
     intros (? & ? & [= <-] & [= <-] & ? & ? & _); lia|].
  destruct (Z.leb_spec (mapHeight lvl) (Qfloor (qy / 50))); cbn [orb];
    [exists true; split; [reflexivity|]; split; [discriminate|];
     intros (? & ? & [= <-] & [= <-] & ? & ? & _); lia|].
  destruct (mapData_at_grid (Qfloor (qx / 50)) (Qfloor (qy / 50)))
    as (v & Hv & Hzero); [lia | lia |].
  unfold hasCollision. rewrite in_map_ofZ.
  destruct (Z.leb_spec 0 (Qfloor (qy / 50))), (Z.ltb_spec (Qfloor (qy / 50)) (mapHeight lvl)),
    (Z.leb_spec 0 (Qfloor (qx / 50))), (Z.ltb_spec (Qfloor (qx / 50)) (mapWidth lvl));
    try lia.
  cbn [andb]. rewrite Hv. simpl.
  exists (if not_zero v then true else false). split; [reflexivity|].
  split.
  - intros Hb. exists qx, qy. repeat split; try lia.
    apply Hzero. now destruct (not_zero v).
  - intros (? & ? & [= <-] & [= <-] & _ & _ & Hgrid).
    apply Hzero in Hgrid. now rewrite Hgrid.
Qed.

End FreePlaceFacts.

Section PlayerUpdateFacts.
Context `{MathLib} `{MathSin}.

Lemma checkCollision_spec (p : PlayerClass.t) (worldX worldY : num) :
  level_ok (PlayerClass.gameLevel p) ->
  tileWidth (PlayerClass.gameLevel p) = tileSize ->
  tileHeight (PlayerClass.gameLevel p) = tileSize ->
  exists b : bool,
    PlayerClass.checkCollision p worldX worldY = Ret b /\
    (b = false <-> free_place (PlayerClass.gameLevel p) worldX worldY).
Proof.
  intros Hok Htw Hth. unfold PlayerClass.checkCollision. rewrite Htw, Hth.
  destruct (place_test (PlayerClass.gameLevel p) Hok worldX worldY) as (b & Hb & Hiff).
  destruct (_ || _).
  - injection Hb as <-. exists true. split; [reflexivity | exact Hiff].
  - rewrite Hb. exists b. split; [now destruct b | exact Hiff].
Qed.

Lemma same_but_stock_refl (p : PlayerClass.t) : same_but_stock p p.
Proof. repeat split. Qed.

Lemma same_but_stock_trans (p q r : PlayerClass.t) :
  same_but_stock p q -> same_but_stock q r -> same_but_stock p r.
Proof.
  unfold same_but_stock. intros Hpq Hqr.
  repeat match goal with H : _ /\ _ |- _ => destruct H end.
  repeat split; congruence.
Qed.

Lemma type_ammo_not_health (s : Sprite.t) :
  type_is s "ammo" = true -> type_is s "health" = false.
Proof.
  unfold type_is. destruct (Sprite.type s) as [ty|]; [|discriminate].
  intros E. apply String.eqb_eq in E. now subst ty.
Qed.

(** One sprite of the loop of [update]. *)
Lemma pickUp_kept (sprite : Sprite.t) (q : PlayerClass.t) (later : list Sprite.t) :
  PlayerClass.pickUp sprite (q, later) = (q, sprite :: later) ->
  exists q' sprite',
    PlayerClass.pickUp sprite (q, later) = (q', sprite' :: later) /\
    same_but_stock q q' /\
    kept_or_taken (PlayerClass.x q) (PlayerClass.y q) sprite sprite' /\
    (type_is sprite "ammo" && Sprite.visible sprite && negb (Sprite.visible sprite')
     = true -> PlayerClass.ammo q' = (PlayerClass.ammo q + ofZ 10)%num) /\
    (type_is sprite "ammo" && Sprite.visible sprite && negb (Sprite.visible sprite')
     = false -> PlayerClass.ammo q' = PlayerClass.ammo q) /\
    (PlayerClass.health q' = PlayerClass.health q \/
     (PlayerClass.health q <? ofZ 100)%num = true /\
     PlayerClass.health q' =
       Num.min (ofZ 100) (PlayerClass.health q + ofZ 25)%num) /\
    (type_is sprite "health" = true ->
     (PlayerClass.health q <? ofZ 100)%num = false -> sprite' = sprite).
Proof.
  intros E. exists q, sprite. split; [exact E|].
  split; [apply same_but_stock_refl|]. split; [now left|].
  split; [|split; [reflexivity|split; [now left | reflexivity]]].
  destruct (type_is sprite "ammo"), (Sprite.visible sprite); intros E'; discriminate E'.
Qed.

Lemma pickUp_spec (sprite : Sprite.t) (q : PlayerClass.t) (later : list Sprite.t) :
  exists q' sprite',
    PlayerClass.pickUp sprite (q, later) = (q', sprite' :: later) /\
    same_but_stock q q' /\
    kept_or_taken (PlayerClass.x q) (PlayerClass.y q) sprite sprite' /\
    (type_is sprite "ammo" && Sprite.visible sprite && negb (Sprite.visible sprite')
     = true -> PlayerClass.ammo q' = (PlayerClass.ammo q + ofZ 10)%num) /\
    (type_is sprite "ammo" && Sprite.visible sprite && negb (Sprite.visible sprite')
     = false -> PlayerClass.ammo q' = PlayerClass.ammo q) /\
    (PlayerClass.health q' = PlayerClass.health q \/
     (PlayerClass.health q <? ofZ 100)%num = true /\
     PlayerClass.health q' =
       Num.min (ofZ 100) (PlayerClass.health q + ofZ 25)%num) /\
    (type_is sprite "health" = true ->
     (PlayerClass.health q <? ofZ 100)%num = false -> sprite' = sprite).
Proof.
  destruct (sumbool_of_bool (Sprite.visible sprite)) as [Hvis | Hvis];
    [|apply pickUp_kept; unfold PlayerClass.pickUp; now rewrite Hvis].
  destruct (sumbool_of_bool (type_truthy sprite)) as [Htruthy | Htruthy];
    [|apply pickUp_kept; unfold PlayerClass.pickUp; now rewrite Hvis, Htruthy].
  destruct (sumbool_of_bool
              (distanceBetweenPoints (PlayerClass.x q) (PlayerClass.y q)
                 (Sprite.x sprite) (Sprite.y sprite) <? tileSize / ofZ 2)%num)
    as [Hnear | Hnear];
    [|apply pickUp_kept; unfold PlayerClass.pickUp;
      now rewrite Hvis, Htruthy, Hnear].
  destruct (sumbool_of_bool (type_is sprite "ammo")) as [Hammo | Hammo].
  - exists (PlayerClass.set_ammo q (PlayerClass.ammo q + ofZ 10)%num),
      (Sprite_set_visible sprite false).
    split; [unfold PlayerClass.pickUp; now rewrite Hvis, Htruthy, Hnear, Hammo|].
    split; [repeat split|]. split; [right; auto|].
    split; [reflexivity|].
    split; [rewrite Hammo, Hvis; intros E; discriminate E|]. split; [now left|].
    intros Hhealth. rewrite (type_ammo_not_health sprite Hammo) in Hhealth.
    discriminate.
  - destruct (sumbool_of_bool (type_is sprite "health")) as [Hhealth | Hhealth];
      [|apply pickUp_kept; unfold PlayerClass.pickUp;
        now rewrite Hvis, Htruthy, Hnear, Hammo, Hhealth].
    destruct (sumbool_of_bool (PlayerClass.health q <? ofZ 100)%num) as [Hlow | Hlow];
      [|apply pickUp_kept; unfold PlayerClass.pickUp;
        now rewrite Hvis, Htruthy, Hnear, Hammo, Hhealth, Hlow].
    exists (PlayerClass.set_health q
              (Num.min (ofZ 100) (PlayerClass.health q + ofZ 25)%num)),
      (Sprite_set_visible sprite false).
    split; [unfold PlayerClass.pickUp;
            now rewrite Hvis, Htruthy, Hnear, Hammo, Hhealth, Hlow|].
    split; [repeat split|]. split; [right; auto|].
    split; [rewrite Hammo; intros E; discriminate E|].
    split; [reflexivity|]. split; [right; auto|].
    intros _ E. rewrite Hlow in E. discriminate E.
Qed.

End PlayerUpdateFacts.

Section PlayerStages.
Context `{MathLib} `{MathSin}.

Lemma ammo_taken_cons (s s' : Sprite.t) (before after : list Sprite.t) :
  ammo_taken (s :: before) (s' :: after) =
  ((if type_is s "ammo" && Sprite.visible s && negb (Sprite.visible s')
    then 1 else 0) + ammo_taken before after)%nat.
Proof.
  unfold ammo_taken. cbn [zip zip_with List.filter fst snd].
  now destruct (_ && _).
Qed.

Lemma min_full (h : Q) :
  (h < 100)%Q ->
  exists h' : Q,
    Num.min (ofZ 100) (Finite h + ofZ 25)%num = Finite h' /\ (h <= h')%Q /\ (h' <= 100)%Q.
Proof.
  intros Hh. unfold ofZ. rewrite add_finite. unfold Num.min, fin.
  unfold Num.lt. rewrite Qle_bool_Qred_r.
  destruct (Qle_bool (inject_Z 100) (h + inject_Z 25)) eqn:E; cbn [negb].
  - exists (inject_Z 100). split; [reflexivity|]. unfold inject_Z. lra.
  - apply Qle_bool_false in E. exists (Qred (h + inject_Z 25)).
    split; [reflexivity|]. rewrite !Qred_correct. unfold inject_Z in *. lra.
Qed.

Lemma lt_finite_true (a b : Q) : (Finite a <? Finite b)%num = true -> (a < b)%Q.
Proof.
  unfold Num.lt. intros E. apply negb_true_iff in E. now apply Qle_bool_false.
Qed.

Lemma lt_finite_false (a b : Q) : (Finite a <? Finite b)%num = false -> (b <= a)%Q.
Proof.
  unfold Num.lt. intros E. apply negb_false_iff in E. now apply Qle_bool_iff.
Qed.

(** The loop over the sprites, from the last to the first. *)
Lemma pickUp_fold (p : PlayerClass.t) (sprites : list Sprite.t) :
  exists q out,
    foldr PlayerClass.pickUp (p, []) sprites = (q, out) /\
    same_but_stock p q /\
    Forall2 (kept_or_taken (PlayerClass.x p) (PlayerClass.y p)) sprites out /\
    (forall a : Q, PlayerClass.ammo p = Finite a ->
       exists a' : Q, PlayerClass.ammo q = Finite a' /\
         (a' == a + 10 * inject_Z (Z.of_nat (ammo_taken sprites out)))%Q) /\
    (forall h : Q, PlayerClass.health p = Finite h -> (h <= 100)%Q ->
       exists h' : Q, PlayerClass.health q = Finite h' /\ (h <= h')%Q /\ (h' <= 100)%Q) /\
    (forall h : Q, PlayerClass.health p = Finite h -> (100 <= h)%Q ->
       PlayerClass.health q = PlayerClass.health p /\
       forall i s, sprites !! i = Some s -> type_is s "health" = true ->
         out !! i = Some s).
Proof.
  induction sprites as [|s rest IH].
  - exists p, []. split; [reflexivity|]. split; [apply same_but_stock_refl|].
    split; [constructor|]. split; [|split].
    + intros a Ha. exists a. split; [assumption|]. unfold ammo_taken. simpl. ring.
    + intros h Hh Hle. exists h. split; [assumption|]. split; lra.
    + intros h Hh Hle. split; [reflexivity|]. intros i s' Hi. discriminate Hi.
  - destruct IH as (q & out & Hfold & Hframe & Hall & Hammo & Hlow & Hfull).
    cbn [foldr]. rewrite Hfold.
    destruct (pickUp_spec s q out)
      as (q' & s' & Hpick & Hframe' & Hkept & Hgain & Hsame & Hhealth & Hpack).
    exists q', (s' :: out). split; [exact Hpick|].
    split; [eapply same_but_stock_trans; eassumption|].
    assert (Hx : PlayerClass.x q = PlayerClass.x p) by apply Hframe.
    assert (Hy : PlayerClass.y q = PlayerClass.y p) by apply Hframe.
    split; [constructor; [now rewrite <- Hx, <- Hy | assumption]|].
    split; [|split].
    + intros a Ha. destruct (Hammo a Ha) as (a1 & Ha1 & Hcount).
      rewrite ammo_taken_cons.
      destruct (type_is s "ammo" && Sprite.visible s && negb (Sprite.visible s')) eqn:E.
      * rewrite (Hgain eq_refl), Ha1. unfold ofZ. rewrite add_finite.
        eexists. split; [reflexivity|]. rewrite Qred_correct, Hcount.
        rewrite Nat2Z.inj_add, inject_Z_plus. change (inject_Z (Z.of_nat 1)) with 1%Q.
        change (inject_Z 10) with 10%Q. ring.
      * rewrite (Hsame eq_refl), Ha1. exists a1. split; [reflexivity|].
        rewrite Hcount. rewrite Nat2Z.inj_add, inject_Z_plus.
        change (inject_Z (Z.of_nat 0)) with 0%Q. ring.
    + intros h Hh Hle. destruct (Hlow h Hh Hle) as (h1 & Hh1 & Hge & Hle1).
      destruct Hhealth as [-> | [Hlt ->]]; [eauto|].
      rewrite Hh1 in Hlt |- *. apply lt_finite_true in Hlt.
      change (inject_Z 100) with 100%Q in Hlt.
      destruct (min_full h1 Hlt) as (h' & -> & Hge' & Hle').
      exists h'. split; [reflexivity|]. split; lra.
    + intros h Hh Hle. destruct (Hfull h Hh Hle) as [Hkeep Hpacks].
      assert (Hnot : (PlayerClass.health q <? ofZ 100)%num = false).
      { rewrite Hkeep, Hh. unfold ofZ, Num.lt.
        assert (E : Qle_bool (inject_Z 100) h = true)
          by (apply Qle_bool_iff; unfold inject_Z; lra).
        now rewrite E. }
      split.
      * destruct Hhealth as [-> | [Hlt _]]; [assumption | congruence].
      * intros [|i] s0 Hi Hty; simpl in Hi |- *.
        -- injection Hi as <-. f_equal. now apply Hpack.
        -- now apply Hpacks.
Qed.

(** [update], stage by stage. *)
Lemma update_spec (fuel : nat) (sprites : list Sprite.t) (p : PlayerClass.t) :
  level_ok (PlayerClass.gameLevel p) ->
  tileWidth (PlayerClass.gameLevel p) = tileSize ->
  tileHeight (PlayerClass.gameLevel p) = tileSize ->
  fan_ok p -> (500 < fuel)%nat ->
  let newX :=
    (PlayerClass.x p + PlayerClass.movementInput p
       * Math_cos (PlayerClass.rotationAngle p) * PlayerClass.movementSpeed p)%num in
  let newY :=
    (PlayerClass.y p + PlayerClass.movementInput p
       * Math_sin (PlayerClass.rotationAngle p) * PlayerClass.movementSpeed p)%num in
  exists (b : bool) (q : PlayerClass.t) (out : list Sprite.t) (rays' : gmap Z Ray.t),
    (b = false <-> free_place (PlayerClass.gameLevel p) newX newY) /\
    foldr PlayerClass.pickUp
      (PlayerClass.set_rotationAngle
         (if negb b then PlayerClass.set_position p newX newY else p)
         (normalizeAngle
            (PlayerClass.rotationAngle p
             + PlayerClass.rotationInput p * PlayerClass.rotationSpeed p)%num), [])
      sprites = (q, out) /\
    PlayerClass.update fuel sprites p = Ret (PlayerClass.set_rays q rays', out) /\
    (forall i, 0 <= i < 500 ->
       exists ray, PlayerClass.rays p !! i = Some ray /\
         rays' !! i =
         Some (Ray_setAngle (Ray_set_origin ray (PlayerClass.x q) (PlayerClass.y q))
                 (PlayerClass.rotationAngle q))) /\
    (forall i, ~ 0 <= i < 500 -> rays' !! i = PlayerClass.rays p !! i).
Proof.
  intros Hok Htw Hth [Hcount Hfan] Hfuel newX newY.
  destruct (checkCollision_spec p newX newY Hok Htw Hth) as (b & Hb & Hfree).
  exists b.
  set (moved := if negb b then PlayerClass.set_position p newX newY else p).
  set (turned := PlayerClass.set_rotationAngle moved
                   (normalizeAngle
                      (PlayerClass.rotationAngle p
                       + PlayerClass.rotationInput p * PlayerClass.rotationSpeed p)%num)).
  destruct (pickUp_fold turned sprites) as (q & out & Hfold & Hframe & _).
  assert (Hrays : PlayerClass.rays q = PlayerClass.rays p).
  { destruct Hframe as (_ & _ & _ & _ & _ & _ & _ & _ & _ & -> & _).
    unfold turned, moved. now destruct b. }
  assert (Hnum : PlayerClass.numberOfRays q = ofZ 500).
  { destruct Hframe as (_ & _ & _ & _ & _ & _ & _ & _ & -> & _).
    unfold turned, moved. destruct b; exact Hcount. }
  destruct (for_loop_invariant
              (fun i (rays : gmap Z Ray.t) =>
                 match rays !! i with
                 | None => Throw
                 | Some ray =>
                     Ret (<[i := Ray_setAngle
                                   (Ray_set_origin ray (PlayerClass.x q) (PlayerClass.y q))
                                   (PlayerClass.rotationAngle q)]> rays)
                 end)
              (fun i rays =>
                 (forall j, 0 <= j < i ->
                    exists ray, PlayerClass.rays p !! j = Some ray /\
                      rays !! j =
                      Some (Ray_setAngle
                              (Ray_set_origin ray (PlayerClass.x q) (PlayerClass.y q))
                              (PlayerClass.rotationAngle q))) /\
                 (forall j, ~ 0 <= j < i -> rays !! j = PlayerClass.rays p !! j))
              500 fuel 0 (PlayerClass.rays p))
    as (rays' & Hrun & Hin & Hout).
  - lia.
  - simpl. lia.
  - split; [intros j Hj; lia | reflexivity].
  - intros i rays Hi [Hin Hout].
    destruct (Hfan i Hi) as (ray & Hray & _).
    rewrite Hout, Hray by lia. eexists. split; [reflexivity|]. split.
    + intros j Hj. destruct (Z.eq_dec j i) as [-> | Hne].
      * exists ray. split; [assumption | apply lookup_insert_eq].
      * rewrite lookup_insert_ne by congruence. apply Hin. lia.
    + intros j Hj. rewrite lookup_insert_ne by lia. apply Hout. lia.
  - exists q, out, rays'. split; [exact Hfree|]. split; [exact Hfold|].
    split; [|split; assumption].
    unfold PlayerClass.update. fold newX newY. rewrite Hb. cbn [obind].
    change (PlayerClass.rotationAngle
              (PlayerClass.set_rotationAngle
                 (if negb b then PlayerClass.set_position p newX newY else p)
                 (PlayerClass.rotationAngle
                    (if negb b then PlayerClass.set_position p newX newY else p)
                  + PlayerClass.rotationInput
                      (if negb b then PlayerClass.set_position p newX newY else p)
                    * PlayerClass.rotationSpeed
                        (if negb b then PlayerClass.set_position p newX newY else p))%num))
      with (PlayerClass.rotationAngle
              (if negb b then PlayerClass.set_position p newX newY else p)
            + PlayerClass.rotationInput
                (if negb b then PlayerClass.set_position p newX newY else p)
              * PlayerClass.rotationSpeed
                  (if negb b then PlayerClass.set_position p newX newY else p))%num.
    assert (E : PlayerClass.set_rotationAngle
                  (PlayerClass.set_rotationAngle
                     (if negb b then PlayerClass.set_position p newX newY else p)
                     (PlayerClass.rotationAngle
                        (if negb b then PlayerClass.set_position p newX newY else p)
                      + PlayerClass.rotationInput
                          (if negb b then PlayerClass.set_position p newX newY else p)
                        * PlayerClass.rotationSpeed
                            (if negb b then PlayerClass.set_position p newX newY else p))%num)
                  (normalizeAngle
                     (PlayerClass.rotationAngle
                        (if negb b then PlayerClass.set_position p newX newY else p)
                      + PlayerClass.rotationInput
                          (if negb b then PlayerClass.set_position p newX newY else p)
                        * PlayerClass.rotationSpeed
                            (if negb b then PlayerClass.set_position p newX newY else p))%num)
                = turned) by (unfold turned, moved; now destruct b).
    rewrite E, Hfold, Hnum, Hrays, Hrun. reflexivity.
Qed.

End PlayerStages.

(** X10. [update] returns, and it moves the player to the place one step
    along the view exactly when that place is free, a point of a tile of
    the map that holds [0]; otherwise the player stays where it is.  So a
    player on a free place is on a free place after every update, and a
    step to a place that is not a number is not taken. *)
Theorem Player_update_stays_free `{MathLib} `{MathSin} (fuel : nat)
    (sprites : list Sprite.t) (p : PlayerClass.t) :
  level_ok (PlayerClass.gameLevel p) ->
  tileWidth (PlayerClass.gameLevel p) = tileSize ->
  tileHeight (PlayerClass.gameLevel p) = tileSize ->
  fan_ok p -> (500 < fuel)%nat ->
  let newX :=
    (PlayerClass.x p + PlayerClass.movementInput p
       * Math_cos (PlayerClass.rotationAngle p) * PlayerClass.movementSpeed p)%num in
  let newY :=
    (PlayerClass.y p + PlayerClass.movementInput p
       * Math_sin (PlayerClass.rotationAngle p) * PlayerClass.movementSpeed p)%num in
  exists p' sprites',
    PlayerClass.update fuel sprites p = Ret (p', sprites') /\
    PlayerClass.gameLevel p' = PlayerClass.gameLevel p /\
    (free_place (PlayerClass.gameLevel p) newX newY ->
     PlayerClass.x p' = newX /\ PlayerClass.y p' = newY) /\
    (~ free_place (PlayerClass.gameLevel p) newX newY ->
     PlayerClass.x p' = PlayerClass.x p /\ PlayerClass.y p' = PlayerClass.y p) /\
    (free_place (PlayerClass.gameLevel p) (PlayerClass.x p) (PlayerClass.y p) ->
     free_place (PlayerClass.gameLevel p') (PlayerClass.x p') (PlayerClass.y p')).
Proof.
  intros Hok Htw Hth Hfan Hfuel newX newY.
  destruct (update_spec fuel sprites p Hok Htw Hth Hfan Hfuel)
    as (b & q & out & rays' & Hfree & Hfold & Hrun & _).
  fold newX newY in Hfree, Hfold.
  destruct (pickUp_fold
              (PlayerClass.set_rotationAngle
                 (if negb b then PlayerClass.set_position p newX newY else p)
                 (normalizeAngle
                    (PlayerClass.rotationAngle p
                     + PlayerClass.rotationInput p * PlayerClass.rotationSpeed p)%num))
              sprites)
    as (q0 & out0 & Hfold0 & (Hlvl & Hx & Hy & _) & _).
  assert (q0 = q) as -> by congruence.
  exists (PlayerClass.set_rays q rays'), out. split; [exact Hrun|].
  cbn [PlayerClass.set_rays PlayerClass.gameLevel PlayerClass.x PlayerClass.y].
  rewrite Hlvl, Hx, Hy. destruct b; cbn.
  - assert (Hnot : ~ free_place (PlayerClass.gameLevel p) newX newY)
      by (intros Hf; apply Hfree in Hf; discriminate).
    split; [reflexivity|]. split; [intros Hf; contradiction|].
    split; [intros _; split; reflexivity | intros Hf; exact Hf].
  - assert (Hf : free_place (PlayerClass.gameLevel p) newX newY) by now apply Hfree.
    split; [reflexivity|]. split; [intros _; split; reflexivity|].
    split; [intros Hn; contradiction | intros _; exact Hf].
Qed.

(** X11. [update] turns the player by its rotation input times its
    rotation speed and normalises the angle, which is then from zero to
    the full turn [2 * Math.PI], both included, when it is finite; and it
    leaves a fan of 500 rays in which every ray starts at the new place of
    the player, keeps its column and its angle to the view, and points
    along the normalised sum of the new angle of the player and that
    angle. *)
Theorem Player_update_rays `{MathLib} `{MathSin} (fuel : nat)
    (sprites : list Sprite.t) (p : PlayerClass.t) :
  level_ok (PlayerClass.gameLevel p) ->
  tileWidth (PlayerClass.gameLevel p) = tileSize ->
  tileHeight (PlayerClass.gameLevel p) = tileSize ->
  fan_ok p -> (500 < fuel)%nat ->
  exists p' sprites',
    PlayerClass.update fuel sprites p = Ret (p', sprites') /\
    fan_ok p' /\
    PlayerClass.rotationAngle p' =
      normalizeAngle (PlayerClass.rotationAngle p
                      + PlayerClass.rotationInput p * PlayerClass.rotationSpeed p)%num /\
    (forall a : Q,
       (PlayerClass.rotationAngle p
        + PlayerClass.rotationInput p * PlayerClass.rotationSpeed p)%num = Finite a ->
       exists r : Q, PlayerClass.rotationAngle p' = Finite r /\
         (0 <= r)%Q /\ (r <= TWO_PI)%Q) /\
    (forall i, 0 <= i < 500 ->
       exists ray ray',
         PlayerClass.rays p !! i = Some ray /\ PlayerClass.rays p' !! i = Some ray' /\
         Ray.x ray' = PlayerClass.x p' /\ Ray.y ray' = PlayerClass.y p' /\
         Ray.playerAngle ray' = PlayerClass.rotationAngle p' /\
         Ray.relativeAngleOffset ray' = Ray.relativeAngleOffset ray /\
         Ray.screenColumn ray' = i /\
         Ray.absoluteAngle ray' =
           normalizeAngle (PlayerClass.rotationAngle p' + Ray.relativeAngleOffset ray)%num).
Proof.
  intros Hok Htw Hth Hfan Hfuel.
  destruct (update_spec fuel sprites p Hok Htw Hth Hfan Hfuel)
    as (b & q & out & rays' & _ & Hfold & Hrun & Hin & Hout).
  match type of Hfold with
  | foldr _ (?start, _) _ = _ =>
      destruct (pickUp_fold start sprites)
        as (q0 & out0 & Hfold0 & (Hlvl & _ & _ & _ & _ & Hrot & _ & _ & Hnum & _) & _)
  end.
  assert (q0 = q) as -> by congruence.
  cbn [PlayerClass.set_rotationAngle PlayerClass.rotationAngle
       PlayerClass.numberOfRays PlayerClass.gameLevel] in Hrot, Hnum, Hlvl.
  destruct Hfan as [Hcount Hfan].
  exists (PlayerClass.set_rays q rays'), out. split; [exact Hrun|].
  cbn [PlayerClass.set_rays PlayerClass.rotationAngle PlayerClass.rays
       PlayerClass.x PlayerClass.y].
  split; [|split; [exact Hrot|split]].
  - split.
    + cbn. rewrite Hnum. now destruct b.
    + intros i Hi. destruct (Hin i Hi) as (ray & Hray & Hray').
      destruct (Hfan i Hi) as (ray0 & Hray0 & Hcol & Hl).
      assert (ray0 = ray) as -> by congruence.
      eexists. split; [exact Hray'|]. cbn. split; [exact Hcol|].
      rewrite Hl, Hlvl. now destruct b.
  - intros a Ha. rewrite Hrot, Ha.
    destruct (normalizeAngle_finite a) as (r & k & -> & Hr0 & Hrt & _).
    exists (Qred r). split; [reflexivity|]. rewrite !Qred_correct. auto.
  - intros i Hi. destruct (Hin i Hi) as (ray & Hray & Hray').
    destruct (Hfan i Hi) as (ray0 & Hray0 & Hcol & _).
    assert (ray0 = ray) as -> by congruence.
    eexists _, _. split; [exact Hray|]. split; [exact Hray'|]. cbn. auto 10.
Qed.

(** X12. The loop of [update] over the sprites hides nothing but visible
    packs of ammunition or of health within the pickup radius of the
    player, and changes nothing else of a sprite: it never shows a hidden
    sprite and never moves one.  The ammunition grows by exactly 10 for
    every pack of ammunition taken; a health that is at most 100 never
    decreases and stays at most 100; and at a health of 100 or more no
    pack of health is taken. *)
Theorem Player_update_pickups `{MathLib} `{MathSin} (fuel : nat)
    (sprites : list Sprite.t) (p : PlayerClass.t) :
  level_ok (PlayerClass.gameLevel p) ->
  tileWidth (PlayerClass.gameLevel p) = tileSize ->
  tileHeight (PlayerClass.gameLevel p) = tileSize ->
  fan_ok p -> (500 < fuel)%nat ->
  exists p' sprites',
    PlayerClass.update fuel sprites p = Ret (p', sprites') /\
    Forall2 (kept_or_taken (PlayerClass.x p') (PlayerClass.y p')) sprites sprites' /\
    (forall a : Q, PlayerClass.ammo p = Finite a ->
       exists a' : Q, PlayerClass.ammo p' = Finite a' /\
         (a' == a + 10 * inject_Z (Z.of_nat (ammo_taken sprites sprites')))%Q) /\
    (forall h : Q, PlayerClass.health p = Finite h -> (h <= 100)%Q ->
       exists h' : Q, PlayerClass.health p' = Finite h' /\ (h <= h')%Q /\ (h' <= 100)%Q) /\
    (forall h : Q, PlayerClass.health p = Finite h -> (100 <= h)%Q ->
       PlayerClass.health p' = PlayerClass.health p /\
       forall i s, sprites !! i = Some s -> type_is s "health" = true ->
         sprites' !! i = Some s) /\
    PlayerClass.score p' = PlayerClass.score p.
Proof.
  intros Hok Htw Hth Hfan Hfuel.
  destruct (update_spec fuel sprites p Hok Htw Hth Hfan Hfuel)
    as (b & q & out & rays' & _ & Hfold & Hrun & _).
  match type of Hfold with
  | foldr _ (?start, _) _ = _ =>
      destruct (pickUp_fold start sprites)
        as (q0 & out0 & Hfold0 & Hframe & Hall & Hammo & Hlow & Hfull)
  end.
  assert (q0 = q) as -> by congruence.
  assert (out0 = out) as -> by congruence.
  destruct Hframe as (_ & Hx & Hy & _ & _ & _ & _ & _ & _ & _ & Hscore & _).
  exists (PlayerClass.set_rays q rays'), out. split; [exact Hrun|].
  cbn [PlayerClass.set_rays PlayerClass.x PlayerClass.y PlayerClass.ammo
       PlayerClass.health PlayerClass.score].
  rewrite Hx, Hy, Hscore.
  split; [exact Hall|].
  split; [intros a Ha; apply Hammo; now destruct b|].
  split; [intros h Hh; apply Hlow; now destruct b|].
  split; [|now destruct b].
  intros h Hh Hle. destruct (Hfull h) as [Hkeep Hpacks]; [now destruct b | assumption|].
  split; [rewrite Hkeep; now destruct b | exact Hpacks].
Qed.

Lemma roomPlayer_spec :
  fan_ok roomPlayer /\ PlayerClass.gameLevel roomPlayer = roomLevel /\
  PlayerClass.x roomPlayer = ofZ 75 /\ PlayerClass.y roomPlayer = ofZ 75 /\
  PlayerClass.rotationAngle roomPlayer = zero /\
  PlayerClass.health roomPlayer = ofZ 100 /\ PlayerClass.ammo roomPlayer = ofZ 10.
Proof.
  destruct (@new_spec RationalMath.lib 501 roomLevel (ofZ 75) (ofZ 75) ltac:(lia))
    as (rays & Hnew & Hin & _).
  unfold roomPlayer. rewrite Hnew.
  cbn [PlayerClass.gameLevel PlayerClass.x PlayerClass.y PlayerClass.rotationAngle
       PlayerClass.health PlayerClass.ammo].
  split; [|auto 10].
  split; [reflexivity|]. intros i Hi. cbn [PlayerClass.rays PlayerClass.gameLevel].
  eexists. split; [exact (Hin i Hi)|]. split; reflexivity.
Qed.

Lemma roomPlayer_level_ok : level_ok (PlayerClass.gameLevel roomPlayer).
Proof.
  destruct roomPlayer_spec as (_ & -> & _). reflexivity.
Qed.

Lemma roomPlayer_tileWidth : tileWidth (PlayerClass.gameLevel roomPlayer) = tileSize.
Proof.
  destruct roomPlayer_spec as (_ & -> & _). reflexivity.
Qed.

Lemma roomPlayer_tileHeight : tileHeight (PlayerClass.gameLevel roomPlayer) = tileSize.
Proof.
  destruct roomPlayer_spec as (_ & -> & _). reflexivity.
Qed.

Lemma roomPlayer_fan : fan_ok roomPlayer.
Proof. apply roomPlayer_spec. Qed.

Lemma roomPlayer_free :
  free_place (PlayerClass.gameLevel roomPlayer) (PlayerClass.x roomPlayer)
    (PlayerClass.y roomPlayer).
Proof.
  destruct roomPlayer_spec as (_ & -> & -> & -> & _).
  exists 75%Q, 75%Q. vm_compute. repeat split; discriminate.
Qed.

Lemma edgePlayer_spec :
  fan_ok edgePlayer /\ PlayerClass.gameLevel edgePlayer = roomLevel /\
  PlayerClass.view edgePlayer =
    {| Player.x := ofZ 75; Player.y := Finite (5001 # 100);
       Player.rotationAngle := zero |} /\
  forall i, 0 <= i < 500 ->
    PlayerClass.rays edgePlayer !! i =
    Some (@Ray.new DoubleMath.lib roomLevel (ofZ 75) (Finite (5001 # 100)) zero
            (- FOV_RADIANS_HALF + ofZ i * (FOV_RADIANS / canvasWidth))%num i).
Proof.
  destruct (@new_spec DoubleMath.lib 501 roomLevel (ofZ 75) (Finite (5001 # 100))
              ltac:(lia)) as (rays & Hnew & Hin & _).
  unfold edgePlayer. rewrite Hnew.
  cbn [PlayerClass.gameLevel PlayerClass.rays]. split; [|auto].
  split; [reflexivity|]. intros i Hi. cbn [PlayerClass.rays PlayerClass.gameLevel].
  eexists. split; [exact (Hin i Hi)|]. split; reflexivity.
Qed.

Lemma turnedPlayer_spec :
  fan_ok turnedPlayer /\ PlayerClass.gameLevel turnedPlayer = roomLevel.
Proof.
  destruct edgePlayer_spec as (Hfan & Hlvl & _). split; [exact Hfan | exact Hlvl].
Qed.

Lemma Player_update_stays_free_witness :
  exists p' sprites',
    @PlayerClass.update RationalMath.lib rationalSin 501 roomPacks roomPlayer =
      Ret (p', sprites') /\
    free_place (PlayerClass.gameLevel p') (PlayerClass.x p') (PlayerClass.y p').
Proof.
  destruct (@Player_update_stays_free RationalMath.lib rationalSin 501 roomPacks
              roomPlayer roomPlayer_level_ok roomPlayer_tileWidth
              roomPlayer_tileHeight roomPlayer_fan ltac:(lia))
    as (p' & sprites' & Hrun & _ & _ & _ & Hfree).
  exists p', sprites'. split; [exact Hrun | exact (Hfree roomPlayer_free)].
Defined.

(** The player of the room; and the player whose turn to the left ends on
    the full turn itself. *)
Lemma Player_update_rays_witness :
  (exists p' sprites',
     @PlayerClass.update RationalMath.lib rationalSin 501 roomPacks roomPlayer =
       Ret (p', sprites') /\
     fan_ok p' /\
     exists ray', PlayerClass.rays p' !! 499 = Some ray' /\
       Ray.x ray' = PlayerClass.x p' /\ Ray.y ray' = PlayerClass.y p' /\
       Ray.screenColumn ray' = 499) /\
  (exists p' sprites',
     @PlayerClass.update DoubleMath.lib doubleSin 501 roomPacks turnedPlayer =
       Ret (p', sprites') /\
     fan_ok p' /\
     PlayerClass.rotationAngle p' = Finite TWO_PI /\
     normalizeAngle (PlayerClass.rotationAngle p') = zero).
Proof.
  split.
  - destruct (@Player_update_rays RationalMath.lib rationalSin 501 roomPacks
                roomPlayer roomPlayer_level_ok roomPlayer_tileWidth
                roomPlayer_tileHeight roomPlayer_fan ltac:(lia))
      as (p' & sprites' & Hrun & Hfan & _ & _ & Hrays).
    exists p', sprites'. split; [exact Hrun|]. split; [exact Hfan|].
    destruct (Hrays 499 ltac:(lia))
      as (ray & ray' & _ & Hray' & Hx & Hy & _ & _ & Hcol & _).
    exists ray'. auto.
  - destruct turnedPlayer_spec as [Hfan Hlvl].
    destruct (@Player_update_rays DoubleMath.lib doubleSin 501 roomPacks turnedPlayer)
      as (p' & sprites' & Hrun & Hfan' & Hrot & _);
      [rewrite Hlvl; reflexivity | rewrite Hlvl; reflexivity
      | rewrite Hlvl; reflexivity | exact Hfan | lia |].
    exists p', sprites'. split; [exact Hrun|]. split; [exact Hfan'|].
    assert (E : PlayerClass.rotationAngle p' = Finite TWO_PI)
      by (rewrite Hrot; vm_compute; reflexivity).
    split; [exact E|]. rewrite E. vm_compute. reflexivity.
Defined.

Lemma Player_update_pickups_witness :
  exists p' sprites',
    @PlayerClass.update RationalMath.lib rationalSin 501 roomPacks roomPlayer =
      Ret (p', sprites') /\
    Forall2 (@kept_or_taken RationalMath.lib (PlayerClass.x p') (PlayerClass.y p'))
      roomPacks sprites' /\
    (exists a' : Q, PlayerClass.ammo p' = Finite a' /\
       (a' == 10 + 10 * inject_Z (Z.of_nat (ammo_taken roomPacks sprites')))%Q) /\
    PlayerClass.health p' = PlayerClass.health roomPlayer /\
    sprites' !! 1%nat = Some (pack "health" 75 75).
Proof.
  destruct (@Player_update_pickups RationalMath.lib rationalSin 501 roomPacks
              roomPlayer roomPlayer_level_ok roomPlayer_tileWidth
              roomPlayer_tileHeight roomPlayer_fan ltac:(lia))
    as (p' & sprites' & Hrun & Hall & Hammo & _ & Hfull & _).
  destruct roomPlayer_spec as (_ & _ & _ & _ & _ & Hhealth & Hammo0).
  exists p', sprites'. split; [exact Hrun|]. split; [exact Hall|].
  split; [exact (Hammo 10%Q Hammo0)|].
  destruct (Hfull 100%Q Hhealth ltac:(lra)) as [Hkeep Hpacks].
  split; [exact Hkeep|]. apply Hpacks; reflexivity.
Defined.

Section PlayerDrawFacts.
Context `{MathLib} `{MathSin}.

(** The loop of [draw] over the rays. *)
Lemma draw_rays (fuel : nat) (renderMode : num) (cfg : LightConfig)
    (p : PlayerClass.t) (zBuffer : gmap Z num) :
  level_ok (PlayerClass.gameLevel p) -> fan_ok p ->
  (500 < fuel)%nat -> (marchBound (PlayerClass.gameLevel p) <= fuel)%nat ->
  exists rays' zBuffer' ops,
    for_loop fuel 0 (PlayerClass.numberOfRays p)
      (fun i (st : gmap Z Ray.t * gmap Z num * list paintOp) =>
         let '(rays, zBuffer, ops) := st in
         match rays !! i with
         | None => Throw
         | Some ray =>
             let* (ray, zBuffer, calls) := Ray.draw fuel renderMode cfg ray zBuffer in
             Ret (<[i := ray]> rays, zBuffer, ops ++ (op <$> calls))
         end)
      (PlayerClass.rays p, zBuffer, []) = Ret (rays', zBuffer', ops) /\
    (forall i, 0 <= i < 500 ->
       exists ray, rays' !! i = Some ray /\ Ray.screenColumn ray = i /\
         Ray.gameLevel ray = PlayerClass.gameLevel p /\
         zBuffer' !! i = Some (Ray.directDistance ray)) /\
    (forall i, ~ 0 <= i < 500 -> zBuffer' !! i = zBuffer !! i).
Proof.
  intros Hok [Hcount Hfan] Hfuel Hmarch. rewrite Hcount. unfold canvasWidth.
  destruct (for_loop_invariant
              (fun i (st : gmap Z Ray.t * gmap Z num * list paintOp) =>
                 let '(rays, zBuffer, ops) := st in
                 match rays !! i with
                 | None => Throw
                 | Some ray =>
                     let* (ray, zBuffer, calls) :=
                       Ray.draw fuel renderMode cfg ray zBuffer in
                     Ret (<[i := ray]> rays, zBuffer, ops ++ (op <$> calls))
                 end)
              (fun i st =>
                 (forall j, 0 <= j < 500 ->
                    exists ray, st.1.1 !! j = Some ray /\ Ray.screenColumn ray = j /\
                      Ray.gameLevel ray = PlayerClass.gameLevel p) /\
                 (forall j, 0 <= j < i ->
                    exists ray, st.1.1 !! j = Some ray /\
                      st.1.2 !! j = Some (Ray.directDistance ray)) /\
                 (forall j, ~ 0 <= j < i -> st.1.2 !! j = zBuffer !! j))
              500 fuel 0 (PlayerClass.rays p, zBuffer, []))
    as ([[rays' zBuffer'] ops] & Hrun & Hall & Hdone & Hout).
  - lia.
  - simpl. lia.
  - split; [exact Hfan|]. split; [intros j Hj; lia | reflexivity].
  - intros i [[rays zb] ops] Hi (Hall & Hdone & Hout). cbn [fst snd] in *.
    destruct (Hall i Hi) as (ray & Hray & Hcol & Hlvl). rewrite Hray.
    destruct (Ray_draw_spec fuel renderMode cfg ray zb)
      as (ray' & calls & Hdraw & Hcol' & Hlvl'); [now rewrite Hlvl | now rewrite Hlvl|].
    rewrite Hdraw. cbn [obind]. eexists. split; [reflexivity|]. cbn [fst snd].
    rewrite Hcol. split; [|split].
    + intros j Hj. destruct (Z.eq_dec j i) as [-> | Hne].
      * exists ray'. rewrite lookup_insert_eq. split; [reflexivity|].
        split; congruence.
      * rewrite lookup_insert_ne by congruence. now apply Hall.
    + intros j Hj. destruct (Z.eq_dec j i) as [-> | Hne].
      * exists ray'. now rewrite !lookup_insert_eq.
      * rewrite !lookup_insert_ne by congruence. apply Hdone. lia.
    + intros j Hj. rewrite lookup_insert_ne by lia. apply Hout. lia.
  - exists rays', zBuffer', ops. split; [exact Hrun|]. cbn [fst snd] in *.
    split; [|exact Hout].
    intros i Hi. destruct (Hall i Hi) as (ray & Hray & Hcol & Hlvl).
    destruct (Hdone i Hi) as (ray0 & Hray0 & Hz).
    assert (ray0 = ray) as -> by congruence. eauto 10.
Qed.

End PlayerDrawFacts.

(** X13. [Player.draw] returns, in either view: it leaves a fan of 500
    rays, and the depth buffer holds at every column from [0] to [499] the
    direct distance recorded by the ray of that column, so that no column
    of the screen is left without a depth; the entries of the buffer at
    other indices are not touched, and the player is changed in its rays
    only. *)
Theorem Player_draw_fills_depth_buffer `{MathLib} `{MathSin} (fuel : nat)
    (renderMode : num) (cfg : LightConfig) (p : PlayerClass.t)
    (zBuffer : gmap Z num) :
  level_ok (PlayerClass.gameLevel p) -> fan_ok p ->
  (500 < fuel)%nat -> (marchBound (PlayerClass.gameLevel p) <= fuel)%nat ->
  exists rays' zBuffer' ops,
    PlayerClass.draw fuel renderMode cfg p zBuffer =
      Ret (PlayerClass.set_rays p rays', zBuffer', ops) /\
    fan_ok (PlayerClass.set_rays p rays') /\
    (forall i, 0 <= i < 500 ->
       exists ray, rays' !! i = Some ray /\
         zBuffer' !! i = Some (Ray.directDistance ray)) /\
    (forall i, ~ 0 <= i < 500 -> zBuffer' !! i = zBuffer !! i).
Proof.
  intros Hok Hfan Hfuel Hmarch.
  destruct (draw_rays fuel renderMode cfg p zBuffer Hok Hfan Hfuel Hmarch)
    as (rays' & zBuffer' & ops & Hrun & Hall & Hout).
  unfold PlayerClass.draw. rewrite Hrun. cbn [obind].
  assert (Hfan' : fan_ok (PlayerClass.set_rays p rays')).
  { split; [apply Hfan|]. intros i Hi.
    destruct (Hall i Hi) as (ray & Hray & Hcol & Hlvl & _). eauto. }
  assert (Hdepth : forall i, 0 <= i < 500 ->
            exists ray, rays' !! i = Some ray /\
              zBuffer' !! i = Some (Ray.directDistance ray)).
  { intros i Hi. destruct (Hall i Hi) as (ray & Hray & _ & _ & Hz). eauto. }
  destruct (renderMode === one)%num; eexists _, _, _; (split; [reflexivity|]); auto.
Qed.

Lemma Player_draw_fills_depth_buffer_witness :
  exists rays' zBuffer' ops,
    @PlayerClass.draw RationalMath.lib rationalSin 501 zero linearLight roomPlayer ∅ =
      Ret (PlayerClass.set_rays roomPlayer rays', zBuffer', ops) /\
    fan_ok (PlayerClass.set_rays roomPlayer rays') /\
    (forall i, 0 <= i < 500 ->
       exists ray, rays' !! i = Some ray /\
         zBuffer' !! i = Some (Ray.directDistance ray)) /\
    (forall i, ~ 0 <= i < 500 -> zBuffer' !! i = (∅ : gmap Z num) !! i).
Proof.
  apply (@Player_draw_fills_depth_buffer RationalMath.lib rationalSin 501 zero
           linearLight roomPlayer ∅ roomPlayer_level_ok roomPlayer_fan).
  - lia.
  - destruct roomPlayer_spec as (_ & -> & _). vm_compute. lia.
Defined.

(** * The projectile of an enemy ([js/enemyProjectile.js]) *)

Section EnemyProjectileFacts.
Context `{MathLib} `{MathSin}.
Variable lvl : Level.
Hypothesis Hok : level_ok lvl.

Lemma checkWallCollision_spec (p : EnemyProjectile.t) :
  exists p1,
    EnemyProjectile.checkWallCollision (Some lvl) p = Ret p1 /\
    (p1 = p \/ p1 = EnemyProjectile.deactivate p) /\
    (EnemyProjectile.isActive p1 = true ->
     p1 = p /\ free_place lvl (EnemyProjectile.x p) (EnemyProjectile.y p)).
Proof.
  unfold EnemyProjectile.checkWallCollision.
  destruct (EnemyProjectile.isActive p) eqn:Hact; cbn [negb].
  - destruct (place_test lvl Hok (EnemyProjectile.x p) (EnemyProjectile.y p))
      as (b & -> & Hfree).
    cbn [obind]. destruct b.
    + eexists. split; [reflexivity|]. split; [now right|]. discriminate.
    + eexists. split; [reflexivity|]. split; [now left|].
      intros _. split; [reflexivity | now apply Hfree].
  - exists p. split; [reflexivity|]. split; [now left|]. congruence.
Qed.

Lemma free_place_bounds (x y : num) :
  free_place lvl x y ->
  exists qx qy : Q,
    x = Finite qx /\ y = Finite qy /\
    (0 <= qx)%Q /\ (qx < inject_Z (mapWidth lvl * 50))%Q /\
    (0 <= qy)%Q /\ (qy < inject_Z (mapHeight lvl * 50))%Q.
Proof.
  intros (qx & qy & -> & -> & Hx & Hy & _). exists qx, qy.
  pose proof (Qfloor_tile_lt qx) as Hltx. pose proof (Qfloor_tile_lt qy) as Hlty.
  assert (Hwx : (inject_Z ((Qfloor (qx / 50) + 1) * 50) <= inject_Z (mapWidth lvl * 50))%Q)
    by (rewrite <- Zle_Qle; lia).
  assert (Hwy : (inject_Z ((Qfloor (qy / 50) + 1) * 50) <= inject_Z (mapHeight lvl * 50))%Q)
    by (rewrite <- Zle_Qle; lia).
  repeat split; try (apply Qfloor_tile_nonneg; lia); lra.
Qed.

Lemma within_bounds (q : Q) (size : Z) :
  (0 <= q)%Q -> (q < inject_Z (size * 50))%Q ->
  (Finite q <? - tileSize)%num = false /\
  (Finite q >? ofZ size * tileSize + tileSize)%num = false.
Proof.
  intros Hq0 Hsize. unfold tileSize. rewrite mul_ofZ, add_ofZ, neg_ofZ.
  unfold Num.gt, Num.lt, ofZ. split; apply negb_false_iff, Qle_bool_iff.
  - change (inject_Z (- (50))) with (- (50))%Q. lra.
  - rewrite inject_Z_plus. change (inject_Z 50) with 50%Q. lra.
Qed.

(** A projectile on a free place is within the bounds of [checkOutOfBounds]. *)
Lemma checkOutOfBounds_free (p : EnemyProjectile.t) :
  free_place lvl (EnemyProjectile.x p) (EnemyProjectile.y p) ->
  EnemyProjectile.checkOutOfBounds (Some lvl) p = p.
Proof.
  intros Hfree. unfold EnemyProjectile.checkOutOfBounds.
  destruct (negb (EnemyProjectile.isActive p)); [reflexivity|].
  destruct (free_place_bounds _ _ Hfree) as (qx & qy & -> & -> & Hx0 & Hx1 & Hy0 & Hy1).
  destruct (within_bounds qx (mapWidth lvl) Hx0 Hx1) as [-> ->].
  destruct (within_bounds qy (mapHeight lvl) Hy0 Hy1) as [-> ->].
  reflexivity.
Qed.

Lemma checkPlayerCollision_spec (player : option PlayerClass.t) (p : EnemyProjectile.t) :
  let result := EnemyProjectile.checkPlayerCollision player p in
  (result = (p, player) \/
   exists pl,
     player = Some pl /\ EnemyProjectile.isActive p = true /\
     falsy (PlayerClass.health pl) = false /\
     (distanceBetweenPoints (EnemyProjectile.x p) (EnemyProjectile.y p)
        (PlayerClass.x pl) (PlayerClass.y pl)
      <? EnemyProjectile.radius p + tileSize / ofZ 3)%num = true /\
     result = (EnemyProjectile.deactivate p, Some (PlayerClass.takeDamage pl (ofZ 2)))).
Proof.
  unfold EnemyProjectile.checkPlayerCollision.
  destruct (EnemyProjectile.isActive p) eqn:Hact; cbn [negb]; [|now left].
  destruct player as [pl|]; [|now left].
  destruct (falsy (PlayerClass.health pl)) eqn:Hfalsy; [now left|].
  destruct (_ <? _)%num eqn:Hnear; [|now left].
  right. exists pl. auto 10.
Qed.

Lemma checkOutOfBounds_inactive (gameLevel : option Level) (p : EnemyProjectile.t) :
  EnemyProjectile.isActive p = false ->
  EnemyProjectile.checkOutOfBounds gameLevel p = p.
Proof. intros Hin. unfold EnemyProjectile.checkOutOfBounds. now rewrite Hin. Qed.

(** [update], check by check. *)
Lemma EnemyProjectile_update_spec (player : option PlayerClass.t)
    (p : EnemyProjectile.t) :
  EnemyProjectile.isActive p = true ->
  let moved :=
    EnemyProjectile.move p (Math_cos (EnemyProjectile.angle p) * EnemyProjectile.speed p)%num
      (Math_sin (EnemyProjectile.angle p) * EnemyProjectile.speed p)%num in
  exists p1,
    EnemyProjectile.checkWallCollision (Some lvl) moved = Ret p1 /\
    (p1 = moved \/ p1 = EnemyProjectile.deactivate moved) /\
    (EnemyProjectile.isActive p1 = true ->
     p1 = moved /\
     free_place lvl (EnemyProjectile.x moved) (EnemyProjectile.y moved)) /\
    EnemyProjectile.checkOutOfBounds (Some lvl)
      (EnemyProjectile.checkPlayerCollision player p1).1 =
      (EnemyProjectile.checkPlayerCollision player p1).1 /\
    EnemyProjectile.update (Some lvl) player p =
      Ret (EnemyProjectile.checkPlayerCollision player p1).
Proof.
  intros Hact moved.
  destruct (checkWallCollision_spec moved) as (p1 & Hwall & Hcases & Hfree).
  exists p1. split; [exact Hwall|]. split; [exact Hcases|]. split; [exact Hfree|].
  assert (Hbounds :
            EnemyProjectile.checkOutOfBounds (Some lvl)
              (EnemyProjectile.checkPlayerCollision player p1).1 =
            (EnemyProjectile.checkPlayerCollision player p1).1).
  { destruct (checkPlayerCollision_spec player p1)
      as [-> | (pl & _ & _ & _ & _ & ->)]; cbn [fst].
    - destruct (EnemyProjectile.isActive p1) eqn:Hact1.
      + destruct (Hfree eq_refl) as [-> Hplace]. now apply checkOutOfBounds_free.
      + now apply checkOutOfBounds_inactive.
    - now apply checkOutOfBounds_inactive. }
  split; [exact Hbounds|].
  unfold EnemyProjectile.update. rewrite Hact. cbn [negb]. fold moved.
  rewrite Hwall. cbn [obind].
  destruct (EnemyProjectile.checkPlayerCollision player p1) as [p2 player'] eqn:E.
  cbn [fst] in Hbounds. now rewrite Hbounds.
Qed.

End EnemyProjectileFacts.

(** X14. On a level that keeps the number of its rows, [update] of a
    projectile of an enemy returns.  A projectile that is not active is
    left as it is, and so is the player.  A projectile that is active
    afterwards has moved one step along its angle, stands on a free place,
    a point of a tile of the map that holds [0], and has left the player
    as it was; one that stopped in this update has its sprite hidden. *)
Theorem EnemyProjectile_update_active_free `{MathLib} `{MathSin} (lvl : Level)
    (player : option PlayerClass.t) (p : EnemyProjectile.t) :
  level_ok lvl ->
  exists p' player',
    EnemyProjectile.update (Some lvl) player p = Ret (p', player') /\
    (EnemyProjectile.isActive p = false -> p' = p /\ player' = player) /\
    (EnemyProjectile.isActive p' = true ->
     EnemyProjectile.isActive p = true /\
     EnemyProjectile.x p' =
       (EnemyProjectile.x p
        + Math_cos (EnemyProjectile.angle p) * EnemyProjectile.speed p)%num /\
     EnemyProjectile.y p' =
       (EnemyProjectile.y p
        + Math_sin (EnemyProjectile.angle p) * EnemyProjectile.speed p)%num /\
     free_place lvl (EnemyProjectile.x p') (EnemyProjectile.y p') /\
     player' = player) /\
    (EnemyProjectile.isActive p = true -> EnemyProjectile.isActive p' = false ->
     forall s', EnemyProjectile.sprite p' = Some s' -> Sprite.visible s' = false).
Proof.
  intros Hok. destruct (EnemyProjectile.isActive p) eqn:Hact.
  - destruct (EnemyProjectile_update_spec lvl Hok player p Hact)
      as (p1 & _ & Hcases & Hfree & _ & Hrun).
    rewrite Hrun.
    destruct (checkPlayerCollision_spec player p1)
      as [E | (pl & _ & Hact1 & _ & _ & E)]; rewrite E;
      eexists _, _; (split; [reflexivity|]); (split; [discriminate|]).
    + split.
      * intros Hact'. destruct (Hfree Hact') as [-> Hplace]. auto 10.
      * intros _ Hstop s' Hs'.
        destruct Hcases as [-> | ->]; [cbn in Hstop; congruence|].
        cbn in Hs'. destruct (EnemyProjectile.sprite p); [|discriminate].
        now injection Hs' as <-.
    + split; [discriminate|].
      intros _ _ s' Hs'. cbn [EnemyProjectile.deactivate EnemyProjectile.sprite] in Hs'.
      destruct (EnemyProjectile.sprite p1); [|discriminate]. now injection Hs' as <-.
  - exists p, player. unfold EnemyProjectile.update. rewrite Hact.
    split; [reflexivity|]. split; [auto|]. split; [congruence | discriminate].
Qed.

Lemma EnemyProjectile_update_active_free_witness :
  exists p' player',
    @EnemyProjectile.update RationalMath.lib rationalSin (Some roomLevel) None roomShot =
      Ret (p', player') /\
    EnemyProjectile.isActive p' = true /\
    free_place roomLevel (EnemyProjectile.x p') (EnemyProjectile.y p').
Proof.
  destruct (@EnemyProjectile_update_active_free RationalMath.lib rationalSin roomLevel
              None roomShot eq_refl) as (p' & player' & Hrun & _ & Hactive & _).
  exists p', player'. split; [exact Hrun|].
  assert (E : @EnemyProjectile.update RationalMath.lib rationalSin (Some roomLevel)
                None roomShot = Ret (p', player')) by exact Hrun.
  vm_compute in E. injection E as <- _.
  split; [reflexivity|].
  exists (169 # 2), 75%Q. vm_compute. repeat split; discriminate.
Defined.

(** X15. The check of the bounds that ends [update] never stops a
    projectile of an enemy: after the check of the walls, which stops every
    projectile that is not on a tile of the map, and the check of the
    player, it leaves the projectile as it is. *)
Theorem EnemyProjectile_bounds_check_idle `{MathLib} `{MathSin} (lvl : Level)
    (player : option PlayerClass.t) (p : EnemyProjectile.t) :
  level_ok lvl ->
  exists p1,
    EnemyProjectile.checkWallCollision (Some lvl) p = Ret p1 /\
    EnemyProjectile.checkOutOfBounds (Some lvl)
      (EnemyProjectile.checkPlayerCollision player p1).1 =
      (EnemyProjectile.checkPlayerCollision player p1).1.
Proof.
  intros Hok.
  destruct (checkWallCollision_spec lvl Hok p) as (p1 & Hwall & _ & Hfree).
  exists p1. split; [exact Hwall|].
  destruct (checkPlayerCollision_spec player p1)
    as [-> | (pl & _ & _ & _ & _ & ->)]; cbn [fst].
  - destruct (EnemyProjectile.isActive p1) eqn:Hact1.
    + destruct (Hfree eq_refl) as [-> Hplace]. now apply checkOutOfBounds_free.
    + now apply checkOutOfBounds_inactive.
  - now apply checkOutOfBounds_inactive.
Qed.

Lemma EnemyProjectile_bounds_check_idle_witness :
  exists p1,
    EnemyProjectile.checkWallCollision (Some roomLevel) roomShot = Ret p1 /\
    EnemyProjectile.checkOutOfBounds (Some roomLevel)
      (@EnemyProjectile.checkPlayerCollision RationalMath.lib (Some roomPlayer) p1).1 =
      (@EnemyProjectile.checkPlayerCollision RationalMath.lib (Some roomPlayer) p1).1.
Proof.
  exact (@EnemyProjectile_bounds_check_idle RationalMath.lib rationalSin roomLevel
           (Some roomPlayer) roomShot eq_refl).
Defined.

Section DamageFacts.

Lemma le_finite_true (a b : Q) : (Finite a <=? Finite b)%num = true -> (a <= b)%Q.
Proof. unfold Num.le. apply Qle_bool_iff. Qed.

Lemma le_finite_false (a b : Q) : (Finite a <=? Finite b)%num = false -> (b < a)%Q.
Proof. unfold Num.le. apply Qle_bool_false. Qed.

(** [takeDamage] on a finite health: nothing at a health of zero or less;
    otherwise the damage is taken off, and a result of zero or less is set
    to zero. *)
Lemma takeDamage_spec (pl : PlayerClass.t) (h d : Q) :
  PlayerClass.health pl = Finite h -> (0 <= d)%Q ->
  ((h <= 0)%Q -> PlayerClass.takeDamage pl (Finite d) = pl) /\
  ((0 < h)%Q ->
   exists h' : Q,
     PlayerClass.takeDamage pl (Finite d) = PlayerClass.set_health pl (Finite h') /\
     (0 <= h')%Q /\ (h' <= h)%Q /\ (h - d <= h')%Q /\
     ((d < h)%Q -> (h' == h - d)%Q) /\ ((h <= d)%Q -> (h' == 0)%Q)).
Proof.
  intros Hh Hd. unfold PlayerClass.takeDamage. rewrite Hh. unfold zero, ofZ.
  change (inject_Z 0) with 0%Q.
  destruct (Finite h <=? Finite 0)%num eqn:E1.
  - apply le_finite_true in E1. split; [reflexivity | intros Hpos; lra].
  - apply le_finite_false in E1. split; [intros Hle; lra|]. intros _.
    cbn [PlayerClass.set_health PlayerClass.health]. rewrite sub_finite.
    unfold fin at 1.
    destruct (Finite (Qred (h - d)) <=? Finite 0)%num eqn:E2.
    + apply le_finite_true in E2. rewrite Qred_correct in E2.
      exists 0%Q. split; [reflexivity|]. repeat split; lra.
    + apply le_finite_false in E2. rewrite Qred_correct in E2.
      exists (Qred (h - d)). split; [reflexivity|]. rewrite !Qred_correct.
      repeat split; lra.
Qed.

End DamageFacts.

(** X16. [update] of a projectile of an enemy changes the player only
    when the projectile was active, has moved onto a free place and is
    then nearer to the player than its radius plus a third of a tile, and
    the health of the player is neither zero nor [NaN]: the projectile
    stops and the player takes a damage of 2.  A health above 2 loses
    exactly 2, a health from above 0 to 2 becomes 0, and a health of 0 or
    less is not changed, so a health that is not negative stays so. *)
Theorem EnemyProjectile_update_damage `{MathLib} `{MathSin} (lvl : Level)
    (player : option PlayerClass.t) (p : EnemyProjectile.t) :
  level_ok lvl ->
  exists p' player',
    EnemyProjectile.update (Some lvl) player p = Ret (p', player') /\
    (player' = player \/
     exists pl,
       player = Some pl /\ player' = Some (PlayerClass.takeDamage pl (ofZ 2)) /\
       EnemyProjectile.isActive p = true /\ EnemyProjectile.isActive p' = false /\
       free_place lvl (EnemyProjectile.x p') (EnemyProjectile.y p') /\
       falsy (PlayerClass.health pl) = false /\
       (distanceBetweenPoints (EnemyProjectile.x p') (EnemyProjectile.y p')
          (PlayerClass.x pl) (PlayerClass.y pl)
        <? EnemyProjectile.radius p + tileSize / ofZ 3)%num = true) /\
    (forall pl (h : Q), PlayerClass.health pl = Finite h ->
       ((h <= 0)%Q -> PlayerClass.takeDamage pl (ofZ 2) = pl) /\
       ((0 < h)%Q ->
        exists h' : Q,
          PlayerClass.takeDamage pl (ofZ 2) = PlayerClass.set_health pl (Finite h') /\
          (0 <= h')%Q /\ ((2 < h)%Q -> (h' == h - 2)%Q) /\ ((h <= 2)%Q -> (h' == 0)%Q))).
Proof.
  intros Hok.
  assert (Hdamage : forall pl (h : Q), PlayerClass.health pl = Finite h ->
            ((h <= 0)%Q -> PlayerClass.takeDamage pl (ofZ 2) = pl) /\
            ((0 < h)%Q ->
             exists h' : Q,
               PlayerClass.takeDamage pl (ofZ 2) = PlayerClass.set_health pl (Finite h') /\
               (0 <= h')%Q /\ ((2 < h)%Q -> (h' == h - 2)%Q) /\
               ((h <= 2)%Q -> (h' == 0)%Q))).
  { intros pl h Hh.
    destruct (takeDamage_spec pl h 2 Hh ltac:(lra)) as [Hzero Hpos].
    split; [exact Hzero|]. intros Hlt.
    destruct (Hpos Hlt) as (h' & E & H0' & _ & _ & Hbig & Hsmall). eauto 10. }
  destruct (EnemyProjectile.isActive p) eqn:Hact.
  - destruct (EnemyProjectile_update_spec lvl Hok player p Hact)
      as (p1 & _ & Hcases & Hfree & _ & Hrun).
    rewrite Hrun.
    destruct (checkPlayerCollision_spec player p1)
      as [E | (pl & Hpl & Hact1 & Hfalsy & Hnear & E)]; rewrite E;
      eexists _, _; (split; [reflexivity|]); (split; [|exact Hdamage]).
    + now left.
    + right. exists pl. destruct (Hfree Hact1) as [-> Hplace].
      cbn in Hnear |- *. auto 10.
  - exists p, player. unfold EnemyProjectile.update. rewrite Hact.
    split; [reflexivity|]. split; [now left | exact Hdamage].
Qed.

Lemma EnemyProjectile_update_damage_witness :
  exists p' pl',
    @EnemyProjectile.update RationalMath.lib rationalSin (Some roomLevel)
      (Some roomPlayer) roomShot = Ret (p', Some pl') /\
    EnemyProjectile.isActive p' = false /\
    pl' = PlayerClass.takeDamage roomPlayer (ofZ 2) /\
    exists h' : Q, pl' = PlayerClass.set_health roomPlayer (Finite h') /\ (h' == 98)%Q.
Proof.
  destruct (@EnemyProjectile_update_damage RationalMath.lib rationalSin roomLevel
              (Some roomPlayer) roomShot eq_refl)
    as (p' & player' & Hrun & Hcases & Hdamage).
  destruct roomPlayer_spec as (_ & _ & Hx & Hy & _ & Hhealth & _).
  assert (Hhit :
            @EnemyProjectile.update RationalMath.lib rationalSin (Some roomLevel)
              (Some roomPlayer) roomShot =
            Ret (EnemyProjectile.deactivate
                   (EnemyProjectile.move roomShot (Finite (9 # 2)) zero),
                 Some (PlayerClass.takeDamage roomPlayer (ofZ 2)))).
  { unfold EnemyProjectile.update, EnemyProjectile.checkPlayerCollision.
    cbn [EnemyProjectile.isActive roomShot EnemyProjectile.new negb].
    change (@Math_cos RationalMath.lib (EnemyProjectile.angle roomShot)
            * EnemyProjectile.speed roomShot)%num with (Finite (9 # 2)).
    change (@Math_sin rationalSin (EnemyProjectile.angle roomShot)
            * EnemyProjectile.speed roomShot)%num with zero.
    change (EnemyProjectile.checkWallCollision (Some roomLevel)
              (EnemyProjectile.move roomShot (Finite (9 # 2)) zero))
      with (Ret (A := EnemyProjectile.t)
              (EnemyProjectile.move roomShot (Finite (9 # 2)) zero)).
    cbn [obind EnemyProjectile.isActive EnemyProjectile.move negb
         EnemyProjectile.x EnemyProjectile.y EnemyProjectile.radius].
    rewrite Hhealth, Hx, Hy. reflexivity. }
  rewrite Hhit in Hrun. injection Hrun as <- <-.
  eexists _, _. split; [exact Hhit|]. split; [reflexivity|]. split; [reflexivity|].
  destruct (Hdamage roomPlayer 100%Q Hhealth) as [_ Hpos].
  destruct (Hpos ltac:(lra)) as (h' & E & _ & Hbig & _).
  exists h'. split; [exact E|]. rewrite (Hbig ltac:(lra)). reflexivity.
Defined.

(** * The rising effect ([js/risingSpriteEffect.js]) *)

Section RisingFacts.

Lemma updates_inactive (times : list num) (e : RisingSpriteEffect.t) :
  RisingSpriteEffect.isActive e = false -> updates times e = e.
Proof.
  intros Hin. unfold updates. induction times as [|t times IH]; [reflexivity|].
  cbn [foldl]. unfold RisingSpriteEffect.update at 2. rewrite Hin. exact IH.
Qed.

Lemma update_in_time (now : num) (e : RisingSpriteEffect.t) :
  RisingSpriteEffect.isActive e = true -> in_time e now ->
  RisingSpriteEffect.update now e = RisingSpriteEffect.rise e.
Proof.
  intros Hact Htime. unfold RisingSpriteEffect.update. rewrite Hact. cbn [negb].
  unfold in_time in Htime.
  cbn [RisingSpriteEffect.rise RisingSpriteEffect.startTime RisingSpriteEffect.duration].
  now rewrite Htime.
Qed.

Lemma update_late (now : num) (e : RisingSpriteEffect.t) :
  RisingSpriteEffect.isActive e = true -> ~ in_time e now ->
  RisingSpriteEffect.update now e =
  RisingSpriteEffect.deactivate (RisingSpriteEffect.rise e).
Proof.
  intros Hact Htime. unfold RisingSpriteEffect.update. rewrite Hact. cbn [negb].
  unfold in_time in Htime.
  cbn [RisingSpriteEffect.rise RisingSpriteEffect.startTime RisingSpriteEffect.duration].
  destruct (_ >? _)%num; [reflexivity | contradiction].
Qed.

(** The updates made in time: the effect stays active and has risen once
    for each. *)
Lemma updates_in_time (times : list num) (e : RisingSpriteEffect.t) (y0 v : Q) :
  RisingSpriteEffect.isActive e = true ->
  RisingSpriteEffect.y e = Finite y0 -> RisingSpriteEffect.riseSpeed e = Finite v ->
  Forall (in_time e) times ->
  exists y1 : Q,
    RisingSpriteEffect.isActive (updates times e) = true /\
    RisingSpriteEffect.y (updates times e) = Finite y1 /\
    (y1 == y0 - inject_Z (Z.of_nat (length times)) * v)%Q /\
    RisingSpriteEffect.x (updates times e) = RisingSpriteEffect.x e /\
    RisingSpriteEffect.riseSpeed (updates times e) = Finite v /\
    (forall now, in_time (updates times e) now <-> in_time e now).
Proof.
  revert e y0. induction times as [|t times IH]; intros e y0 Hact Hy Hv Htimes.
  - exists y0. cbn. repeat split; auto. ring.
  - inversion Htimes as [|t' times' Ht Hrest]; subst.
    unfold updates. cbn [foldl]. rewrite (update_in_time t e Hact Ht).
    fold (updates times (RisingSpriteEffect.rise e)).
    destruct (IH (RisingSpriteEffect.rise e) (Qred (y0 - v)))
      as (y1 & Hact1 & Hy1 & Heq & Hx1 & Hv1 & Htime1).
    + exact Hact.
    + cbn. rewrite Hy, Hv. apply sub_finite.
    + exact Hv.
    + exact Hrest.
    + exists y1. split; [exact Hact1|]. split; [exact Hy1|].
      split; [|split; [exact Hx1|split; [exact Hv1 | exact Htime1]]].
      rewrite Heq, Qred_correct. cbn [length].
      rewrite Nat2Z.inj_succ, <- Z.add_1_r, inject_Z_plus.
      change (inject_Z 1) with 1%Q. ring.
Qed.

End RisingFacts.

(** X17. An active effect rises by its speed at every update made within
    its duration and stays active.  The first update made after the
    duration makes it rise once more and then stops it and hides its
    sprite, which stands where the effect is; the updates after that
    change nothing.  It never moves sideways. *)
Theorem RisingSpriteEffect_updates (e : RisingSpriteEffect.t) (y0 v : Q)
    (before : list num) (late : num) (after : list num) :
  RisingSpriteEffect.isActive e = true ->
  RisingSpriteEffect.y e = Finite y0 -> RisingSpriteEffect.riseSpeed e = Finite v ->
  Forall (in_time e) before -> ~ in_time e late ->
  (exists y1 : Q,
     RisingSpriteEffect.isActive (updates before e) = true /\
     RisingSpriteEffect.y (updates before e) = Finite y1 /\
     (y1 == y0 - inject_Z (Z.of_nat (length before)) * v)%Q /\
     RisingSpriteEffect.x (updates before e) = RisingSpriteEffect.x e) /\
  (exists y2 : Q,
     RisingSpriteEffect.isActive (updates (before ++ late :: after) e) = false /\
     RisingSpriteEffect.y (updates (before ++ late :: after) e) = Finite y2 /\
     (y2 == y0 - inject_Z (Z.of_nat (length before) + 1) * v)%Q /\
     RisingSpriteEffect.x (updates (before ++ late :: after) e) = RisingSpriteEffect.x e /\
     forall s, RisingSpriteEffect.sprite (updates (before ++ late :: after) e) = Some s ->
       Sprite.visible s = false /\
       Sprite.x s = RisingSpriteEffect.x (updates (before ++ late :: after) e) /\
       Sprite.y s = RisingSpriteEffect.y (updates (before ++ late :: after) e)).
Proof.
  intros Hact Hy Hv Hbefore Hlate.
  destruct (updates_in_time before e y0 v Hact Hy Hv Hbefore)
    as (y1 & Hact1 & Hy1 & Heq & Hx1 & Hv1 & Htime1).
  split; [eauto 10|].
  unfold updates at 1 2 3 4 5 6. rewrite !foldl_app. cbn [foldl].
  fold (updates before e).
  rewrite (update_late late (updates before e) Hact1)
    by (intros Hin; apply Hlate; now apply Htime1).
  fold (updates after
          (RisingSpriteEffect.deactivate (RisingSpriteEffect.rise (updates before e)))).
  rewrite updates_inactive by reflexivity.
  exists (Qred (y1 - v)). cbn. rewrite Hy1, Hv1.
  split; [reflexivity|]. split; [apply sub_finite|].
  split; [rewrite Qred_correct, Heq, inject_Z_plus; change (inject_Z 1) with 1%Q; ring|].
  split; [exact Hx1|].
  intros s Hs. destruct (RisingSpriteEffect.sprite (updates before e)); [|discriminate].
  injection Hs as <-. cbn. auto.
Qed.

Lemma RisingSpriteEffect_updates_witness :
  exists y2 : Q,
    RisingSpriteEffect.isActive
      (updates ([ofZ 1000; ofZ 2000] ++ ofZ 5000 :: [ofZ 6000])
         (RisingSpriteEffect.new zero (ofZ 75) (ofZ 75) (Some smallImage) true
            (Some (Finite (3 # 10))) (Some (ofZ 4000)))) = false /\
    RisingSpriteEffect.y
      (updates ([ofZ 1000; ofZ 2000] ++ ofZ 5000 :: [ofZ 6000])
         (RisingSpriteEffect.new zero (ofZ 75) (ofZ 75) (Some smallImage) true
            (Some (Finite (3 # 10))) (Some (ofZ 4000)))) = Finite y2 /\
    (y2 == 75 - inject_Z (Z.of_nat 2 + 1) * (3 # 10))%Q.
Proof.
  destruct (RisingSpriteEffect_updates
              (RisingSpriteEffect.new zero (ofZ 75) (ofZ 75) (Some smallImage) true
                 (Some (Finite (3 # 10))) (Some (ofZ 4000)))
              75 (3 # 10) [ofZ 1000; ofZ 2000] (ofZ 5000) [ofZ 6000]
              eq_refl eq_refl eq_refl)
    as [_ (y2 & Hact & Hy & Heq & _)].
  - repeat constructor.
  - discriminate.
  - exists y2. auto.
Defined.

(** * The enemy ([js/enemyAI.js]) *)

Section EnemyFacts.
Context `{MathLib}.
Variable lvl : Level.
Hypothesis Hok : level_ok lvl.

(** [hasCollision] at the tile of a point answers false exactly at the
    free places. *)
Lemma hasCollision_place (x y : num) :
  exists b : bool,
    hasCollision lvl (floor (x / tileSize)) (floor (y / tileSize)) = Ret b /\
    (b = false <-> free_place lvl x y).
Proof.
  destruct (hasCollision_integral lvl Hok (floor (x / tileSize)) (floor (y / tileSize))
              (integral_floor _) (integral_floor _)) as (b & Hb & Hcells).
  destruct (place_test lvl Hok x y) as (b' & Hb' & Hfree).
  exists b. split; [exact Hb|].
  destruct (_ || _) eqn:Hout in Hb'.
  - injection Hb' as <-. split; [|intros Hf; apply Hfree in Hf; discriminate].
    intros ->. destruct (Hcells eq_refl) as (a & c & Ea & Ec & Ha & Hc).
    rewrite Ea, Ec in Hout. unfold zero in Hout. rewrite !lt_ofZ, !ge_ofZ in Hout.
    destruct (Z.ltb_spec a 0), (Z.leb_spec (mapWidth lvl) a), (Z.ltb_spec c 0),
      (Z.leb_spec (mapHeight lvl) c); try lia; discriminate.
  - rewrite Hb in Hb'. injection Hb' as <-. exact Hfree.
Qed.

Lemma allClear_spec (points : list (num * num)) :
  exists b : bool,
    Enemy.allClear lvl points = Ret b /\
    (b = true <-> Forall (fun point => free_place lvl point.1 point.2) points).
Proof.
  induction points as [|point points (b & Hb & Hall)].
  - exists true. split; [reflexivity|]. split; [constructor | reflexivity].
  - cbn [Enemy.allClear].
    destruct (place_test lvl Hok point.1 point.2) as (blocked & -> & Hfree).
    cbn [obind]. destruct blocked.
    + exists false. split; [reflexivity|]. split; [discriminate|].
      intros Hf. inversion Hf as [|? ? Hpoint _]; subst.
      apply Hfree in Hpoint. discriminate.
    + exists b. split; [exact Hb|]. split.
      * intros ->. constructor; [now apply Hfree | now apply Hall].
      * intros Hf. inversion Hf; subst. now apply Hall.
Qed.

End EnemyFacts.

(** X18. On a level that keeps the number of its rows, [move] of an enemy
    returns.  A dead enemy does not move.  A live one moves by the given
    step exactly when the place it would reach and the four points a
    quarter of a tile to its right, left, below and above are all free
    places, points of tiles of the map that hold [0]; otherwise it is left
    as it is and [move] answers false. *)
Theorem Enemy_move_clear `{MathLib} (lvl : Level) (e : Enemy.t) (dx dy : num) :
  level_ok lvl ->
  exists e' (moved : bool),
    Enemy.move (Some lvl) e dx dy = Ret (e', moved) /\
    (moved = true <->
     Enemy.isAlive e = true /\
     Forall (fun point => free_place lvl point.1 point.2)
       (Enemy.pointsToCheck (Enemy.x e + dx)%num (Enemy.y e + dy)%num)) /\
    (moved = true ->
     Enemy.x e' = (Enemy.x e + dx)%num /\ Enemy.y e' = (Enemy.y e + dy)%num /\
     Enemy.isAlive e' = true) /\
    (moved = false -> e' = e).
Proof.
  intros Hok. unfold Enemy.move.
  destruct (Enemy.isAlive e) eqn:Halive; cbn [negb].
  - unfold Enemy.canMoveTo.
    destruct (allClear_spec lvl Hok
                (Enemy.pointsToCheck (Enemy.x e + dx)%num (Enemy.y e + dy)%num))
      as (b & -> & Hclear).
    cbn [obind]. destruct b.
    + destruct (_ >=? _)%num; eexists _, true; (split; [reflexivity|]);
        (split; [split; [intros _; split; [reflexivity | now apply Hclear] | reflexivity]|]);
        (split; [intros _; cbn; auto | discriminate]).
    + exists e, false. split; [reflexivity|].
      split; [split; [discriminate | intros [_ Hf]; now apply Hclear]|].
      split; [discriminate | reflexivity].
  - exists e, false. split; [reflexivity|].
    split; [split; [discriminate | intros [Hf _]; discriminate]|].
    split; [discriminate | reflexivity].
Qed.

Lemma Enemy_move_clear_witness :
  exists e' (moved : bool),
    @Enemy.move RationalMath.lib (Some roomLevel) roomEnemy (ofZ (-3)) (ofZ 4) =
      Ret (e', moved) /\
    moved = true /\ Enemy.x e' = ofZ 272 /\ Enemy.y e' = ofZ 79.
Proof.
  destruct (@Enemy_move_clear RationalMath.lib roomLevel roomEnemy (ofZ (-3)) (ofZ 4)
              eq_refl) as (e' & moved & Hrun & _ & Hmoved & _).
  exists e', moved. split; [exact Hrun|].
  assert (E : @Enemy.move RationalMath.lib (Some roomLevel) roomEnemy (ofZ (-3)) (ofZ 4)
              = Ret (e', moved)) by exact Hrun.
  vm_compute in E. injection E as <- <-.
  split; [reflexivity|]. split; reflexivity.
Defined.

Section SightFacts.
Context `{MathLib}.
Variable lvl : Level.
Hypothesis Hok : level_ok lvl.

Lemma lineOfSightSteps_value (q : Q) :
  Num.max one (floor (Finite q / (tileSize / ofZ 4)))%num =
  ofZ (Z.max 1 (Qfloor (q / (25 # 2)))).
Proof.
  change (tileSize / ofZ 4)%num with (Finite (25 # 2)).
  rewrite div_fin by discriminate. rewrite floor_fin.
  unfold Num.max, one. cbn [ofZ]. fold (ofZ 1) (ofZ (Qfloor (q / (25 # 2)))).
  rewrite lt_ofZ. destruct (Z.ltb_spec 1 (Qfloor (q / (25 # 2)))); f_equal; lia.
Qed.

(** The loop over the points of the line of sight: it returns, and it
    answers true exactly when every point it checks is a free place. *)
Lemma sight_loop (e : Enemy.t) (deltaXStep deltaYStep : num) (n : Z) (fuel : nat) (i : Z) :
  (Z.to_nat (n - i) < fuel)%nat ->
  exists b : bool,
    while fuel (Enemy.sightBody lvl e deltaXStep deltaYStep (ofZ n)) i = Ret b /\
    (b = true <->
     forall j, i <= j < n ->
       free_place lvl (Enemy.x e + deltaXStep * ofZ j)%num
         (Enemy.y e + deltaYStep * ofZ j)%num).
Proof.
  revert i. induction fuel as [|fuel IH]; intros i Hfuel; [lia|].
  rewrite while_S. unfold Enemy.sightBody at 1. rewrite lt_ofZ.
  destruct (Z.ltb_spec i n) as [Hlt | Hge].
  - destruct (hasCollision_place lvl Hok (Enemy.x e + deltaXStep * ofZ i)%num
                (Enemy.y e + deltaYStep * ofZ i)%num) as (blocked & -> & Hfree).
    cbn [obind]. destruct blocked; cbn [obind].
    + exists false. split; [reflexivity|]. split; [discriminate|].
      intros Hall. assert (true = false); [|discriminate].
      apply Hfree, Hall. lia.
    + destruct (IH (i + 1) ltac:(lia)) as (b & Hb & Hrest).
      exists b. split; [exact Hb|]. split.
      * intros Hbt j Hj. destruct (Z.eq_dec j i) as [-> | Hne].
        -- now apply Hfree.
        -- apply Hrest; [assumption | lia].
      * intros Hall. apply Hrest. intros j Hj. apply Hall. lia.
  - exists true. split; [reflexivity|]. split; [intros _ j Hj; lia | reflexivity].
Qed.

End SightFacts.

(** X19. For an enemy and a player at a finite distance, on a level that
    keeps the number of its rows, [canSeePlayer] returns within as many
    turns as the distance holds quarters of a tile.  Beyond the view
    distance it answers false.  Within it, it answers true exactly when
    every point it checks on the line to the player, one for each whole
    quarter of a tile of the distance but the last, is a free place; so
    nearer than half a tile it checks no point and answers true whatever
    stands between. *)
Theorem Enemy_canSeePlayer_samples `{MathLib} (fuel : nat) (lvl : Level)
    (pl : PlayerClass.t) (e : Enemy.t) (q : Q) :
  level_ok lvl ->
  distanceBetweenPoints (Enemy.x e) (Enemy.y e) (PlayerClass.x pl) (PlayerClass.y pl)
    = Finite q ->
  (Z.to_nat (Z.max 1 (Qfloor (q / (25 # 2)))) <= fuel)%nat ->
  let steps := Z.max 1 (Qfloor (q / (25 # 2))) in
  exists b : bool,
    Enemy.canSeePlayer fuel (Some pl) (Some lvl) e = Ret b /\
    ((Finite q >? Enemy.viewDistance e)%num = true -> b = false) /\
    ((Finite q >? Enemy.viewDistance e)%num = false ->
     (b = true <->
      forall i, 1 <= i < steps ->
        free_place lvl
          (Enemy.x e + (PlayerClass.x pl - Enemy.x e) / ofZ steps * ofZ i)%num
          (Enemy.y e + (PlayerClass.y pl - Enemy.y e) / ofZ steps * ofZ i)%num) /\
     ((q < 25)%Q -> b = true)).
Proof.
  intros Hok Hd Hfuel steps. unfold Enemy.canSeePlayer. rewrite Hd.
  destruct (Finite q >? Enemy.viewDistance e)%num eqn:Hfar.
  - exists false. split; [reflexivity|]. split; [reflexivity | discriminate].
  - rewrite lineOfSightSteps_value. fold steps.
    destruct (sight_loop lvl Hok e
                ((PlayerClass.x pl - Enemy.x e) / ofZ steps)%num
                ((PlayerClass.y pl - Enemy.y e) / ofZ steps)%num steps fuel 1)
      as (b & Hb & Hsamples); [lia|].
    exists b. split; [exact Hb|]. split; [discriminate|].
    intros _. split; [exact Hsamples|].
    intros Hnear. apply Hsamples. intros i Hi. exfalso.
    assert (Hsmall : Qfloor (q / (25 # 2)) < 2).
    { rewrite Zlt_Qlt. eapply Qle_lt_trans; [apply Qfloor_le|].
      apply Qlt_shift_div_r; [reflexivity|]. change (inject_Z 2) with 2%Q. lra. }
    unfold steps in Hi. lia.
Qed.

Lemma Enemy_canSeePlayer_samples_witness :
  exists b : bool,
    @Enemy.canSeePlayer RationalMath.lib 16 (Some roomPlayer) (Some roomLevel) roomEnemy
      = Ret b /\ b = false.
Proof.
  destruct (@Enemy_canSeePlayer_samples RationalMath.lib 16 roomLevel roomPlayer
              roomEnemy 200 eq_refl)
    as (b & Hrun & Hfar & _).
  - destruct roomPlayer_spec as (_ & _ & -> & -> & _). reflexivity.
  - vm_compute. lia.
  - exists b. split; [exact Hrun|]. apply Hfar. reflexivity.
Defined.

(** * The crossings of a march lie on the grid ([js/ray.js]) *)

Section GridLineFacts.
Context `{MathLib}.
Variable this : Ray.t.

Lemma first_line (q : Q) (forward : bool) :
  exists k : Z,
    (let line := (floor (Finite q / tileSize) * tileSize)%num in
     if forward then (line + tileSize)%num else line) = ofZ (50 * k).
Proof.
  rewrite floor_div_tile. unfold tileSize. rewrite mul_ofZ.
  destruct forward.
  - exists (Qfloor (q / 50) + 1). cbn zeta. rewrite add_ofZ. f_equal. lia.
  - exists (Qfloor (q / 50)). cbn zeta. f_equal. lia.
Qed.

Lemma next_line (forward : bool) (k : Z) :
  exists k' : Z, (ofZ (50 * k) + axisStep forward)%num = ofZ (50 * k').
Proof.
  rewrite axisStep_value, add_ofZ. destruct forward.
  - exists (k + 1). f_equal. lia.
  - exists (k - 1). f_equal. lia.
Qed.

Lemma horizontalMarch_line (fuel : nat) (h : num * num) (qy : Q) :
  Ray.y this = Finite qy ->
  Ray.horizontalMarch this fuel = Ret h -> on_grid_line h.2.
Proof.
  intros Hy Hrun. unfold Ray.horizontalMarch in Hrun.
  assert (Hinv : forall s s' : num * num,
            (exists k : Z, s.2 = ofZ (50 * k)) ->
            Ray.horizontalBody this s = Ret (inl s') ->
            exists k : Z, s'.2 = ofZ (50 * k)).
  { intros [x1 y1] [x2 y2] [k Hk] Hstep. cbn [snd] in *. subst y1.
    unfold Ray.horizontalBody in Hstep.
    destruct (Ray.outside this _ _); [discriminate|].
    destruct (hasCollision _ _ _) as [[|]| |]; simpl in Hstep; try discriminate.
    injection Hstep as _ <-. rewrite hStepY_axisStep. apply next_line. }
  assert (Hinit : exists k : Z,
            (Ray.hIntersectionX this, Ray.hIntersectionY this).2 = ofZ (50 * k)).
  { cbn [snd]. unfold Ray.hIntersectionY. rewrite Hy.
    exact (first_line qy (Ray.isFacingDown this)). }
  destruct (while_exit _ _ fuel _ h Hinv Hinit Hrun)
    as ([nextX nextY] & [k Hk] & Hlast).
  cbn [snd] in Hk. subst nextY. unfold Ray.horizontalBody in Hlast.
  destruct (Ray.outside this _ _); [injection Hlast as <-; now left|].
  destruct (hasCollision _ _ _) as [[|]| |]; simpl in Hlast; try discriminate.
  injection Hlast as <-. right. now exists k.
Qed.

Lemma verticalMarch_line (fuel : nat) (v : num * num) (qx : Q) :
  Ray.x this = Finite qx ->
  Ray.verticalMarch this fuel = Ret v -> on_grid_line v.1.
Proof.
  intros Hx Hrun. unfold Ray.verticalMarch in Hrun.
  assert (Hinv : forall s s' : num * num,
            (exists k : Z, s.1 = ofZ (50 * k)) ->
            Ray.verticalBody this s = Ret (inl s') ->
            exists k : Z, s'.1 = ofZ (50 * k)).
  { intros [x1 y1] [x2 y2] [k Hk] Hstep. cbn [fst] in *. subst x1.
    unfold Ray.verticalBody in Hstep.
    destruct (Ray.outside this _ _); [discriminate|].
    destruct (hasCollision _ _ _) as [[|]| |]; simpl in Hstep; try discriminate.
    injection Hstep as <- _. rewrite vStepX_axisStep. apply next_line. }
  assert (Hinit : exists k : Z,
            (Ray.vIntersectionX this, Ray.vIntersectionY this).1 = ofZ (50 * k)).
  { cbn [fst]. unfold Ray.vIntersectionX. rewrite Hx.
    exact (first_line qx (negb (Ray.isFacingLeft this))). }
  destruct (while_exit _ _ fuel _ v Hinv Hinit Hrun)
    as ([nextX nextY] & [k Hk] & Hlast).
  cbn [fst] in Hk. subst nextX. unfold Ray.verticalBody in Hlast.
  destruct (Ray.outside this _ _); [injection Hlast as <-; now left|].
  destruct (hasCollision _ _ _) as [[|]| |]; simpl in Hlast; try discriminate.
  injection Hlast as <-. right. now exists k.
Qed.

End GridLineFacts.

(** X20. For a ray that starts at a finite point, [cast] returns, and the
    crossings it records lie on the grid: the [y] of the horizontal
    crossing is a multiple of the tile size, or [Infinity] when the march
    left the map, and so is the [x] of the vertical crossing; the hit point
    it records is one of the two crossings. *)
Theorem cast_crossings_on_grid `{MathLib} (this : Ray.t) (fuel : nat)
    (zBuffer : gmap Z num) (qx qy : Q) :
  level_ok (Ray.gameLevel this) ->
  (marchBound (Ray.gameLevel this) <= fuel)%nat ->
  Ray.x this = Finite qx -> Ray.y this = Finite qy ->
  exists this' zBuffer',
    Ray.cast this fuel zBuffer = Ret (this', zBuffer') /\
    on_grid_line (Ray.horizontalWallHitY this') /\
    on_grid_line (Ray.verticalWallHitX this') /\
    ((Ray.wallHitX this', Ray.wallHitY this') =
       (Ray.horizontalWallHitX this', Ray.horizontalWallHitY this') \/
     (Ray.wallHitX this', Ray.wallHitY this') =
       (Ray.verticalWallHitX this', Ray.verticalWallHitY this')).
Proof.
  intros Hok Hfuel Hx Hy.
  destruct (cast_spec this Hok fuel zBuffer Hfuel)
    as (h & v & this' & Hh & _ & Hv & _ & Hch & Hcast).
  eexists _, _. split; [exact Hcast|].
  pose proof (horizontalMarch_line this fuel h qy Hy Hh) as Hline.
  pose proof (verticalMarch_line this fuel v qx Hx Hv) as Hcol.
  destruct h as [hx hy], v as [vx vy]. unfold Ray.choose in Hch.
  destruct (_ <? _)%num in Hch;
    destruct (getTileValue _ _ _) in Hch; simpl in Hch; try discriminate;
    injection Hch as <-; cbn; auto.
Qed.

Lemma cast_crossings_on_grid_witness :
  exists this' zBuffer',
    @Ray.cast RationalMath.lib roomRay (marchBound roomLevel) ∅ = Ret (this', zBuffer') /\
    on_grid_line (Ray.horizontalWallHitY this') /\
    on_grid_line (Ray.verticalWallHitX this') /\
    ((Ray.wallHitX this', Ray.wallHitY this') =
       (Ray.horizontalWallHitX this', Ray.horizontalWallHitY this') \/
     (Ray.wallHitX this', Ray.wallHitY this') =
       (Ray.verticalWallHitX this', Ray.verticalWallHitY this')).
Proof.
  exact (@cast_crossings_on_grid RationalMath.lib roomRay (marchBound roomLevel) ∅
           75 75 eq_refl (le_n _) eq_refl eq_refl).
Defined.

(** * The calls of a sprite ([js/Sprite.js]) *)

Section SpriteCallFacts.

Lemma while_no_throw {S R : Type} (body : S -> outcome (S + R)) (fuel : nat) (s : S) :
  (forall s, body s <> Throw) -> while fuel body s <> Throw.
Proof.
  intros Hbody. revert s. induction fuel as [|fuel IH]; intros s; [discriminate|].
  rewrite while_S. specialize (Hbody s).
  destruct (body s) as [[s'|r]| |]; simpl; [apply IH | discriminate | contradiction
                                           | discriminate].
Qed.

Lemma columnBody_no_throw (zBuffer : gmap Z num) (p : Sprite.Projection)
    (s : num * list canvasOp) :
  Sprite.columnBody zBuffer p s <> Throw.
Proof.
  destruct s as [column ops]. unfold Sprite.columnBody.
  destruct (negb _); [discriminate|]. destruct (_ || _); [discriminate|].
  destruct (_ >? _)%num; discriminate.
Qed.

Lemma drawColumns_strips (zBuffer : gmap Z num) (p : Sprite.Projection) (fuel : nat)
    (start : num) (ops : list canvasOp) :
  Sprite.drawColumns zBuffer p fuel start = Ret ops -> Forall is_strip ops.
Proof.
  unfold Sprite.drawColumns. intros Hrun.
  assert (Hinv : forall s s' : num * list canvasOp,
            Forall is_strip s.2 ->
            Sprite.columnBody zBuffer p s = Ret (inl s') -> Forall is_strip s'.2).
  { intros [column calls] [column' calls'] Hcalls Hstep. cbn [snd] in *.
    unfold Sprite.columnBody in Hstep.
    destruct (negb _); [discriminate|].
    destruct (_ || _); [injection Hstep as _ <-; assumption|].
    destruct (_ >? _)%num; injection Hstep as _ <-; [|assumption].
    apply Forall_app. split; [assumption|]. constructor; [|constructor].
    unfold is_strip, Sprite.strip. eauto 10. }
  destruct (while_exit _ (fun s => Forall is_strip s.2) fuel (start, []) ops Hinv
              (Forall_nil_2 _) Hrun)
    as ([column calls] & Hcalls & Hlast).
  cbn [snd] in Hcalls. unfold Sprite.columnBody in Hlast.
  destruct (negb _); [injection Hlast as <-; assumption|].
  destruct (_ || _); [discriminate|]. destruct (_ >? _)%num; discriminate.
Qed.

End SpriteCallFacts.

(** X21. [Sprite.draw] never throws, and when it returns it has made no
    call at all, or, for a visible sprite in the 3D view, the calls that
    turn the smoothing off, save the state of the context and set the
    alpha to the brightness at the distance of the sprite, then strips of
    one column of the image of the sprite and nothing else, then the call
    that restores the state: every [save] is followed by its [restore]. *)
Theorem Sprite_draw_calls `{MathLib} (fuel : nat) (player : option Player.t)
    (renderMode : num) (cfg : LightConfig) (this : Sprite.t) (zBuffer : gmap Z num) :
  Sprite.draw fuel player renderMode cfg this zBuffer <> Throw /\
  forall this' zBuffer' ops,
    Sprite.draw fuel player renderMode cfg this zBuffer = Ret (this', zBuffer', ops) ->
    ops = [] \/
    (Sprite.visible this = true /\ (renderMode === zero)%num = true /\
     exists strips,
       ops = [set_imageSmoothingEnabled false; save;
              set_globalAlpha (Sprite.brightness cfg (Sprite.distanceToPlayer this'))]
             ++ strips ++ [restore] /\
       Forall is_strip strips).
Proof.
  unfold Sprite.draw.
  destruct (Sprite.visible this) eqn:Hvis; cbn [negb];
    [|split; [discriminate | intros ? ? ? [= _ _ <-]; now left]].
  destruct (Sprite.calculateRenderData player this) as [this1 isInFOV].
  destruct (negb isInFOV);
    [split; [discriminate | intros ? ? ? [= _ _ <-]; now left]|].
  destruct (Sprite.image this1) as [image|];
    [|split; [discriminate | intros ? ? ? [= _ _ <-]; now left]].
  destruct (renderMode === zero)%num eqn:Hmode; cbn [andb];
    [|split; [discriminate | intros ? ? ? [= _ _ <-]; now left]].
  destruct (_ && _);
    [|split; [discriminate | intros ? ? ? [= _ _ <-]; now left]].
  destruct (_ <=? _)%num;
    [split; [discriminate | intros ? ? ? [= _ _ <-]; now left]|].
  match goal with
  | |- context [Sprite.drawColumns ?zb ?p ?f ?start] =>
      pose proof (drawColumns_strips zb p f start) as Hstrips;
      pose proof (while_no_throw (Sprite.columnBody zb p) f (start, [])
                    (columnBody_no_throw zb p)) as Hthrow;
      fold (Sprite.drawColumns zb p f start) in Hthrow;
      destruct (Sprite.drawColumns zb p f start) as [strips| |]
  end; cbn [obind].
  - split; [discriminate|]. intros ? ? ? [= <- _ <-]. right.
    split; [reflexivity|]. split; [reflexivity|]. exists strips.
    split; [reflexivity | now apply Hstrips].
  - contradiction.
  - split; [discriminate|]. discriminate.
Qed.

(** * Places to start from ([js/main.js]) *)

Section SpotFacts.

(** A loop over the integers from [start] on keeps its invariant, also
    when its bound is not above its start. *)
Lemma for_loop_invariant_max {S : Type} (body : Z -> S -> outcome S)
    (P : Z -> S -> Prop) (n : Z) (fuel : nat) (start : Z) (s : S) :
  (Z.to_nat (n - start) < fuel)%nat -> P start s ->
  (forall i s, start <= i < n -> P i s -> exists s', body i s = Ret s' /\ P (i + 1) s') ->
  exists s', for_loop fuel start (ofZ n) body s = Ret s' /\ P (Z.max start n) s'.
Proof.
  intros Hfuel HP Hbody. destruct (Z_lt_le_dec start n) as [Hlt | Hge].
  - rewrite Z.max_r by lia. apply for_loop_invariant; try assumption; lia.
  - rewrite Z.max_l by lia. destruct fuel as [|fuel]; [lia|].
    rewrite for_loop_empty by lia. eauto.
Qed.

Lemma randomIndex_spec (q : Q) (len : nat) :
  (0 <= q)%Q -> (q < 1)%Q -> (0 < len)%nat ->
  exists k : Z,
    floor (Finite q * ofZ (Z.of_nat len))%num = ofZ k /\ 0 <= k < Z.of_nat len.
Proof.
  intros Hq0 Hq1 Hlen. unfold ofZ at 1. rewrite mul_finite, floor_fin.
  eexists. split; [reflexivity|].
  assert (Hpos : (0 < inject_Z (Z.of_nat len))%Q).
  { change 0%Q with (inject_Z 0). rewrite <- Zlt_Qlt. lia. }
  apply Qfloor_range.
  - apply Qmult_le_0_compat; lra.
  - assert (E : (q * inject_Z (Z.of_nat len) < 1 * inject_Z (Z.of_nat len))%Q)
      by (apply Qmult_lt_compat_r; assumption).
    lra.
Qed.

Lemma splice_start_ofZ (k : Z) (len : nat) :
  0 <= k < Z.of_nat len -> splice_start (ofZ k) len = Z.to_nat k.
Proof.
  intros Hk. unfold splice_start, ofZ, Qtrunc. cbn [Qnum Qden inject_Z].
  rewrite Z.quot_1_r. destruct (Z.ltb_spec k 0); lia.
Qed.

Lemma splice1_inside {A : Type} (a : list A) (k : Z) :
  0 <= k < Z.of_nat (length a) ->
  exists x, a !! Z.to_nat k = Some x /\
    splice1 a (ofZ k) = (take (Z.to_nat k) a ++ drop (S (Z.to_nat k)) a, Some x) /\
    a ≡ₚ x :: (take (Z.to_nat k) a ++ drop (S (Z.to_nat k)) a).
Proof.
  intros Hk. destruct (lookup_lt_is_Some_2 a (Z.to_nat k)) as [x Hx]; [lia|].
  exists x. split; [exact Hx|]. split.
  - unfold splice1. rewrite splice_start_ofZ by assumption. now rewrite Hx.
  - rewrite <- (take_drop_middle a (Z.to_nat k) x Hx) at 1.
    symmetry. apply Permutation_middle.
Qed.

Variable random : nat -> num.
Hypothesis Hrandom : random_ok random.

(** The loop that draws the places. *)
Lemma select_loop (n : Z) (fuel : nat) (i : Z) (available spots : list (Z * Z)) :
  NoDup (spots ++ available) ->
  (Z.to_nat (n - i) < fuel)%nat -> 0 <= i <= Z.max 0 n -> length spots = Z.to_nat i ->
  exists result,
    while fuel (selectBody random (ofZ n)) (i, available, Some <$> spots) =
      Ret (Some <$> result) /\
    NoDup result /\
    (forall s, s ∈ result -> s ∈ spots ++ available) /\
    (length result <= Z.to_nat n)%nat /\
    (length result = Z.to_nat n \/ forall s, s ∈ spots ++ available -> s ∈ result).
Proof.
  revert i available spots.
  induction fuel as [|fuel IH]; intros i available spots Hnodup Hfuel Hi Hlen; [lia|].
  rewrite while_S. unfold selectBody at 1. rewrite lt_ofZ.
  destruct (Z.ltb_spec i n) as [Hlt | Hge]; cbn [andb].
  - destruct (Nat.ltb_spec 0 (length available)) as [Hsome | Hnone].
    + destruct (Hrandom (Z.to_nat i)) as (q & -> & Hq0 & Hq1).
      destruct (randomIndex_spec q (length available) Hq0 Hq1 Hsome) as (k & -> & Hk).
      destruct (splice1_inside available k Hk) as (x & _ & -> & Hperm).
      cbn [obind].
      set (rest := take (Z.to_nat k) available ++ drop (S (Z.to_nat k)) available) in *.
      assert (Hperm' : (spots ++ [x]) ++ rest ≡ₚ spots ++ available).
      { rewrite <- app_assoc. apply Permutation_app_head. cbn. now symmetry. }
      destruct (IH (i + 1) rest (spots ++ [x])) as (result & Hrun & Hnd & Hin & Hle & Hfull).
      * now rewrite Hperm'.
      * lia.
      * lia.
      * rewrite length_app. cbn. lia.
      * exists result. rewrite fmap_app in Hrun. split; [exact Hrun|].
        split; [exact Hnd|].
        split; [intros s Hs; rewrite <- Hperm'; now apply Hin|].
        split; [exact Hle|].
        destruct Hfull as [Hfull | Hfull]; [now left | right].
        intros s Hs. apply Hfull. now rewrite Hperm'.
    + exists spots. split; [reflexivity|].
      assert (available = []) as -> by (destruct available; [reflexivity | cbn in Hnone; lia]).
      rewrite app_nil_r in Hnodup |- *.
      split; [exact Hnodup|]. split; [auto|]. split; [lia | now right].
  - exists spots. split; [reflexivity|].
    split; [now apply NoDup_app in Hnodup as (Hnd & _ & _)|].
    split; [intros s Hs; apply elem_of_app; now left|].
    split; [lia | left; lia].
Qed.

End SpotFacts.

Section AvailableFacts.
Variable row0 : list Z.
Variable rows : list (list Z).
Variable occupiedCoords : list (num * num).

(** One tile of the loops that collect the empty spots. *)
Lemma available_tile (r c : Z) (available : list (Z * Z)) :
  1 <= r < Z.of_nat (length (row0 :: rows)) - 1 ->
  1 <= c < Z.of_nat (length row0) - 1 ->
  spots_upto (row0 :: rows) occupiedCoords (r, c) available ->
  exists available',
    match (row0 :: rows) !! Z.to_nat r with
    | None => Throw
    | Some row =>
        match row !! Z.to_nat c with
        | Some v =>
            if (v =? 0) && negb (isOccupied occupiedCoords r c)
            then Ret (available ++ [(r, c)])
            else Ret available
        | None => Ret available
        end
    end = Ret available' /\
    spots_upto (row0 :: rows) occupiedCoords (r, c + 1) available'.
Proof.
  intros Hr Hc (Hnodup & Hsound & Hcomplete).
  destruct (lookup_lt_is_Some_2 (row0 :: rows) (Z.to_nat r)) as [row Hrow]; [lia|].
  rewrite Hrow.
  assert (Hgrid : grid_at (row0 :: rows) c r = row !! Z.to_nat c)
    by (unfold grid_at; now rewrite Hrow).
  assert (Hkeep : forall s, spot_before s (r, c) -> spot_before s (r, c + 1))
    by (unfold spot_before; cbn; intros s Hs; lia).
  assert (Hsplit : forall s : Z * Z,
            spot_before s (r, c + 1) -> spot_before s (r, c) \/ s = (r, c)).
  { unfold spot_before. intros [sr sc]. cbn. intros Hs.
    destruct (Z.eq_dec sr r) as [-> | Hne]; [|left; lia].
    destruct (Z.eq_dec sc c) as [-> | Hne']; [now right | left; lia]. }
  assert (Hskip : ~ empty_spot (row0 :: rows) occupiedCoords (r, c) ->
            spots_upto (row0 :: rows) occupiedCoords (r, c + 1) available).
  { intros Hnot. split; [exact Hnodup|]. split.
    - intros s Hs. destruct (Hsound s Hs). auto.
    - intros s Hs Hbefore. destruct (Hsplit s Hbefore) as [Hb | ->];
        [now apply Hcomplete | contradiction]. }
  destruct (row !! Z.to_nat c) as [v|] eqn:Hv.
  - destruct (Z.eqb_spec v 0) as [-> | Hne]; cbn [andb].
    + destruct (isOccupied occupiedCoords r c) eqn:Hocc; cbn [negb].
      * exists available. split; [reflexivity|]. apply Hskip.
        intros (_ & _ & _ & Hfree). cbn in Hfree. congruence.
      * exists (available ++ [(r, c)]). split; [reflexivity|].
        assert (Hspot : empty_spot (row0 :: rows) occupiedCoords (r, c)).
        { split; [cbn [fst]; lia|]. split; [cbn; lia|]. cbn [fst snd]. now rewrite Hgrid. }
        split; [|split].
        -- apply NoDup_app. split; [exact Hnodup|]. split; [|apply NoDup_singleton].
           intros s Hs Hin. apply list_elem_of_singleton in Hin. subst s.
           destruct (Hsound _ Hs) as [_ Hb]. unfold spot_before in Hb. cbn in Hb. lia.
        -- intros s Hs. apply elem_of_app in Hs as [Hs | Hs].
           ++ destruct (Hsound s Hs). auto.
           ++ apply list_elem_of_singleton in Hs. subst s. split; [exact Hspot|].
              unfold spot_before. cbn. lia.
        -- intros s Hs Hbefore. apply elem_of_app.
           destruct (Hsplit s Hbefore) as [Hb | ->];
             [left; now apply Hcomplete | right; now apply list_elem_of_singleton].
    + exists available. split; [reflexivity|]. apply Hskip.
      intros (_ & _ & Hzero & _). cbn [fst snd] in Hzero. rewrite Hgrid in Hzero.
      congruence.
  - exists available. split; [reflexivity|]. apply Hskip.
    intros (_ & _ & Hzero & _). cbn [fst snd] in Hzero. rewrite Hgrid in Hzero.
    discriminate.
Qed.

Lemma available_row (fuel : nat) (r : Z) (available : list (Z * Z)) :
  (length row0 < fuel)%nat ->
  1 <= r < Z.of_nat (length (row0 :: rows)) - 1 ->
  spots_upto (row0 :: rows) occupiedCoords (r, 1) available ->
  exists available',
    for_loop fuel 1 (ofZ (Z.of_nat (length row0) - 1))
      (fun c available =>
         match (row0 :: rows) !! Z.to_nat r with
         | None => Throw
         | Some row =>
             match row !! Z.to_nat c with
             | Some v =>
                 if (v =? 0) && negb (isOccupied occupiedCoords r c)
                 then Ret (available ++ [(r, c)])
                 else Ret available
             | None => Ret available
             end
         end)
      available = Ret available' /\
    spots_upto (row0 :: rows) occupiedCoords (r + 1, 1) available'.
Proof.
  intros Hfuel Hr Hstart.
  destruct (for_loop_invariant_max
              (fun c available =>
                 match (row0 :: rows) !! Z.to_nat r with
                 | None => Throw
                 | Some row =>
                     match row !! Z.to_nat c with
                     | Some v =>
                         if (v =? 0) && negb (isOccupied occupiedCoords r c)
                         then Ret (available ++ [(r, c)])
                         else Ret available
                     | None => Ret available
                     end
                 end)
              (fun c available => spots_upto (row0 :: rows) occupiedCoords (r, c) available)
              (Z.of_nat (length row0) - 1) fuel 1 available)
    as (available' & Hrun & Hnodup & Hsound & Hcomplete).
  - lia.
  - exact Hstart.
  - intros c available0 Hc Hinv. now apply available_tile.
  - exists available'. split; [exact Hrun|]. split; [exact Hnodup|]. split.
    + intros s Hs. destruct (Hsound s Hs) as [Hspot Hb]. split; [exact Hspot|].
      unfold spot_before in *. cbn in *. lia.
    + intros s Hspot Hb. apply Hcomplete; [exact Hspot|].
      destruct Hspot as (_ & Hcol & _). cbn [lookup] in Hcol.
      change ((row0 :: rows) !! 0%nat) with (Some row0) in Hcol.
      unfold spot_before in *. cbn in *. lia.
Qed.

(** The loops that collect the empty spots return every empty spot of
    the layout, once. *)
Lemma available_all (fuel : nat) :
  (length row0 < fuel)%nat -> (length (row0 :: rows) < fuel)%nat ->
  exists available,
    for_loop fuel 1 (ofZ (Z.of_nat (length (row0 :: rows)) - 1))
      (fun r available =>
         for_loop fuel 1 (ofZ (Z.of_nat (length row0) - 1))
           (fun c available =>
              match (row0 :: rows) !! Z.to_nat r with
              | None => Throw
              | Some row =>
                  match row !! Z.to_nat c with
                  | Some v =>
                      if (v =? 0) && negb (isOccupied occupiedCoords r c)
                      then Ret (available ++ [(r, c)])
                      else Ret available
                  | None => Ret available
                  end
              end)
           available)
      [] = Ret available /\
    NoDup available /\
    (forall s, s ∈ available <-> empty_spot (row0 :: rows) occupiedCoords s).
Proof.
  intros Hfuel0 Hfuel.
  destruct (for_loop_invariant_max
              (fun r available =>
                 for_loop fuel 1 (ofZ (Z.of_nat (length row0) - 1))
                   (fun c available =>
                      match (row0 :: rows) !! Z.to_nat r with
                      | None => Throw
                      | Some row =>
                          match row !! Z.to_nat c with
                          | Some v =>
                              if (v =? 0) && negb (isOccupied occupiedCoords r c)
                              then Ret (available ++ [(r, c)])
                              else Ret available
                          | None => Ret available
                          end
                      end)
                   available)
              (fun r available => spots_upto (row0 :: rows) occupiedCoords (r, 1) available)
              (Z.of_nat (length (row0 :: rows)) - 1) fuel 1 [])
    as (available & Hrun & Hnodup & Hsound & Hcomplete).
  - lia.
  - split; [constructor|]. split.
    + intros s Hs. now apply elem_of_nil in Hs.
    + intros s (Hrow & [Hcol _] & _) Hb. unfold spot_before in Hb. cbn in Hb. lia.
  - intros r available0 Hr Hinv. now apply available_row.
  - exists available. split; [exact Hrun|]. split; [exact Hnodup|].
    intros s. split; [intros Hs; now destruct (Hsound s Hs)|].
    intros Hspot. apply Hcomplete; [exact Hspot|].
    destruct Hspot as (Hrow & _). unfold spot_before. cbn [fst snd]. lia.
Qed.

End AvailableFacts.

(** X22. For a layout with a first row that is not empty, a whole
    quantity and random numbers from [0] up to [1],
    [findRandomEmptySpotCoordinates] returns places that are all
    different, none of them [undefined]; each is a tile that is not on the
    border of the layout, holds [0] and is not among the occupied ones.
    It returns at most the quantity asked for, and fewer only when it has
    returned every such tile of the layout. *)
Theorem findRandomEmptySpotCoordinates_spots (fuel : nat) (random : nat -> num)
    (row0 : list Z) (rows : list (list Z)) (n : Z) (occupiedCoords : list (num * num)) :
  random_ok random -> row0 <> [] ->
  (length row0 < fuel)%nat -> (length (row0 :: rows) < fuel)%nat ->
  (Z.to_nat n < fuel)%nat ->
  exists spots : list (Z * Z),
    findRandomEmptySpotCoordinates fuel random (row0 :: rows) (ofZ n) occupiedCoords =
      Ret (Some <$> spots) /\
    NoDup spots /\
    (forall s, s ∈ spots -> empty_spot (row0 :: rows) occupiedCoords s) /\
    (length spots <= Z.to_nat n)%nat /\
    (length spots = Z.to_nat n \/
     forall s, empty_spot (row0 :: rows) occupiedCoords s -> s ∈ spots).
Proof.
  intros Hrandom Hrow0 Hfuel0 Hfuel Hn.
  unfold findRandomEmptySpotCoordinates.
  destruct (Nat.eqb_spec (length row0) 0) as [Hzero | _];
    [destruct row0; [contradiction | discriminate]|].
  destruct (available_all row0 rows occupiedCoords fuel Hfuel0 Hfuel)
    as (available & -> & Hnodup & Hall).
  cbn [obind].
  destruct (select_loop random Hrandom n fuel 0 available [])
    as (spots & Hrun & Hnd & Hin & Hle & Hfull).
  - exact Hnodup.
  - rewrite Z.sub_0_r. exact Hn.
  - lia.
  - reflexivity.
  - exists spots. split; [exact Hrun|]. split; [exact Hnd|].
    split; [intros s Hs; apply Hall; now apply Hin|].
    split; [exact Hle|].
    destruct Hfull as [Hfull | Hfull]; [now left | right].
    intros s Hs. apply Hfull. now apply Hall.
Qed.

Lemma findRandomEmptySpotCoordinates_spots_witness :
  exists spots : list (Z * Z),
    findRandomEmptySpotCoordinates 16 halves (room 15 10) (ofZ 3) [(ofZ 1, ofZ 1)] =
      Ret (Some <$> spots) /\
    NoDup spots /\
    (forall s, s ∈ spots -> empty_spot (room 15 10) [(ofZ 1, ofZ 1)] s) /\
    length spots = 3%nat.
Proof.
  destruct (findRandomEmptySpotCoordinates_spots 16 halves
              ((fun i : nat =>
                  if (i =? 0)%nat || (i =? 15 - 1)%nat || (0 =? 0)%nat || (0 =? 10 - 1)%nat
                  then 1 else 0) <$> seq 0 15)
              ((fun j : nat =>
                  (fun i : nat =>
                     if (i =? 0)%nat || (i =? 15 - 1)%nat || (j =? 0)%nat
                        || (j =? 10 - 1)%nat
                     then 1 else 0) <$> seq 0 15) <$> seq 1 9)
              3 [(ofZ 1, ofZ 1)])
    as (spots & Hrun & Hnd & Hin & Hle & _).
  - intros k. exists (1 # 2). split; [reflexivity|]. split; [discriminate | reflexivity].
  - discriminate.
  - vm_compute. lia.
  - vm_compute. lia.
  - vm_compute. lia.
  - exists spots. split; [exact Hrun|]. split; [exact Hnd|]. split; [exact Hin|].
    assert (E : findRandomEmptySpotCoordinates 16 halves (room 15 10) (ofZ 3)
                  [(ofZ 1, ofZ 1)] = Ret (Some <$> [(5, 1); (5, 2); (4, 13)]))
      by (vm_compute; reflexivity).
    assert (E' : findRandomEmptySpotCoordinates 16 halves (room 15 10) (ofZ 3)
                   [(ofZ 1, ofZ 1)] = Ret (Some <$> spots)) by exact Hrun.
    rewrite E in E'. injection E' as E'.
    apply (f_equal length) in E'. rewrite !length_fmap in E'. now rewrite <- E'.
Defined.

(** * The player over any number of calls ([js/player.js]) *)

Section PlayerRunFacts.
Context `{MathLib} `{MathSin}.
Variable lvl : Level.
Hypothesis Hok : level_ok lvl.
Hypothesis Htw : tileWidth lvl = tileSize.
Hypothesis Hth : tileHeight lvl = tileSize.

Lemma turned_angle (r : Q) (k : Z) :
  exists r' : Q,
    normalizeAngle (Finite r + ofZ k * degreesToRadians (ofZ 2))%num = Finite r' /\
    (0 <= r')%Q /\ (r' <= TWO_PI)%Q.
Proof.
  assert (Hspeed : exists s : Q, degreesToRadians (ofZ 2) = Finite s)
    by (eexists; reflexivity).
  destruct Hspeed as [s ->]. unfold ofZ. rewrite mul_finite. unfold fin.
  rewrite add_finite. unfold fin.
  destruct (normalizeAngle_finite (Qred (r + Qred (inject_Z k * s))))
    as (r' & _ & -> & Hr0 & Hrt & _).
  exists (Qred r'). split; [reflexivity|]. rewrite !Qred_correct. auto.
Qed.

Lemma player_ok_inputs (p : PlayerClass.t) (k : Z) :
  player_ok lvl p -> -1 <= k <= 1 ->
  player_ok lvl (set_movementInput p (ofZ k)) /\
  player_ok lvl (set_rotationInput p (ofZ k)).
Proof.
  intros (Hlvl & Hfree & Hangle & Hspeed & Hinput & Hcount & Hfan) Hk.
  split; (split; [exact Hlvl|]); (split; [exact Hfree|]); (split; [exact Hangle|]);
    (split; [exact Hspeed|]); (split; [|split; [exact Hcount | exact Hfan]]).
  - exact Hinput.
  - now exists k.
Qed.

Lemma player_ok_takeDamage (p : PlayerClass.t) (amount : num) :
  player_ok lvl p -> player_ok lvl (PlayerClass.takeDamage p amount).
Proof.
  intros Hp. unfold PlayerClass.takeDamage.
  destruct (_ <=? _)%num; [exact Hp|].
  destruct (_ <=? _)%num; exact Hp.
Qed.

Lemma player_ok_update (fuel : nat) (sprites : list Sprite.t) (p p' : PlayerClass.t)
    (sprites' : list Sprite.t) :
  player_ok lvl p -> (500 < fuel)%nat ->
  PlayerClass.update fuel sprites p = Ret (p', sprites') -> player_ok lvl p'.
Proof.
  intros (Hlvl & Hfree & (r & Hr & _) & Hspeed & (k & Hk & Hkb) & Hfan) Hfuel Hrun.
  subst lvl.
  destruct (update_spec fuel sprites p Hok Htw Hth Hfan Hfuel)
    as (b & q & out & rays' & Hplace & Hfold & Hrun' & Hin & _).
  rewrite Hrun' in Hrun. injection Hrun as <- _.
  match type of Hfold with
  | foldr _ (?start, _) _ = _ =>
      destruct (pickUp_fold start sprites)
        as (q0 & out0 & Hfold0
            & (Hl & Hx & Hy & _ & Hri & Hrot & Hrs & _ & Hnum & _) & _)
  end.
  assert (q0 = q) as -> by congruence.
  cbn [PlayerClass.set_rotationAngle PlayerClass.gameLevel PlayerClass.x PlayerClass.y
       PlayerClass.rotationInput PlayerClass.rotationAngle PlayerClass.rotationSpeed
       PlayerClass.numberOfRays] in Hl, Hx, Hy, Hri, Hrot, Hrs, Hnum.
  unfold player_ok.
  cbn [PlayerClass.set_rays PlayerClass.gameLevel PlayerClass.x PlayerClass.y
       PlayerClass.rotationInput PlayerClass.rotationAngle PlayerClass.rotationSpeed].
  rewrite Hl, Hx, Hy, Hri, Hrot, Hrs.
  split; [now destruct b|].
  split.
  { destruct b; cbn; [exact Hfree | now apply Hplace]. }
  split; [rewrite Hr, Hk, Hspeed; apply turned_angle|].
  split; [destruct b; exact Hspeed|].
  split; [exists k; destruct b; split; assumption|].
  destruct Hfan as [Hcount Hrays]. split.
  - cbn. rewrite Hnum. now destruct b.
  - intros i Hi. destruct (Hin i Hi) as (ray & Hray & Hray').
    destruct (Hrays i Hi) as (ray0 & Hray0 & Hcol & Hl0).
    assert (ray0 = ray) as -> by congruence.
    eexists. split; [exact Hray'|]. cbn. split; [exact Hcol|].
    rewrite Hl0, Hl. now destruct b.
Qed.

Lemma player_ok_draw (fuel : nat) (renderMode : num) (cfg : LightConfig)
    (p p' : PlayerClass.t) (zBuffer zBuffer' : gmap Z num) (ops : list paintOp) :
  player_ok lvl p -> (500 < fuel)%nat ->
  (marchBound (PlayerClass.gameLevel p) <= fuel)%nat ->
  PlayerClass.draw fuel renderMode cfg p zBuffer = Ret (p', zBuffer', ops) ->
  player_ok lvl p'.
Proof.
  intros (Hlvl & Hfree & Hangle & Hspeed & Hinput & Hfan) Hfuel Hmarch Hrun.
  subst lvl.
  destruct (draw_rays fuel renderMode cfg p zBuffer Hok Hfan Hfuel Hmarch)
    as (rays' & zb' & calls & Hloop & Hall & _).
  unfold PlayerClass.draw in Hrun. rewrite Hloop in Hrun. cbn [obind] in Hrun.
  assert (E : p' = PlayerClass.set_rays p rays')
    by (destruct (renderMode === one)%num; now injection Hrun as <- _ _).
  subst p'. unfold player_ok. cbn. repeat split; try assumption; try apply Hfan.
  intros i Hi. destruct (Hall i Hi) as (ray & Hray & Hcol & Hl & _). eauto.
Qed.

Lemma player_ok_call (p p' : PlayerClass.t) :
  player_ok lvl p -> playerCall p p' -> player_ok lvl p'.
Proof.
  intros Hp Hcall. destruct Hcall.
  - apply (player_ok_inputs p 1 Hp). lia.
  - apply (player_ok_inputs p (-1) Hp). lia.
  - apply (player_ok_inputs p 1 Hp). lia.
  - apply (player_ok_inputs p (-1) Hp). lia.
  - apply (player_ok_inputs p 0 Hp). lia.
  - apply (player_ok_inputs p 0 Hp). lia.
  - now apply player_ok_takeDamage.
  - eapply player_ok_update; eassumption.
  - eapply player_ok_draw; eassumption.
Qed.

End PlayerRunFacts.

(** X23. A player built by the constructor on a free place of a level made
    of tiles of the tile size stays on a free place of that level, keeps a
    fan of 500 rays and keeps its rotation angle from zero to the full
    turn [2 * Math.PI], both included, through every sequence of calls of
    its methods: the six methods of the keys, [takeDamage], [update] with
    any sprites, and [draw] in any view; and in every such state [update]
    returns.  Whatever the keys, the player never stands on a wall or off
    the map. *)
Theorem Player_never_in_wall `{MathLib} `{MathSin} (fuel : nat) (lvl : Level)
    (x y : num) :
  level_ok lvl -> tileWidth lvl = tileSize -> tileHeight lvl = tileSize ->
  free_place lvl x y -> (500 < fuel)%nat ->
  exists p0,
    PlayerClass.new fuel lvl x y = Ret p0 /\
    forall p, rtc playerCall p0 p ->
      PlayerClass.gameLevel p = lvl /\
      free_place lvl (PlayerClass.x p) (PlayerClass.y p) /\
      fan_ok p /\
      (exists r : Q,
         PlayerClass.rotationAngle p = Finite r /\ (0 <= r)%Q /\ (r <= TWO_PI)%Q) /\
      forall fuel' sprites, (500 < fuel')%nat ->
        exists p' sprites', PlayerClass.update fuel' sprites p = Ret (p', sprites').
Proof.
  intros Hok Htw Hth Hfree Hfuel.
  destruct (new_spec fuel lvl x y Hfuel) as (rays & Hnew & Hin & _).
  eexists. split; [exact Hnew|].
  match type of Hnew with _ = Ret ?start => set (p0 := start) in * end.
  assert (Hstart : player_ok lvl p0).
  { split; [reflexivity|]. split; [exact Hfree|].
    split; [exists 0%Q; split; [reflexivity|]; split; [lra | discriminate]|].
    split; [reflexivity|]. split; [exists 0; split; [reflexivity | lia]|].
    split; [reflexivity|]. intros i Hi. cbn.
    eexists. split; [exact (Hin i Hi)|]. split; reflexivity. }
  clear Hnew. clearbody p0.
  intros p Hrun. induction Hrun as [p | p1 p2 p3 Hcall _ IH].
  - destruct Hstart as (Hlvl & Hplace & Hangle & _ & _ & Hfan).
    split; [exact Hlvl|]. split; [exact Hplace|]. split; [exact Hfan|].
    split; [exact Hangle|]. intros fuel' sprites Hfuel'. subst lvl.
    destruct (update_spec fuel' sprites p Hok Htw Hth Hfan Hfuel')
      as (b & q & out & rays' & _ & _ & Hrun & _).
    eauto.
  - apply IH. eapply player_ok_call; eassumption.
Qed.

(** The player of the room takes the keys of the forward move and of the
    left turn, and [update] runs. *)
Lemma Player_never_in_wall_witness :
  exists p0 p' sprites',
    @PlayerClass.new DoubleMath.lib 501 roomLevel (ofZ 75) (ofZ 75) = Ret p0 /\
    @PlayerClass.update DoubleMath.lib doubleSin 501 roomPacks
      (startTurningLeft (startMovingForward p0)) = Ret (p', sprites') /\
    free_place roomLevel (PlayerClass.x p') (PlayerClass.y p') /\
    fan_ok p' /\
    exists r : Q,
      PlayerClass.rotationAngle p' = Finite r /\ (0 <= r)%Q /\ (r <= TWO_PI)%Q.
Proof.
  destruct (@Player_never_in_wall DoubleMath.lib doubleSin 501 roomLevel
              (ofZ 75) (ofZ 75) eq_refl eq_refl eq_refl)
    as (p0 & Hnew & Hkeep).
  - exists 75%Q, 75%Q. vm_compute. repeat split; discriminate.
  - lia.
  - assert (Hkeys : rtc (@playerCall DoubleMath.lib doubleSin) p0
                      (startTurningLeft (startMovingForward p0))).
    { eapply rtc_l; [apply call_startMovingForward|].
      apply rtc_once, call_startTurningLeft. }
    destruct (Hkeep _ Hkeys) as (_ & _ & _ & _ & Hupdate).
    destruct (Hupdate 501%nat roomPacks ltac:(lia)) as (p' & sprites' & Hrun).
    exists p0, p', sprites'. split; [exact Hnew|]. split; [exact Hrun|].
    destruct (Hkeep p') as (_ & Hplace & Hfan & Hangle & _); [|auto].
    eapply rtc_r; [exact Hkeys|].
    apply (@call_update DoubleMath.lib doubleSin _ 501%nat roomPacks p' sprites');
      [lia | exact Hrun].
Defined.

(** * Walls hide sprites ([js/player.js], [js/Sprite.js]) *)

Section HiddenFacts.
Context `{MathLib} `{MathSin}.

(** [draw] leaves on a ray what its cast leaves, whatever the depth buffer
    holds. *)
Lemma Ray_draw_cast (fuel : nat) (renderMode : num) (cfg : LightConfig)
    (this : Ray.t) (zBuffer : gmap Z num) :
  level_ok (Ray.gameLevel this) ->
  (marchBound (Ray.gameLevel this) <= fuel)%nat ->
  exists this' ops,
    Ray.draw fuel renderMode cfg this zBuffer =
      Ret (this', <[Ray.screenColumn this := Ray.directDistance this']> zBuffer, ops) /\
    Ray.cast this fuel ∅ =
      Ret (this', {[Ray.screenColumn this := Ray.directDistance this']}) /\
    Ray.screenColumn this' = Ray.screenColumn this /\
    Ray.gameLevel this' = Ray.gameLevel this.
Proof.
  intros Hok Hfuel.
  destruct (Ray_draw_spec fuel renderMode cfg this zBuffer Hok Hfuel)
    as (this' & ops & Hdraw & Hcol & Hlvl).
  destruct (cast_spec this Hok fuel zBuffer Hfuel)
    as (h & v & this1 & Eh & _ & Ev & _ & Hch & Hcast).
  destruct (cast_spec this Hok fuel ∅ Hfuel)
    as (h' & v' & this2 & Eh' & _ & Ev' & _ & Hch' & Hcast').
  assert (h' = h) as -> by congruence. assert (v' = v) as -> by congruence.
  assert (this2 = this1) as -> by congruence.
  assert (this1 = this') as ->.
  { unfold Ray.draw in Hdraw. rewrite Hcast in Hdraw. cbn [obind] in Hdraw.
    destruct (renderMode === zero)%num; [congruence|].
    destruct (_ || _); congruence. }
  exists this', ops. rewrite insert_empty in Hcast'. auto.
Qed.

(** The loop of [draw] over the rays, ray by ray. *)
Lemma draw_rays_cast (fuel : nat) (renderMode : num) (cfg : LightConfig)
    (p : PlayerClass.t) (zBuffer : gmap Z num) :
  level_ok (PlayerClass.gameLevel p) -> fan_ok p ->
  (500 < fuel)%nat -> (marchBound (PlayerClass.gameLevel p) <= fuel)%nat ->
  exists rays' zBuffer' ops,
    for_loop fuel 0 (PlayerClass.numberOfRays p)
      (fun i (st : gmap Z Ray.t * gmap Z num * list paintOp) =>
         let '(rays, zBuffer, ops) := st in
         match rays !! i with
         | None => Throw
         | Some ray =>
             let* (ray, zBuffer, calls) := Ray.draw fuel renderMode cfg ray zBuffer in
             Ret (<[i := ray]> rays, zBuffer, ops ++ (op <$> calls))
         end)
      (PlayerClass.rays p, zBuffer, []) = Ret (rays', zBuffer', ops) /\
    forall i, 0 <= i < 500 ->
      exists ray0 ray,
        PlayerClass.rays p !! i = Some ray0 /\ rays' !! i = Some ray /\
        Ray.cast ray0 fuel ∅ = Ret (ray, {[i := Ray.directDistance ray]}) /\
        zBuffer' !! i = Some (Ray.directDistance ray).
Proof.
  intros Hok [Hcount Hfan] Hfuel Hmarch. rewrite Hcount. unfold canvasWidth.
  destruct (for_loop_invariant
              (fun i (st : gmap Z Ray.t * gmap Z num * list paintOp) =>
                 let '(rays, zBuffer, ops) := st in
                 match rays !! i with
                 | None => Throw
                 | Some ray =>
                     let* (ray, zBuffer, calls) :=
                       Ray.draw fuel renderMode cfg ray zBuffer in
                     Ret (<[i := ray]> rays, zBuffer, ops ++ (op <$> calls))
                 end)
              (fun i st =>
                 (forall j, i <= j -> st.1.1 !! j = PlayerClass.rays p !! j) /\
                 (forall j, 0 <= j < i ->
                    exists ray0 ray,
                      PlayerClass.rays p !! j = Some ray0 /\ st.1.1 !! j = Some ray /\
                      Ray.cast ray0 fuel ∅ = Ret (ray, {[j := Ray.directDistance ray]}) /\
                      st.1.2 !! j = Some (Ray.directDistance ray)))
              500 fuel 0 (PlayerClass.rays p, zBuffer, []))
    as ([[rays' zBuffer'] ops] & Hrun & _ & Hdone).
  - lia.
  - simpl. lia.
  - split; [reflexivity | intros j Hj; lia].
  - intros i [[rays zb] ops] Hi (Hrest & Hdone). cbn [fst snd] in *.
    destruct (Hfan i Hi) as (ray0 & Hray0 & Hcol & Hlvl).
    rewrite (Hrest i (Z.le_refl _)), Hray0.
    destruct (Ray_draw_cast fuel renderMode cfg ray0 zb)
      as (ray' & calls & Hdraw & Hcast & _); [now rewrite Hlvl | now rewrite Hlvl|].
    rewrite Hdraw. cbn [obind]. eexists. split; [reflexivity|]. cbn [fst snd].
    rewrite Hcol in Hcast |- *. split.
    + intros j Hj. rewrite lookup_insert_ne by lia. apply Hrest. lia.
    + intros j Hj. destruct (Z.eq_dec j i) as [-> | Hne].
      * exists ray0, ray'. now rewrite !lookup_insert_eq.
      * rewrite !lookup_insert_ne by congruence. apply Hdone. lia.
  - exists rays', zBuffer', ops. split; [exact Hrun | exact Hdone].
Qed.

End HiddenFacts.


